(** * A concurrent chained hash table under three locking strategies

    Verification of the table logic of

    - [parallel_spin.c]: one spinlock per bucket                    ([Spin])
    - the read-write lock variant: one [pthread_rwlock_t] per bucket ([RWLock])
    - the two-level variant: bucket rwlock plus a mutex per entry    ([TwoLevel])

    The C code is embedded shallowly.  Memory is a finite map from non-null
    addresses to [bucket_entry] records, [table] is the array of bucket
    heads, lock words are explicit state, and every C function is a
    program in a state monad whose outcomes are: return, [exit], waiting
    forever, or undefined behaviour (out-of-bounds access, dangling
    pointer, unlocking a lock that is not held). *)

From Stdlib Require Import ZArith String Ascii.
From stdpp Require Import base option list gmap strings.
From stdpp Require Import pretty.

Open Scope Z_scope.

(** ** Data model *)

(** [#define NUM_BUCKETS 5] *)
Definition NUM_BUCKETS : Z := 5.

(** A pointer is either [NULL] ([None]) or a non-null address. *)
Abbreviation ptr := (option positive).

(** [struct bucket_entry].  The field [entry_mutex] only exists in the
    two-level variant; the other two variants instantiate [M] with [unit]. *)
Record bucket_entry (M : Type) := BucketEntry {
  key : Z;
  val : Z;
  next : ptr;
  entry_mutex : M
}.
Arguments BucketEntry {M} _ _ _ _.
Arguments key {M} _.
Arguments val {M} _.
Arguments next {M} _.
Arguments entry_mutex {M} _.

(** The globals of one process: the heap of allocated entries, the array
    [table[NUM_BUCKETS]], the array of per-bucket locks (of type [L]) and
    what has been printed so far. *)
Record process (L M : Type) := Process {
  heap : gmap positive (bucket_entry M);
  table : list ptr;
  bucket_locks : list L;
  stdout : list string
}.
Arguments Process {L M} _ _ _ _.
Arguments heap {L M} _.
Arguments table {L M} _.
Arguments bucket_locks {L M} _.
Arguments stdout {L M} _.

(** Assignment to one field of an entry. *)
Definition with_val {M} (v : Z) (e : bucket_entry M) : bucket_entry M :=
  BucketEntry (key e) v (next e) (entry_mutex e).
Definition with_mutex {M} (m : M) (e : bucket_entry M) : bucket_entry M :=
  BucketEntry (key e) (val e) (next e) m.

Definition set_heap {L M} (h : gmap positive (bucket_entry M)) (s : process L M) : process L M :=
  Process h (table s) (bucket_locks s) (stdout s).
Definition set_table {L M} (t : list ptr) (s : process L M) : process L M :=
  Process (heap s) t (bucket_locks s) (stdout s).
Definition set_locks {L M} (l : list L) (s : process L M) : process L M :=
  Process (heap s) (table s) l (stdout s).
Definition set_stdout {L M} (o : list string) (s : process L M) : process L M :=
  Process (heap s) (table s) (bucket_locks s) o.

(** ** Outcomes and the program monad *)

Inductive outcome (S A : Type) : Type :=
| Return (a : A) (s : S)       (* the function returns [a] *)
| Exit (status : Z) (s : S)    (* [exit(status)] was called *)
| Hang                         (* the thread never gets past a lock or a loop *)
| Undefined.                   (* undefined behaviour *)
Arguments Return {S A} _ _.
Arguments Exit {S A} _ _.
Arguments Hang {S A}.
Arguments Undefined {S A}.

Definition prog (L M A : Type) : Type := process L M → outcome (process L M) A.

Global Instance prog_ret {L M} : MRet (prog L M) := λ A a s, Return a s.
Global Instance prog_bind {L M} : MBind (prog L M) := λ A B f m s,
  match m s with
  | Return a s' => f a s'
  | Exit c s' => Exit c s'
  | Hang => Hang
  | Undefined => Undefined
  end.

(** [arr[i]] for a C [int] index: anything outside the array is undefined. *)
Definition index {A} (arr : list A) (i : Z) : option A :=
  if decide (0 ≤ i) then arr !! Z.to_nat i else None.

Section Primitives.
Context {L M : Type}.
Abbreviation prog := (prog L M).

Definition undefined {A} : prog A := λ _, Undefined.
Definition hang {A} : prog A := λ _, Hang.

(** [table[i]] *)
Definition get_table (i : Z) : prog ptr := λ s,
  match index (table s) i with
  | Some p => Return p s
  | None => Undefined
  end.

(** [table[i] = p] *)
Definition put_table (i : Z) (p : ptr) : prog unit := λ s,
  match index (table s) i with
  | Some _ => Return () (set_table (<[Z.to_nat i := p]> (table s)) s)
  | None => Undefined
  end.

(** Reading the fields of [*a]. *)
Definition load (a : positive) : prog (bucket_entry M) := λ s,
  match heap s !! a with
  | Some e => Return e s
  | None => Undefined
  end.

(** [a->val = v] *)
Definition store_val (a : positive) (v : Z) : prog unit := λ s,
  match heap s !! a with
  | Some _ => Return () (set_heap (alter (with_val v) a (heap s)) s)
  | None => Undefined
  end.

(** Writing every field of a block that [malloc] has just returned. *)
Definition init_entry (a : positive) (e : bucket_entry M) : prog unit := λ s,
  Return () (set_heap (<[a := e]> (heap s)) s).

(** [free(a)] *)
Definition free (a : positive) : prog unit := λ s,
  match heap s !! a with
  | Some _ => Return () (set_heap (delete a (heap s)) s)
  | None => Undefined
  end.

(** [void panic(char *msg) { printf("%s\n", msg); exit(1); }] *)
Definition panic {A} (msg : string) : prog A := λ s,
  Exit 1 (set_stdout (stdout s ++ [msg]) s).

(** [for (current = head; current != NULL; current = current->next) body]
    where [body] may [return] from the enclosing function ([Some x]) or
    fall through to the next iteration ([None]).  A chain that is still
    not exhausted after as many entries as the heap holds is cyclic:
    the C loop then runs forever. *)
Fixpoint for_chain {R} (fuel : nat) (current : ptr)
    (body : positive → prog (option R)) : prog (option R) :=
  match current with
  | None => mret None
  | Some a =>
      match fuel with
      | O => hang
      | S fuel' =>
          r ← body a;
          match r with
          | Some x => mret (Some x)
          | None => e ← load a; for_chain fuel' (next e) body
          end
      end
  end.

Definition for_each_entry {R} (head : ptr) (body : positive → prog (option R))
    : prog (option R) := λ s,
  for_chain (size (heap s)) head body s.
End Primitives.

(** [malloc]: the allocator decides, from the set of live blocks, whether
    the request fails ([NULL]) or which block it hands out. *)
Definition malloc {L M} (allocator : gset positive → ptr) : prog L M ptr := λ s,
  Return (allocator (dom (heap s))) s.

(** [int i = key % NUM_BUCKETS;]  C's [%] truncates towards zero. *)
Definition slot (k : Z) : Z := Z.rem k NUM_BUCKETS.

(** ** [parallel_spin.c]: one spinlock per bucket *)
Module Spin.
(** [pthread_spinlock_t]: [true] when held. *)
Abbreviation prog := (prog bool unit).

Definition pthread_spin_lock (i : Z) : prog unit := λ s,
  match index (bucket_locks s) i with
  | Some false => Return () (set_locks (<[Z.to_nat i := true]> (bucket_locks s)) s)
  | Some true => Hang
  | None => Undefined
  end.

Definition pthread_spin_unlock (i : Z) : prog unit := λ s,
  match index (bucket_locks s) i with
  | Some true => Return () (set_locks (<[Z.to_nat i := false]> (bucket_locks s)) s)
  | Some false => Undefined
  | None => Undefined
  end.

Section WithAllocator.
Variable allocator : gset positive → ptr.

Definition insert (k v : Z) : prog unit :=
  let i := slot k in
  pthread_spin_lock i;;
  head ← get_table i;
  r ← for_each_entry head (λ current,
         c ← load current;
         if decide (key c = k) then
           store_val current v;;
           pthread_spin_unlock i;;
           mret (Some ())
         else mret None);
  match r with
  | Some _ => mret ()
  | None =>
      e ← malloc allocator;
      match e with
      | None =>
          pthread_spin_unlock i;;
          panic "No memory to allocate bucket!"
      | Some e =>
          head ← get_table i;
          init_entry e (BucketEntry k v head ());;
          put_table i (Some e);;
          pthread_spin_unlock i
      end
  end.

Definition retrieve (k : Z) : prog ptr :=
  let i := slot k in
  pthread_spin_lock i;;
  head ← get_table i;
  r ← for_each_entry head (λ b,
         c ← load b;
         if decide (key c = k) then
           result ← malloc allocator;
           match result with
           | None =>
               pthread_spin_unlock i;;
               panic "No memory to allocate result!"
           | Some result =>
               init_entry result (BucketEntry (key c) (val c) None ());;
               pthread_spin_unlock i;;
               mret (Some (Some result))
           end
         else mret None);
  match r with
  | Some result => mret result
  | None =>
      pthread_spin_unlock i;;
      mret None
  end.
End WithAllocator.
End Spin.

(** ** [pthread_rwlock_t], used by the two other variants *)

Record rwlock := RwLock {
  readers : nat;     (* threads holding the lock in shared mode *)
  writer : bool      (* [true] when held in exclusive mode *)
}.

Section RwLockOps.
Context {M : Type}.
Abbreviation prog := (prog rwlock M).

Definition pthread_rwlock_rdlock (i : Z) : prog unit := λ s,
  match index (bucket_locks s) i with
  | Some l =>
      if writer l then Hang
      else Return () (set_locks (<[Z.to_nat i := RwLock (S (readers l)) false]> (bucket_locks s)) s)
  | None => Undefined
  end.

Definition pthread_rwlock_wrlock (i : Z) : prog unit := λ s,
  match index (bucket_locks s) i with
  | Some l =>
      if writer l then Hang
      else match readers l with
           | O => Return () (set_locks (<[Z.to_nat i := RwLock O true]> (bucket_locks s)) s)
           | S _ => Hang
           end
  | None => Undefined
  end.

Definition pthread_rwlock_unlock (i : Z) : prog unit := λ s,
  match index (bucket_locks s) i with
  | Some l =>
      if writer l then
        Return () (set_locks (<[Z.to_nat i := RwLock (readers l) false]> (bucket_locks s)) s)
      else match readers l with
           | S n => Return () (set_locks (<[Z.to_nat i := RwLock n false]> (bucket_locks s)) s)
           | O => Undefined
           end
  | None => Undefined
  end.
End RwLockOps.

(** ** The read-write lock variant: one rwlock per bucket *)
Module RWLock.
Abbreviation prog := (prog rwlock unit).

Section WithAllocator.
Variable allocator : gset positive → ptr.

Definition insert (k v : Z) : prog unit :=
  let i := slot k in
  pthread_rwlock_wrlock i;;
  head ← get_table i;
  r ← for_each_entry head (λ current,
         c ← load current;
         if decide (key c = k) then
           store_val current v;;
           pthread_rwlock_unlock i;;
           mret (Some ())
         else mret None);
  match r with
  | Some _ => mret ()
  | None =>
      e ← malloc allocator;
      match e with
      | None =>
          pthread_rwlock_unlock i;;
          panic "No memory to allocate bucket!"
      | Some e =>
          head ← get_table i;
          init_entry e (BucketEntry k v head ());;
          put_table i (Some e);;
          pthread_rwlock_unlock i
      end
  end.

Definition retrieve (k : Z) : prog ptr :=
  let i := slot k in
  pthread_rwlock_rdlock i;;
  head ← get_table i;
  r ← for_each_entry head (λ b,
         c ← load b;
         if decide (key c = k) then
           result ← malloc allocator;
           match result with
           | None =>
               pthread_rwlock_unlock i;;
               panic "No memory to allocate result!"
           | Some result =>
               init_entry result (BucketEntry (key c) (val c) None ());;
               pthread_rwlock_unlock i;;
               mret (Some (Some result))
           end
         else mret None);
  match r with
  | Some result => mret result
  | None =>
      pthread_rwlock_unlock i;;
      mret None
  end.
End WithAllocator.
End RWLock.

(** ** The two-level variant: bucket rwlock plus a mutex in every entry *)
Module TwoLevel.
(** [pthread_mutex_t entry_mutex]: [true] when held. *)
Abbreviation prog := (prog rwlock bool).

Definition pthread_mutex_lock (a : positive) : prog unit := λ s,
  match heap s !! a with
  | Some e =>
      if (entry_mutex e : bool) then Hang
      else Return () (set_heap (alter (with_mutex true) a (heap s)) s)
  | None => Undefined
  end.

Definition pthread_mutex_unlock (a : positive) : prog unit := λ s,
  match heap s !! a with
  | Some e =>
      if (entry_mutex e : bool) then
        Return () (set_heap (alter (with_mutex false) a (heap s)) s)
      else Undefined
  | None => Undefined
  end.

Section WithAllocator.
Variable allocator : gset positive → ptr.

(** The body shared by the two scans of [insert] (lines 44-51 and 60-66). *)
Definition update_if_match (i k v : Z) (current : positive) : prog (option unit) :=
  c ← load current;
  if decide (key c = k) then
    pthread_mutex_lock current;;
    store_val current v;;
    pthread_mutex_unlock current;;
    pthread_rwlock_unlock i;;
    mret (Some ())
  else mret None.

Definition insert (k v : Z) : prog unit :=
  let i := slot k in
  pthread_rwlock_rdlock i;;
  head ← get_table i;
  r ← for_each_entry head (update_if_match i k v);
  match r with
  | Some _ => mret ()
  | None =>
      pthread_rwlock_unlock i;;
      pthread_rwlock_wrlock i;;
      head ← get_table i;
      r ← for_each_entry head (update_if_match i k v);
      match r with
      | Some _ => mret ()
      | None =>
          e ← malloc allocator;
          match e with
          | None =>
              pthread_rwlock_unlock i;;
              panic "No memory to allocate bucket!"
          | Some e =>
              head ← get_table i;
              init_entry e (BucketEntry k v head false);;
              put_table i (Some e);;
              pthread_rwlock_unlock i
          end
      end
  end.

Definition retrieve (k : Z) : prog ptr :=
  let i := slot k in
  pthread_rwlock_rdlock i;;
  head ← get_table i;
  r ← for_each_entry head (λ b,
         c ← load b;
         if decide (key c = k) then
           pthread_mutex_lock b;;
           result ← malloc allocator;
           match result with
           | None =>
               pthread_mutex_unlock b;;
               pthread_rwlock_unlock i;;
               panic "No memory to allocate result!"
           | Some result =>
               c ← load b;
               init_entry result (BucketEntry (key c) (val c) None false);;
               pthread_mutex_unlock b;;
               pthread_rwlock_unlock i;;
               mret (Some (Some result))
           end
         else mret None);
  match r with
  | Some result => mret result
  | None =>
      pthread_rwlock_unlock i;;
      mret None
  end.
End WithAllocator.
End TwoLevel.

(** ** Reading a bucket's chain off the heap *)

(** One entry of a chain as seen from outside: where it lives and what it
    holds. *)
Record node := Node {
  node_addr : positive;
  node_key : Z;
  node_val : Z
}.

(** [is_chain h p l]: following [next] from [p] in [h] visits exactly the
    entries [l], in that order, and then reaches [NULL]. *)
Fixpoint is_chain {M} (h : gmap positive (bucket_entry M)) (p : ptr) (l : list node) : Prop :=
  match l with
  | [] => p = None
  | n :: l' =>
      p = Some (node_addr n) ∧
      ∃ e, h !! node_addr n = Some e ∧ key e = node_key n ∧ val e = node_val n ∧
           is_chain h (next e) l'
  end.

(** The first entry of a chain that holds key [k]: the one both loops stop at. *)
Fixpoint chain_find (k : Z) (l : list node) : option node :=
  match l with
  | [] => None
  | n :: l' => if decide (node_key n = k) then Some n else chain_find k l'
  end.

(** The chain after [a->val = v]. *)
Definition chain_store (a : positive) (v : Z) (l : list node) : list node :=
  (λ n, if decide (node_addr n = a) then Node a (node_key n) v else n) <$> l.

(** How many entries of a chain hold key [k]. *)
Definition chain_count (k : Z) (l : list node) : nat :=
  length (filter (λ n, node_key n = k) l).

(** [buckets s ls]: the table of [s] has [NUM_BUCKETS] well-formed chains,
    [ls] lists them by slot, and every entry sits in the bucket of its
    key's slot. *)
Record buckets {L M} (s : process L M) (ls : list (list node)) : Prop := Buckets {
  buckets_length : length ls = Z.to_nat NUM_BUCKETS;
  buckets_chain : Forall2 (is_chain (heap s)) (table s) ls;
  buckets_slot : ∀ i l n, ls !! i = Some l → n ∈ l → slot (node_key n) = Z.of_nat i
}.

(** No entry of the chain [l] has its mutex held: each is in the state
    [mutex0] that [pthread_mutex_init] leaves (the only state there is in
    the variants without entry mutexes). *)
Definition chain_unlocked {M} (mutex0 : M) (h : gmap positive (bucket_entry M))
    (l : list node) : Prop :=
  ∀ n e, n ∈ l → h !! node_addr n = Some e → entry_mutex e = mutex0.

(** A table at rest: every bucket lock is in its initial state [lock0] and
    no entry of any chain has its mutex held. *)
Definition idle {L M} (lock0 : L) (mutex0 : M) (s : process L M)
    (ls : list (list node)) : Prop :=
  bucket_locks s = replicate (Z.to_nat NUM_BUCKETS) lock0 ∧
  ∀ l, l ∈ ls → chain_unlocked mutex0 (heap s) l.

(** The state in which [main] starts the worker threads: [table] zeroed,
    every lock initialised. *)
Definition empty_table {L M} (lock0 : L) : process L M :=
  Process ∅ (replicate (Z.to_nat NUM_BUCKETS) None) (replicate (Z.to_nat NUM_BUCKETS) lock0) [].

(** ** What [insert] and [retrieve] do to the data

    The three variants differ in the locks they take; with the locks
    available, each of them is shown below to compute these two functions
    of the chain [l] that starts at [table[slot k]] (whose head is [p]). *)

(** If an entry with key [k] exists in the chain, its value is overwritten
    in place; otherwise a new entry is allocated and linked at the head of
    the chain.  A failed allocation is fatal. *)
Definition upsert {L M} (mutex0 : M) (allocator : gset positive → ptr)
    (k v : Z) (p : ptr) (l : list node) (s : process L M) : outcome (process L M) unit :=
  match chain_find k l with
  | Some n => Return () (set_heap (alter (with_val v) (node_addr n) (heap s)) s)
  | None =>
      match allocator (dom (heap s)) with
      | Some a =>
          Return () (set_table (<[Z.to_nat (slot k) := Some a]> (table s))
                       (set_heap (<[a := BucketEntry k v p mutex0]> (heap s)) s))
      | None => Exit 1 (set_stdout (stdout s ++ ["No memory to allocate bucket!"%string]) s)
      end
  end.

(** If an entry with key [k] exists in the chain, a new block receives a
    copy of its key and value, with [next = NULL]; otherwise the result is
    [NULL] and nothing changes.  A failed allocation is fatal. *)
Definition lookup {L M} (mutex0 : M) (allocator : gset positive → ptr)
    (k : Z) (l : list node) (s : process L M) : outcome (process L M) ptr :=
  match chain_find k l with
  | Some n =>
      match allocator (dom (heap s)) with
      | Some r =>
          Return (Some r)
            (set_heap (<[r := BucketEntry (node_key n) (node_val n) None mutex0]> (heap s)) s)
      | None => Exit 1 (set_stdout (stdout s ++ ["No memory to allocate result!"%string]) s)
      end
  | None => Return None s
  end.

(** ** Sequences of operations *)

(** One thread calling [insert] for each pair of [ops], in order. *)
Fixpoint insert_all {L M} (insert : Z → Z → prog L M unit) (ops : list (Z * Z)) : prog L M unit :=
  match ops with
  | [] => mret ()
  | (k, v) :: ops' => insert k v;; insert_all insert ops'
  end.

(** The value of the last insert of [k] in [ops], if there is one. *)
Fixpoint last_value (k : Z) (ops : list (Z * Z)) : option Z :=
  match ops with
  | [] => None
  | (k', v) :: ops' =>
      match last_value k ops' with
      | Some v' => Some v'
      | None => if decide (k' = k) then Some v else None
      end
  end.

(** The entry for [k] in a table whose chains are [ls]. *)
Definition table_find (ls : list (list node)) (k : Z) : option node :=
  l ← index ls (slot k); chain_find k l.

(** What a caller sees of a lookup whose answer is [r]: [NULL] for
    not-found, otherwise a fresh block holding [(k, v)]. *)
Definition answer {L M} (mutex0 : M) (allocator : gset positive → ptr)
    (k : Z) (r : option Z) (s : process L M) : outcome (process L M) ptr :=
  match r with
  | Some v =>
      match allocator (dom (heap s)) with
      | Some a => Return (Some a) (set_heap (<[a := BucketEntry k v None mutex0]> (heap s)) s)
      | None => Exit 1 (set_stdout (stdout s ++ ["No memory to allocate result!"%string]) s)
      end
  | None => Return None s
  end.

(** The invariant of a table between operations: well-formed chains, all
    locks at rest, and no chain holding the same key twice. *)
Definition consistent {L M} (lock0 : L) (mutex0 : M)
    (s : process L M) (ls : list (list node)) : Prop :=
  buckets s ls ∧ idle lock0 mutex0 s ls ∧ ∀ l, l ∈ ls → NoDup (node_key <$> l).

(** ** The three strategies behind one interface *)

Record strategy := Strategy {
  lock_t : Type;                 (* type of the per-bucket lock *)
  mutex_t : Type;                (* type of [entry_mutex] ([unit] when absent) *)
  lock_init : lock_t;            (* a bucket lock after its [..._init] *)
  mutex_init : mutex_t;          (* an entry mutex after [pthread_mutex_init] *)
  insert_of : (gset positive → ptr) → Z → Z → prog lock_t mutex_t unit;
  retrieve_of : (gset positive → ptr) → Z → prog lock_t mutex_t ptr
}.

Definition coarse : strategy :=
  Strategy bool unit false () Spin.insert Spin.retrieve.
Definition read_write : strategy :=
  Strategy rwlock unit (RwLock 0 false) () RWLock.insert RWLock.retrieve.
Definition two_level : strategy :=
  Strategy rwlock bool (RwLock 0 false) false TwoLevel.insert TwoLevel.retrieve.

Inductive implemented : strategy → Prop :=
| implemented_coarse : implemented coarse
| implemented_read_write : implemented read_write
| implemented_two_level : implemented two_level.

(** ** Two allocators to run the code with *)

(** Never fails: hands out an address that is not live. *)
Definition bump : gset positive → ptr := λ d, Some (fresh d).
(** Always fails. *)
Definition out_of_memory : gset positive → ptr := λ _, None.

(** ** A small table to run the code on

    The table after [insert(1, 10); insert(6, 20); insert(3, 5)] with the
    allocator [bump]: keys 1 and 6 share bucket 1, key 3 sits in bucket 3. *)
Definition example_table (V : strategy) : process (lock_t V) (mutex_t V) :=
  Process
    (<[3%positive := BucketEntry 3 5 None (mutex_init V)]>
       (<[2%positive := BucketEntry 6 20 (Some 1%positive) (mutex_init V)]>
          (<[1%positive := BucketEntry 1 10 None (mutex_init V)]> ∅)))
    [None; Some 2%positive; None; Some 3%positive; None]
    (replicate (Z.to_nat NUM_BUCKETS) (lock_init V))
    [].

Definition example_chains : list (list node) :=
  [[]; [Node 2 6 20; Node 1 1 10]; []; [Node 3 3 5]; []].

(** ** The two-level variant, one shared-memory access at a time

    To follow several threads through [insert] and [retrieve] of the
    two-level variant, both functions are cut into atomic steps: the lock
    calls, and the accesses to [table] and to entries.  A thread is at a
    control point [pc] that records where it is in the function and its
    locals; [step_of] runs the statement at that point on the shared
    state and gives the next control point.  A lock call that would block
    is [Hang]: the thread cannot take the step now.

    [key] and [next] of an entry are written before the entry is linked
    and never after, so the loop test reads both in one step.  The fields
    of a block that [malloc] has just returned are private to the thread
    until [table[i] = e]; what they hold before they are assigned is
    indeterminate in C and zero here, and none is read before it is
    assigned. *)
Module Interleaving.
Abbreviation prog := (prog rwlock bool).

(** [false]: the scan under the shared lock (lines 41-53);
    [true]: the scan under the exclusive lock (lines 56-67). *)
Abbreviation scan := bool.

Inductive pc : Type :=
| Idle                                           (* outside [insert] and [retrieve] *)
(* insert(key, val) *)
| I_rdlock (k v : Z)                             (* 41: pthread_rwlock_rdlock *)
| I_head (w : scan) (k v : Z)                    (* 43, 59: current = table[i] *)
| I_test (w : scan) (k v : Z) (current : ptr)    (* 43-44, 59-60: != NULL, ->key == key *)
| I_mutex_lock (w : scan) (k v : Z) (current : positive)    (* 46, 61 *)
| I_store (w : scan) (k v : Z) (current : positive)         (* 47, 62 *)
| I_mutex_unlock (w : scan) (k v : Z) (current : positive)  (* 48, 63 *)
| I_unlock_found (w : scan) (k v : Z)            (* 49, 64: unlock, return *)
| I_unlock_shared (k v : Z)                      (* 53 *)
| I_wrlock (k v : Z)                             (* 56 *)
| I_malloc (k v : Z)                             (* 70, 77-79 *)
| I_unlock_failed (k v : Z)                      (* 72 *)
| I_panic                                        (* 73 *)
| I_set_next (k v : Z) (e : positive)            (* 80: e->next = table[i] *)
| I_publish (k v : Z) (e : positive)             (* 81: table[i] = e *)
| I_unlock_linked (k v : Z)                      (* 83 *)
(* retrieve(key) *)
| R_rdlock (k : Z)                               (* 89 *)
| R_head (k : Z)                                 (* 92: b = table[i] *)
| R_test (k : Z) (b : ptr)                       (* 92-93 *)
| R_mutex_lock (k : Z) (b : positive)            (* 94 *)
| R_malloc (k : Z) (b : positive)                (* 95 *)
| R_mutex_unlock_failed (k : Z) (b : positive)   (* 97 *)
| R_unlock_failed (k : Z)                        (* 98 *)
| R_panic                                        (* 99 *)
| R_copy (k : Z) (b result : positive)           (* 102-105 *)
| R_mutex_unlock (k : Z) (b result : positive)   (* 107 *)
| R_unlock_found (k : Z) (result : positive)     (* 108: unlock, return result *)
| R_unlock_missing (k : Z).                      (* 113: unlock, return NULL *)

(** [e->next = p] on a block that is still private. *)
Definition set_next (e : positive) (p : ptr) : prog unit := λ s,
  match heap s !! e with
  | Some c =>
      Return () (set_heap (<[e := BucketEntry (key c) (val c) p (entry_mutex c)]> (heap s)) s)
  | None => Undefined
  end.

Section WithAllocator.
Variable allocator : gset positive → ptr.

Definition step_of (c : pc) : prog pc :=
  match c with
  | Idle => hang
  | I_rdlock k v =>
      pthread_rwlock_rdlock (slot k);; mret (I_head false k v)
  | I_head w k v =>
      current ← get_table (slot k); mret (I_test w k v current)
  | I_test w k v None =>
      mret (if w then I_malloc k v else I_unlock_shared k v)
  | I_test w k v (Some current) =>
      c ← load current;
      mret (if decide (key c = k) then I_mutex_lock w k v current
            else I_test w k v (next c))
  | I_mutex_lock w k v current =>
      TwoLevel.pthread_mutex_lock current;; mret (I_store w k v current)
  | I_store w k v current =>
      store_val current v;; mret (I_mutex_unlock w k v current)
  | I_mutex_unlock w k v current =>
      TwoLevel.pthread_mutex_unlock current;; mret (I_unlock_found w k v)
  | I_unlock_found w k v =>
      pthread_rwlock_unlock (slot k);; mret Idle
  | I_unlock_shared k v =>
      pthread_rwlock_unlock (slot k);; mret (I_wrlock k v)
  | I_wrlock k v =>
      pthread_rwlock_wrlock (slot k);; mret (I_head true k v)
  | I_malloc k v =>
      e ← malloc allocator;
      match e with
      | None => mret (I_unlock_failed k v)
      | Some e => init_entry e (BucketEntry k v None false);; mret (I_set_next k v e)
      end
  | I_unlock_failed k v =>
      pthread_rwlock_unlock (slot k);; mret I_panic
  | I_panic => panic "No memory to allocate bucket!"
  | I_set_next k v e =>
      head ← get_table (slot k); set_next e head;; mret (I_publish k v e)
  | I_publish k v e =>
      put_table (slot k) (Some e);; mret (I_unlock_linked k v)
  | I_unlock_linked k v =>
      pthread_rwlock_unlock (slot k);; mret Idle
  | R_rdlock k =>
      pthread_rwlock_rdlock (slot k);; mret (R_head k)
  | R_head k =>
      b ← get_table (slot k); mret (R_test k b)
  | R_test k None => mret (R_unlock_missing k)
  | R_test k (Some b) =>
      c ← load b;
      mret (if decide (key c = k) then R_mutex_lock k b else R_test k (next c))
  | R_mutex_lock k b =>
      TwoLevel.pthread_mutex_lock b;; mret (R_malloc k b)
  | R_malloc k b =>
      result ← malloc allocator;
      match result with
      | None => mret (R_mutex_unlock_failed k b)
      | Some result =>
          init_entry result (BucketEntry 0 0 None false);; mret (R_copy k b result)
      end
  | R_mutex_unlock_failed k b =>
      TwoLevel.pthread_mutex_unlock b;; mret (R_unlock_failed k)
  | R_unlock_failed k =>
      pthread_rwlock_unlock (slot k);; mret R_panic
  | R_panic => panic "No memory to allocate result!"
  | R_copy k b result =>
      c ← load b;
      init_entry result (BucketEntry (key c) (val c) None false);;
      mret (R_mutex_unlock k b result)
  | R_mutex_unlock k b result =>
      TwoLevel.pthread_mutex_unlock b;; mret (R_unlock_found k result)
  | R_unlock_found k result =>
      pthread_rwlock_unlock (slot k);; mret Idle
  | R_unlock_missing k =>
      pthread_rwlock_unlock (slot k);; mret Idle
  end.

(** What a worker thread still has to call. *)
Inductive call : Type :=
| Insert (k v : Z)
| Retrieve (k : Z).

Definition enter (c : call) : pc :=
  match c with
  | Insert k v => I_rdlock k v
  | Retrieve k => R_rdlock k
  end.

Record thread := Thread {
  at_pc : pc;
  todo : list call
}.

(** The whole process: running, gone through [exit], or crashed on
    undefined behaviour. *)
Inductive machine : Type :=
| Running (s : process rwlock bool) (ts : list thread)
| Exited (status : Z) (s : process rwlock bool)
| Crashed.

(** Thread [t] takes its next step, if it can: [None] when it is blocked
    on a lock, has nothing left to do, or does not exist. *)
Definition step (m : machine) (t : nat) : option machine :=
  match m with
  | Running s ts =>
      match ts !! t with
      | Some (Thread Idle (c :: rest)) =>
          Some (Running s (<[t := Thread (enter c) rest]> ts))
      | Some (Thread Idle []) => None
      | Some (Thread c rest) =>
          match step_of c s with
          | Return c' s' => Some (Running s' (<[t := Thread c' rest]> ts))
          | Exit status s' => Some (Exited status s')
          | Hang => None
          | Undefined => Some Crashed
          end
      | None => None
      end
  | _ => None
  end.

(** A schedule names the thread to run at each turn; a turn given to a
    thread that cannot move is lost. *)
Fixpoint run (schedule : list nat) (m : machine) : machine :=
  match schedule with
  | [] => m
  | t :: schedule' =>
      match step m t with
      | Some m' => run schedule' m'
      | None => run schedule' m
      end
  end.

(** The steps a schedule really takes: who moved, and from which control
    point. *)
Fixpoint trace (schedule : list nat) (m : machine) : list (nat * pc) :=
  match schedule with
  | [] => []
  | t :: schedule' =>
      match step m t with
      | Some m' =>
          match m with
          | Running _ ts =>
              match ts !! t with
              | Some th => (t, at_pc th) :: trace schedule' m'
              | None => trace schedule' m'
              end
          | _ => trace schedule' m'
          end
      | None => trace schedule' m
      end
  end.

Definition finished (th : thread) : Prop := at_pc th = Idle ∧ todo th = [].
End WithAllocator.

(** *** Locks as seen by one thread *)

Inductive lock_id : Type :=
| BucketLock (i : Z)
| EntryLock (a : positive).

Inductive lock_op : Type :=
| Acquire (l : lock_id)
| Release (l : lock_id).


Global Instance lock_id_eq_dec : EqDecision lock_id.
Proof. solve_decision. Defined.

Definition is_entry_lock (l : lock_id) : bool :=
  match l with EntryLock _ => true | BucketLock _ => false end.

(** The lock ordering discipline, checked at one lock call of a thread
    that holds [held]: a bucket lock is only taken while holding no entry
    lock; an entry lock is only taken while holding a bucket lock and no
    other entry lock. *)
Definition allowed (held : list lock_id) (o : lock_op) : bool :=
  match o with
  | Acquire (BucketLock _) => forallb (λ l, negb (is_entry_lock l)) held
  | Acquire (EntryLock _) =>
      existsb (λ l, negb (is_entry_lock l)) held && forallb (λ l, negb (is_entry_lock l)) held
  | Release _ => true
  end.

Definition after_op (held : list lock_id) (o : lock_op) : list lock_id :=
  match o with
  | Acquire l => l :: held
  | Release l => filter (λ l', l' ≠ l) held
  end.


End Interleaving.

(** *** The lock calls of a step, read off the state

    What a step did to the locks is seen in the shared state: a bucket
    lock has one more holder or one fewer, the mutex of an entry went from
    free to held or back. *)
Module Observed.
Import Interleaving.

Definition lock_change (i : Z) (l l' : rwlock) : list lock_op :=
  if (readers l <? readers l')%nat || (negb (writer l) && writer l')
  then [Acquire (BucketLock i)]
  else if (readers l' <? readers l)%nat || (writer l && negb (writer l'))
  then [Release (BucketLock i)]
  else [].

(** The bucket locks from index [i] on. *)
Fixpoint lock_diff (i : Z) (ls ls' : list rwlock) : list lock_op :=
  match ls, ls' with
  | l :: ls, l' :: ls' => lock_change i l l' ++ lock_diff (i + 1) ls ls'
  | _, _ => []
  end.

Definition mutex_change (a : positive) (m m' : bool) : option lock_op :=
  match m, m' with
  | false, true => Some (Acquire (EntryLock a))
  | true, false => Some (Release (EntryLock a))
  | _, _ => None
  end.

(** The mutexes of the blocks that are live before and after. *)
Definition mutex_diff (h h' : gmap positive (bucket_entry bool)) : list lock_op :=
  omap (λ ae, e' ← h' !! ae.1; mutex_change ae.1 (entry_mutex ae.2) (entry_mutex e'))
       (map_to_list h).

Definition lock_events (s s' : process rwlock bool) : list lock_op :=
  lock_diff 0 (bucket_locks s) (bucket_locks s') ++ mutex_diff (heap s) (heap s').

Definition events_between (m m' : machine) : list lock_op :=
  match m, m' with
  | Running s _, Running s' _ | Running s _, Exited _ s' => lock_events s s'
  | _, _ => []
  end.

Section WithAllocator.
Variable allocator : gset positive → ptr.

(** The steps a schedule takes: who moved, and what the step did to the
    locks. *)
Fixpoint lock_log (schedule : list nat) (m : machine) : list (nat * list lock_op) :=
  match schedule with
  | [] => []
  | t :: schedule' =>
      match step allocator m t with
      | Some m' => (t, events_between m m') :: lock_log schedule' m'
      | None => lock_log schedule' m
      end
  end.
End WithAllocator.

(** The lock calls [ops] of a thread that holds [held], checked against
    the discipline one after the other: what it holds afterwards, or
    [None] if one of them broke the discipline. *)
Fixpoint replay (held : list lock_id) (ops : list lock_op) : option (list lock_id) :=
  match ops with
  | [] => Some held
  | o :: ops' => if allowed held o then replay (after_op held o) ops' else None
  end.

(** The same for all the steps of thread [t] in a log. *)
Fixpoint obeys (t : nat) (held : list lock_id) (log : list (nat * list lock_op))
    : option (list lock_id) :=
  match log with
  | [] => Some held
  | (t', ops) :: log' =>
      if decide (t' = t) then
        match replay held ops with
        | Some held' => obeys t held' log'
        | None => None
        end
      else obeys t held log'
  end.

End Observed.

(** ** Process start-up: [main] up to the creation of the worker threads *)

(** [atoi] is the C library's: white space is skipped, an optional sign is
    read, then the longest run of decimal digits; whatever follows is
    ignored, and no digits at all give 0.  A value that does not fit an
    [int] is undefined behaviour (C11 7.22.1), hence the [option]. *)
Definition isspace (c : ascii) : bool :=
  let n := N_of_ascii c in
  (n =? 32)%N || ((9 <=? n)%N && (n <=? 13)%N).

Definition digit_of (c : ascii) : option Z :=
  let n := Z.of_N (N_of_ascii c) in
  if (48 <=? n) && (n <=? 57) then Some (n - 48) else None.

Fixpoint skip_spaces (s : string) : string :=
  match s with
  | String c s' => if isspace c then skip_spaces s' else s
  | EmptyString => s
  end.

Fixpoint read_digits (acc : Z) (s : string) : Z :=
  match s with
  | String c s' =>
      match digit_of c with
      | Some d => read_digits (10 * acc + d) s'
      | None => acc
      end
  | EmptyString => acc
  end.

Definition INT_MAX : Z := 2147483647.
Definition INT_MIN : Z := -2147483648.

Definition atoi (s : string) : option Z :=
  let n :=
    match skip_spaces s with
    | String "-" s' => - read_digits 0 s'
    | String "+" s' => read_digits 0 s'
    | s' => read_digits 0 s'
    end in
  if (INT_MIN <=? n) && (n <=? INT_MAX) then Some n else None.

(** The argument is a decimal numeral: one or more digits and nothing
    else. *)
Definition is_numeral (s : string) : bool :=
  match s with
  | EmptyString => false
  | _ => forallb (λ c, bool_decide (is_Some (digit_of c))) (list_ascii_of_string s)
  end.

(** *** The arguments [atoi] reads

    An argument as [atoi] sees it: white space, a sign or none, a run of
    decimal digits that may be empty, and a rest that does not go on with
    a digit. *)
Inductive sign : Type := NoSign | Plus | Minus.

Definition sign_string (g : sign) : string :=
  match g with
  | NoSign => ""
  | Plus => "+"
  | Minus => "-"
  end.

Definition signed (g : sign) (n : Z) : Z :=
  match g with
  | Minus => - n
  | _ => n
  end.

(** The value of a run of decimal digits; 0 when there is none. *)
Definition decimal (digits : list ascii) : Z :=
  fold_left (λ acc c, 10 * acc + default 0 (digit_of c)) digits 0.

Definition argument (spaces : list ascii) (g : sign) (digits : list ascii) (rest : string)
    : string :=
  string_of_list_ascii spaces +:+ sign_string g +:+ string_of_list_ascii digits +:+ rest.

Definition first_char (s : string) : option ascii :=
  match s with
  | String c _ => Some c
  | EmptyString => None
  end.

(** The four parts are what they are called: the white space and the
    digits are runs of such characters, each as long as it can be, and
    without a sign the character after the white space is not one. *)
Definition well_split (spaces : list ascii) (g : sign) (digits : list ascii) (rest : string)
    : Prop :=
  Forall (λ c, isspace c = true) spaces ∧
  Forall (λ c, is_Some (digit_of c)) digits ∧
  (∀ c, first_char rest = Some c → digit_of c = None) ∧
  (g = NoSign → digits = [] →
     ∀ c, first_char rest = Some c → isspace c = false ∧ c ≠ "+"%char ∧ c ≠ "-"%char).

(** [n] as an [int], if it is one. *)
Definition in_int (n : Z) : option Z :=
  if (INT_MIN <=? n) && (n <=? INT_MAX) then Some n else None.

(** The process before [main] has initialised anything: [table] is a
    zeroed global, no lock has been initialised yet, nothing is
    allocated, nothing has been printed. *)
Definition boot {L M} : process L M :=
  Process ∅ (replicate (Z.to_nat NUM_BUCKETS) None) [] [].

(** [memset(table, 0, ...)] and the loop of [pthread_..._init] calls. *)
Definition init_table {L M} (lock0 : L) : prog L M unit := λ s,
  Return () (set_locks (replicate (Z.to_nat NUM_BUCKETS) lock0)
               (set_table (replicate (Z.to_nat NUM_BUCKETS) None) s)).

(** Lines 124-135 of [main]: the two checks, then the initialisation.
    The result is [num_threads].  [usage] is the usage line, the only
    thing in which the three files differ here. *)
Definition main {L M} (usage : string) (lock0 : L) (argv : list string) : prog L M Z :=
  if decide (length argv ≠ 2%nat) then panic usage
  else
    match argv !! 1%nat with
    | Some arg =>
        match atoi arg with
        | Some num_threads =>
            if decide (num_threads ≤ 0) then
              panic "must enter a valid number of threads to run"
            else init_table lock0;; mret num_threads
        | None => undefined
        end
    | None => undefined
    end.

Definition spin_main : list string → prog bool unit Z :=
  main "usage: ./parallel_spin <num_threads>" false.
Definition rwlock_main : list string → prog rwlock unit Z :=
  main "usage: ./parallel_mutex <num_threads>" (RwLock 0 false).
Definition two_level_main : list string → prog rwlock bool Z :=
  main "usage: ./parallel_mutex <num_threads>" (RwLock 0 false).

(** ** Two threads inserting the same new key

    The invariant of the executions in which two threads each call
    [insert] of the two-level variant once, with the same key [k], absent
    from the table, and the values [v1] and [v2]. *)
Module Race.
Import Interleaving.

(** A thread between its [rdlock] and the matching [unlock]. *)
Definition in_shared (c : pc) : bool :=
  match c with
  | I_head false _ _ | I_test false _ _ _ | I_mutex_lock false _ _ _ | I_store false _ _ _
  | I_mutex_unlock false _ _ _ | I_unlock_found false _ _ | I_unlock_shared _ _ => true
  | _ => false
  end.

(** A thread between its [wrlock] and the matching [unlock]. *)
Definition in_exclusive (c : pc) : bool :=
  match c with
  | I_head true _ _ | I_test true _ _ _ | I_mutex_lock true _ _ _ | I_store true _ _ _
  | I_mutex_unlock true _ _ _ | I_unlock_found true _ _
  | I_malloc _ _ | I_unlock_failed _ _ | I_set_next _ _ _ | I_publish _ _ _
  | I_unlock_linked _ _ => true
  | _ => false
  end.

(** A thread between locking and unlocking the mutex of the entry at [a]. *)
Definition has_mutex (a : positive) (c : pc) : bool :=
  match c with
  | I_store _ _ _ a' | I_mutex_unlock _ _ _ a' => bool_decide (a' = a)
  | _ => false
  end.

(** [cur] is [NULL] or points to an entry of the chain [l]. *)
Definition valid_cursor (l : list node) (cur : ptr) : Prop :=
  cur = None ∨ ∃ n, n ∈ l ∧ cur = Some (node_addr n).

(** The block at [e] is not linked into any chain. *)
Definition unlinked (ls : list (list node)) (e : positive) : Prop :=
  ∀ l n, l ∈ ls → n ∈ l → node_addr n ≠ e.

(** The number of entries of [l] from the one at [cur] to the last. *)
Fixpoint cursor_rank (l : list node) (cur : ptr) : nat :=
  match l with
  | [] => 0
  | n :: l' =>
      if decide (cur = Some (node_addr n)) then S (length l') else cursor_rank l' cur
  end.

(** What a thread at [c1] is waiting for the thread at [c2] to release. *)
Definition waits_for (c1 c2 : pc) : bool :=
  match c1 with
  | I_rdlock _ _ => in_exclusive c2
  | I_wrlock _ _ => in_shared c2 || in_exclusive c2
  | I_mutex_lock _ _ _ a => has_mutex a c2
  | _ => false
  end.

(** Nothing is left to run: every thread has returned from its last call,
    or the process has gone through [exit]. *)
Definition halted (m : machine) : Prop :=
  match m with
  | Running _ ts => Forall finished ts
  | Exited _ _ => True
  | Crashed => False
  end.

(** The control points on the way to [panic], after a failed [malloc]. *)
Definition failing (c : pc) : bool :=
  match c with
  | I_unlock_failed _ _ | I_panic
  | R_mutex_unlock_failed _ _ | R_unlock_failed _ | R_panic => true
  | _ => false
  end.

(** Two threads, each about to call [insert] once, with the same key. *)
Definition two_inserts (k v1 v2 : Z) (s : process rwlock bool) : machine :=
  Running s [Thread Idle [Insert k v1]; Thread Idle [Insert k v2]].

(** Only a failed [malloc] sends a thread towards [panic]. *)
Definition failure_explained (allocator : gset positive → ptr) (m : machine) : Prop :=
  match m with
  | Running _ ts =>
      Forall (λ th, failing (at_pc th) = true → ∃ d, allocator d = None) ts
  | Exited _ _ => ∃ d, allocator d = None
  | Crashed => True
  end.

Section Invariant.
Variables (k : Z) (l0 : list node).

(** The chain of bucket [slot k]: as it was, or with one entry for [k],
    holding one of the two values, in front of it. *)
Definition chain_shape (v1 v2 : Z) (l : list node) : Prop :=
  l = l0 ∨ ∃ a w, l = Node a k w :: l0 ∧ (w = v1 ∨ w = v2).

(** What a thread that inserts [(k, v)] knows at each control point, the
    chain of the bucket being [l] and all the chains [ls]. *)
Definition thread_inv (v : Z) (s : process rwlock bool) (ls : list (list node))
    (l : list node) (th : thread) : Prop :=
  match th with
  | Thread Idle [Insert k' v'] => k' = k ∧ v' = v
  | Thread Idle [] => l ≠ l0
  | Thread c [] =>
      match c with
      | I_rdlock k' v' | I_head _ k' v' | I_unlock_shared k' v' | I_wrlock k' v'
      | I_unlock_failed k' v' => k' = k ∧ v' = v
      | I_test w k' v' cur =>
          k' = k ∧ v' = v ∧ valid_cursor l cur ∧
          (w = true → l = l0 ∨ ∃ a x, l = Node a k x :: l0 ∧ cur = Some a)
      | I_mutex_lock _ k' v' a | I_store _ k' v' a | I_mutex_unlock _ k' v' a =>
          k' = k ∧ v' = v ∧ ∃ x, l = Node a k x :: l0
      | I_unlock_found _ k' v' | I_unlock_linked k' v' => k' = k ∧ v' = v ∧ l ≠ l0
      | I_malloc k' v' => k' = k ∧ v' = v ∧ l = l0
      | I_set_next k' v' e =>
          k' = k ∧ v' = v ∧ l = l0 ∧ unlinked ls e ∧
          heap s !! e = Some (BucketEntry k v None false)
      | I_publish k' v' e =>
          k' = k ∧ v' = v ∧ l = l0 ∧ unlinked ls e ∧
          ∃ p, index (table s) (slot k) = Some p ∧
               heap s !! e = Some (BucketEntry k v p false)
      | I_panic => True
      | _ => False
      end
  | _ => False
  end.

(** The bucket lock counts the threads inside its sections. *)
Definition locks_inv (s : process rwlock bool) (c1 c2 : pc) : Prop :=
  bucket_locks s
  = <[Z.to_nat (slot k) :=
        RwLock (Nat.b2n (in_shared c1) + Nat.b2n (in_shared c2))
               (in_exclusive c1 || in_exclusive c2)]>
      (replicate (Z.to_nat NUM_BUCKETS) (RwLock 0 false)) ∧
  in_exclusive c1 && in_exclusive c2 = false ∧
  (in_exclusive c1 || in_exclusive c2 = true → in_shared c1 || in_shared c2 = false).

(** Every entry mutex is held by exactly the thread that is between its
    lock and unlock. *)
Definition mutex_inv (s : process rwlock bool) (ls : list (list node)) (c1 c2 : pc) : Prop :=
  (∀ l n e, l ∈ ls → n ∈ l → heap s !! node_addr n = Some e →
            entry_mutex e = has_mutex (node_addr n) c1 || has_mutex (node_addr n) c2) ∧
  ∀ a, has_mutex a c1 && has_mutex a c2 = false.

Definition race_inv (ls0 : list (list node)) (v1 v2 : Z)
    (s : process rwlock bool) (th1 th2 : thread) : Prop :=
  ∃ l, chain_shape v1 v2 l ∧
       buckets s (<[Z.to_nat (slot k) := l]> ls0) ∧
       locks_inv s (at_pc th1) (at_pc th2) ∧
       mutex_inv s (<[Z.to_nat (slot k) := l]> ls0) (at_pc th1) (at_pc th2) ∧
       thread_inv v1 s (<[Z.to_nat (slot k) := l]> ls0) l th1 ∧
       thread_inv v2 s (<[Z.to_nat (slot k) := l]> ls0) l th2.

(** How the chain of the bucket can change under the feet of a thread that
    is not in the exclusive section: the other thread links the entry for
    [k], or stores into it. *)
Definition grows (l l' : list node) : Prop :=
  l' = l ∨ (l = l0 ∧ ∃ a x, l' = Node a k x :: l0) ∨
  ∃ a x x', l = Node a k x :: l0 ∧ l' = Node a k x' :: l0.

(** What a step of the first thread may do: keep the invariant, leave
    through [exit(1)], or wait; never something undefined. *)
Definition step_ok (ls0 : list (list node)) (v1 v2 : Z) (todo1 : list call) (th2 : thread)
    (o : outcome (process rwlock bool) pc) : Prop :=
  match o with
  | Return c1' s' => race_inv ls0 v1 v2 s' (Thread c1' todo1) th2
  | Exit status _ => status = 1
  | Hang => True
  | Undefined => False
  end.

(** *** Progress

    How far a scan still has to walk from [cur]: the entries of [l0] from
    [cur] on, or all of [l0] and one more from an entry put in front of it. *)
Definition steps_left (cur : ptr) : nat :=
  match cur with
  | None => 0
  | Some a =>
      if decide (a ∈ node_addr <$> l0) then cursor_rank l0 cur else S (length l0)
  end.

(** A bound on the steps [insert] still takes from a control point. *)
Definition pc_rank (c : pc) : nat :=
  let n := S (length l0) in
  match c with
  | I_rdlock _ _ => 11 + 2 * n
  | I_head false _ _ => 10 + 2 * n
  | I_test false _ _ cur => 9 + n + steps_left cur
  | I_unlock_shared _ _ => 8 + n
  | I_wrlock _ _ => 7 + n
  | I_head true _ _ => 6 + n
  | I_test true _ _ cur => 5 + steps_left cur
  | I_mutex_lock _ _ _ _ | I_malloc _ _ => 4
  | I_store _ _ _ _ | I_set_next _ _ _ => 3
  | I_mutex_unlock _ _ _ _ | I_publish _ _ _ | I_unlock_failed _ _ => 2
  | I_unlock_found _ _ _ | I_unlock_linked _ _ | I_panic => 1
  | _ => 0
  end.

Definition thread_rank (th : thread) : nat :=
  match th with
  | Thread Idle (_ :: _) => 12 + 2 * S (length l0)
  | Thread c _ => pc_rank c
  end.

Definition machine_rank (m : machine) : nat :=
  match m with
  | Running _ ts => sum_list (thread_rank <$> ts)
  | _ => 0
  end.

(** The invariant on the whole process. *)
Definition machine_inv (ls0 : list (list node)) (v1 v2 : Z) (m : machine) : Prop :=
  match m with
  | Running s [th1; th2] => race_inv ls0 v1 v2 s th1 th2
  | Running _ _ => False
  | Exited status _ => status = 1
  | Crashed => False
  end.
End Invariant.
End Race.

(** ** The worker threads and the end of [main]

    [put_phase], [get_phase] and the clean-up loop that ends [main] are
    the same in the three files up to the lock calls and to what is done
    with an entry mutex; they are written once, over the operations in
    which the files differ.  The globals [keys] and [num_threads] are
    written by [main] before the threads start and only read afterwards:
    they are parameters here. *)

(** [#define NUM_KEYS 100000] *)
Definition NUM_KEYS : Z := 100000.

(** [(int) z] for a [long z]: a value that does not fit wraps around (the
    conversion is implementation-defined; this is what gcc and clang do). *)
Definition to_int (z : Z) : Z := (z - INT_MIN) `mod` 2 ^ 32 + INT_MIN.

(** The two loops over [keys] end after at most [NUM_KEYS] rounds when
    [num_threads > 0], and run into [keys[key]] with a negative [key]
    after at most [NUM_KEYS] rounds when [num_threads < 0]; a loop still
    running after that is the endless loop of [num_threads = 0]. *)
Definition phase_fuel : nat := S (Z.to_nat NUM_KEYS).

(** [printf] of one line. *)
Definition printf {L M} (line : string) : prog L M unit := λ s,
  Return () (set_stdout (stdout s ++ [line]) s).

Section Phases.
Context {L M : Type}.
Variable insert : Z → Z → prog L M unit.
Variable retrieve : Z → prog L M ptr.
(** What [get_phase] does with the copy it got. *)
Variable release : positive → prog L M unit.
Variable keys : list Z.
Variable num_threads : Z.

(** [keys[key]] *)
Definition get_key (key : Z) : prog L M Z := λ s,
  match index keys key with
  | Some k => Return k s
  | None => Undefined
  end.

(** [key += num_threads] on [int]s: overflow is undefined. *)
Definition next_key (key : Z) : prog L M Z := λ s,
  if decide (INT_MIN ≤ key + num_threads ≤ INT_MAX) then Return (key + num_threads) s
  else Undefined.

(** [for (...; key < NUM_KEYS; key += num_threads) insert(keys[key], tid);] *)
Fixpoint put_loop (fuel : nat) (key tid : Z) : prog L M unit :=
  if decide (key < NUM_KEYS) then
    match fuel with
    | O => hang
    | S fuel' =>
        k ← get_key key;
        insert k (to_int tid);;
        key' ← next_key key;
        put_loop fuel' key' tid
    end
  else mret ().

(** [void *put_phase(void *arg)], with [tid = (long) arg]. *)
Definition put_phase (tid : Z) : prog L M unit :=
  put_loop phase_fuel (to_int tid) tid.

(** The loop of [get_phase]; the result is [lost]. *)
Fixpoint get_loop (fuel : nat) (key lost : Z) : prog L M Z :=
  if decide (key < NUM_KEYS) then
    match fuel with
    | O => hang
    | S fuel' =>
        k ← get_key key;
        entry ← retrieve k;
        lost' ← match entry with
                | None => mret (lost + 1)
                | Some entry => release entry;; mret lost
                end;
        key' ← next_key key;
        get_loop fuel' key' lost'
    end
  else mret lost.

(** The line [printf("[thread %ld] %ld keys lost!\n", tid, lost)] prints. *)
Definition lost_line (tid lost : Z) : string :=
  "[thread " +:+ pretty tid +:+ "] " +:+ pretty lost +:+ " keys lost!".

(** [void *get_phase(void *arg)]; the result is what is passed to
    [pthread_exit]. *)
Definition get_phase (tid : Z) : prog L M Z :=
  lost ← get_loop phase_fuel (to_int tid) 0;
  (printf (lost_line tid lost);; mret lost).

(** The calls of [put_phase] listed in [tids], one after the other. *)
Fixpoint put_phases (tids : list Z) : prog L M unit :=
  match tids with
  | [] => mret ()
  | tid :: tids' => put_phase tid;; put_phases tids'
  end.

(** The calls of [get_phase] listed in [tids], one after the other; the
    result is the sum of what they return, [total_lost] in [main]. *)
Fixpoint get_phases (tids : list Z) : prog L M Z :=
  match tids with
  | [] => mret 0
  | tid :: tids' =>
      lost ← get_phase tid;
      total_lost ← get_phases tids';
      mret (lost + total_lost)
  end.
End Phases.

Section Cleanup.
Context {L M : Type}.
(** The lock calls of the loop, and what it does to the mutex of an entry
    before freeing it. *)
Variables lock unlock lock_destroy : Z → prog L M unit.
Variable entry_destroy : positive → prog L M unit.

(** [while (current != NULL) { next = current->next; free(current);
    current = next; }].  Every round frees a block, so a loop that has
    gone round more often than there are blocks has read a freed one. *)
Fixpoint free_chain (fuel : nat) (current : ptr) : prog L M unit :=
  match current with
  | None => mret ()
  | Some a =>
      match fuel with
      | O => hang
      | S fuel' =>
          e ← load a;
          entry_destroy a;;
          free a;;
          free_chain fuel' (next e)
      end
  end.

(** The body of the clean-up loop of [main] for bucket [i]. *)
Definition cleanup_bucket (i : Z) : prog L M unit :=
  lock i;;
  current ← get_table i;
  ((λ s, free_chain (S (size (heap s))) current s);;
   unlock i;;
   lock_destroy i).

(** [for (i = 0; i < NUM_BUCKETS; i++) ...], the last loop of [main]. *)
Definition cleanup : prog L M unit :=
  foldr (λ i rest, cleanup_bucket i;; rest) (mret ()) (seqZ 0 NUM_BUCKETS).
End Cleanup.

(** [pthread_spin_destroy], [pthread_rwlock_destroy] and
    [pthread_mutex_destroy]: undefined on a lock that is held.  The state
    keeps no trace of a destroyed lock; no file uses one afterwards. *)
Definition pthread_spin_destroy {M} (i : Z) : prog bool M unit := λ s,
  match index (bucket_locks s) i with
  | Some false => Return () s
  | _ => Undefined
  end.

Definition pthread_rwlock_destroy {M} (i : Z) : prog rwlock M unit := λ s,
  match index (bucket_locks s) i with
  | Some (RwLock O false) => Return () s
  | _ => Undefined
  end.

Definition pthread_mutex_destroy {L} (a : positive) : prog L bool unit := λ s,
  match heap s !! a with
  | Some e => if (entry_mutex e : bool) then Undefined else Return () s
  | None => Undefined
  end.

(** The three files, with the parts of [get_phase] and of the clean-up
    loop in which they differ. *)
Record driver := Driver {
  variant : strategy;
  (** [get_phase]: [free(entry)], after [pthread_mutex_destroy] in the
      two-level file *)
  release_of : positive → prog (lock_t variant) (mutex_t variant) unit;
  (** clean-up: the lock, unlock and destroy calls on a bucket *)
  lock_of : Z → prog (lock_t variant) (mutex_t variant) unit;
  unlock_of : Z → prog (lock_t variant) (mutex_t variant) unit;
  lock_destroy_of : Z → prog (lock_t variant) (mutex_t variant) unit;
  (** clean-up: [pthread_mutex_destroy] in the two-level file, nothing in
      the others *)
  entry_destroy_of : positive → prog (lock_t variant) (mutex_t variant) unit
}.

Definition spin_driver : driver :=
  Driver coarse free Spin.pthread_spin_lock Spin.pthread_spin_unlock
    pthread_spin_destroy (λ _, mret ()).
Definition rwlock_driver : driver :=
  Driver read_write free pthread_rwlock_wrlock pthread_rwlock_unlock
    pthread_rwlock_destroy (λ _, mret ()).
Definition two_level_driver : driver :=
  Driver two_level (λ entry, pthread_mutex_destroy entry;; free entry)
    pthread_rwlock_wrlock pthread_rwlock_unlock
    pthread_rwlock_destroy pthread_mutex_destroy.

Inductive built : driver → Prop :=
| built_spin : built spin_driver
| built_rwlock : built rwlock_driver
| built_two_level : built two_level_driver.

Definition put_phase_of (D : driver) (allocator : gset positive → ptr) :=
  put_phase (insert_of (variant D) allocator).
Definition put_phases_of (D : driver) (allocator : gset positive → ptr) :=
  put_phases (insert_of (variant D) allocator).
Definition get_phase_of (D : driver) (allocator : gset positive → ptr) :=
  get_phase (retrieve_of (variant D) allocator) (release_of D).
Definition get_phases_of (D : driver) (allocator : gset positive → ptr) :=
  get_phases (retrieve_of (variant D) allocator) (release_of D).
Definition cleanup_of (D : driver) :=
  cleanup (lock_of D) (unlock_of D) (lock_destroy_of D) (entry_destroy_of D).

(** The indices of [keys] that thread [tid] of [n] goes through. *)
Definition stride (n tid : Z) : list Z :=
  filter (λ j, j `mod` n = tid) (seqZ 0 NUM_KEYS).

(** [NUM_KEYS] keys to run the phases on: none is negative, as [random()]
    gives them, and the same key comes up at many indices. *)
Definition example_keys : list Z :=
  concat (replicate (Z.to_nat 10000) [3; 14; 15; 92; 65; 35; 89; 79; 32; 38]).

(** Every block of the heap is an entry of some chain. *)
Definition tight {L M} (s : process L M) (ls : list (list node)) : Prop :=
  ∀ a, is_Some (heap s !! a) → ∃ l, l ∈ ls ∧ a ∈ node_addr <$> l.

(** ** Any number of threads in the two-level variant

    What holds between the steps of any number of threads that call
    [insert] and [retrieve] of the two-level variant, whatever the keys
    and the schedule. *)
Module Threads.
Import Interleaving.

(** The bucket whose lock a thread at [c] holds in shared mode. *)
Definition shared_at (c : pc) : option Z :=
  match c with
  | I_head false k _ | I_test false k _ _ | I_mutex_lock false k _ _ | I_store false k _ _
  | I_mutex_unlock false k _ _ | I_unlock_found false k _ | I_unlock_shared k _
  | R_head k | R_test k _ | R_mutex_lock k _ | R_malloc k _ | R_mutex_unlock_failed k _
  | R_unlock_failed k | R_copy k _ _ | R_mutex_unlock k _ _ | R_unlock_found k _
  | R_unlock_missing k => Some (slot k)
  | _ => None
  end.

(** The bucket whose lock it holds in exclusive mode. *)
Definition exclusive_at (c : pc) : option Z :=
  match c with
  | I_head true k _ | I_test true k _ _ | I_mutex_lock true k _ _ | I_store true k _ _
  | I_mutex_unlock true k _ _ | I_unlock_found true k _
  | I_malloc k _ | I_unlock_failed k _ | I_set_next k _ _ | I_publish k _ _
  | I_unlock_linked k _ => Some (slot k)
  | _ => None
  end.

(** The entry whose mutex it holds. *)
Definition mutex_at (c : pc) : option positive :=
  match c with
  | I_store _ _ _ a | I_mutex_unlock _ _ _ a
  | R_malloc _ a | R_mutex_unlock_failed _ a | R_copy _ a _ | R_mutex_unlock _ a _ => Some a
  | _ => None
  end.

(** The block it got from [malloc] and has still to write to. *)
Definition private_at (c : pc) : option positive :=
  match c with
  | I_set_next _ _ e | I_publish _ _ e | R_copy _ _ e => Some e
  | _ => None
  end.

(** The [(key, val)] of the [insert] it is in. *)
Definition inserting (c : pc) : option (Z * Z) :=
  match c with
  | I_rdlock k v | I_head _ k v | I_test _ k v _ | I_mutex_lock _ k v _ | I_store _ k v _
  | I_mutex_unlock _ k v _ | I_unlock_found _ k v | I_unlock_shared k v | I_wrlock k v
  | I_malloc k v | I_unlock_failed k v | I_set_next k v _ | I_publish k v _
  | I_unlock_linked k v => Some (k, v)
  | _ => None
  end.

(** How many threads are at a control point that [f] maps to [x]. *)
Definition holders {A} `{EqDecision A} (f : pc → option A) (x : A) (ts : list thread) : nat :=
  length (filter (λ th, f (at_pc th) = Some x) ts).

(** 1 if the thread at [c] is one of them, else 0. *)
Definition holding {A} `{EqDecision A} (f : pc → option A) (x : A) (c : pc) : nat :=
  if decide (f c = Some x) then 1 else 0.

(** The addresses and keys of a chain: what never changes once an entry
    is linked. *)
Definition links (l : list node) : list (positive * Z) :=
  (λ n, (node_addr n, node_key n)) <$> l.

Definition head_of (l : list (positive * Z)) : ptr := fst <$> head l.

Section Links.
Variable K : list (list (positive * Z)).

(** [cur] points into the chain of the bucket of [k], or is [NULL] at its
    end; in the scan under the exclusive lock, no entry before [cur] holds
    [k]. *)
Definition at_cursor (k : Z) (cur : ptr) (w : scan) : Prop :=
  ∃ l1 l2, index K (slot k) = Some (l1 ++ l2) ∧ head_of l2 = cur ∧
           (w = true → k ∉ l1.*2).

(** The entry at [a] is in the chain of the bucket of [k] and holds [k]. *)
Definition entry_at (k : Z) (a : positive) : Prop :=
  ∃ l, index K (slot k) = Some l ∧ (a, k) ∈ l.

Definition key_in (k : Z) : Prop :=
  ∃ l, index K (slot k) = Some l ∧ k ∈ l.*2.

Definition key_out (k : Z) : Prop :=
  ∃ l, index K (slot k) = Some l ∧ k ∉ l.*2.

(** The block at [e] is in no chain. *)
Definition unlinked (e : positive) : Prop :=
  ∀ l, l ∈ K → e ∉ l.*1.
End Links.

(** A key that [insert] and [retrieve] can be called with: its slot is an
    index of [table]. *)
Definition valid_key (k : Z) : Prop := 0 ≤ slot k < NUM_BUCKETS.

Definition valid_call (c : call) : Prop :=
  match c with
  | Insert k _ | Retrieve k => valid_key k
  end.

(** What is known of the thread at [c], the chains being [K]. *)
Definition pc_ok (s : process rwlock bool) (K : list (list (positive * Z))) (c : pc) : Prop :=
  match c with
  | Idle | I_panic | R_panic => True
  | I_rdlock k _ | I_head _ k _ | I_unlock_shared k _ | I_wrlock k _ | I_unlock_failed k _
  | R_rdlock k | R_head k | R_unlock_failed k | R_unlock_found k _ | R_unlock_missing k =>
      valid_key k
  | I_test w k _ cur => valid_key k ∧ at_cursor K k cur w
  | R_test k cur => valid_key k ∧ at_cursor K k cur false
  | I_mutex_lock _ k _ a | I_store _ k _ a | I_mutex_unlock _ k _ a
  | R_mutex_lock k a | R_malloc k a | R_mutex_unlock_failed k a | R_mutex_unlock k a _ =>
      valid_key k ∧ entry_at K k a
  | I_unlock_found _ k _ | I_unlock_linked k _ => valid_key k ∧ key_in K k
  | I_malloc k _ => valid_key k ∧ key_out K k
  | I_set_next k v e =>
      valid_key k ∧ key_out K k ∧ unlinked K e ∧
      ∃ q, heap s !! e = Some (BucketEntry k v q false)
  | I_publish k v e =>
      valid_key k ∧ key_out K k ∧ unlinked K e ∧
      ∃ q, index (table s) (slot k) = Some q ∧
           heap s !! e = Some (BucketEntry k v q false)
  | R_copy k a e =>
      valid_key k ∧ entry_at K k a ∧ unlinked K e ∧ is_Some (heap s !! e)
  end.

(** The bucket lock [l] of slot [i] counts the threads that hold it. *)
Definition lock_counts (ts : list thread) (i : Z) (l : rwlock) : Prop :=
  readers l = holders shared_at i ts ∧
  Nat.b2n (writer l) = holders exclusive_at i ts ∧
  (writer l = true → readers l = 0%nat).

(** The invariant: well-formed chains without a key twice; every lock and
    every entry mutex held by exactly the threads between the lock and
    the unlock call; no block that is still being filled in known to two
    threads. *)
Record safe (s : process rwlock bool) (ts : list thread) (ls : list (list node)) : Prop := Safe {
  safe_buckets : buckets s ls;
  safe_keys : ∀ l, l ∈ ls → NoDup (node_key <$> l);
  safe_locks_length : length (bucket_locks s) = Z.to_nat NUM_BUCKETS;
  safe_locks : ∀ i l, index (bucket_locks s) i = Some l → lock_counts ts i l;
  safe_mutexes : ∀ l n e, l ∈ ls → n ∈ l → heap s !! node_addr n = Some e →
                          Nat.b2n (entry_mutex e) = holders mutex_at (node_addr n) ts;
  safe_private : ∀ e, (holders private_at e ts ≤ 1)%nat;
  safe_threads : ∀ t th, ts !! t = Some th →
                         pc_ok s (links <$> ls) (at_pc th) ∧ Forall valid_call (todo th)
}.

(** How the chains may differ after a step of a thread at [c]: no key
    has gone, and an entry that is new or holds a new value holds what
    the thread is inserting. *)
Definition grows (c : pc) (ls ls' : list (list node)) : Prop :=
  (∀ k, key_in (links <$> ls) k → key_in (links <$> ls') k) ∧
  (∀ l' n, l' ∈ ls' → n ∈ l' →
     (∃ l, l ∈ ls ∧ n ∈ l) ∨ inserting c = Some (node_key n, node_val n)) ∧
  (links <$> ls' = links <$> ls ∨
   ∃ k v e, c = I_publish k v e ∧
            ∀ i, i ≠ slot k → index (links <$> ls') i = index (links <$> ls) i).

(** What a step of thread [t], at [c], may lead to: the invariant again,
    [exit(1)], or a wait; nothing undefined. *)
Definition step_safe (ls : list (list node)) (ts : list thread) (t : nat) (c : pc)
    (rest : list call) (o : outcome (process rwlock bool) pc) : Prop :=
  match o with
  | Return c' s' => ∃ ls', safe s' (<[t := Thread c' rest]> ts) ls' ∧ grows c ls ls'
  | Exit status _ => status = 1
  | Hang => True
  | Undefined => False
  end.

(** What a thread that was started with the calls [todo0] has made of
    them: it is left with some of them; the [insert] it is in is one of
    them; and the key of each [insert] among them that it is neither
    left with nor in is in the table (a thread on its way to [exit] after
    a failed [malloc] apart). *)
Definition follows (K : list (list (positive * Z))) (todo0 : list call) (th : thread) : Prop :=
  (∀ call, call ∈ todo th → call ∈ todo0) ∧
  (∀ k v, inserting (at_pc th) = Some (k, v) → Insert k v ∈ todo0) ∧
  (∀ k v, Insert k v ∈ todo0 →
     Insert k v ∈ todo th ∨ inserting (at_pc th) = Some (k, v) ∨ key_in K k ∨
     at_pc th = I_panic).

(** The table and the threads, compared with the table [ls0] and the
    threads [ts0] the process started with. *)
Record history (ls0 : list (list node)) (ts0 : list thread)
    (ts : list thread) (ls : list (list node)) : Prop := History {
  history_kept : ∀ k, key_in (links <$> ls0) k → key_in (links <$> ls) k;
  history_origin : ∀ l n, l ∈ ls → n ∈ l →
    (∃ l0, l0 ∈ ls0 ∧ n ∈ l0) ∨
    ∃ th0, th0 ∈ ts0 ∧ Insert (node_key n) (node_val n) ∈ todo th0;
  history_follows : Forall2 (λ th0 th, follows (links <$> ls) (todo th0) th) ts0 ts
}.

(** *** Progress *)

(** The entries of a chain from the one at [a] to the last. *)
Fixpoint rest_from (l : list (positive * Z)) (a : positive) : nat :=
  match l with
  | [] => 0
  | n :: l' => if decide (n.1 = a) then S (length l') else rest_from l' a
  end.

(** How many entries a scan for [k] that is at [cur] has still to visit. *)
Definition scan_left (K : list (list (positive * Z))) (k : Z) (cur : ptr) : nat :=
  match cur, index K (slot k) with
  | Some a, Some l => rest_from l a
  | _, _ => 0
  end.

(** A bound on the steps a thread at [c] takes before it is back from
    the call, in a table whose chains have at most [N] entries. *)
Definition pc_rank (N : nat) (K : list (list (positive * Z))) (c : pc) : nat :=
  match c with
  | Idle => 0
  | I_rdlock _ _ => 11 + 2 * N
  | I_head false _ _ => 10 + 2 * N
  | I_test false k _ cur => 9 + N + scan_left K k cur
  | I_unlock_shared _ _ => 8 + N
  | I_wrlock _ _ => 7 + N
  | I_head true _ _ => 6 + N
  | I_test true k _ cur => 5 + scan_left K k cur
  | I_mutex_lock _ _ _ _ | I_malloc _ _ => 4
  | I_store _ _ _ _ | I_set_next _ _ _ => 3
  | I_mutex_unlock _ _ _ _ | I_publish _ _ _ | I_unlock_failed _ _ => 2
  | I_unlock_found _ _ _ | I_unlock_linked _ _ | I_panic => 1
  | R_rdlock _ => 8 + N
  | R_head _ => 7 + N
  | R_test k cur => 6 + scan_left K k cur
  | R_mutex_lock _ _ => 5
  | R_malloc _ _ => 4
  | R_copy _ _ _ | R_mutex_unlock_failed _ _ => 3
  | R_mutex_unlock _ _ _ | R_unlock_failed _ => 2
  | R_unlock_found _ _ | R_unlock_missing _ | R_panic => 1
  end.

(** The same for a call that has not started. *)
Definition call_rank (N : nat) (c : call) : nat :=
  match c with
  | Insert _ _ => 12 + 2 * N
  | Retrieve _ => 9 + N
  end.

Definition thread_rank (N : nat) (K : list (list (positive * Z))) (th : thread) : nat :=
  pc_rank N K (at_pc th) + sum_list (call_rank N <$> todo th).

Definition threads_rank (N : nat) (K : list (list (positive * Z))) (ts : list thread) : nat :=
  sum_list (thread_rank N K <$> ts).

(** No chain ever has more entries than the table has at the start plus
    one for every call. *)
Definition chain_bound (ls0 : list (list node)) (ts0 : list thread) : nat :=
  length (concat ls0) + length (concat (todo <$> ts0)).

(** The steps the threads [ts0], started on the table [ls0], take
    altogether, at most. *)
Definition steps_bound (ls0 : list (list node)) (ts0 : list thread) : nat :=
  sum_list ((λ th, sum_list (call_rank (chain_bound ls0 ts0) <$> todo th)) <$> ts0).

(** [r] bounds the steps still to come. *)
Definition ranked (N : nat) (m : machine) (r : nat) : Prop :=
  match m with
  | Running s ts => ∃ ls, buckets s ls ∧ r = threads_rank N (links <$> ls) ts
  | _ => r = 0%nat
  end.

(** The calls of [insert] that [put_phase] of thread [tid] makes, in
    order. *)
Definition put_calls (keys : list Z) (n tid : Z) : list call :=
  (λ j, Insert (keys !!! Z.to_nat j) (to_int tid)) <$> stride n tid.

(** The invariant on the whole process. *)
Definition machine_safe (ls0 : list (list node)) (ts0 : list thread) (m : machine) : Prop :=
  match m with
  | Running s ts => ∃ ls, safe s ts ls ∧ history ls0 ts0 ts ls
  | Exited status _ => status = 1
  | Crashed => False
  end.
End Threads.

(** ** The variants with one lock per bucket, one shared-memory access at a time

    [insert] and [retrieve] of [parallel_spin.c] and of the read-write
    lock variant are the same, statement for statement and line for line,
    up to the lock calls.  To follow several threads through them, both
    functions are cut into atomic steps as for the two-level variant: the
    lock calls, and the accesses to [table] and to entries; the steps are
    written once, over the lock calls of the file. *)
Module Coarse.
Import Threads.

Inductive file : Type :=
| Spinlocks      (* [parallel_spin.c] *)
| RwLocks.       (* the read-write lock variant *)

Definition lock_type (F : file) : Type :=
  match F with
  | Spinlocks => bool
  | RwLocks => rwlock
  end.

(** A bucket lock after its [..._init]. *)
Definition unlocked (F : file) : lock_type F :=
  match F with
  | Spinlocks => false
  | RwLocks => RwLock 0 false
  end.

(** Line 38: the lock call of [insert]. *)
Definition insert_lock (F : file) : Z → prog (lock_type F) unit unit :=
  match F with
  | Spinlocks => Spin.pthread_spin_lock
  | RwLocks => pthread_rwlock_wrlock
  end.

(** Line 67: the lock call of [retrieve]. *)
Definition retrieve_lock (F : file) : Z → prog (lock_type F) unit unit :=
  match F with
  | Spinlocks => Spin.pthread_spin_lock
  | RwLocks => pthread_rwlock_rdlock
  end.

(** Lines 45, 53, 61, 74, 81 and 86: the unlock call. *)
Definition release (F : file) : Z → prog (lock_type F) unit unit :=
  match F with
  | Spinlocks => Spin.pthread_spin_unlock
  | RwLocks => pthread_rwlock_unlock
  end.

Inductive pc : Type :=
| Idle                                         (* outside [insert] and [retrieve] *)
(* insert(key, val) *)
| I_lock (k v : Z)                             (* 38 *)
| I_head (k v : Z)                             (* 42: current = table[i] *)
| I_test (k v : Z) (current : ptr)             (* 42-43: != NULL, ->key == key *)
| I_store (k v : Z) (current : positive)       (* 44 *)
| I_unlock_found (k v : Z)                     (* 45: unlock, return *)
| I_malloc (k v : Z)                           (* 51, 56-57 *)
| I_unlock_failed (k v : Z)                    (* 53 *)
| I_panic                                      (* 54 *)
| I_set_next (k v : Z) (e : positive)          (* 58: e->next = table[i] *)
| I_publish (k v : Z) (e : positive)           (* 59: table[i] = e *)
| I_unlock_linked (k v : Z)                    (* 61 *)
(* retrieve(key) *)
| R_lock (k : Z)                               (* 67 *)
| R_head (k : Z)                               (* 70: b = table[i] *)
| R_test (k : Z) (b : ptr)                     (* 70-71 *)
| R_malloc (k : Z) (b : positive)              (* 72 *)
| R_unlock_failed (k : Z)                      (* 74 *)
| R_panic                                      (* 75 *)
| R_copy (k : Z) (b result : positive)         (* 78-80 *)
| R_unlock_found (k : Z) (result : positive)   (* 81: unlock, return result *)
| R_unlock_missing (k : Z).                    (* 86: unlock, return NULL *)

(** [e->next = p] on a block that is still private. *)
Definition set_next {L} (e : positive) (p : ptr) : prog L unit unit := λ s,
  match heap s !! e with
  | Some c =>
      Return () (set_heap (<[e := BucketEntry (key c) (val c) p (entry_mutex c)]> (heap s)) s)
  | None => Undefined
  end.

Section WithAllocator.
Variable F : file.
Variable allocator : gset positive → ptr.

Definition step_of (c : pc) : prog (lock_type F) unit pc :=
  match c with
  | Idle => hang
  | I_lock k v =>
      insert_lock F (slot k);; mret (I_head k v)
  | I_head k v =>
      current ← get_table (slot k); mret (I_test k v current)
  | I_test k v None => mret (I_malloc k v)
  | I_test k v (Some current) =>
      c ← load current;
      mret (if decide (key c = k) then I_store k v current else I_test k v (next c))
  | I_store k v current =>
      store_val current v;; mret (I_unlock_found k v)
  | I_unlock_found k v =>
      release F (slot k);; mret Idle
  | I_malloc k v =>
      e ← malloc allocator;
      match e with
      | None => mret (I_unlock_failed k v)
      | Some e => init_entry e (BucketEntry k v None ());; mret (I_set_next k v e)
      end
  | I_unlock_failed k v =>
      release F (slot k);; mret I_panic
  | I_panic => panic "No memory to allocate bucket!"
  | I_set_next k v e =>
      head ← get_table (slot k); set_next e head;; mret (I_publish k v e)
  | I_publish k v e =>
      put_table (slot k) (Some e);; mret (I_unlock_linked k v)
  | I_unlock_linked k v =>
      release F (slot k);; mret Idle
  | R_lock k =>
      retrieve_lock F (slot k);; mret (R_head k)
  | R_head k =>
      b ← get_table (slot k); mret (R_test k b)
  | R_test k None => mret (R_unlock_missing k)
  | R_test k (Some b) =>
      c ← load b;
      mret (if decide (key c = k) then R_malloc k b else R_test k (next c))
  | R_malloc k b =>
      result ← malloc allocator;
      match result with
      | None => mret (R_unlock_failed k)
      | Some result =>
          init_entry result (BucketEntry 0 0 None ());; mret (R_copy k b result)
      end
  | R_unlock_failed k =>
      release F (slot k);; mret R_panic
  | R_panic => panic "No memory to allocate result!"
  | R_copy k b result =>
      c ← load b;
      init_entry result (BucketEntry (key c) (val c) None ());;
      mret (R_unlock_found k result)
  | R_unlock_found k result =>
      release F (slot k);; mret Idle
  | R_unlock_missing k =>
      release F (slot k);; mret Idle
  end.

Definition enter (c : Interleaving.call) : pc :=
  match c with
  | Interleaving.Insert k v => I_lock k v
  | Interleaving.Retrieve k => R_lock k
  end.

Record thread := Thread {
  at_pc : pc;
  todo : list Interleaving.call
}.

Inductive machine : Type :=
| Running (s : process (lock_type F) unit) (ts : list thread)
| Exited (status : Z) (s : process (lock_type F) unit)
| Crashed.

(** Thread [t] takes its next step, if it can. *)
Definition step (m : machine) (t : nat) : option machine :=
  match m with
  | Running s ts =>
      match ts !! t with
      | Some (Thread Idle (c :: rest)) =>
          Some (Running s (<[t := Thread (enter c) rest]> ts))
      | Some (Thread Idle []) => None
      | Some (Thread c rest) =>
          match step_of c s with
          | Return c' s' => Some (Running s' (<[t := Thread c' rest]> ts))
          | Exit status s' => Some (Exited status s')
          | Hang => None
          | Undefined => Some Crashed
          end
      | None => None
      end
  | _ => None
  end.

Fixpoint run (schedule : list nat) (m : machine) : machine :=
  match schedule with
  | [] => m
  | t :: schedule' =>
      match step m t with
      | Some m' => run schedule' m'
      | None => run schedule' m
      end
  end.

(** How many steps a schedule really takes. *)
Fixpoint steps (schedule : list nat) (m : machine) : nat :=
  match schedule with
  | [] => 0
  | t :: schedule' =>
      match step m t with
      | Some m' => S (steps schedule' m')
      | None => steps schedule' m
      end
  end.

Definition finished (th : thread) : Prop := at_pc th = Idle ∧ todo th = [].

Definition halted (m : machine) : Prop :=
  match m with
  | Running _ ts => Forall finished ts
  | Exited _ _ => True
  | Crashed => False
  end.
End WithAllocator.
Arguments Running {F} _ _.
Arguments Exited {F} _ _.
Arguments Crashed {F}.

(** *** What holds between the steps *)

(** The lock of [F] as a read-write lock: a spinlock has no readers. *)
Definition view (F : file) : lock_type F → rwlock :=
  match F with
  | Spinlocks => λ held, RwLock 0 held
  | RwLocks => λ l, l
  end.

(** The bucket a thread at [c] is in, inside [insert] and inside
    [retrieve]. *)
Definition in_insert (c : pc) : option Z :=
  match c with
  | I_head k _ | I_test k _ _ | I_store k _ _ | I_unlock_found k _ | I_malloc k _
  | I_unlock_failed k _ | I_set_next k _ _ | I_publish k _ _ | I_unlock_linked k _ =>
      Some (slot k)
  | _ => None
  end.

Definition in_retrieve (c : pc) : option Z :=
  match c with
  | R_head k | R_test k _ | R_malloc k _ | R_unlock_failed k | R_copy k _ _
  | R_unlock_found k _ | R_unlock_missing k => Some (slot k)
  | _ => None
  end.

(** The bucket whose lock it holds in shared mode, and in exclusive mode. *)
Definition shared_at (F : file) (c : pc) : option Z :=
  match F with
  | Spinlocks => None
  | RwLocks => in_retrieve c
  end.

Definition exclusive_at (F : file) (c : pc) : option Z :=
  match F with
  | Spinlocks => match in_insert c with Some i => Some i | None => in_retrieve c end
  | RwLocks => in_insert c
  end.

(** The block it got from [malloc] and has still to write to. *)
Definition private_at (c : pc) : option positive :=
  match c with
  | I_set_next _ _ e | I_publish _ _ e | R_copy _ _ e => Some e
  | _ => None
  end.

(** The [(key, val)] of the [insert] it is in. *)
Definition inserting (c : pc) : option (Z * Z) :=
  match c with
  | I_lock k v | I_head k v | I_test k v _ | I_store k v _ | I_unlock_found k v
  | I_malloc k v | I_unlock_failed k v | I_set_next k v _ | I_publish k v _
  | I_unlock_linked k v => Some (k, v)
  | _ => None
  end.

Definition holding {A} `{EqDecision A} (f : pc → option A) (x : A) (c : pc) : nat :=
  if decide (f c = Some x) then 1 else 0.

Definition holders {A} `{EqDecision A} (f : pc → option A) (x : A) (ts : list thread) : nat :=
  length (filter (λ th, f (at_pc th) = Some x) ts).

(** What is known of the thread at [c], the chains being [K]. *)
Definition pc_ok {L} (s : process L unit) (K : list (list (positive * Z))) (c : pc) : Prop :=
  match c with
  | Idle | I_panic | R_panic => True
  | I_lock k _ | I_head k _ | I_unlock_failed k _
  | R_lock k | R_head k | R_unlock_failed k | R_unlock_found k _ | R_unlock_missing k =>
      valid_key k
  | I_test k _ cur => valid_key k ∧ at_cursor K k cur true
  | R_test k cur => valid_key k ∧ at_cursor K k cur false
  | I_store k _ a | R_malloc k a => valid_key k ∧ entry_at K k a
  | I_unlock_found k _ | I_unlock_linked k _ => valid_key k ∧ key_in K k
  | I_malloc k _ => valid_key k ∧ key_out K k
  | I_set_next k v e =>
      valid_key k ∧ key_out K k ∧ unlinked K e ∧
      ∃ q, heap s !! e = Some (BucketEntry k v q ())
  | I_publish k v e =>
      valid_key k ∧ key_out K k ∧ unlinked K e ∧
      ∃ q, index (table s) (slot k) = Some q ∧
           heap s !! e = Some (BucketEntry k v q ())
  | R_copy k a e =>
      valid_key k ∧ entry_at K k a ∧ unlinked K e ∧ is_Some (heap s !! e)
  end.

(** The bucket lock [l] of slot [i] counts the threads that hold it. *)
Definition lock_counts (F : file) (ts : list thread) (i : Z) (l : lock_type F) : Prop :=
  readers (view F l) = holders (shared_at F) i ts ∧
  Nat.b2n (writer (view F l)) = holders (exclusive_at F) i ts ∧
  (writer (view F l) = true → readers (view F l) = 0%nat).

(** The invariant: well-formed chains without a key twice; every lock
    held by exactly the threads between the lock and the unlock call; no
    block that is still being filled in known to two threads. *)
Record safe (F : file) (s : process (lock_type F) unit) (ts : list thread)
    (ls : list (list node)) : Prop := Safe {
  safe_buckets : buckets s ls;
  safe_keys : ∀ l, l ∈ ls → NoDup (node_key <$> l);
  safe_locks_length : length (bucket_locks s) = Z.to_nat NUM_BUCKETS;
  safe_locks : ∀ i l, index (bucket_locks s) i = Some l → lock_counts F ts i l;
  safe_private : ∀ e, (holders private_at e ts ≤ 1)%nat;
  safe_threads : ∀ t th, ts !! t = Some th →
                         pc_ok s (links <$> ls) (at_pc th) ∧ Forall valid_call (todo th)
}.

(** How the chains may differ after a step of a thread at [c]. *)
Definition grows (c : pc) (ls ls' : list (list node)) : Prop :=
  (∀ k, key_in (links <$> ls) k → key_in (links <$> ls') k) ∧
  (∀ l' n, l' ∈ ls' → n ∈ l' →
     (∃ l, l ∈ ls ∧ n ∈ l) ∨ inserting c = Some (node_key n, node_val n)) ∧
  (links <$> ls' = links <$> ls ∨
   ∃ k v e, c = I_publish k v e ∧
            ∀ i, i ≠ slot k → index (links <$> ls') i = index (links <$> ls) i).

(** What a step of thread [t], at [c], may lead to. *)
Definition step_safe (F : file) (ls : list (list node)) (ts : list thread) (t : nat) (c : pc)
    (rest : list Interleaving.call) (o : outcome (process (lock_type F) unit) pc) : Prop :=
  match o with
  | Return c' s' => ∃ ls', safe F s' (<[t := Thread c' rest]> ts) ls' ∧ grows c ls ls'
  | Exit status _ => status = 1
  | Hang => True
  | Undefined => False
  end.

(** What a thread that was started with the calls [todo0] has made of
    them. *)
Definition follows (K : list (list (positive * Z))) (todo0 : list Interleaving.call)
    (th : thread) : Prop :=
  (∀ call, call ∈ todo th → call ∈ todo0) ∧
  (∀ k v, inserting (at_pc th) = Some (k, v) → Interleaving.Insert k v ∈ todo0) ∧
  (∀ k v, Interleaving.Insert k v ∈ todo0 →
     Interleaving.Insert k v ∈ todo th ∨ inserting (at_pc th) = Some (k, v) ∨ key_in K k ∨
     at_pc th = I_panic).

Record history (ls0 : list (list node)) (ts0 : list thread)
    (ts : list thread) (ls : list (list node)) : Prop := History {
  history_kept : ∀ k, key_in (links <$> ls0) k → key_in (links <$> ls) k;
  history_origin : ∀ l n, l ∈ ls → n ∈ l →
    (∃ l0, l0 ∈ ls0 ∧ n ∈ l0) ∨
    ∃ th0, th0 ∈ ts0 ∧ Interleaving.Insert (node_key n) (node_val n) ∈ todo th0;
  history_follows : Forall2 (λ th0 th, follows (links <$> ls) (todo th0) th) ts0 ts
}.

(** *** Progress *)

(** A bound on the steps a thread at [c] takes before it is back from
    the call, in a table whose chains have at most [N] entries. *)
Definition pc_rank (N : nat) (K : list (list (positive * Z))) (c : pc) : nat :=
  match c with
  | Idle => 0
  | I_lock _ _ => 7 + N
  | I_head _ _ => 6 + N
  | I_test k _ cur => 5 + scan_left K k cur
  | I_malloc _ _ => 4
  | I_set_next _ _ _ => 3
  | I_store _ _ _ | I_publish _ _ _ | I_unlock_failed _ _ => 2
  | I_unlock_found _ _ | I_unlock_linked _ _ | I_panic => 1
  | R_lock _ => 6 + N
  | R_head _ => 5 + N
  | R_test k cur => 4 + scan_left K k cur
  | R_malloc _ _ => 3
  | R_copy _ _ _ | R_unlock_failed _ => 2
  | R_unlock_found _ _ | R_unlock_missing _ | R_panic => 1
  end.

Definition call_rank (N : nat) (c : Interleaving.call) : nat :=
  match c with
  | Interleaving.Insert _ _ => 8 + N
  | Interleaving.Retrieve _ => 7 + N
  end.

Definition thread_rank (N : nat) (K : list (list (positive * Z))) (th : thread) : nat :=
  pc_rank N K (at_pc th) + sum_list (call_rank N <$> todo th).

Definition threads_rank (N : nat) (K : list (list (positive * Z))) (ts : list thread) : nat :=
  sum_list (thread_rank N K <$> ts).

Definition chain_bound (ls0 : list (list node)) (ts0 : list thread) : nat :=
  length (concat ls0) + length (concat (todo <$> ts0)).

(** The steps the threads [ts0], started on the table [ls0], take
    altogether, at most. *)
Definition steps_bound (ls0 : list (list node)) (ts0 : list thread) : nat :=
  sum_list ((λ th, sum_list (call_rank (chain_bound ls0 ts0) <$> todo th)) <$> ts0).

Definition ranked (F : file) (N : nat) (m : machine F) (r : nat) : Prop :=
  match m with
  | Running s ts => ∃ ls, buckets s ls ∧ r = threads_rank N (links <$> ls) ts
  | _ => r = 0%nat
  end.

(** The invariant on the whole process. *)
Definition machine_safe (F : file) (ls0 : list (list node)) (ts0 : list thread)
    (m : machine F) : Prop :=
  match m with
  | Running s ts => ∃ ls, safe F s ts ls ∧ history ls0 ts0 ts ls
  | Exited status _ => status = 1
  | Crashed => False
  end.

(** [insert], [retrieve] and [get_phase] of the file, as functions. *)
Definition insert_in (F : file) (allocator : gset positive → ptr) (k v : Z)
    : prog (lock_type F) unit unit :=
  match F with
  | Spinlocks => Spin.insert allocator k v
  | RwLocks => RWLock.insert allocator k v
  end.

Definition retrieve_in (F : file) (allocator : gset positive → ptr) (k : Z)
    : prog (lock_type F) unit ptr :=
  match F with
  | Spinlocks => Spin.retrieve allocator k
  | RwLocks => RWLock.retrieve allocator k
  end.


Definition get_phase_in (F : file) (allocator : gset positive → ptr) (keys : list Z)
    (n tid : Z) : prog (lock_type F) unit Z :=
  match F with
  | Spinlocks => get_phase_of spin_driver allocator keys n tid
  | RwLocks => get_phase_of rwlock_driver allocator keys n tid
  end.
End Coarse.

(** * Properties *)

(** ** Chains *)

Section Chains.
Context {M : Type}.
Implicit Types (h : gmap positive (bucket_entry M)) (p : ptr) (l : list node).

Lemma is_chain_functional h p l1 l2 :
  is_chain h p l1 → is_chain h p l2 → l1 = l2.
Proof.
  revert p l2. induction l1 as [|[a k v] l1 IH]; intros p [|[a' k' v'] l2]; simpl.
  - done.
  - intros -> [? _]. done.
  - intros [-> _] ?. done.
  - intros [-> (e & He & <- & <- & Hc)] [[= <-] (e' & He' & <- & <- & Hc')].
    simplify_eq. f_equal. eauto.
Qed.

Lemma is_chain_app h p l1 l2 :
  is_chain h p (l1 ++ l2) → ∃ q, is_chain h q l2.
Proof.
  revert p. induction l1 as [|n l1 IH]; simpl; intros p.
  - eauto.
  - intros [_ (e & _ & _ & _ & Hc)]. eauto.
Qed.

Lemma is_chain_NoDup h p l : is_chain h p l → NoDup (node_addr <$> l).
Proof.
  revert p. induction l as [|n l IH]; simpl; intros p; [constructor|].
  intros [-> (e & He & Hk & Hv & Hc)]. constructor; [|by eauto].
  intros Hin. apply list_elem_of_fmap in Hin as (n' & Ha & Hin).
  apply list_elem_of_split in Hin as (l1 & l2 & ->).
  destruct (is_chain_app _ _ _ _ Hc) as [q Hq].
  simpl in Hq. destruct Hq as [-> (e' & He' & Hk' & Hv' & Hq)].
  rewrite <- Ha in He'. simplify_eq.
  pose proof (is_chain_functional _ _ _ _ Hc Hq) as Heq.
  apply (f_equal length) in Heq. rewrite length_app in Heq. simpl in Heq. lia.
Qed.

Lemma is_chain_dom h p l n : is_chain h p l → n ∈ l → is_Some (h !! node_addr n).
Proof.
  revert p. induction l as [|n' l IH]; simpl; intros p Hc Hin.
  - by apply elem_of_nil in Hin.
  - destruct Hc as [-> (e & He & _ & _ & Hc)].
    apply elem_of_cons in Hin as [->|Hin]; eauto.
Qed.

Lemma is_chain_length h p l : is_chain h p l → (length l ≤ size h)%nat.
Proof.
  intros Hc. pose proof (is_chain_NoDup _ _ _ Hc) as Hnd.
  rewrite <- (length_fmap node_addr), <- size_dom.
  rewrite <- (size_list_to_set (C := gset positive)) by done.
  apply subseteq_size. intros a Ha. apply elem_of_list_to_set in Ha.
  apply list_elem_of_fmap in Ha as (n & -> & Hin).
  apply elem_of_dom. eapply is_chain_dom; eauto.
Qed.
End Chains.

Section ChainUpdates.
Context {M : Type}.
Implicit Types (h : gmap positive (bucket_entry M)) (p : ptr) (l : list node).

(** A chain only depends on the cells it visits. *)
Lemma is_chain_agree h h' p l :
  (∀ n, n ∈ l → h' !! node_addr n = h !! node_addr n) →
  is_chain h p l → is_chain h' p l.
Proof.
  revert p. induction l as [|n l IH]; simpl; intros p Hag; [done|].
  intros [-> (e & He & Hk & Hv & Hc)]. split; [done|]. exists e.
  rewrite Hag by apply list_elem_of_here. repeat split; try done.
  apply IH; [|done]. intros n' Hn'. apply Hag. by apply list_elem_of_further.
Qed.

Lemma is_chain_insert_fresh h p l a e :
  h !! a = None → is_chain h p l → is_chain (<[a := e]> h) p l.
Proof.
  intros Ha Hc. eapply is_chain_agree; [|done].
  intros n Hn. destruct (is_chain_dom _ _ _ _ Hc Hn) as [e' He'].
  apply lookup_insert_ne. congruence.
Qed.

Lemma is_chain_delete h p l a :
  a ∉ node_addr <$> l → is_chain h p l → is_chain (delete a h) p l.
Proof.
  intros Ha Hc. eapply is_chain_agree; [|done].
  intros n Hn. apply lookup_delete_ne. intros ->. apply Ha.
  apply list_elem_of_fmap. eauto.
Qed.

Lemma chain_store_cons a v n l :
  chain_store a v (n :: l) =
  (if decide (node_addr n = a) then Node a (node_key n) v else n) :: chain_store a v l.
Proof. reflexivity. Qed.

Lemma is_chain_store h p l a v :
  is_chain h p l → is_chain (alter (with_val v) a h) p (chain_store a v l).
Proof.
  revert p. induction l as [|n l IH]; intros p; [done|].
  intros [-> (e & He & Hk & Hv & Hc)]. rewrite chain_store_cons.
  case_decide as Ha; simpl.
  - split; [by rewrite Ha|]. exists (with_val v e). subst a.
    rewrite lookup_alter_eq, He. simpl. repeat split; try done. by apply IH.
  - split; [done|]. exists e. rewrite lookup_alter_ne by done.
    repeat split; try done. by apply IH.
Qed.

Lemma is_chain_mutex h p l a (m : M) :
  is_chain h p l → is_chain (alter (with_mutex m) a h) p l.
Proof.
  revert p. induction l as [|n l IH]; simpl; intros p; [done|].
  intros [-> (e & He & Hk & Hv & Hc)]. split; [done|].
  destruct (decide (node_addr n = a)) as [<-|Hne].
  - exists (with_mutex m e). rewrite lookup_alter_eq, He. simpl.
    repeat split; try done. by apply IH.
  - exists e. rewrite lookup_alter_ne by done. repeat split; try done. by apply IH.
Qed.

Lemma chain_store_notin a v l : a ∉ node_addr <$> l → chain_store a v l = l.
Proof.
  induction l as [|n l IH]; [done|]. rewrite fmap_cons, not_elem_of_cons.
  intros [Hne Hnin]. rewrite chain_store_cons, decide_False by done.
  f_equal. by apply IH.
Qed.

Lemma chain_store_addr a v l : node_addr <$> chain_store a v l = node_addr <$> l.
Proof.
  unfold chain_store. rewrite <- list_fmap_compose. apply list_fmap_ext.
  intros i n _. simpl. by case_decide.
Qed.

Lemma chain_store_key a v l : node_key <$> chain_store a v l = node_key <$> l.
Proof.
  unfold chain_store. rewrite <- list_fmap_compose. apply list_fmap_ext.
  intros i n _. simpl. by case_decide.
Qed.

Lemma chain_store_length a v l : length (chain_store a v l) = length l.
Proof. unfold chain_store. by rewrite length_fmap. Qed.
End ChainUpdates.

Lemma chain_find_Some k l n :
  chain_find k l = Some n →
  ∃ l1 l2, l = l1 ++ n :: l2 ∧ node_key n = k ∧ ∀ n', n' ∈ l1 → node_key n' ≠ k.
Proof.
  induction l as [|n0 l IH]; simpl; [done|]. case_decide as Hk.
  - intros [= <-]. exists [], l. repeat split; [done|]. intros n' Hn'. by apply elem_of_nil in Hn'.
  - intros (l1 & l2 & -> & Hkn & Hl1)%IH. exists (n0 :: l1), l2. repeat split; [done|].
    intros n' [->|Hn']%elem_of_cons; eauto.
Qed.

Lemma chain_find_None k l :
  chain_find k l = None ↔ ∀ n, n ∈ l → node_key n ≠ k.
Proof.
  induction l as [|n0 l IH]; simpl.
  - split; [|done]. intros _ n Hn. by apply elem_of_nil in Hn.
  - case_decide as Hk.
    + split; [done|]. intros Hall. destruct (Hall n0); [apply list_elem_of_here|done].
    + rewrite IH. split.
      * intros Hall n [->|Hn]%elem_of_cons; eauto.
      * intros Hall n Hn. apply Hall. by apply list_elem_of_further.
Qed.

Lemma chain_find_app k l1 n l2 :
  (∀ n', n' ∈ l1 → node_key n' ≠ k) → node_key n = k →
  chain_find k (l1 ++ n :: l2) = Some n.
Proof.
  intros Hl1 Hn. induction l1 as [|n0 l1 IH]; simpl.
  - by rewrite decide_True.
  - rewrite decide_False by (apply Hl1, list_elem_of_here).
    apply IH. intros n' Hn'. apply Hl1. by apply list_elem_of_further.
Qed.

Lemma chain_find_elem k l n : chain_find k l = Some n → n ∈ l ∧ node_key n = k.
Proof.
  intros (l1 & l2 & -> & Hk & _)%chain_find_Some. split; [|done].
  apply elem_of_app. right. apply list_elem_of_here.
Qed.

(** ** Loops over a chain *)

Section Loops.
Context {L M R : Type}.
Implicit Types (s : process L M) (body : positive → prog L M (option R)).

Lemma for_chain_miss body s fuel p l :
  is_chain (heap s) p l → (length l ≤ fuel)%nat →
  (∀ n, n ∈ l → body (node_addr n) s = Return None s) →
  for_chain fuel p body s = Return None s.
Proof.
  revert p fuel. induction l as [|n l IH]; intros p fuel.
  - simpl. intros -> _ _. by destruct fuel.
  - intros [-> (e & He & _ & _ & Hc)] Hlen Hbody. simpl in Hlen.
    destruct fuel as [|fuel]; [lia|]. simpl. unfold mbind, prog_bind.
    rewrite Hbody by apply list_elem_of_here. unfold load. rewrite He.
    apply IH; [done|lia|]. intros n' Hn'. apply Hbody. by apply list_elem_of_further.
Qed.

Lemma for_chain_hit body s fuel p l1 n l2 out :
  is_chain (heap s) p (l1 ++ n :: l2) → (length l1 < fuel)%nat →
  (∀ n', n' ∈ l1 → body (node_addr n') s = Return None s) →
  body (node_addr n) s = out → (∀ s', out ≠ Return None s') →
  for_chain fuel p body s = out.
Proof.
  revert p fuel. induction l1 as [|n0 l1 IH]; intros p fuel.
  - intros [-> _] Hlen _ Hout Hne. destruct fuel as [|fuel]; [simpl in Hlen; lia|].
    simpl. unfold mbind, prog_bind. rewrite Hout.
    destruct out as [[x|] s'| | |]; try done. by destruct (Hne s').
  - intros [-> (e & He & _ & _ & Hc)] Hlen Hbody Hout Hne. simpl in Hlen.
    destruct fuel as [|fuel]; [lia|]. simpl. unfold mbind, prog_bind.
    rewrite Hbody by apply list_elem_of_here. unfold load. rewrite He.
    apply IH; [done|lia| |done|done]. intros n' Hn'. apply Hbody. by apply list_elem_of_further.
Qed.
End Loops.

(** ** Array indexing *)

Lemma index_Some {A} (l : list A) i x :
  index l i = Some x ↔ 0 ≤ i ∧ l !! Z.to_nat i = Some x.
Proof.
  unfold index. case_decide; split; try done.
  - by intros [_ ?].
  - by intros [? _].
Qed.

Lemma index_insert_eq {A} (l : list A) i x y :
  index l i = Some x → index (<[Z.to_nat i := y]> l) i = Some y.
Proof.
  rewrite !index_Some. intros [? Hl]. split; [done|].
  apply list_lookup_insert_eq. by eapply lookup_lt_Some.
Qed.

Lemma index_insert_id {A} (l : list A) i x :
  index l i = Some x → <[Z.to_nat i := x]> l = l.
Proof. rewrite index_Some. intros [? Hl]. by apply list_insert_id. Qed.

Lemma index_insert_restore {A} (l : list A) i x y :
  index l i = Some x → <[Z.to_nat i := x]> (<[Z.to_nat i := y]> l) = l.
Proof. intros Hl. rewrite list_insert_insert_eq. by apply index_insert_id. Qed.

Section Fields.
Context {M : Type}.
Implicit Types (e : bucket_entry M).

Lemma key_with_val v e : key (with_val v e) = key e.
Proof. reflexivity. Qed.
Lemma val_with_val v e : val (with_val v e) = v.
Proof. reflexivity. Qed.
Lemma next_with_val v e : next (with_val v e) = next e.
Proof. reflexivity. Qed.
Lemma entry_mutex_with_val v e : entry_mutex (with_val v e) = entry_mutex e.
Proof. reflexivity. Qed.
Lemma key_with_mutex m e : key (with_mutex m e) = key e.
Proof. reflexivity. Qed.
Lemma val_with_mutex m e : val (with_mutex m e) = val e.
Proof. reflexivity. Qed.
Lemma next_with_mutex m e : next (with_mutex m e) = next e.
Proof. reflexivity. Qed.
Lemma entry_mutex_with_mutex m e : entry_mutex (with_mutex m e) = m.
Proof. reflexivity. Qed.
End Fields.

Create Rewrite HintDb fields.
Hint Rewrite @key_with_val @val_with_val @next_with_val @entry_mutex_with_val
  @key_with_mutex @val_with_mutex @next_with_mutex @entry_mutex_with_mutex : fields.

Ltac prog_simpl :=
  unfold mbind, prog_bind, mret, prog_ret, set_heap, set_table, set_locks, set_stdout in *;
  cbn [heap table bucket_locks stdout readers writer] in *.

Ltac prog_step :=
  first
  [ progress prog_simpl
  | match goal with
    | H : index ?l ?i = _ |- context [index ?l ?i] => rewrite H
    | H : ?h !! ?a = _ |- context [?h !! ?a] => rewrite H
    | |- context [index (<[Z.to_nat ?i := ?y]> ?l) ?i] =>
        erewrite (index_insert_eq l i _ y) by eassumption
    | |- context [<[Z.to_nat ?i := ?x]> (<[Z.to_nat ?i := ?y]> ?l)] =>
        erewrite (index_insert_restore l i x y) by eassumption
    | |- context [alter ?f ?a ?h !! ?a] => rewrite (lookup_alter_eq f h a)
    | |- context [?f <$> Some ?x] => change (f <$> Some x) with (Some (f x))
    | |- context [dom (alter ?f ?a ?h)] => rewrite (dom_alter_L f h a)
    | |- _ => progress autorewrite with fields
    end ].

Section Search.
Context {L M R : Type}.
Implicit Types (s : process L M) (body : positive → prog L M (option R)).

(** The loops of [insert] and [retrieve] all have the shape
    [if (current->key == key) { ...; return ...; }]. *)
Lemma is_chain_lookup (h : gmap positive (bucket_entry M)) p l n :
  is_chain h p l → n ∈ l →
  ∃ e, h !! node_addr n = Some e ∧ key e = node_key n ∧ val e = node_val n.
Proof.
  revert p. induction l as [|n' l IH]; intros p Hc Hin.
  - by apply elem_of_nil in Hin.
  - destruct Hc as [-> (e & He & Hk & Hv & Hc)].
    apply elem_of_cons in Hin as [->|Hin]; eauto.
Qed.

Lemma for_each_entry_miss body s k p l :
  is_chain (heap s) p l → chain_find k l = None →
  (∀ a e, heap s !! a = Some e → key e ≠ k → body a s = Return None s) →
  for_each_entry p body s = Return None s.
Proof.
  intros Hc Hfind Hskip. unfold for_each_entry.
  apply (for_chain_miss _ _ _ _ l); [done|by eapply is_chain_length|].
  intros n Hn. destruct (is_chain_lookup _ _ _ _ Hc Hn) as (e & He & Hk & _).
  apply (Hskip _ e); [done|]. rewrite Hk. by eapply chain_find_None.
Qed.

Lemma for_each_entry_hit body s k p l n :
  is_chain (heap s) p l → chain_find k l = Some n →
  (∀ a e, heap s !! a = Some e → key e ≠ k → body a s = Return None s) →
  ∃ e, heap s !! node_addr n = Some e ∧ key e = k ∧ val e = node_val n ∧ node_key n = k ∧
  ∀ out, body (node_addr n) s = out → (∀ s', out ≠ Return None s') →
         for_each_entry p body s = out.
Proof.
  intros Hc (l1 & l2 & -> & Hkn & Hl1)%chain_find_Some Hskip.
  destruct (is_chain_lookup _ _ _ n Hc) as (e & He & Hk & Hv).
  { apply elem_of_app. right. apply list_elem_of_here. }
  exists e. repeat split; [done|congruence|done|done|]. intros out Hout Hne.
  unfold for_each_entry.
  apply (for_chain_hit _ _ _ _ l1 n l2); [done| | |done|done].
  - apply is_chain_length in Hc. rewrite length_app in Hc. simpl in Hc. lia.
  - intros n' Hn'. destruct (is_chain_lookup _ _ _ n' Hc) as (e' & He' & Hk' & _).
    { apply elem_of_app. by left. }
    apply (Hskip _ e'); [done|]. rewrite Hk'. by apply Hl1.
Qed.
End Search.

Ltac prog_skip :=
  let a := fresh "a" in let e := fresh "e" in let He := fresh "He" in
  intros a e He ?; unfold load; repeat prog_step; by rewrite decide_False.

(** ** The three variants compute [upsert] and [lookup] *)

Lemma alter_lock_store_unlock {M} (h : gmap positive (bucket_entry M)) a e v (m m' : M) :
  h !! a = Some e → entry_mutex e = m →
  alter (with_mutex m) a (alter (with_val v) a (alter (with_mutex m') a h))
  = alter (with_val v) a h.
Proof.
  intros He Hm. apply map_eq. intros a'. destruct (decide (a = a')) as [<-|Hne].
  - rewrite !lookup_alter_eq, He. simpl. destruct e; simpl in *. by subst.
  - by rewrite !lookup_alter_ne.
Qed.

Lemma alter_lock_unlock {M} (h : gmap positive (bucket_entry M)) a e (m m' : M) :
  h !! a = Some e → entry_mutex e = m →
  alter (with_mutex m) a (alter (with_mutex m') a h) = h.
Proof.
  intros He Hm. apply map_eq. intros a'. destruct (decide (a = a')) as [<-|Hne].
  - rewrite !lookup_alter_eq, He. simpl. destruct e; simpl in *. by subst.
  - by rewrite !lookup_alter_ne.
Qed.

Ltac prog_find_hit Hc Hfind :=
  match goal with
  | |- context [for_each_entry ?p ?body ?s1] =>
      let e := fresh "e" in let He := fresh "He" in let Hk := fresh "Hk" in
      let Hv := fresh "Hv" in let Hrun := fresh "Hrun" in let Hkn := fresh "Hkn" in
      destruct (for_each_entry_hit body s1 _ p _ _ Hc Hfind) as (e & He & Hk & Hv & Hkn & Hrun);
      [prog_skip|]; prog_simpl; erewrite Hrun; clear Hrun; cycle 1
  end.

Ltac prog_find_miss Hc Hfind :=
  match goal with
  | |- context [for_each_entry ?p ?body ?s1] =>
      rewrite (for_each_entry_miss body s1 _ p _ Hc Hfind) by prog_skip
  end.

Section Variants.
Variable allocator : gset positive → ptr.
Hypothesis allocator_fresh : ∀ d a, allocator d = Some a → a ∉ d.

Lemma allocator_fresh_ne {M} (h : gmap positive (bucket_entry M)) a e r :
  allocator (dom h) = Some r → h !! a = Some e → r ≠ a.
Proof.
  intros Hr He ->. apply allocator_fresh in Hr. apply Hr, elem_of_dom. by exists e.
Qed.

Lemma spin_insert_upsert (s : process bool unit) k v p l :
  index (bucket_locks s) (slot k) = Some false →
  index (table s) (slot k) = Some p →
  is_chain (heap s) p l →
  Spin.insert allocator k v s = upsert () allocator k v p l s.
Proof.
  intros Hlock Htab Hc. unfold upsert.
  destruct s as [h t lk o]. prog_simpl.
  unfold Spin.insert, Spin.pthread_spin_lock, get_table. repeat prog_step.
  destruct (chain_find k l) as [n|] eqn:Hfind.
  - prog_find_hit Hc Hfind.
    + unfold load, store_val, Spin.pthread_spin_unlock. repeat prog_step.
      rewrite decide_True by done. repeat prog_step. reflexivity.
    + done.
    + done.
  - prog_find_miss Hc Hfind.
    unfold malloc. repeat prog_step.
    destruct (allocator (dom h)) as [a|].
    + unfold get_table, init_entry, put_table, Spin.pthread_spin_unlock. by repeat prog_step.
    + unfold Spin.pthread_spin_unlock, panic. by repeat prog_step.
Qed.

Lemma spin_retrieve_lookup (s : process bool unit) k p l :
  index (bucket_locks s) (slot k) = Some false →
  index (table s) (slot k) = Some p →
  is_chain (heap s) p l →
  Spin.retrieve allocator k s = lookup () allocator k l s.
Proof.
  intros Hlock Htab Hc. unfold lookup.
  destruct s as [h t lk o]. prog_simpl.
  unfold Spin.retrieve, Spin.pthread_spin_lock, get_table. repeat prog_step.
  destruct (chain_find k l) as [n|] eqn:Hfind.
  - prog_find_hit Hc Hfind.
    + unfold load, malloc. repeat prog_step.
      rewrite decide_True by done. repeat prog_step. reflexivity.
    + unfold init_entry, Spin.pthread_spin_unlock, panic.
      destruct (allocator (dom h)); by repeat prog_step.
    + unfold init_entry, Spin.pthread_spin_unlock, panic.
      destruct (allocator (dom h)); repeat prog_step; [|done]. by rewrite Hk, Hkn, Hv.
  - prog_find_miss Hc Hfind.
    unfold Spin.pthread_spin_unlock. by repeat prog_step.
Qed.

Lemma rwlock_insert_upsert (s : process rwlock unit) k v p l :
  index (bucket_locks s) (slot k) = Some (RwLock 0 false) →
  index (table s) (slot k) = Some p →
  is_chain (heap s) p l →
  RWLock.insert allocator k v s = upsert () allocator k v p l s.
Proof.
  intros Hlock Htab Hc. unfold upsert.
  destruct s as [h t lk o]. prog_simpl.
  unfold RWLock.insert, pthread_rwlock_wrlock, get_table. repeat prog_step.
  destruct (chain_find k l) as [n|] eqn:Hfind.
  - prog_find_hit Hc Hfind.
    + unfold load, store_val, pthread_rwlock_unlock. repeat prog_step.
      rewrite decide_True by done. repeat prog_step. reflexivity.
    + done.
    + done.
  - prog_find_miss Hc Hfind.
    unfold malloc. repeat prog_step.
    destruct (allocator (dom h)) as [a|].
    + unfold get_table, init_entry, put_table, pthread_rwlock_unlock. by repeat prog_step.
    + unfold pthread_rwlock_unlock, panic. by repeat prog_step.
Qed.

Lemma rwlock_retrieve_lookup (s : process rwlock unit) k p l others :
  index (bucket_locks s) (slot k) = Some (RwLock others false) →
  index (table s) (slot k) = Some p →
  is_chain (heap s) p l →
  RWLock.retrieve allocator k s = lookup () allocator k l s.
Proof.
  intros Hlock Htab Hc. unfold lookup.
  destruct s as [h t lk o]. prog_simpl.
  unfold RWLock.retrieve, pthread_rwlock_rdlock, get_table. repeat prog_step.
  destruct (chain_find k l) as [n|] eqn:Hfind.
  - prog_find_hit Hc Hfind.
    + unfold load, malloc. repeat prog_step.
      rewrite decide_True by done. repeat prog_step. reflexivity.
    + unfold init_entry, pthread_rwlock_unlock, panic.
      destruct (allocator (dom h)); by repeat prog_step.
    + unfold init_entry, pthread_rwlock_unlock, panic.
      destruct (allocator (dom h)); repeat prog_step; [|done]. by rewrite Hk, Hkn, Hv.
  - prog_find_miss Hc Hfind.
    unfold pthread_rwlock_unlock. by repeat prog_step.
Qed.

Lemma twolevel_insert_upsert (s : process rwlock bool) k v p l :
  index (bucket_locks s) (slot k) = Some (RwLock 0 false) →
  index (table s) (slot k) = Some p →
  is_chain (heap s) p l →
  chain_unlocked false (heap s) l →
  TwoLevel.insert allocator k v s = upsert false allocator k v p l s.
Proof.
  intros Hlock Htab Hc Hmx. unfold upsert.
  destruct s as [h t lk o]. unfold chain_unlocked in Hmx. prog_simpl.
  unfold TwoLevel.insert, pthread_rwlock_rdlock, get_table. repeat prog_step.
  destruct (chain_find k l) as [n|] eqn:Hfind.
  - unfold TwoLevel.update_if_match. prog_find_hit Hc Hfind.
    all: pose proof (Hmx n _ (proj1 (chain_find_elem _ _ _ Hfind)) He) as Hm.
    + unfold load, store_val, pthread_rwlock_unlock, TwoLevel.pthread_mutex_lock,
        TwoLevel.pthread_mutex_unlock. repeat prog_step.
      rewrite decide_True by done. repeat prog_step.
      rewrite Hm. repeat prog_step. reflexivity.
    + done.
    + repeat prog_step. by erewrite alter_lock_store_unlock by eauto.
  - unfold TwoLevel.update_if_match. prog_find_miss Hc Hfind.
    unfold pthread_rwlock_unlock, pthread_rwlock_wrlock, get_table. repeat prog_step.
    prog_find_miss Hc Hfind.
    unfold malloc. repeat prog_step.
    destruct (allocator (dom h)) as [a|].
    + unfold get_table, init_entry, put_table, pthread_rwlock_unlock. by repeat prog_step.
    + unfold pthread_rwlock_unlock, panic. by repeat prog_step.
Qed.

Lemma twolevel_retrieve_lookup (s : process rwlock bool) k p l others :
  index (bucket_locks s) (slot k) = Some (RwLock others false) →
  index (table s) (slot k) = Some p →
  is_chain (heap s) p l →
  chain_unlocked false (heap s) l →
  TwoLevel.retrieve allocator k s = lookup false allocator k l s.
Proof.
  intros Hlock Htab Hc Hmx. unfold lookup.
  destruct s as [h t lk o]. unfold chain_unlocked in Hmx. prog_simpl.
  unfold TwoLevel.retrieve, pthread_rwlock_rdlock, get_table. repeat prog_step.
  destruct (chain_find k l) as [n|] eqn:Hfind.
  - prog_find_hit Hc Hfind.
    all: pose proof (Hmx n _ (proj1 (chain_find_elem _ _ _ Hfind)) He) as Hm.
    + unfold load, malloc, TwoLevel.pthread_mutex_lock. repeat prog_step.
      rewrite decide_True by done. repeat prog_step.
      rewrite Hm. repeat prog_step. reflexivity.
    + unfold init_entry, pthread_rwlock_unlock, panic, TwoLevel.pthread_mutex_unlock, load.
      destruct (allocator _) as [r|] eqn:Hr; repeat prog_step; [|done].
      assert (r ≠ node_addr n) as Hne by eauto using allocator_fresh_ne.
      rewrite lookup_insert_ne by done. by repeat prog_step.
    + unfold init_entry, pthread_rwlock_unlock, panic, TwoLevel.pthread_mutex_unlock, load.
      destruct (allocator _) as [r|] eqn:Hr; repeat prog_step.
      * assert (r ≠ node_addr n) as Hne by eauto using allocator_fresh_ne.
        rewrite lookup_insert_ne by done. repeat prog_step.
        rewrite <- insert_alter_ne by done.
        erewrite alter_lock_unlock by eauto. by rewrite Hk, Hkn, Hv.
      * by erewrite alter_lock_unlock by eauto.
  - prog_find_miss Hc Hfind.
    unfold pthread_rwlock_unlock. by repeat prog_step.
Qed.
End Variants.

(** ** Tables *)

Section Buckets.
Context {L M : Type}.
Implicit Types (s : process L M) (ls : list (list node)) (l : list node).

Lemma buckets_table_length s ls : buckets s ls → length (table s) = Z.to_nat NUM_BUCKETS.
Proof. intros [Hlen Hch _]. by rewrite (Forall2_length _ _ _ Hch). Qed.

Lemma buckets_slot_range s ls k l :
  buckets s ls → index ls (slot k) = Some l → 0 ≤ slot k < NUM_BUCKETS.
Proof.
  intros [Hlen _ _] [Hk0 Hl%lookup_lt_Some]%index_Some. unfold NUM_BUCKETS in *. lia.
Qed.

Lemma buckets_lookup s ls i l :
  buckets s ls → ls !! i = Some l → ∃ p, table s !! i = Some p ∧ is_chain (heap s) p l.
Proof.
  intros [_ Hch _] Hl. destruct (Forall2_lookup_r _ _ _ _ _ Hch Hl) as (p & ? & ?). eauto.
Qed.

Lemma buckets_index s ls k p :
  buckets s ls → index (table s) (slot k) = Some p →
  ∃ l, index ls (slot k) = Some l ∧ is_chain (heap s) p l.
Proof.
  intros [_ Hch _] [? Hp]%index_Some.
  destruct (Forall2_lookup_l _ _ _ _ _ Hch Hp) as (l & ? & ?).
  exists l. by rewrite index_Some.
Qed.

Lemma buckets_index_inv s ls k l :
  buckets s ls → index ls (slot k) = Some l →
  ∃ p, index (table s) (slot k) = Some p ∧ is_chain (heap s) p l.
Proof.
  intros Hb [? Hl]%index_Some. destruct (buckets_lookup _ _ _ _ Hb Hl) as (p & ? & ?).
  exists p. by rewrite index_Some.
Qed.

Lemma buckets_index_is_Some s ls k :
  buckets s ls → 0 ≤ slot k < NUM_BUCKETS → is_Some (index ls (slot k)).
Proof.
  intros [Hlen _ _] Hk. unfold index. rewrite decide_True by lia.
  apply lookup_lt_is_Some. lia.
Qed.

(** An address occurs in the bucket of its key's slot only. *)
Lemma buckets_addr_unique s ls i j li lj ni nj :
  buckets s ls → ls !! i = Some li → ls !! j = Some lj →
  ni ∈ li → nj ∈ lj → node_addr ni = node_addr nj → i = j ∧ node_key ni = node_key nj.
Proof.
  intros Hb Hi Hj Hni Hnj Ha.
  destruct (buckets_lookup _ _ _ _ Hb Hi) as (pi & _ & Hci).
  destruct (buckets_lookup _ _ _ _ Hb Hj) as (pj & _ & Hcj).
  destruct (is_chain_lookup _ _ _ _ Hci Hni) as (ei & Hei & Hki & _).
  destruct (is_chain_lookup _ _ _ _ Hcj Hnj) as (ej & Hej & Hkj & _).
  rewrite Ha, Hej in Hei. simplify_eq.
  assert (node_key ni = node_key nj) as Hk by congruence. split; [|done].
  pose proof (buckets_slot _ _ Hb _ _ _ Hi Hni) as Hsi.
  pose proof (buckets_slot _ _ Hb _ _ _ Hj Hnj) as Hsj.
  rewrite Hk in Hsi. lia.
Qed.
End Buckets.

(** ** Searching and updating a chain *)

Lemma chain_find_store_same k v l n :
  chain_find k l = Some n →
  chain_find k (chain_store (node_addr n) v l) = Some (Node (node_addr n) k v).
Proof.
  induction l as [|n0 l IH]; [done|]. rewrite chain_store_cons. simpl.
  destruct (decide (node_key n0 = k)) as [Hk|Hk].
  - intros [= <-]. destruct (decide (node_addr n0 = node_addr n0)); [|done].
    simpl. rewrite decide_True by done. by rewrite Hk.
  - intros Hfind. destruct (decide (node_addr n0 = node_addr n)); simpl;
      rewrite decide_False by done; by apply IH.
Qed.

Lemma chain_find_store_other k a v l :
  (∀ n, n ∈ l → node_addr n = a → node_key n ≠ k) →
  node_val <$> chain_find k (chain_store a v l) = node_val <$> chain_find k l.
Proof.
  induction l as [|n0 l IH]; [done|]. intros Hl. rewrite chain_store_cons. simpl.
  assert (node_val <$> chain_find k (chain_store a v l) = node_val <$> chain_find k l) as IH'.
  { apply IH. intros n Hn. apply Hl. by apply list_elem_of_further. }
  destruct (decide (node_addr n0 = a)) as [Ha|Ha]; simpl.
  - rewrite !decide_False by (apply Hl; [apply list_elem_of_here|done]). done.
  - case_decide; [done|]. done.
Qed.

Lemma chain_count_cons k n l :
  chain_count k (n :: l) = ((if decide (node_key n = k) then 1 else 0) + chain_count k l)%nat.
Proof. unfold chain_count. rewrite filter_cons. by case_decide. Qed.

Lemma chain_count_notin k l : k ∉ node_key <$> l → chain_count k l = 0%nat.
Proof.
  induction l as [|n l IH]; [done|]. rewrite fmap_cons, not_elem_of_cons.
  intros [Hne Hnin]. rewrite chain_count_cons, decide_False by done. by rewrite IH.
Qed.

Lemma chain_count_NoDup k l n :
  NoDup (node_key <$> l) → chain_find k l = Some n → chain_count k l = 1%nat.
Proof.
  induction l as [|n0 l IH]; [done|]. rewrite fmap_cons, NoDup_cons.
  intros [Hnin Hnd]. simpl. rewrite chain_count_cons. case_decide as Hk.
  - intros _. rewrite chain_count_notin; [done|]. by rewrite <- Hk.
  - intros Hfind. by rewrite IH.
Qed.

Lemma chain_find_keys k l : chain_find k l = None ↔ k ∉ node_key <$> l.
Proof.
  rewrite chain_find_None. split.
  - intros Hall (n & -> & Hn)%list_elem_of_fmap. by apply (Hall n).
  - intros Hnin n Hn <-. apply Hnin. apply list_elem_of_fmap. eauto.
Qed.

Section ChainKeys.
Context {M : Type}.
Implicit Types (h : gmap positive (bucket_entry M)).

Lemma is_chain_addr_key h p l n n' :
  is_chain h p l → n ∈ l → n' ∈ l → node_addr n = node_addr n' → node_key n = node_key n'.
Proof.
  intros Hc Hn Hn' Ha.
  destruct (is_chain_lookup _ _ _ _ Hc Hn) as (e & He & Hk & _).
  destruct (is_chain_lookup _ _ _ _ Hc Hn') as (e' & He' & Hk' & _).
  rewrite Ha in He. congruence.
Qed.
End ChainKeys.

(** ** [upsert] on a well-formed table *)

Section Upsert.
Context {L M : Type}.
Variable mutex0 : M.
Variable allocator : gset positive → ptr.
Hypothesis allocator_fresh : ∀ d a, allocator d = Some a → a ∉ d.
Implicit Types (s : process L M) (ls : list (list node)) (l : list node).

Lemma store_buckets s ls k v l n :
  buckets s ls → index ls (slot k) = Some l → chain_find k l = Some n →
  buckets (set_heap (alter (with_val v) (node_addr n) (heap s)) s)
          (<[Z.to_nat (slot k) := chain_store (node_addr n) v l]> ls).
Proof.
  intros Hb [Hk0 Hl]%index_Some Hfind.
  destruct (chain_find_elem _ _ _ Hfind) as [Hn Hkn].
  pose proof Hb as [Hlen Hch Hsl]. split.
  - by rewrite length_insert.
  - apply Forall2_same_length_lookup. split.
    { rewrite length_insert. by eapply Forall2_length. }
    intros i p l' Hp Hl'. cbn [heap set_heap table] in *.
    destruct (decide (i = Z.to_nat (slot k))) as [->|Hne].
    + rewrite list_lookup_insert_eq in Hl' by (by eapply lookup_lt_Some). simplify_eq.
      apply is_chain_store. destruct (buckets_lookup _ _ _ _ Hb Hl) as (p' & ? & ?).
      by simplify_eq.
    + rewrite list_lookup_insert_ne in Hl' by done.
      destruct (buckets_lookup _ _ _ _ Hb Hl') as (p' & ? & Hc'). simplify_eq.
      rewrite <- (chain_store_notin (node_addr n) v l').
      * by apply is_chain_store.
      * intros (n' & Ha & Hn')%list_elem_of_fmap.
        destruct (buckets_addr_unique _ _ _ _ _ _ _ _ Hb Hl Hl' Hn Hn' Ha). done.
  - intros i l' n' Hl' Hn'.
    destruct (decide (i = Z.to_nat (slot k))) as [->|Hne].
    + rewrite list_lookup_insert_eq in Hl' by (by eapply lookup_lt_Some). simplify_eq.
      assert (node_key n' ∈ node_key <$> chain_store (node_addr n) v l) as Hin.
      { apply list_elem_of_fmap. eauto. }
      rewrite chain_store_key in Hin. apply list_elem_of_fmap in Hin as (n0 & -> & Hn0).
      eauto.
    + rewrite list_lookup_insert_ne in Hl' by done. eauto.
Qed.

Lemma link_buckets s ls k v p l a :
  buckets s ls → index (table s) (slot k) = Some p → index ls (slot k) = Some l →
  heap s !! a = None →
  buckets (set_table (<[Z.to_nat (slot k) := Some a]> (table s))
             (set_heap (<[a := BucketEntry k v p mutex0]> (heap s)) s))
          (<[Z.to_nat (slot k) := Node a k v :: l]> ls).
Proof.
  intros Hb [Hk0 Hp]%index_Some [_ Hl]%index_Some Ha.
  pose proof Hb as [Hlen Hch Hsl]. split.
  - by rewrite length_insert.
  - cbn [heap set_heap table set_table]. apply Forall2_same_length_lookup. split.
    { rewrite !length_insert. by eapply Forall2_length. }
    intros i p' l' Hp' Hl'.
    destruct (decide (i = Z.to_nat (slot k))) as [->|Hne].
    + rewrite list_lookup_insert_eq in Hl' by (by eapply lookup_lt_Some).
      rewrite list_lookup_insert_eq in Hp' by (by eapply lookup_lt_Some). simplify_eq.
      simpl. split; [done|]. eexists. rewrite lookup_insert_eq. repeat split.
      apply is_chain_insert_fresh; [done|].
      destruct (buckets_lookup _ _ _ _ Hb Hl) as (p' & ? & ?). by simplify_eq.
    + rewrite list_lookup_insert_ne in Hl' by done.
      rewrite list_lookup_insert_ne in Hp' by done.
      apply is_chain_insert_fresh; [done|].
      destruct (buckets_lookup _ _ _ _ Hb Hl') as (p'' & ? & ?). by simplify_eq.
  - intros i l' n' Hl' Hn'.
    destruct (decide (i = Z.to_nat (slot k))) as [->|Hne].
    + rewrite list_lookup_insert_eq in Hl' by (by eapply lookup_lt_Some). simplify_eq.
      apply elem_of_cons in Hn' as [->|Hn']; [simpl; lia|eauto].
    + rewrite list_lookup_insert_ne in Hl' by done. eauto.
Qed.
End Upsert.

Lemma index_insert_ne {A} (l : list A) i j x :
  0 ≤ i → i ≠ j → index (<[Z.to_nat i := x]> l) j = index l j.
Proof.
  intros Hi Hne. unfold index. case_decide; [|done].
  apply list_lookup_insert_ne. lia.
Qed.

Lemma index_replicate {A} (x : A) i :
  index (replicate (Z.to_nat NUM_BUCKETS) x) i
  = if decide (0 ≤ i < NUM_BUCKETS) then Some x else None.
Proof.
  unfold index. case_decide; case_decide; try lia; try done.
  - apply lookup_replicate_2. lia.
  - apply lookup_replicate_None. lia.
Qed.

Lemma slot_range k : 0 ≤ k → 0 ≤ slot k < NUM_BUCKETS.
Proof. intros Hk. unfold slot, NUM_BUCKETS. rewrite Z.rem_mod_nonneg by lia. apply Z.mod_pos_bound. lia. Qed.

(** ** The strategies, uniformly *)

Section Strategies.
Variable allocator : gset positive → ptr.
Hypothesis allocator_fresh : ∀ d a, allocator d = Some a → a ∉ d.

Lemma implemented_insert V (s : process (lock_t V) (mutex_t V)) k v p l :
  implemented V →
  index (bucket_locks s) (slot k) = Some (lock_init V) →
  index (table s) (slot k) = Some p →
  is_chain (heap s) p l →
  chain_unlocked (mutex_init V) (heap s) l →
  insert_of V allocator k v s = upsert (mutex_init V) allocator k v p l s.
Proof.
  intros HV. destruct HV; simpl in *; intros.
  - by apply spin_insert_upsert.
  - by apply rwlock_insert_upsert.
  - by apply twolevel_insert_upsert.
Qed.

Lemma implemented_retrieve V (s : process (lock_t V) (mutex_t V)) k p l :
  implemented V →
  index (bucket_locks s) (slot k) = Some (lock_init V) →
  index (table s) (slot k) = Some p →
  is_chain (heap s) p l →
  chain_unlocked (mutex_init V) (heap s) l →
  retrieve_of V allocator k s = lookup (mutex_init V) allocator k l s.
Proof.
  intros HV. destruct HV; simpl in *; intros.
  - by apply spin_retrieve_lookup with p.
  - by apply rwlock_retrieve_lookup with p 0%nat.
  - by apply twolevel_retrieve_lookup with p 0%nat.
Qed.

(** With a slot outside the lock array, the very first statement of both
    functions is undefined. *)
Lemma implemented_insert_undefined V (s : process (lock_t V) (mutex_t V)) k v :
  implemented V → index (bucket_locks s) (slot k) = None →
  insert_of V allocator k v s = Undefined.
Proof.
  intros HV Hlock. destruct HV; simpl in *.
  - unfold Spin.insert, Spin.pthread_spin_lock. by repeat prog_step.
  - unfold RWLock.insert, pthread_rwlock_wrlock. by repeat prog_step.
  - unfold TwoLevel.insert, pthread_rwlock_rdlock. by repeat prog_step.
Qed.

Lemma implemented_retrieve_undefined V (s : process (lock_t V) (mutex_t V)) k :
  implemented V → index (bucket_locks s) (slot k) = None →
  retrieve_of V allocator k s = Undefined.
Proof.
  intros HV Hlock. destruct HV; simpl in *.
  - unfold Spin.retrieve, Spin.pthread_spin_lock. by repeat prog_step.
  - unfold RWLock.retrieve, pthread_rwlock_rdlock. by repeat prog_step.
  - unfold TwoLevel.retrieve, pthread_rwlock_rdlock. by repeat prog_step.
Qed.
End Strategies.

Section Unlocked.
Context {M : Type}.
Implicit Types (h : gmap positive (bucket_entry M)) (l : list node).

Lemma chain_store_elem a v l n :
  n ∈ chain_store a v l → ∃ n0, n0 ∈ l ∧ node_addr n0 = node_addr n ∧ node_key n0 = node_key n.
Proof.
  unfold chain_store. intros (n0 & -> & Hn0)%list_elem_of_fmap.
  exists n0. split; [done|]. by case_decide.
Qed.

Lemma chain_unlocked_store (m : M) h l a a' v :
  chain_unlocked m h l → chain_unlocked m (alter (with_val v) a h) (chain_store a' v l).
Proof.
  intros Hl n e (n0 & Hn0 & Ha & _)%chain_store_elem. rewrite <- Ha.
  intros [[_ (e' & He' & ->)]|[_ He']]%lookup_alter_Some; [|by eauto].
  rewrite entry_mutex_with_val. eauto.
Qed.

Lemma chain_unlocked_store_other (m : M) h l a v :
  chain_unlocked m h l → chain_unlocked m (alter (with_val v) a h) l.
Proof.
  intros Hl n e Hn.
  intros [[_ (e' & He' & ->)]|[_ He']]%lookup_alter_Some; [|by eauto].
  rewrite entry_mutex_with_val. eauto.
Qed.

Lemma chain_unlocked_agree (m : M) h h' l :
  (∀ n, n ∈ l → h' !! node_addr n = h !! node_addr n) →
  chain_unlocked m h l → chain_unlocked m h' l.
Proof. intros Hag Hl n e Hn. rewrite Hag by done. eauto. Qed.

Lemma chain_unlocked_insert_fresh (m : M) h p l a e :
  is_chain h p l → h !! a = None →
  chain_unlocked m h l → chain_unlocked m (<[a := e]> h) l.
Proof.
  intros Hc Ha. apply chain_unlocked_agree. intros n Hn.
  destruct (is_chain_dom _ _ _ _ Hc Hn) as [e' He'].
  apply lookup_insert_ne. congruence.
Qed.
End Unlocked.

(** ** Runs of a strategy

    Everything below follows from the strategy computing [upsert] and
    [lookup] on a table at rest, so it is proved once for the three. *)

Section Runs.
Variable V : strategy.
Hypothesis HV : implemented V.
Variable allocator : gset positive → ptr.
Hypothesis allocator_fresh : ∀ d a, allocator d = Some a → a ∉ d.
Implicit Types (s : process (lock_t V) (mutex_t V)) (ls : list (list node)) (l : list node).

Lemma empty_table_consistent :
  consistent (lock_init V) (mutex_init V)
    (empty_table (lock_init V)) (replicate (Z.to_nat NUM_BUCKETS) []).
Proof.
  unfold empty_table. split; [split|split].
  - by rewrite length_replicate.
  - cbn [heap table]. apply Forall2_same_length_lookup.
    split; [by rewrite !length_replicate|].
    intros i p l [-> _]%lookup_replicate [-> _]%lookup_replicate. done.
  - intros i l n [-> _]%lookup_replicate Hn. by apply elem_of_nil in Hn.
  - split; [done|]. intros l [-> _]%elem_of_replicate n e Hn. by apply elem_of_nil in Hn.
  - intros l [-> _]%elem_of_replicate. constructor.
Qed.

Lemma consistent_lock s ls k :
  consistent (lock_init V) (mutex_init V) s ls → 0 ≤ slot k < NUM_BUCKETS →
  index (bucket_locks s) (slot k) = Some (lock_init V).
Proof.
  intros (_ & [-> _] & _) Hk. by rewrite index_replicate, decide_True.
Qed.

Lemma consistent_no_lock s ls k :
  consistent (lock_init V) (mutex_init V) s ls → ¬ 0 ≤ slot k < NUM_BUCKETS →
  index (bucket_locks s) (slot k) = None.
Proof.
  intros (_ & [-> _] & _) Hk. by rewrite index_replicate, decide_False.
Qed.

Lemma consistent_bucket s ls k :
  consistent (lock_init V) (mutex_init V) s ls → 0 ≤ slot k < NUM_BUCKETS →
  ∃ p l, index ls (slot k) = Some l ∧ index (table s) (slot k) = Some p ∧
         is_chain (heap s) p l ∧ chain_unlocked (mutex_init V) (heap s) l ∧
         NoDup (node_key <$> l).
Proof.
  intros (Hb & [_ Hmx] & Hnd) Hk.
  destruct (buckets_index_is_Some _ _ k Hb Hk) as [l Hl].
  destruct (buckets_index_inv _ _ _ _ Hb Hl) as (p & Hp & Hc).
  assert (l ∈ ls) as Hin.
  { apply index_Some in Hl as [_ Hl]. by eapply list_elem_of_lookup_2. }
  exists p, l. eauto 10.
Qed.

Lemma insert_consistent s ls k v s' :
  consistent (lock_init V) (mutex_init V) s ls →
  insert_of V allocator k v s = Return () s' →
  0 ≤ slot k < NUM_BUCKETS ∧
  ∃ ls', consistent (lock_init V) (mutex_init V) s' ls' ∧
    ∀ k', node_val <$> table_find ls' k'
          = if decide (k' = k) then Some v else node_val <$> table_find ls k'.
Proof.
  intros Hcons Hret.
  destruct (decide (0 ≤ slot k < NUM_BUCKETS)) as [Hk|Hk]; cycle 1.
  { rewrite implemented_insert_undefined in Hret by eauto using consistent_no_lock. done. }
  split; [done|].
  destruct (consistent_bucket _ _ _ Hcons Hk) as (p & l & Hl & Hp & Hc & Hun & Hndl).
  rewrite (implemented_insert _ _ _ _ _ p l) in Hret by eauto using consistent_lock.
  destruct Hcons as (Hb & [Hlk Hmx] & Hnd).
  unfold upsert in Hret.
  pose proof Hl as [_ Hl']%index_Some.
  assert (∀ k', slot k' ≠ slot k →
    ∀ l', table_find (<[Z.to_nat (slot k) := l']> ls) k' = table_find ls k') as Hother.
  { intros k' Hne l'. unfold table_find. rewrite index_insert_ne by lia. done. }
  assert (∀ k', slot k' = slot k →
    ∀ l', table_find (<[Z.to_nat (slot k) := l']> ls) k' = chain_find k' l') as Hsame.
  { intros k' Heq l'. unfold table_find. rewrite Heq.
    by erewrite index_insert_eq by done. }
  assert (∀ k', slot k' = slot k → table_find ls k' = chain_find k' l) as Hold.
  { intros k' Heq. unfold table_find. by rewrite Heq, Hl. }
  destruct (chain_find k l) as [n|] eqn:Hfind.
  - injection Hret as <-. destruct (chain_find_elem _ _ _ Hfind) as [Hn Hkn].
    exists (<[Z.to_nat (slot k) := chain_store (node_addr n) v l]> ls).
    split; [split; [|split]|].
    + by apply store_buckets.
    + split; [done|]. intros l' (i & Hi)%list_elem_of_lookup. cbn [heap set_heap].
      destruct (decide (i = Z.to_nat (slot k))) as [->|Hne].
      * rewrite list_lookup_insert_eq in Hi by (by eapply lookup_lt_Some). simplify_eq.
        by apply chain_unlocked_store.
      * rewrite list_lookup_insert_ne in Hi by done.
        apply chain_unlocked_store_other, Hmx. by eapply list_elem_of_lookup_2.
    + intros l' (i & Hi)%list_elem_of_lookup.
      destruct (decide (i = Z.to_nat (slot k))) as [->|Hne].
      * rewrite list_lookup_insert_eq in Hi by (by eapply lookup_lt_Some). simplify_eq.
        by rewrite chain_store_key.
      * rewrite list_lookup_insert_ne in Hi by done. apply Hnd.
        by eapply list_elem_of_lookup_2.
    + intros k'. destruct (decide (slot k' = slot k)) as [Heq|Hne].
      * rewrite Hsame, Hold by done. case_decide as Hkk.
        -- subst k'. by rewrite (chain_find_store_same _ _ _ _ Hfind).
        -- apply chain_find_store_other. intros n' Hn' Ha.
           rewrite (is_chain_addr_key _ _ _ _ _ Hc Hn' Hn Ha). congruence.
      * rewrite Hother by done. rewrite decide_False; [done|]. congruence.
  - destruct (allocator (dom (heap s))) as [a|] eqn:Ha; [|done]. injection Hret as <-.
    assert (heap s !! a = None) as Hfresh.
    { apply not_elem_of_dom. by apply allocator_fresh. }
    exists (<[Z.to_nat (slot k) := Node a k v :: l]> ls).
    split; [split; [|split]|].
    + by apply link_buckets.
    + split; [done|]. intros l' (i & Hi)%list_elem_of_lookup.
      cbn [heap set_heap set_table].
      destruct (decide (i = Z.to_nat (slot k))) as [->|Hne].
      * rewrite list_lookup_insert_eq in Hi by (by eapply lookup_lt_Some). simplify_eq.
        intros n e [->|Hn]%elem_of_cons.
        -- cbn [node_addr]. rewrite lookup_insert_eq. by intros [= <-].
        -- by eapply chain_unlocked_insert_fresh.
      * rewrite list_lookup_insert_ne in Hi by done.
        destruct (buckets_lookup _ _ _ _ Hb Hi) as (p' & _ & Hc').
        eapply chain_unlocked_insert_fresh; [done|done|].
        apply Hmx. by eapply list_elem_of_lookup_2.
    + intros l' (i & Hi)%list_elem_of_lookup.
      destruct (decide (i = Z.to_nat (slot k))) as [->|Hne].
      * rewrite list_lookup_insert_eq in Hi by (by eapply lookup_lt_Some). simplify_eq.
        rewrite fmap_cons. constructor; [|done]. by apply chain_find_keys.
      * rewrite list_lookup_insert_ne in Hi by done. apply Hnd.
        by eapply list_elem_of_lookup_2.
    + intros k'. destruct (decide (slot k' = slot k)) as [Heq|Hne].
      * rewrite Hsame, Hold by done. simpl.
        destruct (decide (k = k')) as [->|Hkk].
        -- by rewrite decide_True.
        -- by rewrite decide_False by congruence.
      * rewrite Hother by done. rewrite decide_False; [done|]. congruence.
Qed.

Lemma insert_all_consistent ops : ∀ s ls s',
  consistent (lock_init V) (mutex_init V) s ls →
  insert_all (insert_of V allocator) ops s = Return () s' →
  (∀ k, k ∈ ops.*1 → 0 ≤ slot k < NUM_BUCKETS) ∧
  ∃ ls', consistent (lock_init V) (mutex_init V) s' ls' ∧
    ∀ k, node_val <$> table_find ls' k
         = match last_value k ops with
           | Some v => Some v
           | None => node_val <$> table_find ls k
           end.
Proof.
  induction ops as [|[k v] ops IH]; intros s ls s' Hcons Hrun.
  - injection Hrun as <-. split.
    + intros k Hk. by apply elem_of_nil in Hk.
    + exists ls. split; [done|]. done.
  - cbn [insert_all] in Hrun. unfold mbind, prog_bind in Hrun.
    destruct (insert_of V allocator k v s) as [[] s1| | |] eqn:Hins; try done.
    destruct (insert_consistent _ _ _ _ _ Hcons Hins) as (Hk & ls1 & Hcons1 & Hfind1).
    destruct (IH _ _ _ Hcons1 Hrun) as (Hks & ls' & Hcons' & Hfind').
    split.
    + intros k' Hk'. rewrite fmap_cons in Hk'.
      apply elem_of_cons in Hk' as [->|Hk']; [done|eauto].
    + exists ls'. split; [done|]. intros k'. rewrite Hfind'. cbn [last_value].
      destruct (last_value k' ops); [done|]. rewrite Hfind1.
      destruct (decide (k = k')) as [->|Hne].
      * by rewrite decide_True.
      * by rewrite decide_False by congruence.
Qed.

Lemma insert_returns s ls k v :
  consistent (lock_init V) (mutex_init V) s ls → 0 ≤ slot k < NUM_BUCKETS →
  is_Some (allocator (dom (heap s))) ∨ is_Some (table_find ls k) →
  ∃ s', insert_of V allocator k v s = Return () s'.
Proof.
  intros Hcons Hk Hok.
  destruct (consistent_bucket _ _ _ Hcons Hk) as (p & l & Hl & Hp & Hc & Hun & Hndl).
  rewrite (implemented_insert _ _ _ _ _ p l) by eauto using consistent_lock.
  unfold upsert. unfold table_find in Hok. rewrite Hl in Hok. simpl in Hok.
  destruct (chain_find k l); [by eauto|].
  destruct Hok as [[a ->]|[? ?]]; [by eauto|done].
Qed.

Lemma insert_all_returns ops : ∀ s ls,
  consistent (lock_init V) (mutex_init V) s ls →
  (∀ k, k ∈ ops.*1 → 0 ≤ slot k < NUM_BUCKETS) →
  (∀ d, is_Some (allocator d)) →
  ∃ s', insert_all (insert_of V allocator) ops s = Return () s'.
Proof.
  induction ops as [|[k v] ops IH]; intros s ls Hcons Hks Halloc.
  - by exists s.
  - destruct (insert_returns s ls k v) as [s1 Hins]; [done| |by left|].
    { apply Hks. rewrite fmap_cons. apply list_elem_of_here. }
    destruct (insert_consistent _ _ _ _ _ Hcons Hins) as (_ & ls1 & Hcons1 & _).
    destruct (IH s1 ls1) as [s' Hrun]; [done| |done|].
    { intros k' Hk'. apply Hks. rewrite fmap_cons. by apply list_elem_of_further. }
    exists s'. cbn [insert_all]. unfold mbind, prog_bind. by rewrite Hins.
Qed.

Lemma table_find_node s ls k n :
  consistent (lock_init V) (mutex_init V) s ls → table_find ls k = Some n →
  ∃ l, index ls (slot k) = Some l ∧ chain_find k l = Some n ∧ node_key n = k ∧
       chain_count k l = 1%nat.
Proof.
  intros (Hb & _ & Hnd). unfold table_find.
  destruct (index ls (slot k)) as [l|] eqn:Hl; [|done]. simpl. intros Hfind.
  exists l. repeat split; [done|by eapply chain_find_elem|].
  eapply chain_count_NoDup; [|done]. apply Hnd.
  apply index_Some in Hl as [_ Hl]. by eapply list_elem_of_lookup_2.
Qed.

Lemma retrieve_answer s ls k :
  consistent (lock_init V) (mutex_init V) s ls → 0 ≤ slot k < NUM_BUCKETS →
  retrieve_of V allocator k s = answer (mutex_init V) allocator k (node_val <$> table_find ls k) s.
Proof.
  intros Hcons Hk.
  destruct (consistent_bucket _ _ _ Hcons Hk) as (p & l & Hl & Hp & Hc & Hun & Hndl).
  rewrite (implemented_retrieve _ allocator_fresh _ _ _ p l) by eauto using consistent_lock.
  unfold lookup, answer, table_find. rewrite Hl. simpl.
  destruct (chain_find k l) as [n|] eqn:Hfind; [|done]. simpl.
  by destruct (chain_find_elem _ _ _ Hfind) as [_ ->].
Qed.

Lemma retrieve_undefined s ls k :
  consistent (lock_init V) (mutex_init V) s ls → ¬ 0 ≤ slot k < NUM_BUCKETS →
  retrieve_of V allocator k s = Undefined.
Proof. intros. eapply implemented_retrieve_undefined; eauto using consistent_no_lock. Qed.

Lemma last_value_is_Some k ops : k ∈ ops.*1 → is_Some (last_value k ops).
Proof.
  induction ops as [|[k' v] ops IH]; [by intros ?%elem_of_nil|].
  rewrite fmap_cons. cbn [last_value fst]. intros [->|Hk]%elem_of_cons.
  - destruct (last_value k' ops); [by eauto|]. rewrite decide_True by done. by eauto.
  - destruct (IH Hk) as [v' ->]. by eauto.
Qed.
End Runs.

(** ** The table contract *)

(** C3 (uniqueness, last writer wins, no lost keys).  Starting from the
    empty table, once a sequence of inserts has completed, no chain holds
    a key twice; every key that was inserted has exactly one entry, in the
    chain of the bucket it hashes to, holding the value of its last
    insert; and looking it up does not answer not-found.  This holds in
    each of the three variants. *)
Theorem inserts_leave_one_entry_per_key V allocator ops s :
  implemented V →
  (∀ d a, allocator d = Some a → a ∉ d) →
  insert_all (insert_of V allocator) ops (empty_table (lock_init V)) = Return () s →
  ∃ ls, buckets s ls ∧
    (∀ l, l ∈ ls → NoDup (node_key <$> l)) ∧
    ∀ k, k ∈ ops.*1 →
      ∃ v l n, last_value k ops = Some v ∧
        index ls (slot k) = Some l ∧ chain_count k l = 1%nat ∧
        chain_find k l = Some n ∧ node_key n = k ∧ node_val n = v ∧
        (∀ s', retrieve_of V allocator k s ≠ Return None s') ∧
        retrieve_of V allocator k s = answer (mutex_init V) allocator k (Some v) s.
Proof.
  intros HV Hfresh Hrun.
  destruct (insert_all_consistent V HV allocator Hfresh ops _ _ _
              (empty_table_consistent V) Hrun) as (Hks & ls & Hcons & Hfind).
  exists ls. destruct Hcons as (Hb & Hidle & Hnd). split; [done|]. split; [done|].
  intros k Hk. destruct (last_value_is_Some _ _ Hk) as [v Hv].
  specialize (Hfind k). rewrite Hv in Hfind.
  destruct (table_find ls k) as [n|] eqn:Hn; [|done]. injection Hfind as Hnv.
  destruct (table_find_node V _ _ _ _ (conj Hb (conj Hidle Hnd)) Hn) as (l & Hl & Hcf & Hkn & Hcount).
  assert (retrieve_of V allocator k s = answer (mutex_init V) allocator k (Some v) s) as Hret.
  { rewrite (retrieve_answer V HV allocator Hfresh s ls); [by rewrite Hn, <- Hnv|done|].
    apply Hks, Hk. }
  exists v, l, n. repeat split; try done.
  intros s'. rewrite Hret. unfold answer. by destruct (allocator _).
Qed.


Lemma set_heap_id {L M} (s : process L M) : set_heap (heap s) s = s.
Proof. by destruct s. Qed.

Lemma with_val_id {M} (e : bucket_entry M) : with_val (val e) e = e.
Proof. by destruct e. Qed.

Lemma slot_mod k : 0 ≤ k → slot k = k `mod` NUM_BUCKETS.
Proof. intros Hk. unfold slot, NUM_BUCKETS. apply Z.rem_mod_nonneg; lia. Qed.

(** [insert] on the chain of the bucket it indexes. *)
Lemma insert_upsert_bucket V allocator s ls k v p l :
  implemented V →
  (∀ d a, allocator d = Some a → a ∉ d) →
  consistent (lock_init V) (mutex_init V) s ls →
  index (table s) (slot k) = Some p →
  is_chain (heap s) p l →
  insert_of V allocator k v s = upsert (mutex_init V) allocator k v p l s ∧
  (is_Some (chain_find k l) → ∃ s', insert_of V allocator k v s = Return () s') ∧
  (∀ s', insert_of V allocator k v s = Return () s' →
         insert_of V allocator k v s' = Return () s').
Proof.
  intros HV Hfresh Hcons Hp Hc.
  assert (0 ≤ slot k < NUM_BUCKETS) as Hk.
  { apply index_Some in Hp as [? Hp%lookup_lt_Some].
    destruct Hcons as (Hb & _). rewrite (buckets_table_length _ _ Hb) in Hp. lia. }
  destruct (consistent_bucket V _ _ _ Hcons Hk) as (p' & l' & Hl & Hp' & Hc' & Hun & _).
  rewrite Hp in Hp'. injection Hp' as <-.
  rewrite (is_chain_functional _ _ _ _ Hc' Hc) in *. clear Hc'.
  assert (insert_of V allocator k v s = upsert (mutex_init V) allocator k v p l s) as Heq.
  { apply implemented_insert; eauto using consistent_lock. }
  split; [done|]. split.
  - intros [n Hn]. rewrite Heq. unfold upsert. rewrite Hn. eauto.
  - intros s' Hret.
    destruct (insert_consistent V HV allocator Hfresh _ _ _ _ _ Hcons Hret)
      as (_ & ls' & Hcons' & Hfind).
    specialize (Hfind k). rewrite decide_True in Hfind by done.
    destruct (table_find ls' k) as [n|] eqn:Hn; [|done]. injection Hfind as Hv.
    destruct (table_find_node V _ _ _ _ Hcons' Hn) as (l1 & Hl1 & Hcf & _ & _).
    pose proof Hcons' as (Hb' & Hidle' & Hnd').
    destruct (buckets_index_inv _ _ _ _ Hb' Hl1) as (p1 & Hp1 & Hc1).
    rewrite (implemented_insert allocator V s' k v p1 l1); try done.
    + unfold upsert. rewrite Hcf. f_equal.
      destruct (chain_find_elem _ _ _ Hcf) as [Hin _].
      destruct (is_chain_lookup _ _ _ _ Hc1 Hin) as (e & He & _ & Hve).
      rewrite alter_id; [apply set_heap_id|].
      intros e' He'. rewrite He in He'. injection He' as <-.
      rewrite <- Hv, <- Hve. apply with_val_id.
    + by eapply consistent_lock.
    + destruct Hidle' as [_ Hmx]. apply Hmx.
      apply index_Some in Hl1 as [_ Hl1]. by eapply list_elem_of_lookup_2.
Qed.

(** C1, as amended (insert is an idempotent upsert).  For every key
    [k ≥ 0], in every variant, on a table at rest: the bucket at slot
    [k mod NUM_BUCKETS] exists, and [insert k v] does to its chain what
    [upsert] says: an existing entry for [k] gets its value overwritten in
    place, otherwise a new entry [(k, v)] is allocated and linked at the
    head of the chain.  A key that is already present never makes it
    fail, and repeating the call changes nothing. *)
Theorem insert_is_idempotent_upsert V allocator s ls k v :
  implemented V →
  (∀ d a, allocator d = Some a → a ∉ d) →
  consistent (lock_init V) (mutex_init V) s ls →
  0 ≤ k →
  ∃ p l, index (table s) (k `mod` NUM_BUCKETS) = Some p ∧
    index ls (k `mod` NUM_BUCKETS) = Some l ∧ is_chain (heap s) p l ∧
    insert_of V allocator k v s = upsert (mutex_init V) allocator k v p l s ∧
    (is_Some (chain_find k l) → ∃ s', insert_of V allocator k v s = Return () s') ∧
    (∀ s', insert_of V allocator k v s = Return () s' →
           insert_of V allocator k v s' = Return () s').
Proof.
  intros HV Hfresh Hcons Hk0. pose proof (slot_range k Hk0) as Hk.
  rewrite <- (slot_mod k Hk0).
  destruct (consistent_bucket V _ _ _ Hcons Hk) as (p & l & Hl & Hp & Hc & _).
  exists p, l. split; [done|]. split; [done|]. split; [done|].
  by apply (insert_upsert_bucket V allocator s ls).
Qed.

(** C9 (allocation failure).  In every variant, on a table at rest, when
    [malloc] fails at the point where [insert] needs a new entry (the key
    has a bucket and is not in its chain) or where [retrieve] needs its
    result copy (the key is in its chain), the call does not return: the
    process exits with status 1 after printing the diagnostic, and in the
    state it exits in every bucket lock and every entry mutex is free
    again, heap and table being as they were. *)
Theorem allocation_failure_releases_locks V allocator s ls :
  implemented V →
  (∀ d a, allocator d = Some a → a ∉ d) →
  consistent (lock_init V) (mutex_init V) s ls →
  allocator (dom (heap s)) = None →
  (∀ k v, 0 ≤ slot k < NUM_BUCKETS → table_find ls k = None →
     ∃ s', insert_of V allocator k v s = Exit 1 s' ∧
           stdout s' = stdout s ++ ["No memory to allocate bucket!"%string] ∧
           heap s' = heap s ∧ table s' = table s ∧
           idle (lock_init V) (mutex_init V) s' ls) ∧
  (∀ k n, table_find ls k = Some n →
     ∃ s', retrieve_of V allocator k s = Exit 1 s' ∧
           stdout s' = stdout s ++ ["No memory to allocate result!"%string] ∧
           heap s' = heap s ∧ table s' = table s ∧
           idle (lock_init V) (mutex_init V) s' ls).
Proof.
  intros HV Hfresh Hcons Halloc. split.
  - intros k v Hk Hnone.
    destruct (consistent_bucket V _ _ _ Hcons Hk) as (p & l & Hl & Hp & Hc & Hun & _).
    pose proof (consistent_lock V _ _ _ Hcons Hk) as Hlock.
    unfold table_find in Hnone. rewrite Hl in Hnone. simpl in Hnone.
    destruct Hcons as (Hb & Hidle & Hnd).
    rewrite (implemented_insert allocator V s k v p l) by done.
    unfold upsert. rewrite Hnone, Halloc. eexists. repeat (split; [done|]). exact Hidle.
  - intros k n Hfind.
    destruct (table_find_node V _ _ _ _ Hcons Hfind) as (l & Hl & Hcf & _ & _).
    pose proof (buckets_slot_range _ _ _ _ (proj1 Hcons) Hl) as Hk.
    destruct (consistent_bucket V _ _ _ Hcons Hk) as (p & l1 & Hl1 & Hp & Hc & Hun & _).
    pose proof (consistent_lock V _ _ _ Hcons Hk) as Hlock.
    rewrite Hl in Hl1. injection Hl1 as <-.
    destruct Hcons as (Hb & Hidle & Hnd).
    rewrite (implemented_retrieve allocator Hfresh V s k p l) by done.
    unfold lookup. rewrite Hcf, Halloc. eexists. repeat (split; [done|]). exact Hidle.
Qed.

(** The chains of a table only depend on the cells they visit: a state
    that keeps every cell of [s], and its table and locks, represents the
    same chains. *)
Lemma consistent_extend {L M} (lock0 : L) (mutex0 : M) (s s' : process L M) ls :
  consistent lock0 mutex0 s ls →
  table s' = table s → bucket_locks s' = bucket_locks s → heap s ⊆ heap s' →
  consistent lock0 mutex0 s' ls.
Proof.
  intros (Hb & [Hlk Hmx] & Hnd) Ht Hl Hh.
  assert (∀ l p, l ∈ ls → is_chain (heap s) p l →
            ∀ n, n ∈ l → heap s' !! node_addr n = heap s !! node_addr n) as Hag.
  { intros l p _ Hc n Hn. destruct (is_chain_dom _ _ _ _ Hc Hn) as [e He].
    rewrite He. eapply lookup_weaken; eauto. }
  split; [|split; [split|]]; try done.
  - destruct Hb as [Hlen Hch Hsl]. split; [done| |done]. rewrite Ht.
    apply Forall2_same_length_lookup. split; [by eapply Forall2_length|].
    intros i p l Hp Hl'. eapply is_chain_agree.
    + eapply Hag; [by eapply list_elem_of_lookup_2|].
      destruct (Forall2_lookup_l _ _ _ _ _ Hch Hp) as (l0 & ? & ?). by simplify_eq.
    + destruct (Forall2_lookup_l _ _ _ _ _ Hch Hp) as (l0 & ? & ?). by simplify_eq.
  - congruence.
  - intros l Hl'. eapply chain_unlocked_agree; [|by apply Hmx].
    apply list_elem_of_lookup in Hl' as [i Hi].
    destruct (buckets_lookup _ _ _ _ Hb Hi) as (p & _ & Hc).
    eapply Hag; [by eapply list_elem_of_lookup_2|done].
Qed.

(** C2, as amended (lookup returns an independent copy).  For every key
    [k ≥ 0], in every variant, on a table at rest: [retrieve k] answers
    not-found exactly when the chain of the bucket at slot
    [k mod NUM_BUCKETS] has no entry for [k], and then changes nothing.
    Otherwise it returns a block that was not live before, holding the
    stored key and value and [next = NULL], and leaves the table as it
    was; and whatever is then done to that block (overwriting any of its
    fields, freeing it), the table is unchanged and a later [retrieve k]
    finds the same value. *)
Theorem retrieve_returns_independent_copy V allocator s ls k :
  implemented V →
  (∀ d a, allocator d = Some a → a ∉ d) →
  consistent (lock_init V) (mutex_init V) s ls →
  0 ≤ k →
  ∃ l, index ls (k `mod` NUM_BUCKETS) = Some l ∧
  (∀ s', retrieve_of V allocator k s = Return None s' ↔ chain_find k l = None ∧ s' = s) ∧
  (∀ n r, chain_find k l = Some n → allocator (dom (heap s)) = Some r →
     let copy := BucketEntry (node_key n) (node_val n) None (mutex_init V) in
     let s' := set_heap (<[r := copy]> (heap s)) s in
     node_key n = k ∧ heap s !! r = None ∧
     retrieve_of V allocator k s = Return (Some r) s' ∧
     consistent (lock_init V) (mutex_init V) s' ls ∧
     ∀ s'', table s'' = table s' → bucket_locks s'' = bucket_locks s' →
            (∀ a, a ≠ r → heap s'' !! a = heap s' !! a) →
            consistent (lock_init V) (mutex_init V) s'' ls ∧
            retrieve_of V allocator k s''
            = answer (mutex_init V) allocator k (Some (node_val n)) s'').
Proof.
  intros HV Hfresh Hcons Hk0. pose proof (slot_range k Hk0) as Hk.
  rewrite <- (slot_mod k Hk0).
  destruct (consistent_bucket V _ _ _ Hcons Hk) as (p & l & Hl & _).
  exists l. split; [done|].
  assert (table_find ls k = chain_find k l) as <- by (unfold table_find; by rewrite Hl).
  clear Hl.
  pose proof (retrieve_answer V HV allocator Hfresh s ls k Hcons Hk) as Hret.
  split.
  - intros s'. rewrite Hret. unfold answer.
    destruct (table_find ls k) as [n|]; simpl.
    + destruct (allocator _); split; try done; by intros [? _].
    + split; [by intros [= <-]|by intros [_ ->]].
  - intros n r Hn Hr copy s'.
    assert (heap s !! r = None) as Hfr by (by apply not_elem_of_dom, Hfresh).
    destruct (table_find_node V _ _ _ _ Hcons Hn) as (l1 & _ & _ & Hkn & _).
    split; [done|]. split; [done|]. split.
    { rewrite Hret, Hn. simpl. rewrite Hr. subst s' copy. by rewrite Hkn. }
    split.
    { eapply consistent_extend; [done|done|done|]. by apply insert_subseteq. }
    intros s'' Ht Hl Hh.
    assert (consistent (lock_init V) (mutex_init V) s'' ls) as Hcons''.
    { eapply consistent_extend; [done|done|done|].
      apply map_subseteq_spec. intros a e He.
      assert (a ≠ r) as Hne by congruence.
      rewrite Hh by done. subst s'. cbn [heap set_heap]. by rewrite lookup_insert_ne. }
    split; [done|].
    rewrite (retrieve_answer V HV allocator Hfresh s'' ls k Hcons'' Hk). by rewrite Hn.
Qed.

(** C10 (frame).  In every variant, an [insert k v] that returns leaves
    every bucket other than slot [key % NUM_BUCKETS] exactly as it was:
    same head pointer, same cells, same chain.  If [k] was already in the
    table, the heap after the call is the heap before with only the [val]
    field of that one entry overwritten: no cell appears or disappears, no
    [key] and no [next] changes, and [table] is untouched.  A [retrieve]
    that returns leaves [table], the locks and every existing cell as they
    were. *)
Theorem operations_frame V allocator s ls k v :
  implemented V →
  (∀ d a, allocator d = Some a → a ∉ d) →
  consistent (lock_init V) (mutex_init V) s ls →
  (∀ s', insert_of V allocator k v s = Return () s' →
     bucket_locks s' = bucket_locks s ∧
     (∀ j p l, j ≠ slot k → index (table s) j = Some p → is_chain (heap s) p l →
        index (table s') j = Some p ∧ is_chain (heap s') p l ∧
        ∀ n, n ∈ l → heap s' !! node_addr n = heap s !! node_addr n) ∧
     (∀ n, table_find ls k = Some n →
        table s' = table s ∧
        heap s' = alter (with_val v) (node_addr n) (heap s) ∧
        dom (heap s') = dom (heap s) ∧
        ∀ a e, heap s !! a = Some e →
          ∃ e', heap s' !! a = Some e' ∧ key e' = key e ∧ next e' = next e ∧
                entry_mutex e' = entry_mutex e ∧ (a ≠ node_addr n → val e' = val e))) ∧
  (∀ r s', retrieve_of V allocator k s = Return r s' →
     table s' = table s ∧ bucket_locks s' = bucket_locks s ∧ heap s ⊆ heap s').
Proof.
  intros HV Hfresh Hcons. split.
  - intros s' Hret.
    destruct (insert_consistent V HV allocator Hfresh _ _ _ _ _ Hcons Hret) as (Hk & _).
    destruct (consistent_bucket V _ _ _ Hcons Hk) as (p & l & Hl & Hp & Hc & Hun & _).
    rewrite (implemented_insert allocator V s k v p l) in Hret
      by eauto using consistent_lock.
    pose proof Hcons as (Hb & _ & _). pose proof Hl as [_ Hl']%index_Some.
    unfold table_find. rewrite Hl. simpl. unfold upsert in Hret.
    assert (∀ j pj lj, j ≠ slot k → index (table s) j = Some pj → is_chain (heap s) pj lj →
              ∀ n n', n ∈ l → n' ∈ lj → node_addr n ≠ node_addr n') as Hdisj.
    { intros j pj lj Hne [Hj0 Hpj]%index_Some Hcj n n' Hn Hn' Ha.
      destruct Hb as [_ Hch _]. destruct (Forall2_lookup_l _ _ _ _ _ Hch Hpj) as (lj' & Hlj & Hcj').
      rewrite (is_chain_functional _ _ _ _ Hcj Hcj') in *.
      destruct (buckets_addr_unique _ _ _ _ _ _ _ _ (proj1 Hcons) Hl' Hlj Hn Hn' Ha). lia. }
    destruct (chain_find k l) as [n|] eqn:Hfind.
    + injection Hret as <-. cbn [bucket_locks table heap set_heap].
      destruct (chain_find_elem _ _ _ Hfind) as [Hn _].
      split; [done|]. split.
      * intros j pj lj Hne Hpj Hcj.
        assert (∀ n', n' ∈ lj →
          alter (with_val v) (node_addr n) (heap s) !! node_addr n' = heap s !! node_addr n')
          as Hag.
        { intros n' Hn'. apply lookup_alter_ne. eauto. }
        split; [done|]. split; [|done]. by eapply is_chain_agree.
      * intros ? [= <-]. split; [done|]. split; [done|]. split; [by rewrite dom_alter_L|].
        intros a e He. destruct (decide (node_addr n = a)) as [<-|Hne].
        -- exists (with_val v e). rewrite lookup_alter_eq, He. by repeat split.
        -- exists e. rewrite lookup_alter_ne by done. by repeat split.
    + destruct (allocator (dom (heap s))) as [a|] eqn:Ha; [|done]. injection Hret as <-.
      cbn [bucket_locks table heap set_heap set_table].
      assert (heap s !! a = None) as Hfr by (by apply not_elem_of_dom, Hfresh).
      split; [done|]. split; [|done].
      intros j pj lj Hne Hpj Hcj. rewrite index_insert_ne by lia.
      assert (∀ n', n' ∈ lj →
        <[a := BucketEntry k v p (mutex_init V)]> (heap s) !! node_addr n'
        = heap s !! node_addr n') as Hag.
      { intros n' Hn'. apply lookup_insert_ne.
        destruct (is_chain_dom _ _ _ _ Hcj Hn') as [e He]. congruence. }
      split; [done|]. split; [|done]. by eapply is_chain_agree.
  - intros r s' Hret.
    destruct (decide (0 ≤ slot k < NUM_BUCKETS)) as [Hk|Hk]; cycle 1.
    { by rewrite (retrieve_undefined V HV allocator s ls) in Hret. }
    rewrite (retrieve_answer V HV allocator Hfresh s ls k Hcons Hk) in Hret.
    unfold answer in Hret. destruct (node_val <$> table_find ls k).
    + destruct (allocator (dom (heap s))) as [a|] eqn:Ha; [|done]. injection Hret as <- <-.
      split; [done|]. split; [done|]. cbn [heap set_heap].
      apply insert_subseteq. by apply not_elem_of_dom, Hfresh.
    + by injection Hret as <- <-.
Qed.

(** C6, as amended (the slot of a key).  For every key [k ≥ 0], in every
    variant, the slot is [k mod NUM_BUCKETS] with [NUM_BUCKETS = 5], it is
    a valid index of [table], it depends on the key alone, and both
    [insert] and [retrieve] work on the chain of exactly that bucket. *)
Theorem slot_of_nonnegative_key V allocator s ls k v :
  implemented V →
  (∀ d a, allocator d = Some a → a ∉ d) →
  consistent (lock_init V) (mutex_init V) s ls →
  0 ≤ k →
  NUM_BUCKETS = 5 ∧ slot k = k `mod` NUM_BUCKETS ∧ 0 ≤ slot k < NUM_BUCKETS ∧
  ∃ p l, index (table s) (k `mod` NUM_BUCKETS) = Some p ∧ is_chain (heap s) p l ∧
    insert_of V allocator k v s = upsert (mutex_init V) allocator k v p l s ∧
    retrieve_of V allocator k s = lookup (mutex_init V) allocator k l s.
Proof.
  intros HV Hfresh Hcons Hk0. pose proof (slot_range k Hk0) as Hk.
  assert (slot k = k `mod` NUM_BUCKETS) as Hmod.
  { unfold slot, NUM_BUCKETS. apply Z.rem_mod_nonneg; lia. }
  split; [done|]. split; [done|]. split; [done|].
  destruct (consistent_bucket V _ _ _ Hcons Hk) as (p & l & Hl & Hp & Hc & Hun & _).
  exists p, l. rewrite <- Hmod. split; [done|]. split; [done|]. split.
  - apply implemented_insert; eauto using consistent_lock.
  - apply implemented_retrieve with p; eauto using consistent_lock.
Qed.

(** C6 as stated fails for negative keys: C's [%] gives [-1 % 5 = -1],
    which is neither [(-1) mod 5 = 4] nor an index of [table], and both
    functions then start by indexing the lock array out of bounds. *)
Lemma slot_of_negative_key :
  ¬ (slot (-1) = (-1) `mod` NUM_BUCKETS ∧ 0 ≤ slot (-1) < NUM_BUCKETS) ∧
  slot (-1) = -1 ∧ (-1) `mod` NUM_BUCKETS = 4 ∧
  Spin.insert (λ _, None) (-1) 0 (empty_table false) = Undefined ∧
  Spin.retrieve (λ _, None) (-1) (empty_table false) = Undefined ∧
  RWLock.insert (λ _, None) (-1) 0 (empty_table (RwLock 0 false)) = Undefined ∧
  RWLock.retrieve (λ _, None) (-1) (empty_table (RwLock 0 false)) = Undefined ∧
  TwoLevel.insert (λ _, None) (-1) 0 (empty_table (RwLock 0 false)) = Undefined ∧
  TwoLevel.retrieve (λ _, None) (-1) (empty_table (RwLock 0 false)) = Undefined.
Proof.
  split; [|repeat split; reflexivity].
  intros [Hslot _]. vm_compute in Hslot. discriminate.
Qed.

(** C1 as stated fails for a key whose remainder is negative: on the
    empty table [insert(-1, 7)] does not put a new entry at the head of
    the bucket at slot [(-1) mod 5 = 4], which exists and is empty, nor
    of any other: it does not return at all, the lock array being indexed
    at [(-1) % 5 = -1], where there is no bucket. *)
Lemma insert_of_negative_key :
  (-1) `mod` NUM_BUCKETS = 4 ∧
  index (table (empty_table false : process bool unit)) 4 = Some None ∧
  slot (-1) = -1 ∧
  index (table (empty_table false : process bool unit)) (slot (-1)) = None ∧
  ¬ (∃ s', Spin.insert bump (-1) 7 (empty_table false) = Return () s') ∧
  ¬ (∃ s', RWLock.insert bump (-1) 7 (empty_table (RwLock 0 false)) = Return () s') ∧
  ¬ (∃ s', TwoLevel.insert bump (-1) 7 (empty_table (RwLock 0 false)) = Return () s') ∧
  Spin.insert bump (-1) 7 (empty_table false) = Undefined ∧
  RWLock.insert bump (-1) 7 (empty_table (RwLock 0 false)) = Undefined ∧
  TwoLevel.insert bump (-1) 7 (empty_table (RwLock 0 false)) = Undefined.
Proof.
  split; [reflexivity|]. split; [reflexivity|]. split; [reflexivity|]. split; [reflexivity|].
  repeat split; try reflexivity; by intros [s' Hs'].
Qed.

(** C2 as stated fails for a key whose remainder is negative: on the
    empty table no bucket holds an entry with key [-1], the bucket at
    slot [(-1) mod 5 = 4] least of all, and yet [retrieve(-1)] does not
    answer not-found: it has no defined result, the lock array being
    indexed at [(-1) % 5 = -1], where there is no bucket. *)
Lemma retrieve_of_negative_key :
  (-1) `mod` NUM_BUCKETS = 4 ∧
  index (table (empty_table false : process bool unit)) 4 = Some None ∧
  slot (-1) = -1 ∧
  index (table (empty_table false : process bool unit)) (slot (-1)) = None ∧
  table_find (replicate (Z.to_nat NUM_BUCKETS) []) (-1) = None ∧
  ¬ (Spin.retrieve bump (-1) (empty_table false) = Return None (empty_table false)) ∧
  ¬ (RWLock.retrieve bump (-1) (empty_table (RwLock 0 false))
     = Return None (empty_table (RwLock 0 false))) ∧
  ¬ (TwoLevel.retrieve bump (-1) (empty_table (RwLock 0 false))
     = Return None (empty_table (RwLock 0 false))) ∧
  Spin.retrieve bump (-1) (empty_table false) = Undefined ∧
  RWLock.retrieve bump (-1) (empty_table (RwLock 0 false)) = Undefined ∧
  TwoLevel.retrieve bump (-1) (empty_table (RwLock 0 false)) = Undefined.
Proof.
  split; [reflexivity|]. split; [reflexivity|]. split; [reflexivity|]. split; [reflexivity|].
  split; [reflexivity|].
  repeat split; try reflexivity; by intros ?.
Qed.

Lemma bump_fresh d a : bump d = Some a → a ∉ d.
Proof. intros [= <-]. apply is_fresh. Qed.

Lemma out_of_memory_fresh d a : out_of_memory d = Some a → a ∉ d.
Proof. done. Qed.


(** ** The example table *)

Lemma example_table_run :
  insert_all (TwoLevel.insert bump) [(1, 10); (6, 20); (3, 5)] (empty_table (RwLock 0 false))
  = Return () (example_table two_level).
Proof. vm_compute. reflexivity. Qed.

Lemma example_table_consistent V :
  consistent (lock_init V) (mutex_init V) (example_table V) example_chains.
Proof.
  assert (∀ (P : nat → list node → Prop),
    P 0%nat [] → P 1%nat [Node 2 6 20; Node 1 1 10] → P 2%nat [] → P 3%nat [Node 3 3 5] →
    P 4%nat [] → ∀ i l, example_chains !! i = Some l → P i l) as Hcases.
  { intros P ????? i l Hl. do 5 (destruct i as [|i]; [by injection Hl as <-|]). done. }
  assert (∀ (P : list node → Prop),
    P [] → P [Node 2 6 20; Node 1 1 10] → P [Node 3 3 5] →
    ∀ l, l ∈ example_chains → P l) as Hmem.
  { intros P ??? l [i Hl]%list_elem_of_lookup. revert i l Hl. by apply Hcases. }
  split; [split|split; [split|]].
  - done.
  - unfold example_table. cbn [heap table].
    repeat constructor; simpl; eexists; (split; [reflexivity|]); repeat split; try done.
    eexists; (split; [reflexivity|]); by repeat split.
  - intros i l n Hl. revert n. revert i l Hl.
    apply (Hcases (λ i l, ∀ n, n ∈ l → slot (node_key n) = Z.of_nat i));
      intros n Hn; repeat (apply elem_of_cons in Hn as [->|Hn]; [done|]);
      by apply elem_of_nil in Hn.
  - done.
  - apply Hmem; intros n e Hn;
      repeat (apply elem_of_cons in Hn as [->|Hn]; [by intros [= <-]|]);
      by apply elem_of_nil in Hn.
  - apply Hmem; apply (bool_decide_unpack _); vm_compute; exact I.
Qed.

(** ** The contract on the example table *)

Lemma insert_is_idempotent_upsert_witness :
  ∃ p l, index (table (example_table two_level)) (6 `mod` NUM_BUCKETS) = Some p ∧
    index example_chains (6 `mod` NUM_BUCKETS) = Some l ∧
    is_chain (heap (example_table two_level)) p l ∧
    insert_of two_level bump 6 99 (example_table two_level)
    = upsert (mutex_init two_level) bump 6 99 p l (example_table two_level) ∧
    (is_Some (chain_find 6 l) →
       ∃ s', insert_of two_level bump 6 99 (example_table two_level) = Return () s') ∧
    (∀ s', insert_of two_level bump 6 99 (example_table two_level) = Return () s' →
           insert_of two_level bump 6 99 s' = Return () s').
Proof.
  apply (insert_is_idempotent_upsert two_level bump (example_table two_level) example_chains).
  - constructor.
  - apply bump_fresh.
  - apply example_table_consistent.
  - lia.
Defined.

Lemma retrieve_returns_independent_copy_witness :
  ∃ l, index example_chains (6 `mod` NUM_BUCKETS) = Some l ∧
  (∀ s', retrieve_of coarse bump 6 (example_table coarse) = Return None s'
         ↔ chain_find 6 l = None ∧ s' = example_table coarse) ∧
  (∀ n r, chain_find 6 l = Some n →
     bump (dom (heap (example_table coarse))) = Some r →
     let copy := BucketEntry (node_key n) (node_val n) None (mutex_init coarse) in
     let s' := set_heap (<[r := copy]> (heap (example_table coarse))) (example_table coarse) in
     node_key n = 6 ∧ heap (example_table coarse) !! r = None ∧
     retrieve_of coarse bump 6 (example_table coarse) = Return (Some r) s' ∧
     consistent (lock_init coarse) (mutex_init coarse) s' example_chains ∧
     ∀ s'', table s'' = table s' → bucket_locks s'' = bucket_locks s' →
            (∀ a, a ≠ r → heap s'' !! a = heap s' !! a) →
            consistent (lock_init coarse) (mutex_init coarse) s'' example_chains ∧
            retrieve_of coarse bump 6 s''
            = answer (mutex_init coarse) bump 6 (Some (node_val n)) s'').
Proof.
  apply (retrieve_returns_independent_copy coarse bump (example_table coarse) example_chains 6).
  - constructor.
  - apply bump_fresh.
  - apply example_table_consistent.
  - lia.
Defined.


Lemma inserts_leave_one_entry_per_key_witness :
  ∃ s, insert_all (insert_of two_level bump) [(1, 10); (6, 20); (1, 30)]
         (empty_table (lock_init two_level)) = Return () s ∧
  ∃ ls, buckets s ls ∧
    (∀ l, l ∈ ls → NoDup (node_key <$> l)) ∧
    ∀ k, k ∈ [(1, 10); (6, 20); (1, 30)].*1 →
      ∃ v l n, last_value k [(1, 10); (6, 20); (1, 30)] = Some v ∧
        index ls (slot k) = Some l ∧ chain_count k l = 1%nat ∧
        chain_find k l = Some n ∧ node_key n = k ∧ node_val n = v ∧
        (∀ s', retrieve_of two_level bump k s ≠ Return None s') ∧
        retrieve_of two_level bump k s = answer (mutex_init two_level) bump k (Some v) s.
Proof.
  eexists. split; [vm_compute; reflexivity|].
  apply (inserts_leave_one_entry_per_key two_level bump [(1, 10); (6, 20); (1, 30)]).
  - constructor.
  - apply bump_fresh.
  - vm_compute. reflexivity.
Defined.


Lemma slot_of_nonnegative_key_witness :
  NUM_BUCKETS = 5 ∧ slot 6 = 6 `mod` NUM_BUCKETS ∧ 0 ≤ slot 6 < NUM_BUCKETS ∧
  ∃ p l, index (table (example_table two_level)) (6 `mod` NUM_BUCKETS) = Some p ∧
    is_chain (heap (example_table two_level)) p l ∧
    insert_of two_level bump 6 99 (example_table two_level)
    = upsert (mutex_init two_level) bump 6 99 p l (example_table two_level) ∧
    retrieve_of two_level bump 6 (example_table two_level)
    = lookup (mutex_init two_level) bump 6 l (example_table two_level).
Proof.
  apply (slot_of_nonnegative_key two_level bump (example_table two_level) example_chains 6 99).
  - constructor.
  - apply bump_fresh.
  - apply example_table_consistent.
  - vm_compute. discriminate.
Defined.

Lemma allocation_failure_releases_locks_witness :
  (∃ s', insert_of coarse out_of_memory 11 7 (empty_table (lock_init coarse)) = Exit 1 s' ∧
         stdout s' = ["No memory to allocate bucket!"%string] ∧
         heap s' = ∅ ∧ table s' = replicate (Z.to_nat NUM_BUCKETS) None ∧
         idle (lock_init coarse) (mutex_init coarse) s' (replicate (Z.to_nat NUM_BUCKETS) [])) ∧
  (∃ s', insert_of two_level out_of_memory 11 7 (example_table two_level) = Exit 1 s' ∧
         stdout s' = stdout (example_table two_level) ++ ["No memory to allocate bucket!"%string] ∧
         heap s' = heap (example_table two_level) ∧
         table s' = table (example_table two_level) ∧
         idle (lock_init two_level) (mutex_init two_level) s' example_chains) ∧
  (∃ s', retrieve_of two_level out_of_memory 6 (example_table two_level) = Exit 1 s' ∧
         stdout s' = stdout (example_table two_level) ++ ["No memory to allocate result!"%string] ∧
         heap s' = heap (example_table two_level) ∧
         table s' = table (example_table two_level) ∧
         idle (lock_init two_level) (mutex_init two_level) s' example_chains).
Proof.
  destruct (allocation_failure_releases_locks coarse out_of_memory
              (empty_table (lock_init coarse)) (replicate (Z.to_nat NUM_BUCKETS) [])
              implemented_coarse out_of_memory_fresh (empty_table_consistent coarse) eq_refl)
    as [Hfirst _].
  destruct (allocation_failure_releases_locks two_level out_of_memory
              (example_table two_level) example_chains
              implemented_two_level out_of_memory_fresh (example_table_consistent two_level)
              eq_refl) as [Hinsert Hretrieve].
  split; [|split].
  - apply Hfirst; [by vm_compute|reflexivity].
  - apply Hinsert; [by vm_compute|reflexivity].
  - apply (Hretrieve 6 (Node 2 6 20)). reflexivity.
Defined.

Lemma operations_frame_witness :
  (∀ s', insert_of two_level bump 6 99 (example_table two_level) = Return () s' →
     bucket_locks s' = bucket_locks (example_table two_level) ∧
     (∀ j p l, j ≠ slot 6 → index (table (example_table two_level)) j = Some p →
        is_chain (heap (example_table two_level)) p l →
        index (table s') j = Some p ∧ is_chain (heap s') p l ∧
        ∀ n, n ∈ l → heap s' !! node_addr n = heap (example_table two_level) !! node_addr n) ∧
     (∀ n, table_find example_chains 6 = Some n →
        table s' = table (example_table two_level) ∧
        heap s' = alter (with_val 99) (node_addr n) (heap (example_table two_level)) ∧
        dom (heap s') = dom (heap (example_table two_level)) ∧
        ∀ a e, heap (example_table two_level) !! a = Some e →
          ∃ e', heap s' !! a = Some e' ∧ key e' = key e ∧ next e' = next e ∧
                entry_mutex e' = entry_mutex e ∧ (a ≠ node_addr n → val e' = val e))) ∧
  (∀ r s', retrieve_of two_level bump 6 (example_table two_level) = Return r s' →
     table s' = table (example_table two_level) ∧
     bucket_locks s' = bucket_locks (example_table two_level) ∧
     heap (example_table two_level) ⊆ heap s').
Proof.
  apply (operations_frame two_level bump (example_table two_level) example_chains 6 99).
  - constructor.
  - apply bump_fresh.
  - apply example_table_consistent.
Defined.

(** ** Interleaved executions of the two-level variant *)


Section Discipline.
Import Interleaving.
Variable allocator : gset positive → ptr.



Lemma trace_stopped schedule m :
  (∀ s ts, m ≠ Running s ts) → trace allocator schedule m = [].
Proof.
  intros Hm. induction schedule as [|t schedule IH]; [done|].
  destruct m; [by destruct (Hm s ts)|done|done].
Qed.


(** What [step] can do, by cases. *)
Lemma step_cases s ts t m' :
  step allocator (Running s ts) t = Some m' →
  ∃ c rest, ts !! t = Some (Thread c rest) ∧
    ((∃ call rest', c = Idle ∧ rest = call :: rest' ∧
        m' = Running s (<[t := Thread (enter call) rest']> ts)) ∨
     (∃ c' s', step_of allocator c s = Return c' s' ∧
        m' = Running s' (<[t := Thread c' rest]> ts)) ∨
     (∃ status s', step_of allocator c s = Exit status s' ∧ m' = Exited status s') ∨
     (step_of allocator c s = Undefined ∧ m' = Crashed)).
Proof.
  cbn [step]. destruct (ts !! t) as [[c rest]|]; [|done]. intros Hstep.
  exists c, rest. split; [done|].
  assert (c = Idle ∨
          match step_of allocator c s with
          | Return c' s' => Some (Running s' (<[t := Thread c' rest]> ts))
          | Exit status s' => Some (Exited status s')
          | Hang => None
          | Undefined => Some Crashed
          end = Some m') as [->|Hstep'] by (destruct c; auto).
  - destruct rest as [|call rest']; [done|]. injection Hstep as <-. left. eauto.
  - right. destruct (step_of allocator c s) as [c' s'|status s'| |]; simplify_eq; eauto 10.
Qed.

End Discipline.

Section ObservedLocks.
Import Interleaving Observed.
Variable allocator : gset positive → ptr.
Implicit Types (s : process rwlock bool) (h : gmap positive (bucket_entry bool)).






(** *** The events of each kind of step *)







End ObservedLocks.

Section ObservedSteps.
Import Interleaving Observed.
Variable allocator : gset positive → ptr.
Implicit Types (s : process rwlock bool) (h : gmap positive (bucket_entry bool)).











End ObservedSteps.



(** The lock calls of that run, as they are read off the state. *)
Lemma observed_lock_calls :
  Observed.lock_log bump [0; 1; 0; 1; 0; 1; 0; 1; 1; 0; 0; 1; 0; 0; 1; 1; 1; 0]%nat
    (Interleaving.Running (example_table two_level)
       [Interleaving.Thread Interleaving.Idle [Interleaving.Insert 6 99];
        Interleaving.Thread Interleaving.Idle [Interleaving.Retrieve 1]])
  = [(0%nat, []); (1%nat, []);
     (0%nat, [Interleaving.Acquire (Interleaving.BucketLock 1)]);
     (1%nat, [Interleaving.Acquire (Interleaving.BucketLock 1)]);
     (0%nat, []); (1%nat, []); (0%nat, []); (1%nat, []); (1%nat, []);
     (0%nat, [Interleaving.Acquire (Interleaving.EntryLock 2)]);
     (0%nat, []);
     (1%nat, [Interleaving.Acquire (Interleaving.EntryLock 1)]);
     (0%nat, [Interleaving.Release (Interleaving.EntryLock 2)]);
     (0%nat, [Interleaving.Release (Interleaving.BucketLock 1)]);
     (1%nat, []); (1%nat, []);
     (1%nat, [Interleaving.Release (Interleaving.EntryLock 1)])].
Proof. reflexivity. Qed.

(** The replay refuses what the order forbids: an entry lock taken
    without the bucket lock, a bucket lock taken under an entry lock, a
    second entry lock. *)
Lemma replay_refuses_disorder :
  Observed.obeys 0 [] [(0%nat, [Interleaving.Acquire (Interleaving.EntryLock 2)])] = None ∧
  Observed.obeys 0 []
    [(0%nat, [Interleaving.Acquire (Interleaving.BucketLock 1)]);
     (0%nat, [Interleaving.Acquire (Interleaving.EntryLock 2)]);
     (0%nat, [Interleaving.Acquire (Interleaving.BucketLock 1)])] = None ∧
  Observed.obeys 0 []
    [(0%nat, [Interleaving.Acquire (Interleaving.BucketLock 1)]);
     (0%nat, [Interleaving.Acquire (Interleaving.EntryLock 2)]);
     (0%nat, [Interleaving.Acquire (Interleaving.EntryLock 1)])] = None.
Proof. repeat split; reflexivity. Qed.

(** ** A thread on its own runs the functions

    The steps of [Interleaving.step_of], taken by one thread with nobody
    else running, add up to [TwoLevel.insert] and [TwoLevel.retrieve]. *)

Section Alone.
Import Interleaving.
Variable allocator : gset positive → ptr.
Hypothesis allocator_fresh : ∀ d a, allocator d = Some a → a ∉ d.
Implicit Types (s : process rwlock bool) (c : pc) (rest : list call) (m : machine).

Local Notation "m ~> m'" := (∃ n, run allocator (replicate n 0%nat) m = m')
  (at level 70, no associativity).

(** [step] at a thread that is inside a function. *)
Lemma step_inside s ts t c rest :
  ts !! t = Some (Thread c rest) → c ≠ Idle →
  step allocator (Running s ts) t
  = match step_of allocator c s with
    | Return c' s' => Some (Running s' (<[t := Thread c' rest]> ts))
    | Exit status s' => Some (Exited status s')
    | Hang => None
    | Undefined => Some Crashed
    end.
Proof. intros Ht Hc. cbn [step]. rewrite Ht. by destruct c. Qed.

Lemma alone_refl m : m ~> m.
Proof. by exists 0%nat. Qed.

Lemma alone_call job rest s m' :
  Running s [Thread (enter job) rest] ~> m' → Running s [Thread Idle (job :: rest)] ~> m'.
Proof. intros [n Hn]. by exists (S n). Qed.

Lemma alone_step c rest s c' s' m' :
  c ≠ Idle → step_of allocator c s = Return c' s' →
  Running s' [Thread c' rest] ~> m' → Running s [Thread c rest] ~> m'.
Proof.
  intros Hc Hstep [n Hn]. exists (S n). cbn [replicate run].
  by rewrite (step_inside s [Thread c rest] 0 c rest eq_refl Hc), Hstep.
Qed.

Lemma alone_exit c rest s status s' :
  c ≠ Idle → step_of allocator c s = Exit status s' →
  Running s [Thread c rest] ~> Exited status s'.
Proof.
  intros Hc Hstep. exists 1%nat. cbn [replicate run].
  by rewrite (step_inside s [Thread c rest] 0 c rest eq_refl Hc), Hstep.
Qed.

(** The loop of [insert], from any entry of the chain on. *)
Lemma alone_scan w k v rest s cur l m' :
  is_chain (heap s) cur l →
  Running s [Thread (match chain_find k l with
                     | Some n => I_mutex_lock w k v (node_addr n)
                     | None => if w then I_malloc k v else I_unlock_shared k v
                     end) rest] ~> m' →
  Running s [Thread (I_test w k v cur) rest] ~> m'.
Proof.
  revert cur. induction l as [|n l IH]; intros cur Hc Hrun.
  - simpl in Hc. subst cur. by eapply alone_step.
  - destruct Hc as [-> (e & He & Hke & Hve & Hc)].
    eapply alone_step; [done| |].
    { cbn [step_of]. unfold mbind, prog_bind, load. rewrite He. done. }
    unfold mret, prog_ret. cbn [chain_find] in Hrun. rewrite Hke.
    destruct (decide (node_key n = k)); [done|]. by eapply IH.
Qed.

Ltac prims :=
  unfold mbind, prog_bind, mret, prog_ret, pthread_rwlock_rdlock, pthread_rwlock_wrlock,
    pthread_rwlock_unlock, get_table, put_table, load, store_val, malloc, init_entry,
    set_next, panic, hang, TwoLevel.pthread_mutex_lock, TwoLevel.pthread_mutex_unlock;
  cbn [heap table bucket_locks stdout set_heap set_table set_locks set_stdout].

Ltac alone_next := eapply alone_step; [done|cbn [step_of]; prims|].

Lemma with_mutex_roundtrip (e : bucket_entry bool) v :
  entry_mutex e = false →
  with_mutex false (with_val v (with_mutex true e)) = with_val v e.
Proof. destruct e. simpl. by intros ->. Qed.

(** A thread that runs alone through [insert] does what the function
    [TwoLevel.insert] does. *)
Lemma insert_alone s ls k v rest :
  consistent (RwLock 0 false) false s ls → 0 ≤ slot k < NUM_BUCKETS →
  match TwoLevel.insert allocator k v s with
  | Return _ s' => Running s [Thread Idle (Insert k v :: rest)] ~> Running s' [Thread Idle rest]
  | Exit status s' => Running s [Thread Idle (Insert k v :: rest)] ~> Exited status s'
  | _ => False
  end.
Proof.
  intros Hcons Hk.
  destruct (consistent_bucket two_level _ _ _ Hcons Hk) as (p & l & Hl & Hp & Hc & Hun & _).
  pose proof (consistent_lock two_level _ _ _ Hcons Hk) as Hlock.
  cbn [two_level lock_init mutex_init lock_t mutex_t] in Hun, Hlock, Hc, Hp.
  rewrite (twolevel_insert_upsert allocator s k v p l) by done. unfold upsert.
  destruct s as [h t lk out]. cbn [heap table bucket_locks] in *.
  assert (∀ x y, <[Z.to_nat (slot k) := y]> (<[Z.to_nat (slot k) := x]> lk)
                 = <[Z.to_nat (slot k) := y]> lk) as Hll.
  { intros x y. apply list_insert_insert_eq. }
  assert (∀ x, index (<[Z.to_nat (slot k) := x]> lk) (slot k) = Some x) as Hlx.
  { intros x. by eapply index_insert_eq. }
  pose proof (index_insert_id _ _ _ Hlock) as Hlid.
  destruct (chain_find k l) as [n|] eqn:Hfind.
  - destruct (chain_find_elem _ _ _ Hfind) as [Hn Hkn].
    destruct (is_chain_lookup _ _ _ _ Hc Hn) as (e & He & _ & _).
    pose proof (Hun n e Hn He) as Hm.
    apply alone_call. cbn [enter].
    alone_next. { rewrite Hlock. reflexivity. }
    alone_next. { rewrite Hp. reflexivity. }
    eapply alone_scan; [exact Hc|]. rewrite Hfind.
    alone_next. { rewrite He, Hm. reflexivity. }
    alone_next. { rewrite lookup_alter_eq, He. reflexivity. }
    alone_next. { rewrite !lookup_alter_eq, He. reflexivity. }
    alone_next. { rewrite Hlx. reflexivity. }
    cbn [readers]. rewrite Hll, Hlid.
    assert (alter (with_mutex false) (node_addr n)
              (alter (with_val v) (node_addr n)
                 (alter (with_mutex true) (node_addr n) h))
            = alter (with_val v) (node_addr n) h) as ->; [|apply alone_refl].
    rewrite !alter_alter_eq. apply alter_ext. intros e' He'.
    rewrite He in He'. injection He' as <-. by apply with_mutex_roundtrip.
  - assert (∀ m',
      Running (Process h t (<[Z.to_nat (slot k) := RwLock 0 true]> lk) out)
        [Thread (I_malloc k v) rest] ~> m' →
      Running (Process h t lk out) [Thread Idle (Insert k v :: rest)] ~> m') as Hprefix.
    { intros m' Hm'. apply alone_call. cbn [enter].
      alone_next. { rewrite Hlock. reflexivity. }
      alone_next. { rewrite Hp. reflexivity. }
      eapply alone_scan; [exact Hc|]. rewrite Hfind.
      alone_next. { rewrite Hlx. reflexivity. }
      cbn [readers]. rewrite Hll, Hlid.
      alone_next. { rewrite Hlock. reflexivity. }
      alone_next. { rewrite Hp. reflexivity. }
      eapply alone_scan; [exact Hc|]. by rewrite Hfind. }
    destruct (allocator (dom h)) as [a|] eqn:Ha; apply Hprefix.
    + alone_next. { rewrite Ha. reflexivity. }
      alone_next. { rewrite Hp. cbn [heap set_heap]. rewrite lookup_insert_eq. reflexivity. }
      alone_next. { rewrite Hp. reflexivity. }
      alone_next. { rewrite Hlx. reflexivity. }
      cbn [writer readers key val entry_mutex]. rewrite Hll, Hlid, insert_insert_eq.
      apply alone_refl.
    + alone_next. { rewrite Ha. reflexivity. }
      alone_next. { rewrite Hlx. reflexivity. }
      cbn [writer readers]. rewrite Hll, Hlid.
      eapply alone_exit; [done|]. cbn [step_of]. prims. reflexivity.
Qed.

(** The loop of [retrieve], from any entry of the chain on. *)
Lemma alone_scan_retrieve k rest s cur l m' :
  is_chain (heap s) cur l →
  Running s [Thread (match chain_find k l with
                     | Some n => R_mutex_lock k (node_addr n)
                     | None => R_unlock_missing k
                     end) rest] ~> m' →
  Running s [Thread (R_test k cur) rest] ~> m'.
Proof.
  revert cur. induction l as [|n l IH]; intros cur Hc Hrun.
  - simpl in Hc. subst cur. by eapply alone_step.
  - destruct Hc as [-> (e & He & Hke & Hve & Hc)].
    eapply alone_step; [done| |].
    { cbn [step_of]. unfold mbind, prog_bind, load. rewrite He. done. }
    unfold mret, prog_ret. cbn [chain_find] in Hrun. rewrite Hke.
    destruct (decide (node_key n = k)); [done|]. by eapply IH.
Qed.

Lemma with_mutex_release (e : bucket_entry bool) :
  entry_mutex e = false → with_mutex false (with_mutex true e) = e.
Proof. destruct e. simpl. by intros ->. Qed.

(** A thread that runs alone through [retrieve] does what the function
    [TwoLevel.retrieve] does (the machine drops the pointer returned). *)
Lemma retrieve_alone s ls k rest :
  consistent (RwLock 0 false) false s ls → 0 ≤ slot k < NUM_BUCKETS →
  match TwoLevel.retrieve allocator k s with
  | Return _ s' => Running s [Thread Idle (Retrieve k :: rest)] ~> Running s' [Thread Idle rest]
  | Exit status s' => Running s [Thread Idle (Retrieve k :: rest)] ~> Exited status s'
  | _ => False
  end.
Proof.
  intros Hcons Hk.
  destruct (consistent_bucket two_level _ _ _ Hcons Hk) as (p & l & Hl & Hp & Hc & Hun & _).
  pose proof (consistent_lock two_level _ _ _ Hcons Hk) as Hlock.
  cbn [two_level lock_init mutex_init lock_t mutex_t] in Hun, Hlock, Hc, Hp.
  rewrite (twolevel_retrieve_lookup allocator allocator_fresh s k p l 0) by done.
  unfold lookup.
  destruct s as [h t lk out]. cbn [heap table bucket_locks] in *.
  assert (∀ x y, <[Z.to_nat (slot k) := y]> (<[Z.to_nat (slot k) := x]> lk)
                 = <[Z.to_nat (slot k) := y]> lk) as Hll.
  { intros x y. apply list_insert_insert_eq. }
  assert (∀ x, index (<[Z.to_nat (slot k) := x]> lk) (slot k) = Some x) as Hlx.
  { intros x. by eapply index_insert_eq. }
  pose proof (index_insert_id _ _ _ Hlock) as Hlid.
  assert (∀ m',
      Running (Process h t (<[Z.to_nat (slot k) := RwLock 1 false]> lk) out)
        [Thread (match chain_find k l with
                 | Some n => R_mutex_lock k (node_addr n)
                 | None => R_unlock_missing k
                 end) rest] ~> m' →
      Running (Process h t lk out) [Thread Idle (Retrieve k :: rest)] ~> m') as Hprefix.
  { intros m' Hm'. apply alone_call. cbn [enter].
    alone_next. { rewrite Hlock. reflexivity. }
    alone_next. { rewrite Hp. reflexivity. }
    by eapply alone_scan_retrieve. }
  destruct (chain_find k l) as [n|] eqn:Hfind.
  - destruct (chain_find_elem _ _ _ Hfind) as [Hn Hkn].
    destruct (is_chain_lookup _ _ _ _ Hc Hn) as (e & He & Hke & Hve).
    pose proof (Hun n e Hn He) as Hm.
    destruct (allocator (dom h)) as [r|] eqn:Ha; apply Hprefix.
    + assert (r ≠ node_addr n) as Hne.
      { intros ->. apply (allocator_fresh _ _ Ha). by apply elem_of_dom. }
      alone_next. { rewrite He, Hm. reflexivity. }
      alone_next. { rewrite dom_alter_L, Ha. reflexivity. }
      alone_next.
      { rewrite lookup_insert_ne, lookup_alter_eq, He by done. reflexivity. }
      alone_next.
      { rewrite !lookup_insert_ne, lookup_alter_eq, He by done. reflexivity. }
      alone_next. { rewrite Hlx. reflexivity. }
      cbn [readers key val with_mutex]. rewrite Hll, Hlid, insert_insert_eq.
      rewrite alter_insert_ne by done. rewrite alter_alter_eq.
      rewrite alter_id; [rewrite Hke, Hve; apply alone_refl|].
      intros e' He'. rewrite He in He'. injection He' as <-. by apply with_mutex_release.
    + alone_next. { rewrite He, Hm. reflexivity. }
      alone_next. { rewrite dom_alter_L, Ha. reflexivity. }
      alone_next. { rewrite lookup_alter_eq, He. reflexivity. }
      alone_next. { rewrite Hlx. reflexivity. }
      cbn [readers]. rewrite Hll, Hlid, alter_alter_eq.
      rewrite alter_id.
      * eapply alone_exit; [done|]. cbn [step_of]. prims. reflexivity.
      * intros e' He'. rewrite He in He'. injection He' as <-. by apply with_mutex_release.
  - apply Hprefix.
    alone_next. { rewrite Hlx. reflexivity. }
    cbn [readers]. rewrite Hll, Hlid. apply alone_refl.
Qed.
End Alone.

(** ** Two threads inserting the same new key

    [Race.race_inv] is shown to hold at the start, to be kept by every
    step of either thread, and to give the result once both threads are
    back at [Idle]; a rank that every step decreases, and the fact that
    the two threads never wait for each other, give termination. *)

(** *** Changes of the heap that keep the chains *)

Section RaceFrames.
Import Interleaving Race.
Context {L : Type}.
Implicit Types (s : process L bool) (ls : list (list node)).

Lemma buckets_same_data {L' M} (s : process L M) (s' : process L' M) ls :
  heap s' = heap s → table s' = table s → buckets s ls → buckets s' ls.
Proof. intros Hh Ht [Hlen Hch Hsl]. split; [done| |done]. by rewrite Hh, Ht. Qed.

Lemma buckets_mutex s ls a m :
  buckets s ls → buckets (set_heap (alter (with_mutex m) a (heap s)) s) ls.
Proof.
  intros [Hlen Hch Hsl]. split; [done| |done]. cbn [heap table set_heap].
  eapply Forall2_impl; [done|]. intros p l. apply is_chain_mutex.
Qed.

Lemma buckets_alloc s ls e x :
  heap s !! e = None → buckets s ls → buckets (set_heap (<[e := x]> (heap s)) s) ls.
Proof.
  intros He [Hlen Hch Hsl]. split; [done| |done]. cbn [heap table set_heap].
  eapply Forall2_impl; [done|]. intros p l. by apply is_chain_insert_fresh.
Qed.

Lemma buckets_unlinked_write s ls e x :
  unlinked ls e → buckets s ls → buckets (set_heap (<[e := x]> (heap s)) s) ls.
Proof.
  intros He [Hlen Hch Hsl]. split; [done| |done]. cbn [heap table set_heap].
  apply Forall2_same_length_lookup. split; [by eapply Forall2_length|].
  intros i p l Hp Hl. destruct (Forall2_lookup_l _ _ _ _ _ Hch Hp) as (l' & Hl' & Hc).
  simplify_eq. eapply is_chain_agree; [|done]. intros n Hn.
  apply lookup_insert_ne. intros Heq. eapply He; [by eapply list_elem_of_lookup_2|done|done].
Qed.

Lemma buckets_publish s ls k v p l e m :
  buckets s ls → 0 ≤ slot k → index (table s) (slot k) = Some p →
  index ls (slot k) = Some l → unlinked ls e →
  heap s !! e = Some (BucketEntry k v p m) →
  buckets (set_table (<[Z.to_nat (slot k) := Some e]> (table s)) s)
          (<[Z.to_nat (slot k) := Node e k v :: l]> ls).
Proof.
  intros Hb Hk0 [_ Hp]%index_Some [_ Hl]%index_Some Hun He.
  pose proof Hb as [Hlen Hch Hsl]. split.
  - by rewrite length_insert.
  - cbn [heap table set_table]. apply Forall2_same_length_lookup. split.
    { rewrite !length_insert. by eapply Forall2_length. }
    intros i p' l' Hp' Hl'.
    destruct (decide (i = Z.to_nat (slot k))) as [->|Hne].
    + rewrite list_lookup_insert_eq in Hl' by (by eapply lookup_lt_Some).
      rewrite list_lookup_insert_eq in Hp' by (by eapply lookup_lt_Some). simplify_eq.
      simpl. split; [done|]. eexists. split; [done|]. repeat split.
      destruct (buckets_lookup _ _ _ _ Hb Hl) as (p' & ? & ?). by simplify_eq.
    + rewrite list_lookup_insert_ne in Hl' by done.
      rewrite list_lookup_insert_ne in Hp' by done.
      destruct (buckets_lookup _ _ _ _ Hb Hl') as (p'' & ? & ?). by simplify_eq.
  - intros i l' n' Hl' Hn'.
    destruct (decide (i = Z.to_nat (slot k))) as [->|Hne].
    + rewrite list_lookup_insert_eq in Hl' by (by eapply lookup_lt_Some). simplify_eq.
      apply elem_of_cons in Hn' as [->|Hn']; [simpl; lia|eauto].
    + rewrite list_lookup_insert_ne in Hl' by done. eauto.
Qed.
End RaceFrames.

Section RaceProof.
Import Interleaving Race.
Variable allocator : gset positive → ptr.
Hypothesis allocator_fresh : ∀ d a, allocator d = Some a → a ∉ d.
Variables (k : Z) (ls0 : list (list node)) (l0 : list node).
Hypothesis Hk : 0 ≤ slot k < NUM_BUCKETS.
Hypothesis Hl0 : index ls0 (slot k) = Some l0.
Hypothesis Hnok : chain_find k l0 = None.
Implicit Types (s : process rwlock bool) (c : pc) (l : list node).

(** *** The bucket lock and the entry mutexes *)

Lemma race_lock_at s c1 c2 :
  locks_inv k s c1 c2 →
  index (bucket_locks s) (slot k)
  = Some (RwLock (Nat.b2n (in_shared c1) + Nat.b2n (in_shared c2))
                 (in_exclusive c1 || in_exclusive c2)).
Proof.
  intros (-> & _ & _). eapply index_insert_eq.
  by rewrite index_replicate, decide_True.
Qed.

Lemma race_lock_set s c1 c2 c1' x :
  locks_inv k s c1 c2 →
  x = RwLock (Nat.b2n (in_shared c1') + Nat.b2n (in_shared c2))
             (in_exclusive c1' || in_exclusive c2) →
  in_exclusive c1' && in_exclusive c2 = false →
  (in_exclusive c1' || in_exclusive c2 = true → in_shared c1' || in_shared c2 = false) →
  locks_inv k (set_locks (<[Z.to_nat (slot k) := x]> (bucket_locks s)) s) c1' c2.
Proof.
  intros (Hl & _ & _) -> H1 H2. split; [|done]. cbn [bucket_locks set_locks].
  rewrite Hl. apply list_insert_insert_eq.
Qed.

Lemma race_lock_same s c1 c2 c1' :
  locks_inv k s c1 c2 →
  in_shared c1' = in_shared c1 → in_exclusive c1' = in_exclusive c1 →
  locks_inv k s c1' c2.
Proof. unfold locks_inv. by intros ? -> ->. Qed.

Lemma race_other_outside s c1 c2 :
  locks_inv k s c1 c2 → in_exclusive c1 = true →
  in_shared c2 = false ∧ in_exclusive c2 = false.
Proof.
  intros (_ & H1 & H2) Hc. rewrite Hc in *. simpl in *.
  split; [|done]. specialize (H2 eq_refl). by apply orb_false_iff in H2 as [_ ?].
Qed.

Lemma race_other_not_exclusive s c1 c2 :
  locks_inv k s c1 c2 → in_shared c1 = true → in_exclusive c2 = false.
Proof.
  intros (_ & H1 & H2) Hc. destruct (in_exclusive c2); [|done].
  rewrite orb_true_r in H2. specialize (H2 eq_refl). rewrite Hc in H2. done.
Qed.

(** The four lock calls on the bucket lock. *)
Lemma race_rdlock s c1 c2 c1' :
  locks_inv k s c1 c2 → in_shared c1 = false → in_exclusive c1 = false →
  in_shared c1' = true → in_exclusive c1' = false →
  pthread_rwlock_rdlock (slot k) s = Hang ∨
  in_exclusive c2 = false ∧
  ∃ lk, pthread_rwlock_rdlock (slot k) s = Return () (set_locks lk s) ∧
        locks_inv k (set_locks lk s) c1' c2.
Proof.
  intros Hinv Hs He Hs' He'. unfold pthread_rwlock_rdlock.
  rewrite (race_lock_at _ _ _ Hinv), Hs, He. cbn [writer readers].
  rewrite orb_false_l.
  destruct (in_exclusive c2) eqn:He2; [by left|]. right.
  split; [done|]. eexists. split; [done|]. eapply race_lock_set; [done| | |].
  - by rewrite Hs', He', He2.
  - by rewrite He'.
  - by rewrite He', He2.
Qed.

Lemma race_wrlock s c1 c2 c1' :
  locks_inv k s c1 c2 → in_shared c1 = false → in_exclusive c1 = false →
  in_shared c1' = false → in_exclusive c1' = true →
  pthread_rwlock_wrlock (slot k) s = Hang ∨
  in_exclusive c2 = false ∧ in_shared c2 = false ∧
  ∃ lk, pthread_rwlock_wrlock (slot k) s = Return () (set_locks lk s) ∧
        locks_inv k (set_locks lk s) c1' c2.
Proof.
  intros Hinv Hs He Hs' He'. unfold pthread_rwlock_wrlock.
  rewrite (race_lock_at _ _ _ Hinv), Hs, He. cbn [writer readers].
  rewrite orb_false_l.
  destruct (in_exclusive c2) eqn:He2; [by left|].
  destruct (in_shared c2) eqn:Hs2; [by left|]. right.
  split; [done|]. split; [done|]. eexists. split; [done|]. eapply race_lock_set; [done| | |].
  - by rewrite Hs', He', He2, Hs2.
  - by rewrite He2, andb_false_r.
  - by rewrite Hs', Hs2.
Qed.

Lemma race_unlock_shared s c1 c2 c1' :
  locks_inv k s c1 c2 → in_shared c1 = true →
  in_shared c1' = false → in_exclusive c1' = false →
  in_exclusive c2 = false ∧
  ∃ lk, pthread_rwlock_unlock (slot k) s = Return () (set_locks lk s) ∧
        locks_inv k (set_locks lk s) c1' c2.
Proof.
  intros Hinv Hs Hs' He'.
  pose proof (race_other_not_exclusive _ _ _ Hinv Hs) as He2. split; [done|].
  assert (in_exclusive c1 = false) as He.
  { destruct Hinv as (_ & _ & H2). destruct (in_exclusive c1); [|done].
    specialize (H2 eq_refl). by rewrite Hs in H2. }
  unfold pthread_rwlock_unlock.
  rewrite (race_lock_at _ _ _ Hinv), Hs, He, He2. cbn [writer readers orb Nat.b2n Nat.add].
  eexists. split; [done|]. eapply race_lock_set; [done| | |].
  - by rewrite Hs', He', He2.
  - by rewrite He'.
  - by rewrite He', He2.
Qed.

Lemma race_unlock_exclusive s c1 c2 c1' :
  locks_inv k s c1 c2 → in_exclusive c1 = true →
  in_shared c1' = false → in_exclusive c1' = false →
  in_exclusive c2 = false ∧ in_shared c2 = false ∧
  ∃ lk, pthread_rwlock_unlock (slot k) s = Return () (set_locks lk s) ∧
        locks_inv k (set_locks lk s) c1' c2.
Proof.
  intros Hinv He Hs' He'.
  destruct (race_other_outside _ _ _ Hinv He) as [Hs2 He2]. split; [done|]. split; [done|].
  assert (in_shared c1 = false) as Hs.
  { destruct Hinv as (_ & _ & H2). rewrite He in H2. specialize (H2 eq_refl).
    by apply orb_false_iff in H2 as [? _]. }
  unfold pthread_rwlock_unlock.
  rewrite (race_lock_at _ _ _ Hinv), Hs, He, He2, Hs2. cbn [writer readers orb Nat.b2n Nat.add].
  eexists. split; [done|]. eapply race_lock_set; [done| | |].
  - by rewrite Hs', He', He2, Hs2.
  - by rewrite He'.
  - by rewrite He', He2.
Qed.

(** The two calls on an entry mutex. *)
Lemma race_mutex_frame s s' ls ls' c1 c1' c2 :
  mutex_inv s ls c1 c2 →
  (∀ a, has_mutex a c1' = has_mutex a c1) →
  (∀ l n e', l ∈ ls' → n ∈ l → heap s' !! node_addr n = Some e' →
     ∃ l1 n1 e, l1 ∈ ls ∧ n1 ∈ l1 ∧ node_addr n1 = node_addr n ∧
                heap s !! node_addr n = Some e ∧ entry_mutex e = entry_mutex e') →
  mutex_inv s' ls' c1' c2.
Proof.
  intros [Hmx Hex] Hpc Hnodes. split.
  - intros l n e' Hl Hn He'.
    destruct (Hnodes _ _ _ Hl Hn He') as (l1 & n1 & e & Hl1 & Hn1 & Ha & He & <-).
    rewrite Hpc, <- Ha. apply (Hmx l1); [done|done|]. by rewrite Ha.
  - intros a. by rewrite Hpc.
Qed.

Lemma race_mutex_lock s s' ls c1 c2 c1' a :
  mutex_inv s ls c1 c2 →
  (∀ a', has_mutex a' c1 = false) →
  (∀ a', has_mutex a' c1' = bool_decide (a = a')) →
  (∃ l n, l ∈ ls ∧ n ∈ l ∧ node_addr n = a) →
  TwoLevel.pthread_mutex_lock a s = Return () s' →
  s' = set_heap (alter (with_mutex true) a (heap s)) s ∧ mutex_inv s' ls c1' c2.
Proof.
  intros [Hmx Hex] Hc1 Hc1' (l & n & Hl & Hn & <-) Hstep.
  unfold TwoLevel.pthread_mutex_lock in Hstep.
  destruct (heap s !! node_addr n) as [e|] eqn:He; [|done].
  pose proof (Hmx _ _ _ Hl Hn He) as Hm. rewrite Hc1 in Hm. simpl in Hm.
  rewrite Hm in Hstep. destruct (has_mutex (node_addr n) c2) eqn:Hc2; [done|].
  injection Hstep as <-. split; [done|]. split.
  - intros l' n' e' Hl' Hn'. cbn [heap set_heap]. rewrite Hc1'.
    destruct (decide (node_addr n = node_addr n')) as [Ha|Ha].
    + rewrite <- Ha, lookup_alter_eq, He. intros [= <-]. by rewrite bool_decide_true.
    + rewrite lookup_alter_ne, bool_decide_false by done. intros He'.
      rewrite (Hmx _ _ _ Hl' Hn' He'). by rewrite Hc1.
  - intros a'. rewrite Hc1'. case_bool_decide as Ha; [|done]. by subst a'.
Qed.

Lemma race_mutex_unlock s ls c1 c2 c1' a :
  mutex_inv s ls c1 c2 →
  (∀ a', has_mutex a' c1 = bool_decide (a = a')) →
  (∀ a', has_mutex a' c1' = false) →
  (∃ l n, l ∈ ls ∧ n ∈ l ∧ node_addr n = a) →
  is_Some (heap s !! a) →
  TwoLevel.pthread_mutex_unlock a s
  = Return () (set_heap (alter (with_mutex false) a (heap s)) s) ∧
  mutex_inv (set_heap (alter (with_mutex false) a (heap s)) s) ls c1' c2.
Proof.
  intros [Hmx Hex] Hc1 Hc1' (l & n & Hl & Hn & <-) [e He].
  unfold TwoLevel.pthread_mutex_unlock. rewrite He.
  pose proof (Hmx _ _ _ Hl Hn He) as Hm. rewrite Hc1, bool_decide_true in Hm by done.
  simpl in Hm. rewrite Hm. split; [done|].
  pose proof (Hex (node_addr n)) as Hc2. rewrite Hc1, bool_decide_true in Hc2 by done.
  simpl in Hc2. split.
  - intros l' n' e' Hl' Hn'. cbn [heap set_heap]. rewrite Hc1'.
    destruct (decide (node_addr n = node_addr n')) as [Ha|Ha].
    + rewrite <- Ha, lookup_alter_eq, He. intros [= <-]. by rewrite Hc2.
    + rewrite lookup_alter_ne by done. intros He'.
      rewrite (Hmx _ _ _ Hl' Hn' He'). by rewrite Hc1, bool_decide_false.
  - intros a'. by rewrite Hc1'.
Qed.

(** *** What a thread keeps knowing while the other one moves *)

Lemma cons_ne {A} (x : A) (l : list A) : x :: l ≠ l.
Proof. intros H. apply (f_equal length) in H. simpl in H. lia. Qed.

Lemma thread_inv_stable v s s' ls ls' l l' th :
  thread_inv k l0 v s ls l th → in_exclusive (at_pc th) = false → grows k l0 l l' →
  thread_inv k l0 v s' ls' l' th.
Proof.
  intros Hth Hex Hg.
  assert (l ≠ l0 → l' ≠ l0) as Hne.
  { intros Hl. destruct Hg as [->|[[-> _]|(a & x & x' & -> & ->)]]; [done|done|].
    apply cons_ne. }
  assert (∀ a x, l = Node a k x :: l0 → ∃ x', l' = Node a k x' :: l0) as Hhd.
  { intros a x ->. destruct Hg as [->|[[Hl _]|(a' & y & y' & [= -> ->] & ->)]]; eauto.
    by destruct (cons_ne _ _ Hl). }
  assert (∀ cur, valid_cursor l cur → valid_cursor l' cur) as Hcur.
  { intros cur [->|(n & Hn & ->)]; [by left|]. right.
    destruct Hg as [->|[[-> (a & x & ->)]|(a & x & x' & -> & ->)]].
    - eauto.
    - exists n. split; [by apply list_elem_of_further|done].
    - apply elem_of_cons in Hn as [->|Hn].
      + exists (Node a k x'). split; [apply list_elem_of_here|done].
      + exists n. split; [by apply list_elem_of_further|done]. }
  clear Hg Hk Hl0 Hnok allocator_fresh.
  destruct th as [c todo]. destruct c; cbn [at_pc in_exclusive] in Hex; try done;
    destruct todo as [|[] []]; try done; cbn [thread_inv] in *;
    repeat match goal with
           | H : _ ∧ _ |- _ => destruct H
           | H : ∃ _, _ |- _ => destruct H
           end; subst;
    try (destruct (Hhd _ _ eq_refl) as [? ->]); repeat split; eauto; try done;
    by destruct w.
Qed.

Local Abbreviation chains l := (<[Z.to_nat (slot k) := l]> ls0).

Lemma chains_index l : index (chains l) (slot k) = Some l.
Proof. by eapply index_insert_eq. Qed.

Lemma chains_elem l : l ∈ chains l.
Proof.
  pose proof (chains_index l) as [_ H]%index_Some. by eapply list_elem_of_lookup_2.
Qed.

Lemma chains_head s l :
  buckets s (chains l) →
  ∃ p, index (table s) (slot k) = Some p ∧ is_chain (heap s) p l.
Proof. intros Hb. eapply buckets_index_inv; [done|]. apply chains_index. Qed.

Lemma chains_insert l l' : <[Z.to_nat (slot k) := l']> (chains l) = chains l'.
Proof. apply list_insert_insert_eq. Qed.

Lemma shape_find l a x :
  l = Node a k x :: l0 → chain_find k l = Some (Node a k x).
Proof. intros ->. simpl. by rewrite decide_True. Qed.

Lemma l0_no_key n : n ∈ l0 → node_key n ≠ k.
Proof. intros Hn. by eapply chain_find_None. Qed.

(** An entry of the chain that holds [k] is its head, and the chain has
    grown. *)
Lemma shape_key_node v1 v2 l n :
  chain_shape k l0 v1 v2 l → n ∈ l → node_key n = k →
  ∃ x, l = Node (node_addr n) k x :: l0.
Proof.
  intros [->|(a & w & -> & _)] Hn Hkn.
  - by destruct (l0_no_key n).
  - apply elem_of_cons in Hn as [->|Hn]; [by eauto|]. by destruct (l0_no_key n).
Qed.

Lemma race_in_section s c1 c2 :
  locks_inv k s c1 c2 → in_shared c1 || in_exclusive c1 = true → in_exclusive c2 = false.
Proof.
  intros Hinv [H|H]%orb_true_iff.
  - by eapply race_other_not_exclusive.
  - by eapply race_other_outside.
Qed.

Lemma has_mutex_in_section a c :
  has_mutex a c = true → in_shared c || in_exclusive c = true.
Proof. destruct c; try done; by destruct w. Qed.

Lemma is_chain_next {M} (h : gmap positive (bucket_entry M)) p l n e :
  is_chain h p l → n ∈ l → h !! node_addr n = Some e → valid_cursor l (next e).
Proof.
  revert p. induction l as [|n0 l IH]; intros p Hc Hn He; [by apply elem_of_nil in Hn|].
  destruct Hc as [-> (e0 & He0 & _ & _ & Hc)].
  assert (valid_cursor l (next e0)) as Hnext0.
  { destruct l as [|n1 l]; [by left|]. destruct Hc as [-> _]. right.
    exists n1. split; [apply list_elem_of_here|done]. }
  assert (∀ cur, valid_cursor l cur → valid_cursor (n0 :: l) cur) as Hweak.
  { intros cur [->|(n' & Hn' & ->)]; [by left|]. right. exists n'.
    split; [by apply list_elem_of_further|done]. }
  destruct (decide (node_addr n = node_addr n0)) as [Ha|Ha].
  - rewrite Ha, He0 in He. injection He as <-. by apply Hweak.
  - apply elem_of_cons in Hn as [->|Hn]; [done|]. apply Hweak. by eapply IH.
Qed.

Lemma is_chain_head_cursor {M} (h : gmap positive (bucket_entry M)) p l :
  is_chain h p l → valid_cursor l p.
Proof.
  destruct l as [|n l]; [by left|]. intros [-> _]. right. exists n.
  split; [apply list_elem_of_here|done].
Qed.

Lemma buckets_node_dom s ls l n :
  buckets s ls → l ∈ ls → n ∈ l → is_Some (heap s !! node_addr n).
Proof.
  intros Hb [i Hi]%list_elem_of_lookup Hn.
  destruct (buckets_lookup _ _ _ _ Hb Hi) as (p & _ & Hc). by eapply is_chain_dom.
Qed.

Lemma chains_elem_inv l l2 l' : l' ∈ chains l → l' = l ∨ l' ∈ chains l2.
Proof.
  intros [j Hj]%list_elem_of_lookup.
  destruct (decide (j = Z.to_nat (slot k))) as [->|Hne].
  - pose proof (chains_index l) as [_ Hi]%index_Some. rewrite Hi in Hj. left. congruence.
  - right. rewrite list_lookup_insert_ne in Hj by done.
    eapply list_elem_of_lookup_2. by rewrite list_lookup_insert_ne.
Qed.

(** *** The distance of a scan from the end of its chain *)

Section CursorRank.
Context {M : Type}.
Implicit Types (h : gmap positive (bucket_entry M)).

Lemma cursor_rank_le l cur : (cursor_rank l cur ≤ length l)%nat.
Proof.
  induction l as [|n l IH]; simpl; [lia|]. case_decide; lia.
Qed.

Lemma cursor_rank_notin l a : a ∉ node_addr <$> l → cursor_rank l (Some a) = 0%nat.
Proof.
  induction l as [|n l IH]; [done|]. rewrite fmap_cons, not_elem_of_cons.
  intros [Hne Hnin]. simpl. rewrite decide_False by congruence. by apply IH.
Qed.

Lemma cursor_rank_None l : cursor_rank l None = 0%nat.
Proof. induction l as [|n l IH]; [done|]. cbn [cursor_rank]. by rewrite decide_False. Qed.

Lemma valid_cursor_addr l a :
  valid_cursor l (Some a) → a ∈ node_addr <$> l.
Proof.
  intros [?|(n & Hn & [= ->])]; [done|]. apply list_elem_of_fmap. eauto.
Qed.

(** Following [next] brings a scan strictly closer to the end of the chain. *)
Lemma cursor_rank_next h p l n e :
  is_chain h p l → n ∈ l → h !! node_addr n = Some e →
  (cursor_rank l (next e) < cursor_rank l (Some (node_addr n)))%nat.
Proof.
  revert p. induction l as [|n0 l IH]; intros p Hc Hn He; [by apply elem_of_nil in Hn|].
  pose proof (is_chain_NoDup _ _ _ Hc) as Hnd. rewrite fmap_cons in Hnd.
  apply NoDup_cons in Hnd as [Hnin Hnd].
  pose proof (is_chain_next _ _ _ _ _ Hc Hn He) as Hcur.
  destruct Hc as [-> (e0 & He0 & _ & _ & Hc)].
  assert (next e0 ≠ Some (node_addr n0)) as Hne0.
  { intros Heq. apply Hnin. apply valid_cursor_addr.
    rewrite <- Heq. destruct l as [|n1 l]; [by left|]. destruct Hc as [-> _]. right.
    exists n1. split; [apply list_elem_of_here|done]. }
  cbn [cursor_rank]. destruct (decide (node_addr n = node_addr n0)) as [Ha|Ha].
  - rewrite Ha, He0 in He. injection He as <-. rewrite Ha.
    rewrite (decide_True (P := Some (node_addr n0) = _)) by done.
    rewrite decide_False by done. pose proof (cursor_rank_le l (next e0)). lia.
  - apply elem_of_cons in Hn as [->|Hn]; [done|].
    rewrite (decide_False (P := Some (node_addr n) = _)) by congruence.
    pose proof (IH _ Hc Hn He) as Hlt.
    destruct (decide (next e = Some (node_addr n0))) as [Heq|Hneq]; [|done].
    destruct Hnin. apply valid_cursor_addr. rewrite <- Heq. by eapply is_chain_next.
Qed.

Lemma cursor_rank_pos l n : n ∈ l → (0 < cursor_rank l (Some (node_addr n)))%nat.
Proof.
  induction l as [|n0 l IH]; [by intros ?%elem_of_nil|]. simpl. case_decide; [lia|].
  intros [->|Hn]%elem_of_cons; [done|]. by apply IH.
Qed.
End CursorRank.

(** *** One step of the first thread, control point by control point *)

Section Step.
Variables (v1 v2 : Z).
Implicit Types (th : thread).

Local Abbreviation step_ok := (Race.step_ok k l0 ls0 v1 v2).

Ltac race_open :=
  let l := fresh "l" in
  intros (l & Hshape & Hb & Hlk & Hmx & Ht1 & Ht2);
  cbn [thread_inv at_pc] in Hlk, Hmx, Ht1.

Lemma race_step_call s k' v' th2 :
  race_inv k l0 ls0 v1 v2 s (Thread Idle [Insert k' v']) th2 →
  race_inv k l0 ls0 v1 v2 s (Thread (I_rdlock k' v') []) th2.
Proof.
  race_open. exists l. split; [done|]. split; [done|]. split; [exact Hlk|].
  split; [exact Hmx|]. split; [exact Ht1|exact Ht2].
Qed.

Lemma race_step_rdlock s k' v' th2 :
  race_inv k l0 ls0 v1 v2 s (Thread (I_rdlock k' v') []) th2 →
  step_ok [] th2 (step_of allocator (I_rdlock k' v') s).
Proof.
  race_open. destruct Ht1 as [-> ->]. cbn [step_of]. unfold mbind, prog_bind, mret, prog_ret.
  destruct (race_rdlock _ _ _ (I_head false k v1) Hlk eq_refl eq_refl eq_refl eq_refl)
    as [->|(He2 & lk & -> & Hlk')]; [done|].
  exists l. split; [done|]. split; [by apply (buckets_same_data s)|]. split; [exact Hlk'|].
  split; [exact Hmx|]. split; [done|exact Ht2].
Qed.

Lemma race_step_wrlock s k' v' th2 :
  race_inv k l0 ls0 v1 v2 s (Thread (I_wrlock k' v') []) th2 →
  step_ok [] th2 (step_of allocator (I_wrlock k' v') s).
Proof.
  race_open. destruct Ht1 as [-> ->]. cbn [step_of]. unfold mbind, prog_bind, mret, prog_ret.
  destruct (race_wrlock _ _ _ (I_head true k v1) Hlk eq_refl eq_refl eq_refl eq_refl)
    as [->|(He2 & Hs2 & lk & -> & Hlk')]; [done|].
  exists l. split; [done|]. split; [by apply (buckets_same_data s)|]. split; [exact Hlk'|].
  split; [exact Hmx|]. split; [done|exact Ht2].
Qed.

Lemma race_step_head s w k' v' th2 :
  race_inv k l0 ls0 v1 v2 s (Thread (I_head w k' v') []) th2 →
  step_ok [] th2 (step_of allocator (I_head w k' v') s).
Proof.
  race_open. destruct Ht1 as [-> ->]. cbn [step_of]. unfold mbind, prog_bind, mret, prog_ret.
  destruct (chains_head _ _ Hb) as (p & Hp & Hc). unfold get_table. rewrite Hp.
  exists l. split; [done|]. split; [done|]. split.
  { eapply race_lock_same; [done|by destruct w|by destruct w]. }
  split; [exact Hmx|]. split; [|exact Ht2].
  cbn [thread_inv]. split; [done|]. split; [done|]. split.
  - by eapply is_chain_head_cursor.
  - intros _. destruct Hshape as [->|(a & x & -> & _)]; [by left|]. right.
    destruct Hc as [-> _]. eauto.
Qed.

Lemma race_step_test s w k' v' cur th2 :
  race_inv k l0 ls0 v1 v2 s (Thread (I_test w k' v' cur) []) th2 →
  step_ok [] th2 (step_of allocator (I_test w k' v' cur) s).
Proof.
  race_open. destruct Ht1 as (-> & -> & Hcur & Hw).
  destruct (chains_head _ _ Hb) as (p & Hp & Hc).
  destruct cur as [cur|]; cbn [step_of]; unfold mbind, prog_bind, mret, prog_ret.
  - destruct Hcur as [?|(n & Hn & [= ->])]; [done|].
    destruct (is_chain_lookup _ _ _ _ Hc Hn) as (e & He & Hke & _).
    unfold load. rewrite He. cbn [step_ok].
    exists l. split; [done|]. split; [done|]. split.
    { eapply race_lock_same; [done| |]; case_decide; by destruct w. }
    split.
    { eapply race_mutex_frame; [done| |by eauto 10]. intros a. by case_decide. }
    split; [|exact Ht2]. case_decide as Hkk; cbn [thread_inv].
    + split; [done|]. split; [done|]. eapply shape_key_node; [done|done|congruence].
    + split; [done|]. split; [done|]. split; [by eapply is_chain_next|].
      intros Hwt. destruct (Hw Hwt) as [->|(a & x & -> & [= Ha])]; [by left|].
      exfalso. apply Hkk. rewrite Hke.
      by rewrite (is_chain_addr_key _ _ _ n (Node a k x) Hc Hn (list_elem_of_here _ _) Ha).
  - cbn [step_ok]. exists l. split; [done|]. split; [done|]. split.
    { eapply race_lock_same; [done|by destruct w|by destruct w]. }
    split.
    { eapply race_mutex_frame; [done| |by eauto 10]. intros a. by destruct w. }
    split; [|exact Ht2]. destruct w; cbn [thread_inv]; [|done].
    split; [done|]. split; [done|].
    destruct (Hw eq_refl) as [->|(a & x & -> & [=])]. done.
Qed.

Lemma race_head_node a x :
  ∃ l n, l ∈ chains (Node a k x :: l0) ∧ n ∈ l ∧ node_addr n = a.
Proof.
  exists (Node a k x :: l0), (Node a k x). split; [apply chains_elem|].
  split; [apply list_elem_of_here|done].
Qed.

Lemma race_head_cell s a x :
  buckets s (chains (Node a k x :: l0)) →
  ∃ e, heap s !! a = Some e ∧ key e = k ∧ val e = x ∧ a ∉ node_addr <$> l0.
Proof.
  intros Hb. destruct (chains_head _ _ Hb) as (p & Hp & Hc).
  pose proof (is_chain_NoDup _ _ _ Hc) as Hnd. rewrite fmap_cons in Hnd.
  apply NoDup_cons in Hnd as [Hnin _].
  destruct Hc as [_ (e & He & Hke & Hve & _)]. eauto 10.
Qed.

Lemma race_step_mutex_lock s w k' v' a th2 :
  race_inv k l0 ls0 v1 v2 s (Thread (I_mutex_lock w k' v' a) []) th2 →
  step_ok [] th2 (step_of allocator (I_mutex_lock w k' v' a) s).
Proof.
  race_open. destruct Ht1 as (-> & -> & x & ->).
  cbn [step_of]. unfold mbind, prog_bind, mret, prog_ret.
  destruct (race_head_cell _ _ _ Hb) as (e & He & _).
  destruct (TwoLevel.pthread_mutex_lock a s) as [[] s1| | |] eqn:Hlock; cbn [step_ok]; try done.
  - assert (s1 = set_heap (alter (with_mutex true) a (heap s)) s ∧
            mutex_inv s1 (chains (Node a k x :: l0)) (I_store w k v1 a) (at_pc th2))
      as [-> Hmx'].
    { eapply race_mutex_lock; [exact Hmx|done|done|apply race_head_node|exact Hlock]. }
    assert (in_exclusive (at_pc th2) = false) as He2.
    { eapply race_in_section; [done|]. by destruct w. }
    exists (Node a k x :: l0). split; [done|]. split; [by apply buckets_mutex|].
    split. { eapply race_lock_same; [exact Hlk|by destruct w|by destruct w]. }
    split; [done|]. split; [cbn [thread_inv]; eauto|].
    eapply thread_inv_stable; [exact Ht2|done|by left].
  - unfold TwoLevel.pthread_mutex_lock in Hlock. rewrite He in Hlock.
    by destruct (entry_mutex e).
  - unfold TwoLevel.pthread_mutex_lock in Hlock. rewrite He in Hlock.
    by destruct (entry_mutex e).
Qed.

Lemma race_step_store s w k' v' a th2 :
  race_inv k l0 ls0 v1 v2 s (Thread (I_store w k' v' a) []) th2 →
  step_ok [] th2 (step_of allocator (I_store w k' v' a) s).
Proof.
  race_open. destruct Ht1 as (-> & -> & x & ->).
  cbn [step_of]. unfold mbind, prog_bind, mret, prog_ret.
  destruct (race_head_cell _ _ _ Hb) as (e & He & Hke & Hve & Hnin).
  unfold store_val. rewrite He. cbn [step_ok].
  assert (in_exclusive (at_pc th2) = false) as He2.
  { eapply race_in_section; [done|]. by destruct w. }
  pose proof (store_buckets s _ k v1 _ _ Hb (chains_index _) (shape_find _ a x eq_refl)) as Hb'.
  cbn [node_addr] in Hb'. rewrite chains_insert, chain_store_cons in Hb'.
  cbn [node_addr node_key] in Hb'. rewrite decide_True in Hb' by done.
  rewrite chain_store_notin in Hb' by done.
  exists (Node a k v1 :: l0). split; [right; eauto|]. split; [done|].
  split. { eapply race_lock_same; [exact Hlk|by destruct w|by destruct w]. }
  split.
  { eapply race_mutex_frame; [exact Hmx|done|]. cbn [heap set_heap].
    intros l n e' Hl Hn He'.
    assert (∃ l1 n1, l1 ∈ chains (Node a k x :: l0) ∧ n1 ∈ l1 ∧ node_addr n1 = node_addr n)
      as (l1 & n1 & Hl1 & Hn1 & Ha).
    { apply list_elem_of_lookup in Hl as [j Hj].
      destruct (decide (j = Z.to_nat (slot k))) as [->|Hne].
      - pose proof (chains_index (Node a k v1 :: l0)) as [_ Hi]%index_Some.
        rewrite Hi in Hj. injection Hj as <-.
        apply elem_of_cons in Hn as [->|Hn].
        + apply race_head_node.
        + exists (Node a k x :: l0), n. split; [apply chains_elem|].
          split; [by apply list_elem_of_further|done].
      - rewrite list_lookup_insert_ne in Hj by done.
        exists l, n. split; [|done]. eapply list_elem_of_lookup_2.
        by rewrite list_lookup_insert_ne. }
    exists l1, n1.
    apply lookup_alter_Some in He' as [[Haa (e0 & He0 & ->)]|[Haa He0]].
    - exists e0. by rewrite entry_mutex_with_val.
    - by exists e'. }
  split; [cbn [thread_inv]; eauto|].
  eapply thread_inv_stable; [exact Ht2|done|]. right. right. eauto.
Qed.

Lemma race_step_mutex_unlock s w k' v' a th2 :
  race_inv k l0 ls0 v1 v2 s (Thread (I_mutex_unlock w k' v' a) []) th2 →
  step_ok [] th2 (step_of allocator (I_mutex_unlock w k' v' a) s).
Proof.
  race_open. destruct Ht1 as (-> & -> & x & ->).
  cbn [step_of]. unfold mbind, prog_bind, mret, prog_ret.
  destruct (race_head_cell _ _ _ Hb) as (e & He & _).
  destruct (race_mutex_unlock _ _ _ _ (I_unlock_found w k v1) a Hmx) as [-> Hmx'].
  { done. } { done. } { apply race_head_node. } { by eauto. }
  cbn [step_ok].
  assert (in_exclusive (at_pc th2) = false) as He2.
  { eapply race_in_section; [done|]. by destruct w. }
  exists (Node a k x :: l0). split; [done|]. split; [by apply buckets_mutex|].
  split. { eapply race_lock_same; [exact Hlk|by destruct w|by destruct w]. }
  split; [done|]. split.
  - cbn [thread_inv]. split; [done|]. split; [done|]. apply cons_ne.
  - eapply thread_inv_stable; [exact Ht2|done|by left].
Qed.

Lemma race_step_unlock_found s w k' v' th2 :
  race_inv k l0 ls0 v1 v2 s (Thread (I_unlock_found w k' v') []) th2 →
  step_ok [] th2 (step_of allocator (I_unlock_found w k' v') s).
Proof.
  race_open. destruct Ht1 as (-> & -> & Hne).
  cbn [step_of]. unfold mbind, prog_bind, mret, prog_ret.
  destruct w.
  - destruct (race_unlock_exclusive _ _ _ Idle Hlk eq_refl eq_refl eq_refl)
      as (He2 & Hs2 & lk & -> & Hlk').
    exists l. split; [done|]. split; [by apply (buckets_same_data s)|]. split; [exact Hlk'|].
    split; [exact Hmx|]. split; [done|exact Ht2].
  - destruct (race_unlock_shared _ _ _ Idle Hlk eq_refl eq_refl eq_refl)
      as (He2 & lk & -> & Hlk').
    exists l. split; [done|]. split; [by apply (buckets_same_data s)|]. split; [exact Hlk'|].
    split; [exact Hmx|]. split; [done|exact Ht2].
Qed.

Lemma race_step_unlock_shared s k' v' th2 :
  race_inv k l0 ls0 v1 v2 s (Thread (I_unlock_shared k' v') []) th2 →
  step_ok [] th2 (step_of allocator (I_unlock_shared k' v') s).
Proof.
  race_open. destruct Ht1 as (-> & ->).
  cbn [step_of]. unfold mbind, prog_bind, mret, prog_ret.
  destruct (race_unlock_shared _ _ _ (I_wrlock k v1) Hlk eq_refl eq_refl eq_refl)
    as (He2 & lk & -> & Hlk').
  exists l. split; [done|]. split; [by apply (buckets_same_data s)|]. split; [exact Hlk'|].
  split; [exact Hmx|]. split; [done|exact Ht2].
Qed.

Lemma race_step_malloc s k' v' th2 :
  race_inv k l0 ls0 v1 v2 s (Thread (I_malloc k' v') []) th2 →
  step_ok [] th2 (step_of allocator (I_malloc k' v') s).
Proof.
  race_open. destruct Ht1 as (-> & -> & ->).
  cbn [step_of]. unfold mbind, prog_bind, mret, prog_ret, malloc, init_entry.
  assert (in_exclusive (at_pc th2) = false) as He2.
  { by eapply race_in_section. }
  destruct (allocator (dom (heap s))) as [e|] eqn:Ha; cbn [step_ok].
  - assert (heap s !! e = None) as He.
    { apply not_elem_of_dom. by eapply allocator_fresh. }
    assert (unlinked (chains l0) e) as Hun.
    { intros l n Hl Hn Heq. destruct (buckets_node_dom _ _ _ _ Hb Hl Hn) as [x Hx].
      rewrite Heq in Hx. congruence. }
    exists l0. split; [by left|]. split; [by apply buckets_alloc|].
    split. { eapply race_lock_same; [exact Hlk|done|done]. }
    split.
    { eapply race_mutex_frame; [exact Hmx|done|]. cbn [heap set_heap].
      intros l n e' Hl Hn He'. exists l, n, e'.
      rewrite lookup_insert_ne in He'; [done|]. intros Heq. by eapply Hun. }
    split.
    + cbn [thread_inv heap set_heap]. rewrite lookup_insert_eq. done.
    + eapply thread_inv_stable; [exact Ht2|done|by left].
  - exists l0. split; [by left|]. split; [done|].
    split. { eapply race_lock_same; [exact Hlk|done|done]. }
    split; [exact Hmx|]. split; [done|exact Ht2].
Qed.

Lemma race_step_unlock_failed s k' v' th2 :
  race_inv k l0 ls0 v1 v2 s (Thread (I_unlock_failed k' v') []) th2 →
  step_ok [] th2 (step_of allocator (I_unlock_failed k' v') s).
Proof.
  race_open. destruct Ht1 as (-> & ->).
  cbn [step_of]. unfold mbind, prog_bind, mret, prog_ret.
  destruct (race_unlock_exclusive _ _ _ I_panic Hlk eq_refl eq_refl eq_refl)
    as (He2 & Hs2 & lk & -> & Hlk').
  exists l. split; [done|]. split; [by apply (buckets_same_data s)|]. split; [exact Hlk'|].
  split; [exact Hmx|]. split; [done|exact Ht2].
Qed.

Lemma race_step_panic s th2 :
  race_inv k l0 ls0 v1 v2 s (Thread I_panic []) th2 →
  step_ok [] th2 (step_of allocator I_panic s).
Proof. done. Qed.

Lemma race_step_set_next s k' v' e th2 :
  race_inv k l0 ls0 v1 v2 s (Thread (I_set_next k' v' e) []) th2 →
  step_ok [] th2 (step_of allocator (I_set_next k' v' e) s).
Proof.
  race_open. destruct Ht1 as (-> & -> & -> & Hun & He).
  cbn [step_of]. unfold mbind, prog_bind, mret, prog_ret, get_table, set_next.
  destruct (chains_head _ _ Hb) as (p & Hp & Hc). rewrite Hp, He. cbn [step_ok key val entry_mutex].
  assert (in_exclusive (at_pc th2) = false) as He2.
  { by eapply race_in_section. }
  exists l0. split; [by left|]. split; [by apply buckets_unlinked_write|].
  split. { eapply race_lock_same; [exact Hlk|done|done]. }
  split.
  { eapply race_mutex_frame; [exact Hmx|done|]. cbn [heap set_heap].
    intros l n e' Hl Hn He'. exists l, n, e'.
    rewrite lookup_insert_ne in He'; [done|]. intros Heq. by eapply Hun. }
  split.
  - cbn [thread_inv heap table set_heap]. rewrite lookup_insert_eq. eauto 10.
  - eapply thread_inv_stable; [exact Ht2|done|by left].
Qed.

Lemma race_step_publish s k' v' e th2 :
  race_inv k l0 ls0 v1 v2 s (Thread (I_publish k' v' e) []) th2 →
  step_ok [] th2 (step_of allocator (I_publish k' v' e) s).
Proof.
  race_open. destruct Ht1 as (-> & -> & -> & Hun & p & Hp & He).
  cbn [step_of]. unfold mbind, prog_bind, mret, prog_ret, put_table.
  rewrite Hp. cbn [step_ok].
  destruct (race_other_outside _ _ _ Hlk eq_refl) as [Hs2 He2].
  exists (Node e k v1 :: l0). split; [right; eauto|].
  split.
  { rewrite <- (chains_insert l0). eapply buckets_publish; try done.
    - apply Hk.
    - apply chains_index. }
  split. { eapply race_lock_same; [exact Hlk|done|done]. }
  split.
  { destruct Hmx as [Hmx Hex]. split; [|done].
    intros l n e' Hl Hn. cbn [heap set_table]. intros He'.
    destruct (chains_elem_inv _ l0 _ Hl) as [->|Hl'].
    - apply elem_of_cons in Hn as [->|Hn].
      + cbn [node_addr] in *. rewrite He in He'. injection He' as <-. cbn [entry_mutex].
        destruct (has_mutex e (at_pc th2)) eqn:Hm; [|done].
        apply has_mutex_in_section in Hm. rewrite Hs2, He2 in Hm. done.
      + apply (Hmx l0 n e'); [apply chains_elem|done|done].
    - by apply (Hmx l n e'). }
  split.
  - cbn [thread_inv]. split; [done|]. split; [done|]. apply cons_ne.
  - eapply thread_inv_stable; [exact Ht2|done|]. right. left. eauto.
Qed.

Lemma race_step_unlock_linked s k' v' th2 :
  race_inv k l0 ls0 v1 v2 s (Thread (I_unlock_linked k' v') []) th2 →
  step_ok [] th2 (step_of allocator (I_unlock_linked k' v') s).
Proof.
  race_open. destruct Ht1 as (-> & -> & Hne).
  cbn [step_of]. unfold mbind, prog_bind, mret, prog_ret.
  destruct (race_unlock_exclusive _ _ _ Idle Hlk eq_refl eq_refl eq_refl)
    as (He2 & Hs2 & lk & -> & Hlk').
  exists l. split; [done|]. split; [by apply (buckets_same_data s)|]. split; [exact Hlk'|].
  split; [exact Hmx|]. split; [done|exact Ht2].
Qed.
End Step.

(** *** Every schedule keeps the invariant *)

Lemma race_inv_sym v1 v2 s th1 th2 :
  race_inv k l0 ls0 v1 v2 s th1 th2 → race_inv k l0 ls0 v2 v1 s th2 th1.
Proof.
  intros (l & Hshape & Hb & (Hlk & Hex & Hsh) & (Hmx & Hmex) & Ht1 & Ht2).
  exists l. split.
  { destruct Hshape as [->|(a & w & -> & Hw)]; [by left|]. right. exists a, w. tauto. }
  split; [done|]. split.
  { split; [|split].
    - by rewrite Nat.add_comm, orb_comm.
    - by rewrite andb_comm.
    - by rewrite orb_comm, (orb_comm (in_shared _)). }
  split.
  { split.
    - intros l' n e Hl Hn He. rewrite orb_comm. by eapply Hmx.
    - intros a. by rewrite andb_comm. }
  done.
Qed.

(** Every step of the first thread from a state of the invariant. *)
Lemma race_step_first v1 v2 s c todo1 th2 :
  race_inv k l0 ls0 v1 v2 s (Thread c todo1) th2 → c ≠ Idle →
  todo1 = [] ∧ Race.step_ok k l0 ls0 v1 v2 [] th2 (step_of allocator c s).
Proof.
  intros Hinv Hc.
  assert (todo1 = []) as ->.
  { destruct Hinv as (l & _ & _ & _ & _ & Ht1 & _).
    destruct c, todo1; try done. }
  split; [done|].
  destruct c; try done;
    first [ by eapply race_step_rdlock | by eapply race_step_head | by eapply race_step_test
          | by eapply race_step_mutex_lock | by eapply race_step_store
          | by eapply race_step_mutex_unlock | by eapply race_step_unlock_found
          | by eapply race_step_unlock_shared | by eapply race_step_wrlock
          | by eapply race_step_malloc | by eapply race_step_unlock_failed
          | by eapply race_step_set_next | by eapply race_step_publish
          | by eapply race_step_unlock_linked
          | by destruct Hinv as (l & _ & _ & _ & _ & Ht1 & _) ].
Qed.

(** What [step] does with one thread, read off its definition. *)
Lemma step_thread s ts t c rest m' :
  ts !! t = Some (Thread c rest) → step allocator (Running s ts) t = Some m' →
  (c = Idle ∧ ∃ job rest', rest = job :: rest' ∧
     m' = Running s (<[t := Thread (enter job) rest']> ts)) ∨
  (c ≠ Idle ∧
   match step_of allocator c s with
   | Return c' s' => m' = Running s' (<[t := Thread c' rest]> ts)
   | Exit status s' => m' = Exited status s'
   | Hang => False
   | Undefined => m' = Crashed
   end).
Proof.
  intros Ht. cbn [step]. rewrite Ht.
  assert (c = Idle ∨ c ≠ Idle) as [->|Hc] by (destruct c; auto).
  - destruct rest as [|job rest']; [done|]. intros [= <-]. left. eauto.
  - intros Hstep. right. split; [done|].
    destruct c; try done; by destruct (step_of allocator _ s); simplify_eq.
Qed.

Lemma race_step_thread v1 v2 s ts t th1 th2 m' :
  race_inv k l0 ls0 v1 v2 s th1 th2 → ts !! t = Some th1 →
  step allocator (Running s ts) t = Some m' →
  match m' with
  | Running s' ts' => ∃ th1', ts' = <[t := th1']> ts ∧ race_inv k l0 ls0 v1 v2 s' th1' th2
  | Exited status _ => status = 1
  | Crashed => False
  end.
Proof.
  intros Hinv Ht Hstep. destruct th1 as [c rest].
  destruct (step_thread _ _ _ _ _ _ Ht Hstep) as [(-> & job & rest' & -> & ->)|[Hc Hm]].
  - eexists. split; [done|].
    assert (∃ k' v', job = Insert k' v' ∧ rest' = []) as (k' & v' & -> & ->).
    { destruct Hinv as (l & _ & _ & _ & _ & Ht1 & _). cbn [thread_inv] in Ht1.
      destruct job, rest'; try done; eauto. }
    by apply race_step_call.
  - destruct (race_step_first _ _ _ _ _ _ Hinv Hc) as [-> Hok].
    destruct (step_of allocator c s) as [c' s'|status s'| |]; cbn [step_ok] in Hok; try done.
    + subst m'. eauto.
    + by subst m'.
Qed.

Lemma race_step v1 v2 m t m' :
  machine_inv k l0 ls0 v1 v2 m → step allocator m t = Some m' →
  machine_inv k l0 ls0 v1 v2 m'.
Proof.
  destruct m as [s ts|status s|]; [|done|done].
  destruct ts as [|th1 [|th2 [|th3 ts]]]; try done. cbn [machine_inv]. intros Hinv Hstep.
  destruct t as [|[|t]].
  - pose proof (race_step_thread _ _ _ [th1; th2] 0%nat _ _ _ Hinv eq_refl Hstep) as Hm.
    destruct m' as [s' ts'|status s'|]; [|done|done].
    by destruct Hm as (th1' & -> & Hm).
  - apply race_inv_sym in Hinv.
    pose proof (race_step_thread _ _ _ [th1; th2] 1%nat _ _ _ Hinv eq_refl Hstep) as Hm.
    destruct m' as [s' ts'|status s'|]; [|done|done].
    destruct Hm as (th2' & -> & Hm). by apply race_inv_sym.
  - done.
Qed.

Lemma race_run v1 v2 schedule m :
  machine_inv k l0 ls0 v1 v2 m → machine_inv k l0 ls0 v1 v2 (run allocator schedule m).
Proof.
  revert m. induction schedule as [|t schedule IH]; intros m Hinv; [done|].
  cbn [run]. destruct (step allocator m t) as [m'|] eqn:Hstep; [|by apply IH].
  apply IH. by eapply race_step.
Qed.

Lemma race_inv_init v1 v2 s :
  consistent (RwLock 0 false) false s ls0 →
  race_inv k l0 ls0 v1 v2 s (Thread Idle [Insert k v1]) (Thread Idle [Insert k v2]).
Proof.
  intros (Hb & [Hlocks Hmx] & _). exists l0.
  rewrite (index_insert_id _ _ _ Hl0). split; [by left|]. split; [done|].
  split.
  { split; [|done]. cbn [at_pc in_shared in_exclusive Nat.b2n Nat.add orb].
    rewrite Hlocks. symmetry. apply list_insert_id.
    apply lookup_replicate_2. destruct Hk as [Hk1 Hk2]. unfold NUM_BUCKETS in *. lia. }
  split; [|done]. split; [|done].
  intros l n e Hl Hn He. by apply (Hmx l Hl n e).
Qed.

Lemma race_inv_chain v1 v2 s th1 th2 :
  race_inv k l0 ls0 v1 v2 s th1 th2 →
  ∃ l, buckets s (<[Z.to_nat (slot k) := l]> ls0) ∧ chain_shape k l0 v1 v2 l.
Proof. intros (l & Hshape & Hb & _). eauto. Qed.

Lemma race_inv_final v1 v2 s :
  (∀ l, l ∈ ls0 → NoDup (node_key <$> l)) →
  race_inv k l0 ls0 v1 v2 s (Thread Idle []) (Thread Idle []) →
  ∃ a w, (w = v1 ∨ w = v2) ∧
    consistent (RwLock 0 false) false s (<[Z.to_nat (slot k) := Node a k w :: l0]> ls0).
Proof.
  intros Hnd (l & Hshape & Hb & (Hlocks & _) & (Hmx & _) & Hne & _).
  cbn [thread_inv] in Hne. destruct Hshape as [->|(a & w & -> & Hw)]; [done|].
  exists a, w. split; [done|]. split; [done|]. split.
  - split.
    + rewrite Hlocks. cbn [at_pc in_shared in_exclusive Nat.b2n Nat.add orb].
      apply list_insert_id, lookup_replicate_2.
      destruct Hk as [Hk1 Hk2]. unfold NUM_BUCKETS in *. lia.
    + intros l Hl n e Hn He. by rewrite (Hmx l n e Hl Hn He).
  - intros l Hl.
    destruct (chains_elem_inv _ l0 _ Hl) as [->|Hl'].
    + rewrite fmap_cons. apply NoDup_cons. split; [by apply chain_find_keys|].
      apply Hnd. apply index_Some in Hl0 as [_ Hl0']. by eapply list_elem_of_lookup_2.
    + apply Hnd. by rewrite (index_insert_id _ _ _ Hl0) in Hl'.
Qed.

(** *** Progress: no deadlock, and an end to every run *)

Lemma steps_left_le cur : (steps_left l0 cur ≤ S (length l0))%nat.
Proof.
  destruct cur as [a|]; simpl; [|lia]. case_decide; [|lia].
  pose proof (cursor_rank_le l0 (Some a)). lia.
Qed.

Lemma race_tail_chain v1 v2 s l :
  chain_shape k l0 v1 v2 l → buckets s (<[Z.to_nat (slot k) := l]> ls0) →
  ∃ p0, is_chain (heap s) p0 l0.
Proof.
  intros Hshape Hb. destruct (chains_head _ _ Hb) as (p & _ & Hc).
  destruct Hshape as [->|(a & w & -> & _)]; [by eauto|].
  destruct Hc as [_ (e & _ & _ & _ & Hc)]. eauto.
Qed.

(** A scan that passes an entry has fewer entries left to look at. *)
Lemma race_scan_rank v1 v2 s l a e :
  chain_shape k l0 v1 v2 l → buckets s (<[Z.to_nat (slot k) := l]> ls0) →
  valid_cursor l (Some a) → heap s !! a = Some e → key e ≠ k →
  (steps_left l0 (next e) < steps_left l0 (Some a))%nat.
Proof.
  intros Hshape Hb [?|(n & Hn & [= ->])] He Hkey; [done|].
  destruct (race_tail_chain _ _ _ _ Hshape Hb) as (p0 & Hc0).
  assert (n ∈ l0) as Hn0.
  { destruct Hshape as [->|(a & w & -> & _)]; [done|].
    apply elem_of_cons in Hn as [->|Hn]; [|done].
    destruct (chains_head _ _ Hb) as (p & _ & Hc).
    destruct Hc as [_ (e' & He' & Hke & _)]. cbn [node_addr node_key] in *. congruence. }
  assert (node_addr n ∈ node_addr <$> l0) as Ha.
  { apply list_elem_of_fmap. eauto. }
  pose proof (cursor_rank_next _ _ _ _ _ Hc0 Hn0 He) as Hlt.
  cbn [steps_left]. rewrite (decide_True (P := node_addr n ∈ _)) by done.
  destruct (next e) as [b|] eqn:Hnext; cbn [steps_left]; [|by apply cursor_rank_pos].
  rewrite decide_True; [done|]. apply valid_cursor_addr. rewrite <- Hnext.
  by eapply is_chain_next.
Qed.

Ltac prims :=
  unfold mbind, prog_bind, mret, prog_ret, pthread_rwlock_rdlock, pthread_rwlock_wrlock,
    pthread_rwlock_unlock, get_table, put_table, load, store_val, malloc, init_entry,
    set_next, panic, hang, TwoLevel.pthread_mutex_lock, TwoLevel.pthread_mutex_unlock.

(** Every step of a thread inside [insert] brings it closer to the end. *)
Lemma race_step_rank v1 v2 s c c' s' todo1 th2 :
  race_inv k l0 ls0 v1 v2 s (Thread c todo1) th2 →
  step_of allocator c s = Return c' s' → (pc_rank l0 c' < pc_rank l0 c)%nat.
Proof.
  intros (l & Hshape & Hb & _ & _ & Ht1 & _) Hstep.
  destruct c; try (by destruct todo1);
    try (revert Hstep; cbn [step_of]; prims; intros Hstep;
         repeat case_match; simplify_eq; cbn [pc_rank]; lia).
  - revert Hstep. cbn [step_of]. prims.
    destruct (index (table s) (slot k0)) as [p|]; [|done]. intros [= <- <-].
    pose proof (steps_left_le p). destruct w; cbn [pc_rank]; lia.
  - destruct todo1; [|done]. cbn [thread_inv] in Ht1.
    destruct Ht1 as (-> & -> & Hcur & _). revert Hstep.
    destruct current as [a|]; cbn [step_of]; prims; intros Hstep.
    + destruct (heap s !! a) as [e|] eqn:He; [|done]. injection Hstep as <- <-.
      case_decide as Hkey; [destruct w; cbn [pc_rank]; lia|].
      pose proof (race_scan_rank _ _ _ _ _ _ Hshape Hb Hcur He Hkey).
      destruct w; cbn [pc_rank]; lia.
    + injection Hstep as <- <-. destruct w; cbn [pc_rank steps_left]; lia.
Qed.

(** A thread waits only for something the other thread holds. *)
Lemma race_hang v1 v2 s c todo1 th2 :
  race_inv k l0 ls0 v1 v2 s (Thread c todo1) th2 → c ≠ Idle →
  step_of allocator c s = Hang → waits_for c (at_pc th2) = true.
Proof.
  intros (l & Hshape & Hb & Hlk & Hmx & Ht1 & _) Hc Hstep.
  cbn [at_pc] in Hlk, Hmx.
  destruct c; try done; try (by destruct todo1);
    try (revert Hstep; cbn [step_of]; prims; intros Hstep;
         repeat case_match; by simplify_eq).
  - destruct todo1; [|done]. destruct Ht1 as [-> ->]. revert Hstep.
    cbn [step_of waits_for]. prims. rewrite (race_lock_at _ _ _ Hlk).
    cbn [writer readers in_exclusive orb]. by destruct (in_exclusive (at_pc th2)).
  - destruct todo1; [|done]. destruct Ht1 as (-> & -> & x & ->). revert Hstep.
    cbn [step_of waits_for]. prims.
    destruct (heap s !! current) as [e|] eqn:He; [|done].
    destruct Hmx as [Hmx _].
    rewrite (Hmx (Node current k x :: l0) (Node current k x) e); cbn [node_addr];
      [|by apply chains_elem|apply list_elem_of_here|done].
    cbn [has_mutex orb]. by destruct (has_mutex current (at_pc th2)).
  - destruct todo1; [|done]. destruct Ht1 as [-> ->]. revert Hstep.
    cbn [step_of waits_for]. prims. rewrite (race_lock_at _ _ _ Hlk).
    cbn [writer readers in_exclusive in_shared orb Nat.b2n Nat.add].
    destruct (in_exclusive (at_pc th2)); [by rewrite orb_true_r|].
    by destruct (in_shared (at_pc th2)).
Qed.

Lemma waits_for_stuck c1 c2 :
  waits_for c1 c2 = true → c2 ≠ Idle ∧ waits_for c2 c1 = false.
Proof. destruct c1; try done; destruct c2; try done; by destruct w. Qed.

(** Why a thread does not move, read off [step]. *)
Lemma step_blocked s ts t c rest :
  ts !! t = Some (Thread c rest) → step allocator (Running s ts) t = None →
  (c = Idle ∧ rest = []) ∨ (c ≠ Idle ∧ step_of allocator c s = Hang).
Proof.
  intros Ht. cbn [step]. rewrite Ht.
  assert (c = Idle ∨ c ≠ Idle) as [->|Hc] by (destruct c; auto).
  - destruct rest; [by left|done].
  - intros Hstep. right. split; [done|].
    destruct c; try done; by destruct (step_of allocator _ s).
Qed.

(** The two threads never wait for each other. *)
Lemma race_not_stuck v1 v2 s th1 th2 :
  race_inv k l0 ls0 v1 v2 s th1 th2 → ¬ (finished th1 ∧ finished th2) →
  ∃ t m', step allocator (Running s [th1; th2]) t = Some m'.
Proof.
  intros Hinv Hnot.
  destruct (step allocator (Running s [th1; th2]) 0) as [m'|] eqn:Hstep1; [by eauto|].
  destruct (step allocator (Running s [th1; th2]) 1) as [m'|] eqn:Hstep2; [by eauto|].
  destruct th1 as [c1 rest1], th2 as [c2 rest2].
  apply (step_blocked s [Thread c1 rest1; Thread c2 rest2] 0%nat c1 rest1 eq_refl) in Hstep1.
  apply (step_blocked s [Thread c1 rest1; Thread c2 rest2] 1%nat c2 rest2 eq_refl) in Hstep2.
  destruct Hstep1 as [[-> ->]|[Hc1 Hh1]], Hstep2 as [[-> ->]|[Hc2 Hh2]].
  - by destruct Hnot.
  - apply race_inv_sym in Hinv.
    pose proof (race_hang _ _ _ _ _ _ Hinv Hc2 Hh2) as Hw.
    by apply waits_for_stuck in Hw as [? _].
  - pose proof (race_hang _ _ _ _ _ _ Hinv Hc1 Hh1) as Hw.
    by apply waits_for_stuck in Hw as [? _].
  - pose proof (race_hang _ _ _ _ _ _ Hinv Hc1 Hh1) as Hw1.
    apply race_inv_sym in Hinv.
    pose proof (race_hang _ _ _ _ _ _ Hinv Hc2 Hh2) as Hw2.
    apply waits_for_stuck in Hw1 as [_ Hw1]. cbn [at_pc] in *. congruence.
Qed.

Lemma race_thread_rank v1 v2 s ts t th1 th2 m' :
  race_inv k l0 ls0 v1 v2 s th1 th2 → ts !! t = Some th1 →
  step allocator (Running s ts) t = Some m' →
  match m' with
  | Running s' ts' =>
      ∃ th1', ts' = <[t := th1']> ts ∧ (thread_rank l0 th1' < thread_rank l0 th1)%nat
  | _ => True
  end.
Proof.
  intros Hinv Ht Hstep. destruct th1 as [c rest].
  destruct (step_thread _ _ _ _ _ _ Ht Hstep) as [(-> & job & rest' & -> & ->)|[Hc Hm]].
  - eexists. split; [done|].
    assert (∃ k' v', job = Insert k' v' ∧ rest' = []) as (k' & v' & -> & ->).
    { destruct Hinv as (l & _ & _ & _ & _ & Ht1 & _). cbn [thread_inv] in Ht1.
      destruct job, rest'; try done; eauto. }
    cbn [enter thread_rank pc_rank]. lia.
  - destruct (race_step_first _ _ _ _ _ _ Hinv Hc)
      as [-> _].
    destruct (step_of allocator c s) as [c' s'|status s'| |] eqn:Hs; try done; [|by subst..].
    subst m'. eexists. split; [done|].
    pose proof (race_step_rank _ _ _ _ _ _ _ _ Hinv Hs) as Hlt.
    destruct c; try done; destruct c'; cbn [thread_rank]; done.
Qed.

Lemma race_step_decreases v1 v2 m t m' :
  machine_inv k l0 ls0 v1 v2 m → step allocator m t = Some m' →
  match m' with
  | Running _ _ => (machine_rank l0 m' < machine_rank l0 m)%nat
  | _ => True
  end.
Proof.
  destruct m as [s ts|status s|]; [|done|done].
  destruct ts as [|th1 [|th2 [|th3 ts]]]; try done. cbn [machine_inv]. intros Hinv Hstep.
  destruct t as [|[|t]].
  - pose proof (race_thread_rank _ _ _ [th1; th2] 0%nat _ _ _ Hinv eq_refl Hstep) as Hm.
    destruct m' as [s' ts'|status s'|]; [|done|done].
    destruct Hm as (th1' & -> & Hm). simpl. lia.
  - apply race_inv_sym in Hinv.
    pose proof (race_thread_rank _ _ _ [th1; th2] 1%nat _ _ _ Hinv eq_refl Hstep) as Hm.
    destruct m' as [s' ts'|status s'|]; [|done|done].
    destruct Hm as (th2' & -> & Hm). simpl. lia.
  - done.
Qed.

Lemma finished_both (th1 th2 : thread) :
  finished th1 → finished th2 → Forall finished [th1; th2].
Proof. intros H1 H2. apply Forall_cons_2; [done|]. apply Forall_cons_2; [done|]. apply Forall_nil_2. Qed.

Lemma finished_dec (th : thread) : finished th ∨ ¬ finished th.
Proof.
  destruct th as [c rest]. unfold finished. cbn [at_pc todo].
  destruct rest; [|by right; intros [_ ?]].
  destruct c; first [by left | by right; intros [? _]].
Qed.

(** The process has come to its end, or some thread can take a step that
    brings it closer. *)
Lemma race_progress v1 v2 m :
  machine_inv k l0 ls0 v1 v2 m →
  halted m ∨
  ∃ t m', step allocator m t = Some m' ∧ machine_inv k l0 ls0 v1 v2 m' ∧
          (halted m' ∨ (machine_rank l0 m' < machine_rank l0 m)%nat).
Proof.
  intros Hinv. destruct m as [s ts|status s|]; [|by left|done].
  destruct ts as [|th1 [|th2 [|th3 ts]]]; try done.
  destruct (finished_dec th1) as [H1|H1]; [destruct (finished_dec th2) as [H2|H2]|];
    [by left; apply finished_both|..].
  all: right.
  all: destruct (race_not_stuck _ _ _ _ _ Hinv) as (t & m' & Hstep); [tauto|].
  all: pose proof (race_step_decreases _ _ _ _ _ Hinv Hstep) as Hlt.
  all: pose proof (race_step _ _ _ _ _ Hinv Hstep) as Hinv'.
  all: exists t, m'; split; [done|]; split; [done|].
  all: destruct m'; [by right|by left|done].
Qed.

(** Whatever has happened, the two calls can be run to their end. *)
Lemma race_completes v1 v2 n m :
  machine_inv k l0 ls0 v1 v2 m → (machine_rank l0 m ≤ n)%nat →
  ∃ schedule, halted (run allocator schedule m).
Proof.
  revert m. induction n as [|n IH]; intros m Hinv Hn.
  - destruct (race_progress _ _ _ Hinv) as [Hh|(t & m' & Hstep & Hinv' & [Hh|Hlt])].
    + by exists [].
    + exists [t]. cbn [run]. by rewrite Hstep.
    + lia.
  - destruct (race_progress _ _ _ Hinv) as [Hh|(t & m' & Hstep & Hinv' & [Hh|Hlt])].
    + by exists [].
    + exists [t]. cbn [run]. by rewrite Hstep.
    + destruct (IH m' Hinv') as [schedule Hdone]; [lia|].
      exists (t :: schedule). cbn [run]. by rewrite Hstep.
Qed.

(** *** The process exits only after a failed [malloc] *)

Lemma run_app schedule schedule' m :
  run allocator (schedule ++ schedule') m = run allocator schedule' (run allocator schedule m).
Proof.
  revert m. induction schedule as [|t schedule IH]; intros m; [done|].
  cbn [app run]. by destruct (step allocator m t).
Qed.

(** Only [malloc] returning [NULL] sends a thread to [panic]. *)
Lemma step_of_failing s c c' s' :
  step_of allocator c s = Return c' s' → failing c' = true →
  failing c = true ∨ ∃ d, allocator d = None.
Proof.
  destruct c; cbn [step_of]; prims; intros Hstep Hf;
    repeat case_match; simplify_eq; try done; eauto.
Qed.

Lemma step_of_exit s c status s' :
  step_of allocator c s = Exit status s' → failing c = true.
Proof.
  destruct c; cbn [step_of]; prims; intros Hstep; repeat case_match; by simplify_eq.
Qed.

Lemma failure_explained_step m t m' :
  failure_explained allocator m → step allocator m t = Some m' →
  failure_explained allocator m'.
Proof.
  destruct m as [s ts|status s|]; [|done|done]. cbn [failure_explained]. intros Hall Hstep.
  destruct (ts !! t) as [[c rest]|] eqn:Ht; [|by cbn [step] in Hstep; rewrite Ht in Hstep].
  pose proof (Forall_lookup_1 _ _ _ _ Hall Ht) as Hc. cbn [at_pc] in Hc.
  destruct (step_thread _ _ _ _ _ _ Ht Hstep) as [(-> & job & rest' & -> & ->)|[_ Hm]].
  - cbn [failure_explained]. apply Forall_insert; [done|]. by destruct job.
  - destruct (step_of allocator c s) as [c' s'|status s'| |] eqn:Hs; try done; subst m'.
    + cbn [failure_explained]. apply Forall_insert; [done|]. cbn [at_pc]. intros Hf.
      destruct (step_of_failing _ _ _ _ Hs Hf); eauto.
    + cbn [failure_explained]. apply Hc. by eapply step_of_exit.
    + done.
Qed.

Lemma failure_explained_run schedule m :
  failure_explained allocator m → failure_explained allocator (run allocator schedule m).
Proof.
  revert m. induction schedule as [|t schedule IH]; intros m Hm; [done|].
  cbn [run]. destruct (step allocator m t) as [m'|] eqn:Hstep; [|by apply IH].
  apply IH. by eapply failure_explained_step.
Qed.
End RaceProof.

(** The race itself, on the example table: both threads miss key 11 under
    the shared lock and queue for the exclusive one; thread 0 links the
    entry, thread 1 finds it in its second scan and stores into it. *)
Lemma race_example_run :
  ∃ s', Interleaving.run bump [0; 1; 0; 1; 0; 1; 0; 1; 0; 1; 0; 1; 0; 1; 0; 1; 0; 1; 0; 1; 0; 1; 0; 1; 0; 1; 0; 1; 0; 1; 0; 1; 0; 1; 0; 1; 0; 1; 0; 1; 0; 1; 0; 1]%nat
          (Race.two_inserts 11 100 200 (example_table two_level))
        = Interleaving.Running s'
            [Interleaving.Thread Interleaving.Idle [];
             Interleaving.Thread Interleaving.Idle []] ∧
        table s' = [None; Some 4%positive; None; Some 3%positive; None] ∧
        heap s' !! 4%positive = Some (BucketEntry 11 200 (Some 2%positive) false) ∧
        bucket_locks s' = replicate (Z.to_nat NUM_BUCKETS) (RwLock 0 false).
Proof. eexists. split; [vm_compute; reflexivity|]. by vm_compute. Qed.

(** C5.  Two threads call [insert] of the two-level variant at the same
    time, with the same key [k], which the table does not hold, and the
    values [v1] and [v2]; the table is otherwise at rest and [malloc]
    returns blocks that are not in use.  Whatever the schedule,
    - nothing undefined happens, and the process exits only with status 1
      and only after [malloc] has returned [NULL];
    - at every moment the chain of the bucket of [k] is the chain [l0] it
      was at the start, or [l0] with one entry for [k] in front of it that
      holds [v1] or [v2]: it never holds two entries for [k];
    - once both calls have returned, the table is consistent again, with
      all locks released, the chain holds exactly one entry for [k], its
      value is [v1] or [v2], and [retrieve] answers with that value;
    - the schedule can always be continued so that both calls return (or
      the process exits): the threads never block each other for good. *)
Theorem concurrent_inserts_create_one_entry allocator k v1 v2 s ls0 l0 schedule :
  (∀ d a, allocator d = Some a → a ∉ d) →
  consistent (RwLock 0 false) false s ls0 →
  index ls0 (slot k) = Some l0 → chain_find k l0 = None →
  match Interleaving.run allocator schedule (Race.two_inserts k v1 v2 s) with
  | Interleaving.Running s' ts =>
      (∃ l, buckets s' (<[Z.to_nat (slot k) := l]> ls0) ∧
            Race.chain_shape k l0 v1 v2 l ∧ (chain_count k l ≤ 1)%nat) ∧
      (Forall Interleaving.finished ts →
         ∃ a w, (w = v1 ∨ w = v2) ∧
           consistent (RwLock 0 false) false s'
             (<[Z.to_nat (slot k) := Node a k w :: l0]> ls0) ∧
           chain_count k (Node a k w :: l0) = 1%nat ∧
           TwoLevel.retrieve allocator k s' = answer false allocator k (Some w) s')
  | Interleaving.Exited status _ => status = 1 ∧ ∃ d, allocator d = None
  | Interleaving.Crashed => False
  end ∧
  ∃ schedule',
    Race.halted
      (Interleaving.run allocator (schedule ++ schedule') (Race.two_inserts k v1 v2 s)).
Proof.
  intros Hfresh Hcons Hl0 Hnok.
  assert (0 ≤ slot k < NUM_BUCKETS) as Hk.
  { destruct Hcons as ([Hlen _ _] & _). apply index_Some in Hl0 as [Hk0 Hl].
    apply lookup_lt_Some in Hl. unfold NUM_BUCKETS in *. lia. }
  assert (k ∉ node_key <$> l0) as Hnin by by apply chain_find_keys.
  assert (Race.machine_inv k l0 ls0 v1 v2
            (Interleaving.run allocator schedule (Race.two_inserts k v1 v2 s))) as Hrun.
  { eapply race_run; [done..|]. by eapply race_inv_init. }
  assert (Race.failure_explained allocator
            (Interleaving.run allocator schedule (Race.two_inserts k v1 v2 s))) as Hfail.
  { apply failure_explained_run. by repeat constructor. }
  split.
  - destruct (Interleaving.run allocator schedule (Race.two_inserts k v1 v2 s))
      as [s' ts|status s'|]; [|done|done].
    destruct ts as [|th1 [|th2 [|th3 ts]]]; try done. cbn [Race.machine_inv] in Hrun. split.
    + pose proof Hrun as (l & Hshape & Hb & _).
      exists l. split; [done|]. split; [done|].
      destruct Hshape as [->|(a & w & -> & _)].
      * rewrite chain_count_notin by done. lia.
      * rewrite chain_count_cons, chain_count_notin by done. cbn [node_key].
        rewrite decide_True by done. lia.
    + intros Hfin. apply Forall_cons in Hfin as [H1 [H2 _]%Forall_cons].
      destruct th1 as [c1 rest1], th2 as [c2 rest2].
      destruct H1 as [H1 H1'], H2 as [H2 H2']. cbn in H1, H1', H2, H2'. subst.
      destruct (race_inv_final k ls0 l0 Hk Hl0 Hnok v1 v2 s') as (a & w & Hw & Hcons');
        [by destruct Hcons as (_ & _ & ?)|done|].
      exists a, w. split; [done|]. split; [done|]. split.
      * rewrite chain_count_cons, chain_count_notin by done. cbn [node_key].
        rewrite decide_True by done. lia.
      * pose proof (retrieve_answer two_level implemented_two_level allocator Hfresh
                      s' _ k Hcons' Hk) as Hr.
        cbn [retrieve_of two_level mutex_init] in Hr. rewrite Hr. unfold table_find.
        erewrite index_insert_eq by done. cbn [mbind option_bind chain_find node_key].
        by rewrite decide_True.
  - destruct (race_completes allocator Hfresh k ls0 l0 Hk Hl0 Hnok v1 v2 _ _ Hrun (le_n _))
      as [schedule' Hh].
    exists schedule'. by rewrite run_app.
Qed.

Lemma concurrent_inserts_create_one_entry_witness :
  match Interleaving.run bump [0; 1; 0; 1; 0; 1; 0; 1; 0; 1; 0; 1; 0; 1; 0; 1; 0; 1; 0; 1; 0; 1; 0; 1; 0; 1; 0; 1; 0; 1; 0; 1; 0; 1; 0; 1; 0; 1; 0; 1; 0; 1; 0; 1]%nat
          (Race.two_inserts 11 100 200 (example_table two_level)) with
  | Interleaving.Running s' ts =>
      (∃ l, buckets s' (<[Z.to_nat (slot 11) := l]> example_chains) ∧
            Race.chain_shape 11 [Node 2 6 20; Node 1 1 10] 100 200 l ∧
            (chain_count 11 l ≤ 1)%nat) ∧
      (Forall Interleaving.finished ts →
         ∃ a w, (w = 100 ∨ w = 200) ∧
           consistent (RwLock 0 false) false s'
             (<[Z.to_nat (slot 11) := Node a 11 w :: [Node 2 6 20; Node 1 1 10]]>
                example_chains) ∧
           chain_count 11 (Node a 11 w :: [Node 2 6 20; Node 1 1 10]) = 1%nat ∧
           TwoLevel.retrieve bump 11 s' = answer false bump 11 (Some w) s')
  | Interleaving.Exited status _ => status = 1 ∧ ∃ d, bump d = None
  | Interleaving.Crashed => False
  end ∧
  ∃ schedule',
    Race.halted
      (Interleaving.run bump
         ([0; 1; 0; 1; 0; 1; 0; 1; 0; 1; 0; 1; 0; 1; 0; 1; 0; 1; 0; 1; 0; 1; 0; 1; 0; 1; 0; 1; 0; 1; 0; 1; 0; 1; 0; 1; 0; 1; 0; 1; 0; 1; 0; 1]%nat ++ schedule')
         (Race.two_inserts 11 100 200 (example_table two_level))).
Proof.
  apply (concurrent_inserts_create_one_entry bump 11 100 200 (example_table two_level)
           example_chains [Node 2 6 20; Node 1 1 10]).
  - apply bump_fresh.
  - apply (example_table_consistent two_level).
  - reflexivity.
  - reflexivity.
Defined.

(** ** Process start-up *)

Lemma digit_not_space c : is_Some (digit_of c) → isspace c = false.
Proof. destruct c as [[] [] [] [] [] [] [] []]; try done; by intros [? ?]. Qed.

Lemma digit_not_sign c : is_Some (digit_of c) → c ≠ "+"%char ∧ c ≠ "-"%char.
Proof. destruct c as [[] [] [] [] [] [] [] []]; try done; by intros [? ?]. Qed.

Lemma skip_spaces_app spaces s :
  Forall (λ c, isspace c = true) spaces →
  skip_spaces (string_of_list_ascii spaces +:+ s) = skip_spaces s.
Proof. intros Hsp. induction Hsp as [|c spaces Hc _ IH]; simpl; [done|]. by rewrite Hc. Qed.

Lemma read_digits_app digits rest : ∀ acc,
  Forall (λ c, is_Some (digit_of c)) digits →
  (∀ c, first_char rest = Some c → digit_of c = None) →
  read_digits acc (string_of_list_ascii digits +:+ rest)
  = fold_left (λ acc c, 10 * acc + default 0 (digit_of c)) digits acc.
Proof.
  intros acc Hd Hrest. revert acc. induction Hd as [|c digits [d Hc] _ IH]; intros acc; simpl.
  - destruct rest as [|c rest]; [done|]. simpl. by rewrite (Hrest c).
  - rewrite Hc. simpl. apply IH.
Qed.

Lemma atoi_unsigned s :
  (∀ c, first_char s = Some c → isspace c = false ∧ c ≠ "+"%char ∧ c ≠ "-"%char) →
  atoi s = in_int (read_digits 0 s).
Proof.
  destruct s as [|c s]; [done|]. intros H. destruct (H c eq_refl) as (Hsp & Hp & Hm).
  unfold atoi. cbn [skip_spaces]. rewrite Hsp.
  destruct c as [[] [] [] [] [] [] [] []]; done.
Qed.

Lemma atoi_plus s : atoi (String "+" s) = in_int (read_digits 0 s).
Proof. done. Qed.

Lemma atoi_minus s : atoi (String "-" s) = in_int (- read_digits 0 s).
Proof. done. Qed.

(** What [atoi] makes of an argument. *)
Lemma atoi_argument spaces g digits rest :
  well_split spaces g digits rest →
  atoi (argument spaces g digits rest) = in_int (signed g (decimal digits)).
Proof.
  intros (Hsp & Hd & Hrest & Hfirst).
  assert (read_digits 0 (string_of_list_ascii digits +:+ rest) = decimal digits) as Hread.
  { by apply read_digits_app. }
  unfold argument.
  assert (∀ s, atoi (string_of_list_ascii spaces +:+ s) = atoi s) as ->.
  { intros s. unfold atoi. by rewrite skip_spaces_app. }
  destruct g; cbn [sign_string signed].
  - change ("" +:+ ?x)%string with x. rewrite atoi_unsigned; [by rewrite Hread|].
    intros c Hc. destruct digits as [|d digits]; simpl in Hc.
    + by apply Hfirst.
    + injection Hc as <-. apply Forall_cons in Hd as [Hd0 _].
      split; [by apply digit_not_space|by apply digit_not_sign].
  - change ("+" +:+ ?x)%string with (String "+" x). by rewrite atoi_plus, Hread.
  - change ("-" +:+ ?x)%string with (String "-" x). by rewrite atoi_minus, Hread.
Qed.

(** Every argument is made of these four parts. *)
Lemma every_argument_splits arg :
  ∃ spaces g digits rest,
    arg = argument spaces g digits rest ∧ well_split spaces g digits rest.
Proof.
  assert (∀ s, ∃ digits rest, s = string_of_list_ascii digits +:+ rest ∧
            Forall (λ c, is_Some (digit_of c)) digits ∧
            (∀ c, first_char rest = Some c → digit_of c = None)) as Hdigits.
  { induction s as [|c s (digits & rest & -> & Hd & Hr)].
    - exists [], ""%string. split; [done|]. split; [done|]. by intros c [=].
    - destruct (digit_of c) as [d|] eqn:Hc.
      + exists (c :: digits), rest. split; [done|]. split; [|done].
        constructor; [by rewrite Hc|done].
      + exists [], (String c (string_of_list_ascii digits +:+ rest)).
        split; [done|]. split; [done|]. by intros c' [= <-]. }
  induction arg as [|c arg (spaces & g & digits & rest & -> & Hsp & Hd & Hr & Hf)].
  { exists [], NoSign, [], ""%string. split; [done|].
    split; [done|]. split; [done|]. split; by intros c [=]. }
  destruct (isspace c) eqn:Hc.
  { exists (c :: spaces), g, digits, rest. split; [done|]. split; [by constructor|done]. }
  destruct (decide (c = "+"%char)) as [->|Hp].
  { destruct (Hdigits (argument spaces g digits rest)) as (digits' & rest' & -> & Hd' & Hr').
    exists [], Plus, digits', rest'. split; [done|]. split; [done|]. split; [done|].
    split; [done|]. by intros [=]. }
  destruct (decide (c = "-"%char)) as [->|Hm].
  { destruct (Hdigits (argument spaces g digits rest)) as (digits' & rest' & -> & Hd' & Hr').
    exists [], Minus, digits', rest'. split; [done|]. split; [done|]. split; [done|].
    split; [done|]. by intros [=]. }
  destruct (Hdigits (String c (argument spaces g digits rest)))
    as (digits' & rest' & Heq & Hd' & Hr').
  exists [], NoSign, digits', rest'. split; [done|]. split; [done|]. split; [done|].
  split; [done|]. intros _ -> c' Hc'. simpl in Heq.
  destruct rest' as [|c0 rest']; [done|]. injection Heq as <- _. by injection Hc' as <-.
Qed.

(** C8, as amended (command line).  Given anything but one argument,
    [main] exits with status 1, having printed the usage line.  Given one,
    it reads it as [atoi] does: after white space and a sign, the digits
    that follow, whatever comes after them; every argument has these
    parts.  With no digit there, or digits whose signed value is not
    positive, [main] exits with status 1, having printed one line; in
    both cases neither the table nor a lock has been initialised.  With
    digits whose value is positive and at most [INT_MAX], [main] goes on
    with that value as the thread count, whatever follows the digits.
    (A value outside [int] is undefined behaviour of [atoi].)  The three
    files differ in the usage line only. *)
Theorem main_checks_its_argument {L M} usage (lock0 : L) argv :
  (length argv ≠ 2%nat →
     main usage lock0 argv (boot : process L M) = Exit 1 (set_stdout [usage] boot)) ∧
  (∀ program arg, argv = [program; arg] →
     ∃ spaces g digits rest,
       arg = argument spaces g digits rest ∧ well_split spaces g digits rest) ∧
  (∀ program spaces g digits rest,
     argv = [program; argument spaces g digits rest] →
     well_split spaces g digits rest →
     (digits = [] ∨ INT_MIN ≤ signed g (decimal digits) ≤ 0 →
        main usage lock0 argv (boot : process L M)
        = Exit 1 (set_stdout ["must enter a valid number of threads to run"%string] boot)) ∧
     (0 < signed g (decimal digits) ≤ INT_MAX →
        main usage lock0 argv (boot : process L M)
        = Return (signed g (decimal digits)) (empty_table lock0))).
Proof.
  split; [|split].
  - intros Hlen. unfold main. by rewrite decide_True.
  - intros program arg _. apply every_argument_splits.
  - intros program spaces g digits rest -> Hsplit.
    assert (main usage lock0 [program; argument spaces g digits rest] (boot : process L M)
            = match atoi (argument spaces g digits rest) with
              | Some n =>
                  if decide (n ≤ 0)
                  then Exit 1 (set_stdout
                                 ["must enter a valid number of threads to run"%string] boot)
                  else Return n (empty_table lock0)
              | None => Undefined
              end) as ->.
    { unfold main. rewrite decide_False by (intros Hne; by apply Hne). simpl.
      destruct (atoi _) as [n|]; [|done]. by case_decide. }
    rewrite (atoi_argument _ _ _ _ Hsplit). unfold in_int.
    assert (digits = [] → signed g (decimal digits) = 0) as Hnone.
    { intros ->. by destruct g. }
    split.
    + intros Hn.
      assert (INT_MIN ≤ signed g (decimal digits) ≤ 0) as Hrange.
      { destruct Hn as [Hn|Hn]; [|done]. rewrite (Hnone Hn). unfold INT_MIN. lia. }
      unfold INT_MIN, INT_MAX in *.
      replace (_ && _) with true by (symmetry; apply andb_true_intro; lia).
      by rewrite decide_True by lia.
    + intros Hrange. unfold INT_MIN, INT_MAX in *.
      replace (_ && _) with true by (symmetry; apply andb_true_intro; lia).
      by rewrite decide_False by lia.
Qed.

(** C8 as stated fails: an argument that is not a number but starts with
    one is accepted. *)
Lemma main_accepts_trailing_garbage :
  is_numeral "4abc" = false ∧
  spin_main ["./parallel_spin"; "4abc"]%string boot = Return 4 (empty_table false) ∧
  rwlock_main ["./parallel_mutex"; "4abc"]%string boot = Return 4 (empty_table (RwLock 0 false)) ∧
  two_level_main ["./parallel_mutex"; "4abc"]%string boot
  = Return 4 (empty_table (RwLock 0 false)).
Proof. repeat split; reflexivity. Qed.

Lemma main_checks_its_argument_witness :
  spin_main ["./parallel_spin"]%string boot
  = Exit 1 (set_stdout ["usage: ./parallel_spin <num_threads>"%string] boot) ∧
  spin_main ["./parallel_spin"; ""]%string boot
  = Exit 1 (set_stdout ["must enter a valid number of threads to run"%string] boot) ∧
  spin_main ["./parallel_spin"; " x"]%string boot
  = Exit 1 (set_stdout ["must enter a valid number of threads to run"%string] boot) ∧
  spin_main ["./parallel_spin"; "-x"]%string boot
  = Exit 1 (set_stdout ["must enter a valid number of threads to run"%string] boot) ∧
  spin_main ["./parallel_spin"; "-3"]%string boot
  = Exit 1 (set_stdout ["must enter a valid number of threads to run"%string] boot) ∧
  spin_main ["./parallel_spin"; "0"]%string boot
  = Exit 1 (set_stdout ["must enter a valid number of threads to run"%string] boot) ∧
  spin_main ["./parallel_spin"; " +12 threads"]%string boot = Return 12 (empty_table false) ∧
  spin_main ["./parallel_spin"; "2147483647"]%string boot
  = Return 2147483647 (empty_table false).
Proof.
  assert (∀ spaces g digits rest,
            Forall (λ c, isspace c = true) spaces →
            Forall (λ c, is_Some (digit_of c)) digits →
            (∀ c, first_char rest = Some c →
               digit_of c = None ∧ isspace c = false ∧ c ≠ "+"%char ∧ c ≠ "-"%char) →
            well_split spaces g digits rest) as Hsplit.
  { intros spaces g digits rest Hs Hd Hr. split; [done|]. split; [done|].
    split; [intros c Hc; by apply Hr|]. intros _ _ c Hc. by apply Hr. }
  pose proof (λ argv, proj1 (main_checks_its_argument (L:=bool) (M:=unit)
                "usage: ./parallel_spin <num_threads>" false argv)) as Husage.
  pose proof (λ argv, proj2 (proj2 (main_checks_its_argument (L:=bool) (M:=unit)
                "usage: ./parallel_spin <num_threads>" false argv))) as Harg.
  split; [|split; [|split; [|split; [|split; [|split; [|split]]]]]].
  - by apply Husage.
  - apply (Harg _ "./parallel_spin"%string [] NoSign [] ""%string eq_refl);
      [apply Hsplit; [done|done|by intros c [=]]|by left].
  - apply (Harg _ "./parallel_spin"%string [" "%char] NoSign [] "x"%string eq_refl);
      [apply Hsplit; [by repeat constructor|done|by intros c [= <-]]|by left].
  - apply (Harg _ "./parallel_spin"%string [] Minus [] "x"%string eq_refl);
      [apply Hsplit; [done|done|by intros c [= <-]]|by left].
  - apply (Harg _ "./parallel_spin"%string [] Minus ["3"%char] ""%string eq_refl);
      [apply Hsplit; [done|by repeat constructor|by intros c [=]]|by right].
  - apply (Harg _ "./parallel_spin"%string [] NoSign ["0"%char] ""%string eq_refl);
      [apply Hsplit; [done|by repeat constructor|by intros c [=]]|by right].
  - apply (Harg _ "./parallel_spin"%string
             [" "%char] Plus ["1"%char; "2"%char] " threads"%string eq_refl); [|done].
    split; [by repeat constructor|]. split; [by repeat constructor|].
    split; [by intros c [= <-]|done].
  - apply (Harg _ "./parallel_spin"%string
             [] NoSign (list_ascii_of_string "2147483647") ""%string eq_refl);
      [apply Hsplit; [done|by repeat constructor|by intros c [=]]|done].
Defined.

(** ** The worker threads *)

Lemma to_int_fits z : INT_MIN ≤ z ≤ INT_MAX → to_int z = z.
Proof.
  unfold to_int, INT_MIN, INT_MAX. intros Hz.
  rewrite Z.mod_small by lia. lia.
Qed.

Section Stride.
Variables (n tid : Z).
Hypothesis Hn : 0 < n.
Hypothesis Htid : 0 ≤ tid < n.

Lemma stride_skip key j :
  key `mod` n = tid → key < j < key + n → j `mod` n ≠ tid.
Proof.
  intros Hkey Hj Hjm.
  pose proof (Z.div_mod key n ltac:(lia)) as H1.
  pose proof (Z.div_mod j n ltac:(lia)) as H2.
  rewrite Hkey in H1. rewrite Hjm in H2.
  destruct (Z_lt_le_dec (key `div` n) (j `div` n)); nia.
Qed.


Lemma filter_nothing {A} (P : A → Prop) `{∀ x, Decision (P x)} (l : list A) :
  (∀ x, x ∈ l → ¬ P x) → filter P l = [].
Proof.
  induction l as [|x l IH]; intros Hl; [done|].
  rewrite filter_cons_False by (apply Hl; left). apply IH. intros y Hy. apply Hl. by right.
Qed.

(** From an index of the stride, the next one is [n] further. *)
Lemma filter_stride_step key len :
  key `mod` n = tid → 0 < len →
  filter (λ j, j `mod` n = tid) (seqZ key len)
  = key :: filter (λ j, j `mod` n = tid) (seqZ (key + n) (len - n)).
Proof.
  intros Hkey Hlen. destruct (decide (len ≤ n)) as [Hle|Hgt].
  - rewrite seqZ_cons by done. rewrite filter_cons_True by done.
    rewrite (seqZ_nil (key + n)) by lia. f_equal.
    apply filter_nothing. intros j Hj%elem_of_seqZ. apply (stride_skip key); [done|lia].
  - replace len with (n + (len - n)) at 1 by lia.
    rewrite seqZ_app by lia. rewrite filter_app. rewrite (seqZ_cons key n) by done.
    rewrite filter_cons_True by done.
    rewrite (filter_nothing _ (seqZ _ _)); [done|].
    intros j Hj%elem_of_seqZ. apply (stride_skip key); [done|lia].
Qed.

Lemma stride_unfold : 
  stride n tid = filter (λ j, j `mod` n = tid) (seqZ tid (NUM_KEYS - tid)).
Proof.
  unfold stride. destruct (decide (tid ≤ NUM_KEYS)) as [Hle|Hgt].
  - replace NUM_KEYS with (tid + (NUM_KEYS - tid)) at 1 by lia.
    rewrite seqZ_app by lia. rewrite filter_app, Z.add_0_l.
    rewrite (filter_nothing _ (seqZ 0 tid)); [done|].
    intros j Hj%elem_of_seqZ. rewrite Z.mod_small by lia. lia.
  - rewrite (seqZ_nil tid) by lia. apply filter_nothing.
    intros j Hj%elem_of_seqZ. rewrite Z.mod_small by lia. lia.
Qed.
End Stride.

(** ** The example keys *)

Lemma length_concat_replicate {A} (n : nat) (l : list A) :
  length (concat (replicate n l)) = (n * length l)%nat.
Proof. induction n as [|n IH]; simpl; [done|]. rewrite length_app, IH. lia. Qed.

Lemma example_keys_length : length example_keys = Z.to_nat NUM_KEYS.
Proof.
  unfold example_keys. rewrite length_concat_replicate. unfold NUM_KEYS. simpl length. lia.
Qed.

Lemma example_keys_nonnegative : Forall (λ k, 0 ≤ k) example_keys.
Proof.
  unfold example_keys. apply Forall_concat, Forall_replicate.
  repeat constructor; lia.
Qed.

(** With 33334 threads, each of the first threads has three indices. *)
Lemma example_stride tid :
  0 ≤ tid < 33332 → stride 33334 tid = [tid; tid + 33334; tid + 66668].
Proof.
  intros Htid. rewrite stride_unfold by lia. unfold NUM_KEYS.
  assert (∀ j, (tid + j * 33334) `mod` 33334 = tid) as Hmod.
  { intros j. rewrite Z.mod_add by lia. apply Z.mod_small. lia. }
  rewrite (filter_stride_step 33334 tid ltac:(lia) ltac:(lia) tid (100000 - tid));
    [|apply Z.mod_small; lia|lia].
  rewrite (filter_stride_step 33334 tid ltac:(lia) ltac:(lia) (tid + 33334)
             (100000 - tid - 33334));
    [|replace (tid + 33334) with (tid + 1 * 33334) by lia; apply Hmod|lia].
  rewrite (filter_stride_step 33334 tid ltac:(lia) ltac:(lia) (tid + 33334 + 33334)
             (100000 - tid - 33334 - 33334));
    [|replace (tid + 33334 + 33334) with (tid + 2 * 33334) by lia; apply Hmod|lia].
  rewrite seqZ_nil by lia. rewrite filter_nil.
  by replace (tid + 33334 + 33334) with (tid + 66668) by lia.
Qed.

Lemma example_put_calls tid :
  0 ≤ tid < 33332 →
  Threads.put_calls example_keys 33334 tid
  = [Interleaving.Insert (example_keys !!! Z.to_nat tid) tid;
     Interleaving.Insert (example_keys !!! Z.to_nat (tid + 33334)) tid;
     Interleaving.Insert (example_keys !!! Z.to_nat (tid + 66668)) tid].
Proof.
  intros Htid. unfold Threads.put_calls. rewrite example_stride by done.
  rewrite to_int_fits by (unfold INT_MIN, INT_MAX; lia). done.
Qed.

Section PutPhase.
Context {L M : Type}.
Variable insert : Z → Z → prog L M unit.
Variables (keys : list Z) (n tid : Z).
Hypothesis Hn : 0 < n ≤ INT_MAX - NUM_KEYS.
Hypothesis Htid : 0 ≤ tid < n.
Hypothesis Hkeys : length keys = Z.to_nat NUM_KEYS.

Lemma get_key_in_range key (s : process L M) :
  0 ≤ key < NUM_KEYS → get_key keys key s = Return (keys !!! Z.to_nat key) s.
Proof.
  intros Hkey. unfold get_key, index. rewrite decide_True by lia.
  rewrite list_lookup_lookup_total_lt by lia. done.
Qed.

Lemma put_loop_inserts fuel : ∀ key s,
  0 ≤ key → key `mod` n = tid → (Z.to_nat (NUM_KEYS - key) ≤ fuel)%nat →
  put_loop insert keys n fuel key tid s
  = insert_all insert
      ((λ j, (keys !!! Z.to_nat j, tid)) <$>
         filter (λ j, j `mod` n = tid) (seqZ key (NUM_KEYS - key))) s.
Proof.
  assert (to_int tid = tid) as Htoi.
  { apply to_int_fits. unfold INT_MIN, INT_MAX, NUM_KEYS in *. lia. }
  induction fuel as [|fuel IH]; intros key s Hkey Hmod Hfuel.
  - cbn [put_loop]. rewrite decide_False by lia. by rewrite seqZ_nil by lia.
  - cbn [put_loop]. case_decide as Hlt; [|by rewrite seqZ_nil by lia].
    rewrite (filter_stride_step n tid) by lia. rewrite fmap_cons. cbn [insert_all].
    unfold mbind, prog_bind at 1. rewrite get_key_in_range by lia. rewrite Htoi.
    unfold mbind, prog_bind. destruct (insert _ _ s) as [[] s'| | |]; try done.
    unfold next_key. rewrite decide_True by (unfold INT_MIN, INT_MAX, NUM_KEYS in *; lia).
    rewrite IH; [|lia| |lia].
    + by replace (NUM_KEYS - key - n) with (NUM_KEYS - (key + n)) by lia.
    + rewrite <- Hmod. rewrite <- (Z.mul_1_l n) at 1. apply Z.mod_add. lia.
Qed.

Lemma put_phase_inserts s :
  put_phase insert keys n tid s
  = insert_all insert ((λ j, (keys !!! Z.to_nat j, tid)) <$> stride n tid) s.
Proof.
  unfold put_phase. rewrite to_int_fits by (unfold INT_MIN, INT_MAX, NUM_KEYS in *; lia).
  rewrite put_loop_inserts.
  - by rewrite (stride_unfold n tid) by lia.
  - lia.
  - apply Z.mod_small. lia.
  - unfold phase_fuel. lia.
Qed.
End PutPhase.

Lemma built_implemented D : built D → implemented (variant D).
Proof. intros []; constructor. Qed.

Section GetPhase.
Variable D : driver.
Hypothesis HD : built D.
Variable allocator : gset positive → ptr.
Hypothesis allocator_fresh : ∀ d a, allocator d = Some a → a ∉ d.
Variables (keys : list Z) (n tid : Z).
Hypothesis Hn : 0 < n ≤ INT_MAX - NUM_KEYS.
Hypothesis Htid : 0 ≤ tid < n.
Hypothesis Hkeys : length keys = Z.to_nat NUM_KEYS.
Hypothesis Hvalid : Forall (λ k, 0 ≤ slot k < NUM_BUCKETS) keys.
Local Abbreviation V := (variant D).
Implicit Types (s : process (lock_t V) (mutex_t V)) (ls : list (list node)).

(** [get_phase] gives back the block it was handed. *)
Lemma release_copy s r e :
  heap s !! r = None → entry_mutex e = mutex_init V →
  release_of D r (set_heap (<[r := e]> (heap s)) s) = Return () s.
Proof.
  intros Hr He.
  assert (set_heap (delete r (<[r := e]> (heap s))) (set_heap (<[r := e]> (heap s)) s) = s)
    as Hback.
  { destruct s as [h t lk out]. unfold set_heap. cbn [heap table bucket_locks stdout] in *.
    by rewrite delete_insert_id. }
  destruct HD; cbn [release_of variant mutex_init spin_driver rwlock_driver two_level_driver
                      coarse read_write two_level mutex_t lock_t] in *.
  - unfold free. cbn [heap set_heap]. by rewrite lookup_insert_eq, Hback.
  - unfold free. cbn [heap set_heap]. by rewrite lookup_insert_eq, Hback.
  - unfold mbind, prog_bind, pthread_mutex_destroy, free. cbn [heap set_heap].
    rewrite lookup_insert_eq. cbv beta iota. rewrite He. cbn [heap set_heap].
    by rewrite lookup_insert_eq, Hback.
Qed.

Lemma keys_valid j : 0 ≤ j < NUM_KEYS → 0 ≤ slot (keys !!! Z.to_nat j) < NUM_BUCKETS.
Proof.
  intros Hj. rewrite Forall_forall in Hvalid. apply Hvalid.
  apply list_elem_of_lookup_total_2. lia.
Qed.

(** One round of the loop of [get_phase] leaves the state as it found it. *)
Lemma get_round s ls k lost :
  consistent (lock_init V) (mutex_init V) s ls → 0 ≤ slot k < NUM_BUCKETS →
  is_Some (allocator (dom (heap s))) →
  (entry ← retrieve_of V allocator k;
   match entry with
   | None => mret (lost + 1)
   | Some entry => release_of D entry;; mret lost
   end) s
  = Return (if decide (table_find ls k = None) then lost + 1 else lost) s.
Proof.
  intros Hcons Hk [r Hr].
  unfold mbind at 1. unfold prog_bind at 1.
  rewrite (retrieve_answer V (built_implemented D HD) allocator allocator_fresh s ls k) by done.
  unfold answer. destruct (table_find ls k) as [nd|]; simpl.
  - rewrite Hr. unfold mbind, prog_bind.
    rewrite release_copy; [done| |done].
    apply not_elem_of_dom. by eapply allocator_fresh.
  - done.
Qed.

Lemma get_loop_counts fuel s ls :
  consistent (lock_init V) (mutex_init V) s ls →
  is_Some (allocator (dom (heap s))) →
  ∀ key lost,
  0 ≤ key → key `mod` n = tid → (Z.to_nat (NUM_KEYS - key) ≤ fuel)%nat →
  get_loop (retrieve_of V allocator) (release_of D) keys n fuel key lost s
  = Return
      (lost + Z.of_nat (length (filter (λ j, table_find ls (keys !!! Z.to_nat j) = None)
                                  (filter (λ j, j `mod` n = tid)
                                     (seqZ key (NUM_KEYS - key))))))
      s.
Proof.
  intros Hcons Halloc.
  induction fuel as [|fuel IH]; intros key lost Hkey Hmod Hfuel.
  - cbn [get_loop]. rewrite decide_False by lia. rewrite seqZ_nil by lia.
    unfold mret, prog_ret. f_equal. simpl. lia.
  - cbn [get_loop]. case_decide as Hlt; cycle 1.
    { rewrite seqZ_nil by lia. unfold mret, prog_ret. f_equal. simpl. lia. }
    rewrite (filter_stride_step n tid) by lia.
    unfold mbind at 1. unfold prog_bind at 1. rewrite get_key_in_range by lia.
    unfold mbind at 1. unfold prog_bind at 1.
    pose proof (get_round s ls (keys !!! Z.to_nat key) lost Hcons
                  (keys_valid key ltac:(lia)) Halloc) as Hround.
    unfold mbind at 1 in Hround. unfold prog_bind at 1 in Hround.
    destruct (retrieve_of V allocator (keys !!! Z.to_nat key) s) as [entry s1| | |];
      try done.
    unfold mbind at 1. unfold prog_bind at 1. rewrite Hround.
    unfold mbind, prog_bind, next_key.
    rewrite decide_True by (unfold INT_MIN, INT_MAX, NUM_KEYS in *; lia).
    rewrite IH; [|lia| |lia].
    + replace (NUM_KEYS - key - n) with (NUM_KEYS - (key + n)) by lia.
      f_equal. rewrite filter_cons. case_decide; simpl length; lia.
    + rewrite <- Hmod. rewrite <- (Z.mul_1_l n) at 1. apply Z.mod_add. lia.
Qed.
End GetPhase.

Lemma bind_run {L M A B} (m : prog L M A) (f : A → prog L M B) s :
  (m ≫= f) s
  = match m s with
    | Return a s' => f a s'
    | Exit c s' => Exit c s'
    | Hang => Hang
    | Undefined => Undefined
    end.
Proof. done. Qed.

Lemma insert_all_app {L M} (insert : Z → Z → prog L M unit) ops1 ops2 s :
  insert_all insert (ops1 ++ ops2) s = (insert_all insert ops1;; insert_all insert ops2) s.
Proof.
  revert s. induction ops1 as [|[k v] ops1 IH]; intros s; [done|].
  cbn [app insert_all]. unfold mbind, prog_bind in *.
  destruct (insert k v s) as [[] s1| | |]; first [done|apply IH].
Qed.

Lemma put_phases_inserts {L M} (insert : Z → Z → prog L M unit) keys n tids s :
  0 < n ≤ INT_MAX - NUM_KEYS → length keys = Z.to_nat NUM_KEYS →
  Forall (λ tid, 0 ≤ tid < n) tids →
  put_phases insert keys n tids s
  = insert_all insert
      (tids ≫= λ tid, (λ j, (keys !!! Z.to_nat j, tid)) <$> stride n tid) s.
Proof.
  intros Hn Hkeys Htids. revert s.
  induction tids as [|tid tids IH]; intros s; [done|].
  apply Forall_cons in Htids as [Htid Htids].
  cbn [put_phases]. rewrite bind_cons, insert_all_app, !bind_run.
  rewrite put_phase_inserts by done.
  destruct (insert_all insert _ s) as [[] s1| | |]; try done. by apply IH.
Qed.

Lemma keys_nonnegative_valid keys :
  Forall (λ k, 0 ≤ k) keys → Forall (λ k, 0 ≤ slot k < NUM_BUCKETS) keys.
Proof. intros H. eapply Forall_impl; [exact H|]. intros k Hk. by apply slot_range. Qed.

(** X1.  With [0 < n ≤ INT_MAX - NUM_KEYS] threads, so that
    [key += num_threads] cannot overflow, thread [tid] of [n] inserts, in
    this order, the keys at the indices [tid], [tid + n], [tid + 2n], ...
    of [keys] and no other, each with the value [tid]: the indices
    [j < NUM_KEYS] with [j mod n = tid].  So every position of [keys] is
    inserted by exactly one of the threads [0 .. n-1], and a thread whose
    [tid] is [NUM_KEYS] or more inserts nothing. *)
Theorem put_phase_inserts_its_stride {L M} (insert : Z → Z → prog L M unit) keys n tid s :
  0 < n ≤ INT_MAX - NUM_KEYS → 0 ≤ tid < n → length keys = Z.to_nat NUM_KEYS →
  put_phase insert keys n tid s
  = insert_all insert
      ((λ j, (keys !!! Z.to_nat j, tid)) <$>
         filter (λ j, j `mod` n = tid) (seqZ 0 NUM_KEYS)) s.
Proof. intros Hn Htid Hkeys. by apply put_phase_inserts. Qed.

Lemma put_phase_inserts_its_stride_witness :
  put_phase (Spin.insert bump) (seqZ 0 NUM_KEYS) 4 1 (empty_table false)
  = insert_all (Spin.insert bump)
      ((λ j, (seqZ 0 NUM_KEYS !!! Z.to_nat j, 1)) <$>
         filter (λ j, j `mod` 4 = 1) (seqZ 0 NUM_KEYS)) (empty_table false).
Proof.
  apply (put_phase_inserts_its_stride (Spin.insert bump) (seqZ 0 NUM_KEYS) 4 1).
  - unfold INT_MAX, NUM_KEYS. lia.
  - lia.
  - apply length_seqZ.
Defined.

Lemma get_phase_counts_missing_keys_aux D allocator keys n tid s ls :
  built D →
  (∀ d a, allocator d = Some a → a ∉ d) →
  consistent (lock_init (variant D)) (mutex_init (variant D)) s ls →
  is_Some (allocator (dom (heap s))) →
  0 < n ≤ INT_MAX - NUM_KEYS → 0 ≤ tid < n →
  length keys = Z.to_nat NUM_KEYS → Forall (λ k, 0 ≤ k) keys →
  get_phase_of D allocator keys n tid s
  = Return
      (Z.of_nat (length (filter (λ j, table_find ls (keys !!! Z.to_nat j) = None)
                           (stride n tid))))
      (set_stdout
         (stdout s ++
          [lost_line tid
             (Z.of_nat (length (filter (λ j, table_find ls (keys !!! Z.to_nat j) = None)
                                  (stride n tid))))])
         s).
Proof.
  intros HD Hfresh Hcons Halloc Hn Htid Hkeys Hvalid%keys_nonnegative_valid.
  unfold get_phase_of, get_phase. unfold mbind at 1. unfold prog_bind at 1.
  rewrite to_int_fits by (unfold INT_MIN, INT_MAX, NUM_KEYS in *; lia).
  rewrite (get_loop_counts D HD allocator Hfresh keys n tid Hn Htid Hkeys Hvalid
             phase_fuel s ls Hcons Halloc tid 0);
    [|lia|apply Z.mod_small; lia|unfold phase_fuel; lia].
  rewrite Z.add_0_l, <- (stride_unfold n tid) by lia. done.
Qed.


(** X2.  In every file, with [0 < n ≤ INT_MAX - NUM_KEYS] threads (so
    that [key += num_threads] cannot overflow) and no negative key,
    [get_phase] of thread [tid] on a table at rest returns the number of
    its indices ([j mod n = tid]) whose key is not in the table, prints
    that number in its one line, and leaves everything else as it was:
    table, locks and heap, every copy it received having been freed.
    ([malloc] has a block for the copy.) *)
Theorem get_phase_counts_missing_keys D allocator keys n tid s ls :
  built D →
  (∀ d a, allocator d = Some a → a ∉ d) →
  consistent (lock_init (variant D)) (mutex_init (variant D)) s ls →
  is_Some (allocator (dom (heap s))) →
  0 < n ≤ INT_MAX - NUM_KEYS → 0 ≤ tid < n →
  length keys = Z.to_nat NUM_KEYS → Forall (λ k, 0 ≤ k) keys →
  get_phase_of D allocator keys n tid s
  = Return
      (Z.of_nat (length (filter (λ j, table_find ls (keys !!! Z.to_nat j) = None)
                           (stride n tid))))
      (set_stdout
         (stdout s ++
          [lost_line tid
             (Z.of_nat (length (filter (λ j, table_find ls (keys !!! Z.to_nat j) = None)
                                  (stride n tid))))])
         s).
Proof. apply get_phase_counts_missing_keys_aux. Qed.

Lemma get_phase_counts_missing_keys_witness :
  get_phase_of two_level_driver bump (seqZ 0 NUM_KEYS) 4 1 (example_table two_level)
  = Return
      (Z.of_nat (length (filter (λ j, table_find example_chains
                                        (seqZ 0 NUM_KEYS !!! Z.to_nat j) = None)
                           (stride 4 1))))
      (set_stdout
         (stdout (example_table two_level) ++
          [lost_line 1
             (Z.of_nat (length (filter (λ j, table_find example_chains
                                               (seqZ 0 NUM_KEYS !!! Z.to_nat j) = None)
                                  (stride 4 1))))])
         (example_table two_level)).
Proof.
  apply (get_phase_counts_missing_keys two_level_driver bump (seqZ 0 NUM_KEYS) 4 1
           (example_table two_level) example_chains).
  - constructor.
  - apply bump_fresh.
  - apply (example_table_consistent two_level).
  - by eexists.
  - unfold INT_MAX, NUM_KEYS. lia.
  - lia.
  - apply length_seqZ.
  - apply Forall_seqZ. lia.
Defined.

(** ** The clean-up loop of [main] *)

Section CleanupProof.
Variable D : driver.
Hypothesis HD : built D.
Local Abbreviation V := (variant D).
Implicit Types (s : process (lock_t V) (mutex_t V)) (ls : list (list node)) (l : list node).

Lemma entry_destroy_returns s a e :
  heap s !! a = Some e → entry_mutex e = mutex_init V →
  entry_destroy_of D a s = Return () s.
Proof.
  intros He Hm.
  destruct HD; cbn [entry_destroy_of variant mutex_init spin_driver rwlock_driver
                      two_level_driver coarse read_write two_level mutex_t lock_t] in *;
    try done.
  unfold pthread_mutex_destroy. by rewrite He, Hm.
Qed.

(** The inner loop frees the entries of the chain, and nothing else. *)
Lemma free_chain_frees l : ∀ fuel p s,
  is_chain (heap s) p l → chain_unlocked (mutex_init V) (heap s) l →
  (length l < fuel)%nat →
  ∃ s', free_chain (entry_destroy_of D) fuel p s = Return () s' ∧
        table s' = table s ∧ bucket_locks s' = bucket_locks s ∧ stdout s' = stdout s ∧
        (∀ n, n ∈ l → heap s' !! node_addr n = None) ∧
        (∀ a, a ∉ node_addr <$> l → heap s' !! a = heap s !! a).
Proof.
  induction l as [|n l IH]; intros fuel p s Hc Hun Hfuel.
  - simpl in Hc. subst p. exists s. destruct fuel; [simpl in Hfuel; lia|].
    repeat split; try done. intros n Hn. by apply elem_of_nil in Hn.
  - pose proof (is_chain_NoDup _ _ _ Hc) as Hnd. rewrite fmap_cons in Hnd.
    apply NoDup_cons in Hnd as [Hnin Hnd].
    destruct Hc as [-> (e & He & _ & _ & Hc)].
    destruct fuel as [|fuel]; [simpl in Hfuel; lia|]. cbn [free_chain].
    rewrite bind_run. unfold load. rewrite He.
    rewrite bind_run, (entry_destroy_returns s (node_addr n) e); [|done|]; cycle 1.
    { apply (Hun n e); [apply list_elem_of_here|done]. }
    rewrite bind_run. unfold free. rewrite He.
    destruct (IH fuel (next e) (set_heap (delete (node_addr n) (heap s)) s))
      as (s' & Hrun & Ht & Hl & Ho & Hfreed & Hkept).
    { cbn [heap set_heap]. by apply is_chain_delete. }
    { cbn [heap set_heap]. eapply chain_unlocked_agree.
      - intros n' Hn'. apply lookup_delete_ne. intros Heq. apply Hnin.
        rewrite Heq. apply list_elem_of_fmap. eauto.
      - intros n' e' Hn'. apply Hun. by apply list_elem_of_further. }
    { simpl in Hfuel. lia. }
    exists s'. split; [done|]. cbn [heap table bucket_locks stdout set_heap] in *.
    repeat split; try done.
    + intros n' [->|Hn']%elem_of_cons; [|by apply Hfreed].
      rewrite Hkept by done. apply lookup_delete_eq.
    + intros a Ha. rewrite fmap_cons in Ha. apply not_elem_of_cons in Ha as [Hne Ha].
      rewrite Hkept by done. by apply lookup_delete_ne.
Qed.

(** The lock calls around the inner loop. *)
Lemma cleanup_lock s i :
  index (bucket_locks s) i = Some (lock_init V) →
  ∃ held, lock_of D i s = Return () (set_locks (<[Z.to_nat i := held]> (bucket_locks s)) s) ∧
    ∀ s1, bucket_locks s1 = <[Z.to_nat i := held]> (bucket_locks s) →
      (unlock_of D i;; lock_destroy_of D i) s1
      = Return () (set_locks (bucket_locks s) s1).
Proof.
  intros Hi. pose proof (index_insert_id _ _ _ Hi) as Hid.
  assert (∀ x, index (<[Z.to_nat i := x]> (bucket_locks s)) i = Some x) as Hx.
  { intros x. by eapply index_insert_eq. }
  destruct HD; cbn [lock_of unlock_of lock_destroy_of variant lock_init spin_driver
                      rwlock_driver two_level_driver coarse read_write two_level
                      mutex_t lock_t] in *.
  - exists true. unfold Spin.pthread_spin_lock. rewrite Hi. split; [done|].
    intros s1 Hs1. rewrite bind_run. unfold Spin.pthread_spin_unlock, pthread_spin_destroy.
    rewrite Hs1, Hx. cbn [bucket_locks set_locks].
    by rewrite list_insert_insert_eq, Hid, Hi.
  - exists (RwLock 0 true). unfold pthread_rwlock_wrlock. rewrite Hi. split; [done|].
    intros s1 Hs1. rewrite bind_run. unfold pthread_rwlock_unlock, pthread_rwlock_destroy.
    rewrite Hs1, Hx. cbn [bucket_locks set_locks writer readers].
    by rewrite list_insert_insert_eq, Hid, Hi.
  - exists (RwLock 0 true). unfold pthread_rwlock_wrlock. rewrite Hi. split; [done|].
    intros s1 Hs1. rewrite bind_run. unfold pthread_rwlock_unlock, pthread_rwlock_destroy.
    rewrite Hs1, Hx. cbn [bucket_locks set_locks writer readers].
    by rewrite list_insert_insert_eq, Hid, Hi.
Qed.

Lemma cleanup_bucket_frees s i p l :
  index (bucket_locks s) i = Some (lock_init V) →
  index (table s) i = Some p → is_chain (heap s) p l →
  chain_unlocked (mutex_init V) (heap s) l →
  ∃ s', cleanup_bucket (lock_of D) (unlock_of D) (lock_destroy_of D) (entry_destroy_of D) i s
        = Return () s' ∧
        table s' = table s ∧ bucket_locks s' = bucket_locks s ∧ stdout s' = stdout s ∧
        (∀ n, n ∈ l → heap s' !! node_addr n = None) ∧
        (∀ a, a ∉ node_addr <$> l → heap s' !! a = heap s !! a).
Proof.
  intros Hi Hp Hc Hun. destruct (cleanup_lock s i Hi) as (held & Hlock & Hunlock).
  unfold cleanup_bucket. rewrite bind_run, Hlock. rewrite bind_run.
  unfold get_table. cbn [table set_locks]. rewrite Hp. rewrite bind_run.
  destruct (free_chain_frees l
              (S (size (heap (set_locks (<[Z.to_nat i := held]> (bucket_locks s)) s))))
              p (set_locks (<[Z.to_nat i := held]> (bucket_locks s)) s))
    as (s1 & Hrun & Ht & Hl & Ho & Hfreed & Hkept); [done|done| |].
  { cbn [heap set_locks]. pose proof (is_chain_length _ _ _ Hc). lia. }
  rewrite Hrun. cbn [heap table bucket_locks stdout set_locks] in *.
  rewrite (Hunlock s1 Hl). eexists. split; [done|].
  cbn [heap table bucket_locks stdout set_locks]. done.
Qed.

(** The outer loop, over any buckets not yet cleaned. *)
Lemma cleanup_buckets_frees ls (ids : list Z) : ∀ s,
  NoDup ids →
  bucket_locks s = replicate (Z.to_nat NUM_BUCKETS) (lock_init V) →
  (∀ i j li lj ni nj, index ls i = Some li → index ls j = Some lj →
     ni ∈ li → nj ∈ lj → node_addr ni = node_addr nj → i = j) →
  (∀ i, i ∈ ids → 0 ≤ i < NUM_BUCKETS ∧
     ∃ p l, index (table s) i = Some p ∧ index ls i = Some l ∧
            is_chain (heap s) p l ∧ chain_unlocked (mutex_init V) (heap s) l) →
  ∃ s', foldr (λ i rest,
                 cleanup_bucket (lock_of D) (unlock_of D) (lock_destroy_of D)
                   (entry_destroy_of D) i;; rest) (mret ()) ids s = Return () s' ∧
        table s' = table s ∧ bucket_locks s' = bucket_locks s ∧ stdout s' = stdout s ∧
        (∀ i l n, i ∈ ids → index ls i = Some l → n ∈ l → heap s' !! node_addr n = None) ∧
        (∀ a, (∀ i l n, i ∈ ids → index ls i = Some l → n ∈ l → node_addr n ≠ a) →
              heap s' !! a = heap s !! a).
Proof.
  induction ids as [|i ids IH]; intros s Hnd Hlocks Hdisj Hbuckets.
  - exists s. repeat split; try done. intros i l n Hi. by apply elem_of_nil in Hi.
  - apply NoDup_cons in Hnd as [Hnin Hnd].
    destruct (Hbuckets i) as (Hi & p & l & Hp & Hl & Hc & Hun); [apply list_elem_of_here|].
    destruct (cleanup_bucket_frees s i p l) as (s1 & Hrun & Ht & Hlk & Ho & Hfreed & Hkept);
      [|done|done|done|].
    { by rewrite Hlocks, index_replicate, decide_True. }
    cbn [foldr]. rewrite bind_run, Hrun.
    assert (∀ j lj n, j ∈ ids → index ls j = Some lj → n ∈ lj → node_addr n ∉ node_addr <$> l)
      as Hother.
    { intros j lj n Hj Hlj Hn (n' & Ha & Hn')%list_elem_of_fmap.
      assert (j = i) as -> by eauto. done. }
    destruct (IH s1) as (s' & Hrun' & Ht' & Hlk' & Ho' & Hfreed' & Hkept'); [done|congruence|done| |].
    { intros j Hj.
      destruct (Hbuckets j) as (Hj' & pj & lj & Hpj & Hlj & Hcj & Hunj);
        [by apply list_elem_of_further|].
      split; [done|]. exists pj, lj. rewrite Ht. split; [done|]. split; [done|].
      assert (∀ n, n ∈ lj → heap s1 !! node_addr n = heap s !! node_addr n) as Hag.
      { intros n Hn. apply Hkept. by eapply Hother. }
      split; [by eapply is_chain_agree|by eapply chain_unlocked_agree]. }
    exists s'. split; [done|]. split; [congruence|]. split; [congruence|].
    split; [congruence|]. split.
    + intros j lj n [->|Hj]%elem_of_cons Hlj Hn; [|by eauto].
      rewrite Hl in Hlj. injection Hlj as <-.
      rewrite Hkept'; [by apply Hfreed|].
      intros j lj n' Hj Hlj Hn' Ha. apply (Hother j lj n' Hj Hlj Hn').
      rewrite Ha. apply list_elem_of_fmap. eauto.
    + intros a Ha. rewrite Hkept'.
      * apply Hkept. intros (n & -> & Hn)%list_elem_of_fmap.
        by apply (Ha i l n); [apply list_elem_of_here|..].
      * intros j lj n Hj. apply Ha. by apply list_elem_of_further.
Qed.
End CleanupProof.

Lemma buckets_functional {L M} (s : process L M) ls1 ls2 :
  buckets s ls1 → buckets s ls2 → ls1 = ls2.
Proof.
  intros [Hlen1 Hc1 _] [Hlen2 Hc2 _].
  apply (list_eq_same_length _ _ (length ls1)); [lia|lia|].
  intros i x y _ Hx Hy.
  destruct (Forall2_lookup_r _ _ _ _ _ Hc1 Hx) as (p & Hp & Hcx).
  destruct (Forall2_lookup_r _ _ _ _ _ Hc2 Hy) as (p' & Hp' & Hcy).
  simplify_eq. by eapply is_chain_functional.
Qed.

Lemma consistent_set_stdout {L M} (lock0 : L) (mutex0 : M) o s ls :
  consistent lock0 mutex0 s ls → consistent lock0 mutex0 (set_stdout o s) ls.
Proof.
  intros ([? ? ?] & [? ?] & ?). by repeat split.
Qed.

Section CleanupAll.
Variable D : driver.
Hypothesis HD : built D.
Local Abbreviation V := (variant D).
Implicit Types (s : process (lock_t V) (mutex_t V)) (ls : list (list node)).

Lemma cleanup_frees s ls :
  consistent (lock_init V) (mutex_init V) s ls →
  ∃ s', cleanup_of D s = Return () s' ∧
        table s' = table s ∧ stdout s' = stdout s ∧
        (∀ l n, l ∈ ls → n ∈ l → heap s' !! node_addr n = None) ∧
        (∀ a, (∀ l n, l ∈ ls → n ∈ l → node_addr n ≠ a) → heap s' !! a = heap s !! a).
Proof.
  intros (Hb & [Hlk Hmx] & _). pose proof Hb as [Hlen Hch _].
  assert (∀ l, l ∈ ls ↔ ∃ i, i ∈ seqZ 0 NUM_BUCKETS ∧ index ls i = Some l) as Hin.
  { intros l. split.
    - intros [i Hi]%list_elem_of_lookup. exists (Z.of_nat i).
      pose proof (lookup_lt_Some _ _ _ Hi). split; [apply elem_of_seqZ; lia|].
      apply index_Some. by rewrite Nat2Z.id; split; [lia|].
    - intros (i & _ & [_ Hi]%index_Some). by eapply list_elem_of_lookup_2. }
  destruct (cleanup_buckets_frees D HD ls (seqZ 0 NUM_BUCKETS) s)
    as (s' & Hrun & Ht & _ & Ho & Hfreed & Hkept).
  - apply NoDup_seqZ.
  - done.
  - intros i j li lj ni nj [? Hi]%index_Some [? Hj]%index_Some Hni Hnj Ha.
    destruct (buckets_addr_unique _ _ _ _ _ _ _ _ Hb Hi Hj Hni Hnj Ha) as [Hij _]. lia.
  - intros i Hi%elem_of_seqZ. split; [lia|].
    destruct (lookup_lt_is_Some_2 ls (Z.to_nat i)) as [l Hl]; [lia|].
    destruct (buckets_lookup _ _ _ _ Hb Hl) as (p & Hp & Hc).
    exists p, l. rewrite !index_Some. repeat split; try done; try lia.
    apply Hmx. by eapply list_elem_of_lookup_2.
  - exists s'. split; [done|]. split; [done|]. split; [done|]. split.
    + intros l n (i & Hi & Hl)%Hin Hn. eauto.
    + intros a Ha. apply Hkept. intros i l n Hi Hl Hn. apply (Ha l n); [|done].
      apply Hin. eauto.
Qed.

Lemma cleanup_empties s ls :
  consistent (lock_init V) (mutex_init V) s ls → tight s ls →
  ∃ s', cleanup_of D s = Return () s' ∧ heap s' = ∅.
Proof.
  intros Hcons Htight.
  destruct (cleanup_frees s ls Hcons) as (s' & Hrun & _ & _ & Hfreed & Hkept).
  exists s'. split; [done|]. apply map_empty. intros a.
  destruct (decide (a ∈ ls ≫= fmap node_addr)) as [Ha|Ha].
  - apply list_elem_of_bind in Ha as (l & (n & -> & Hn)%list_elem_of_fmap & Hl). eauto.
  - assert (heap s' !! a = heap s !! a) as ->.
    { apply Hkept. intros l n Hl Hn <-. apply Ha. apply list_elem_of_bind.
      exists l. split; [|done]. apply list_elem_of_fmap. eauto. }
    destruct (heap s !! a) eqn:He; [|done].
    destruct (Htight a) as (l & Hl & Hal); [by rewrite He|].
    destruct Ha. apply list_elem_of_bind. eauto.
Qed.
End CleanupAll.

Section Tight.
Variable V : strategy.
Hypothesis HV : implemented V.
Variable allocator : gset positive → ptr.
Hypothesis allocator_fresh : ∀ d a, allocator d = Some a → a ∉ d.
Implicit Types (s : process (lock_t V) (mutex_t V)) (ls : list (list node)).

Lemma insert_tight s ls k v s' ls' :
  consistent (lock_init V) (mutex_init V) s ls → tight s ls →
  insert_of V allocator k v s = Return () s' →
  buckets s' ls' → tight s' ls'.
Proof.
  intros Hcons Htight Hret Hb'.
  destruct (insert_consistent V HV allocator allocator_fresh _ _ _ _ _ Hcons Hret) as (Hk & _).
  destruct (consistent_bucket V _ _ _ Hcons Hk) as (p & l & Hl & Hp & Hc & Hun & _).
  rewrite (implemented_insert allocator V _ _ _ p l) in Hret
    by eauto using consistent_lock.
  destruct Hcons as (Hb & _ & _). unfold upsert in Hret.
  pose proof Hl as [_ Hl']%index_Some.
  assert (∀ l1 a, (∀ a', a' ∈ node_addr <$> l → a' ∈ node_addr <$> l1) →
            is_Some (heap s !! a) →
            ∃ l0, l0 ∈ <[Z.to_nat (slot k) := l1]> ls ∧ a ∈ node_addr <$> l0) as Hold.
  { intros l1 a Hsub Ha. destruct (Htight a Ha) as (l0 & [i Hi]%list_elem_of_lookup & Hal0).
    destruct (decide (i = Z.to_nat (slot k))) as [->|Hne].
    - exists l1. split.
      + eapply list_elem_of_lookup_2, list_lookup_insert_eq. by eapply lookup_lt_Some.
      + apply Hsub. congruence.
    - exists l0. split; [|done].
      eapply list_elem_of_lookup_2. by rewrite list_lookup_insert_ne. }
  destruct (chain_find k l) as [n|] eqn:Hfind.
  - injection Hret as <-.
    rewrite (buckets_functional _ _ _ Hb' (store_buckets _ _ _ v _ _ Hb Hl Hfind)).
    intros a Ha. cbn [heap set_heap] in Ha. rewrite lookup_alter_is_Some in Ha.
    apply Hold; [|done]. intros a'. by rewrite chain_store_addr.
  - destruct (allocator (dom (heap s))) as [a0|] eqn:Ha0; [|done]. injection Hret as <-.
    assert (heap s !! a0 = None) as Hfresh.
    { apply not_elem_of_dom. by apply allocator_fresh. }
    rewrite (buckets_functional _ _ _ Hb'
               (link_buckets (mutex_init V) _ _ _ v _ _ _ Hb Hp Hl Hfresh)).
    intros a Ha. cbn [heap set_heap set_table] in Ha.
    destruct (decide (a = a0)) as [->|Hne].
    + exists (Node a0 k v :: l). split.
      * eapply list_elem_of_lookup_2, list_lookup_insert_eq. by eapply lookup_lt_Some.
      * rewrite fmap_cons. apply list_elem_of_here.
    + rewrite lookup_insert_ne in Ha by done. apply Hold; [|done].
      intros a' Ha'. rewrite fmap_cons. by apply list_elem_of_further.
Qed.

Lemma insert_all_tight ops : ∀ s ls s' ls',
  consistent (lock_init V) (mutex_init V) s ls → tight s ls →
  insert_all (insert_of V allocator) ops s = Return () s' →
  buckets s' ls' → tight s' ls'.
Proof.
  induction ops as [|[k v] ops IH]; intros s ls s' ls' Hcons Htight Hrun Hb'.
  - injection Hrun as <-. destruct Hcons as (Hb & _).
    by rewrite (buckets_functional _ _ _ Hb' Hb).
  - cbn [insert_all] in Hrun. rewrite bind_run in Hrun.
    destruct (insert_of V allocator k v s) as [[] s1| | |] eqn:Hins; try done.
    destruct (insert_consistent V HV allocator allocator_fresh _ _ _ _ _ Hcons Hins)
      as (_ & ls1 & Hcons1 & _).
    apply (IH s1 ls1 s' ls' Hcons1); [|done|done].
    destruct Hcons1 as (Hb1 & _). by eapply insert_tight.
Qed.

(** An [insert] that returns has printed nothing. *)
Lemma insert_silent s ls k v s' :
  consistent (lock_init V) (mutex_init V) s ls →
  insert_of V allocator k v s = Return () s' → stdout s' = stdout s.
Proof.
  intros Hcons Hret.
  destruct (insert_consistent V HV allocator allocator_fresh _ _ _ _ _ Hcons Hret) as (Hk & _).
  destruct (consistent_bucket V _ _ _ Hcons Hk) as (p & l & Hl & Hp & Hc & Hun & _).
  rewrite (implemented_insert allocator V _ _ _ p l) in Hret
    by eauto using consistent_lock.
  unfold upsert in Hret. destruct (chain_find k l); [by injection Hret as <-|].
  destruct (allocator (dom (heap s))); [by injection Hret as <-|done].
Qed.

Lemma insert_all_silent ops : ∀ s ls s',
  consistent (lock_init V) (mutex_init V) s ls →
  insert_all (insert_of V allocator) ops s = Return () s' → stdout s' = stdout s.
Proof.
  induction ops as [|[k v] ops IH]; intros s ls s' Hcons Hrun.
  - by injection Hrun as <-.
  - cbn [insert_all] in Hrun. rewrite bind_run in Hrun.
    destruct (insert_of V allocator k v s) as [[] s1| | |] eqn:Hins; try done.
    destruct (insert_consistent V HV allocator allocator_fresh _ _ _ _ _ Hcons Hins)
      as (_ & ls1 & Hcons1 & _).
    rewrite (IH s1 ls1 s' Hcons1 Hrun). by eapply insert_silent.
Qed.
End Tight.

Lemma empty_table_tight {L M} (lock0 : L) ls : tight (empty_table (M := M) lock0) ls.
Proof. intros a [e He]. unfold empty_table in He. cbn [heap] in He. by rewrite lookup_empty in He. Qed.

(** ** The phases, one after the other *)

Section PhasesRun.
Variable D : driver.
Hypothesis HD : built D.
Variable allocator : gset positive → ptr.
Hypothesis allocator_fresh : ∀ d a, allocator d = Some a → a ∉ d.
Variables (keys : list Z) (n : Z) (tids : list Z).
Hypothesis Hn : 0 < n ≤ INT_MAX - NUM_KEYS.
Hypothesis Htids : Forall (λ tid, 0 ≤ tid < n) tids.
Hypothesis Hkeys : length keys = Z.to_nat NUM_KEYS.
Hypothesis Hnonneg : Forall (λ k, 0 ≤ k) keys.
Local Abbreviation V := (variant D).
Implicit Types (s : process (lock_t V) (mutex_t V)) (ls : list (list node)).

(** After the put phases every key of every stride is in the table. *)
Lemma put_phases_run s0 ls0 :
  (∀ d, is_Some (allocator d)) →
  consistent (lock_init V) (mutex_init V) s0 ls0 →
  ∃ s ls,
    put_phases_of D allocator keys n tids s0 = Return () s ∧
    consistent (lock_init V) (mutex_init V) s ls ∧
    (tight s0 ls0 → tight s ls) ∧ stdout s = stdout s0 ∧
    ∀ tid j, tid ∈ tids → j ∈ stride n tid →
             table_find ls (keys !!! Z.to_nat j) ≠ None.
Proof.
  intros Htotal Hcons.
  pose proof (keys_nonnegative_valid _ Hnonneg) as Hvalid.
  pose proof (built_implemented D HD) as HV.
  set (ops := tids ≫= λ tid, (λ j, (keys !!! Z.to_nat j, tid)) <$> stride n tid).
  assert (∀ tid j, tid ∈ tids → j ∈ stride n tid → keys !!! Z.to_nat j ∈ ops.*1) as Hin.
  { intros tid j Htid Hj. apply list_elem_of_fmap. exists (keys !!! Z.to_nat j, tid).
    split; [done|]. apply list_elem_of_bind. exists tid. split; [|done].
    apply list_elem_of_fmap. eauto. }
  assert (∀ k, k ∈ ops.*1 → 0 ≤ slot k < NUM_BUCKETS) as Hks.
  { intros k ([k' v] & -> & Hkv)%list_elem_of_fmap.
    apply list_elem_of_bind in Hkv as (tid & Hkv & Htid).
    apply list_elem_of_fmap in Hkv as (j & [= -> ->] & Hj).
    apply list_elem_of_filter in Hj as [_ Hj%elem_of_seqZ].
    apply (keys_valid keys Hkeys Hvalid). lia. }
  destruct (insert_all_returns V HV allocator allocator_fresh ops s0 ls0 Hcons Hks Htotal)
    as [s Hrun].
  destruct (insert_all_consistent V HV allocator allocator_fresh ops s0 ls0 s Hcons Hrun)
    as (_ & ls & Hcons' & Hfind).
  exists s, ls. split.
  { unfold put_phases_of. by rewrite put_phases_inserts. }
  split; [done|]. split.
  { intros Htight. destruct Hcons' as (Hb' & _).
    by eapply (insert_all_tight V HV allocator allocator_fresh ops s0 ls0). }
  split.
  { by eapply (insert_all_silent V HV allocator allocator_fresh ops s0 ls0). }
  intros tid j Htid Hj Hnone. specialize (Hfind (keys !!! Z.to_nat j)).
  destruct (last_value_is_Some _ _ (Hin tid j Htid Hj)) as [v Hv].
  rewrite Hv, Hnone in Hfind. done.
Qed.

Lemma get_phase_finds_all s ls tid :
  consistent (lock_init V) (mutex_init V) s ls →
  is_Some (allocator (dom (heap s))) → 0 ≤ tid < n →
  (∀ j, j ∈ stride n tid → table_find ls (keys !!! Z.to_nat j) ≠ None) →
  get_phase_of D allocator keys n tid s
  = Return 0 (set_stdout (stdout s ++ [lost_line tid 0]) s).
Proof.
  intros Hcons Halloc Htid Hfound.
  rewrite (get_phase_counts_missing_keys_aux D allocator keys n tid s ls); try done.
  by rewrite (filter_nothing _ (stride n tid)).
Qed.

Lemma get_phases_find_all ls : ∀ tids' s,
  tids' ⊆ tids →
  consistent (lock_init V) (mutex_init V) s ls →
  is_Some (allocator (dom (heap s))) →
  (∀ tid j, tid ∈ tids → j ∈ stride n tid → table_find ls (keys !!! Z.to_nat j) ≠ None) →
  get_phases_of D allocator keys n tids' s
  = Return 0 (set_stdout (stdout s ++ ((λ tid, lost_line tid 0) <$> tids')) s).
Proof.
  induction tids' as [|tid tids' IH]; intros s Hsub Hcons Halloc Hfound.
  - cbn. rewrite app_nil_r. by destruct s.
  - assert (tid ∈ tids) as Htid by (apply Hsub, list_elem_of_here).
    unfold get_phases_of. cbn [get_phases]. rewrite bind_run.
    fold (get_phase_of D allocator keys n tid s).
    rewrite (get_phase_finds_all s ls tid); [|done|done| |by eauto].
    2:{ rewrite Forall_forall in Htids. by apply Htids. }
    rewrite bind_run. fold (get_phases_of D allocator keys n tids').
    rewrite IH; [|by intros ? ?; apply Hsub, list_elem_of_further
                  |by apply consistent_set_stdout|done|done].
    cbn. rewrite <- app_assoc. by destruct s.
Qed.
End PhasesRun.

(** X3.  In every file, with [0 < n ≤ INT_MAX - NUM_KEYS] threads (so
    that [key += num_threads] cannot overflow): run on a table at rest,
    any calls of [put_phase] return (when [malloc] does not fail and no
    key is negative) and leave the table at rest; afterwards [get_phase]
    of every thread whose [put_phase] was among them finds all its keys:
    it returns 0 and prints "[thread tid] 0 keys lost!". *)
Theorem get_phase_after_put_phase_loses_nothing D allocator keys n tids s0 ls0 :
  built D →
  (∀ d a, allocator d = Some a → a ∉ d) →
  (∀ d, is_Some (allocator d)) →
  consistent (lock_init (variant D)) (mutex_init (variant D)) s0 ls0 →
  0 < n ≤ INT_MAX - NUM_KEYS → Forall (λ tid, 0 ≤ tid < n) tids →
  length keys = Z.to_nat NUM_KEYS → Forall (λ k, 0 ≤ k) keys →
  ∃ s ls,
    put_phases_of D allocator keys n tids s0 = Return () s ∧
    consistent (lock_init (variant D)) (mutex_init (variant D)) s ls ∧
    Forall (λ tid,
      get_phase_of D allocator keys n tid s
      = Return 0 (set_stdout (stdout s ++ [lost_line tid 0]) s)) tids.
Proof.
  intros HD Hfresh Htotal Hcons Hn Htids Hkeys Hnonneg.
  destruct (put_phases_run D HD allocator Hfresh keys n tids Hn Htids Hkeys Hnonneg s0 ls0
              Htotal Hcons) as (s & ls & Hrun & Hcons' & _ & _ & Hfound).
  exists s, ls. split; [done|]. split; [done|]. apply Forall_forall. intros tid Htid.
  apply (get_phase_finds_all D HD allocator Hfresh keys n Hn Hkeys Hnonneg s ls tid);
    [done|done| |by eauto].
  rewrite Forall_forall in Htids. by apply Htids.
Qed.

Lemma get_phase_after_put_phase_loses_nothing_witness :
  ∃ s ls,
    put_phases_of rwlock_driver bump (seqZ 0 NUM_KEYS) 4 [2; 0]
      (example_table read_write) = Return () s ∧
    consistent (RwLock 0 false) () s ls ∧
    Forall (λ tid,
      get_phase_of rwlock_driver bump (seqZ 0 NUM_KEYS) 4 tid s
      = Return 0 (set_stdout (stdout s ++ [lost_line tid 0]) s)) [2; 0].
Proof.
  apply (get_phase_after_put_phase_loses_nothing rwlock_driver bump (seqZ 0 NUM_KEYS) 4
           [2; 0] (example_table read_write) example_chains).
  - constructor.
  - apply bump_fresh.
  - intros d. by eexists.
  - apply (example_table_consistent read_write).
  - unfold INT_MAX, NUM_KEYS. lia.
  - repeat constructor; lia.
  - apply length_seqZ.
  - apply Forall_seqZ. lia.
Defined.

(** X4.  In every file: on a table at rest the clean-up loop that ends
    [main] returns.  It frees every entry of every chain, leaves every
    other block as it was, and does not write [table]: the heads keep
    pointing at the freed entries. *)
Theorem cleanup_frees_every_entry D s ls :
  built D →
  consistent (lock_init (variant D)) (mutex_init (variant D)) s ls →
  ∃ s', cleanup_of D s = Return () s' ∧
        table s' = table s ∧ stdout s' = stdout s ∧
        (∀ l n, l ∈ ls → n ∈ l → heap s' !! node_addr n = None) ∧
        (∀ a, (∀ l n, l ∈ ls → n ∈ l → node_addr n ≠ a) → heap s' !! a = heap s !! a).
Proof. intros HD. by apply cleanup_frees. Qed.

Lemma cleanup_frees_every_entry_witness :
  ∃ s', cleanup_of two_level_driver (example_table two_level) = Return () s' ∧
        table s' = table (example_table two_level) ∧
        stdout s' = stdout (example_table two_level) ∧
        (∀ l n, l ∈ example_chains → n ∈ l → heap s' !! node_addr n = None) ∧
        (∀ a, (∀ l n, l ∈ example_chains → n ∈ l → node_addr n ≠ a) →
              heap s' !! a = heap (example_table two_level) !! a).
Proof.
  apply (cleanup_frees_every_entry two_level_driver (example_table two_level) example_chains).
  - constructor.
  - apply (example_table_consistent two_level).
Defined.

(** X5.  In every file, with [0 < n ≤ INT_MAX - NUM_KEYS] threads (so
    that [key += num_threads] cannot overflow): from a table at rest
    whose chains hold every allocated block (the empty table [main] sets
    up is one), the put phases, the get phases and the clean-up loop,
    each run to its end before the next starts, all return when [malloc]
    does not fail and no key is negative; no key is lost, and at the end
    no block is left allocated. *)
Theorem phases_and_cleanup_leave_no_block D allocator keys n tids s0 ls0 :
  built D →
  (∀ d a, allocator d = Some a → a ∉ d) →
  (∀ d, is_Some (allocator d)) →
  consistent (lock_init (variant D)) (mutex_init (variant D)) s0 ls0 →
  tight s0 ls0 →
  0 < n ≤ INT_MAX - NUM_KEYS → Forall (λ tid, 0 ≤ tid < n) tids →
  length keys = Z.to_nat NUM_KEYS → Forall (λ k, 0 ≤ k) keys →
  ∃ s1 s2 s3,
    put_phases_of D allocator keys n tids s0 = Return () s1 ∧
    get_phases_of D allocator keys n tids s1 = Return 0 s2 ∧
    stdout s2 = stdout s0 ++ ((λ tid, lost_line tid 0) <$> tids) ∧
    cleanup_of D s2 = Return () s3 ∧
    heap s3 = ∅.
Proof.
  intros HD Hfresh Htotal Hcons Htight Hn Htids Hkeys Hnonneg.
  destruct (put_phases_run D HD allocator Hfresh keys n tids Hn Htids Hkeys Hnonneg s0 ls0
              Htotal Hcons) as (s1 & ls & Hput & Hcons1 & Htight1 & Hout & Hfound).
  pose proof (get_phases_find_all D HD allocator Hfresh keys n tids Hn Htids Hkeys Hnonneg
                ls tids s1 (λ _ H, H) Hcons1 (Htotal _) Hfound) as Hget.
  destruct (cleanup_empties D HD
              (set_stdout (stdout s1 ++ ((λ tid, lost_line tid 0) <$> tids)) s1) ls)
    as (s3 & Hclean & Hempty).
  { by apply consistent_set_stdout. }
  { intros a Ha. by apply Htight1. }
  eexists s1, _, s3. split; [done|]. split; [done|]. split; [|done].
  cbn [stdout set_stdout]. by rewrite Hout.
Qed.

Lemma phases_and_cleanup_leave_no_block_witness :
  ∃ s1 s2 s3,
    put_phases_of spin_driver bump (seqZ 0 NUM_KEYS) 4 [0; 1; 2; 3] (empty_table false)
      = Return () s1 ∧
    get_phases_of spin_driver bump (seqZ 0 NUM_KEYS) 4 [0; 1; 2; 3] s1 = Return 0 s2 ∧
    stdout s2 = stdout (empty_table (M := unit) false) ++
                ((λ tid, lost_line tid 0) <$> [0; 1; 2; 3]) ∧
    cleanup_of spin_driver s2 = Return () s3 ∧
    heap s3 = ∅.
Proof.
  apply (phases_and_cleanup_leave_no_block spin_driver bump (seqZ 0 NUM_KEYS) 4 [0; 1; 2; 3]
           (empty_table false) (replicate (Z.to_nat NUM_BUCKETS) [])).
  - constructor.
  - apply bump_fresh.
  - intros d. by eexists.
  - apply (empty_table_consistent coarse).
  - apply empty_table_tight.
  - unfold INT_MAX, NUM_KEYS. lia.
  - repeat constructor; lia.
  - apply length_seqZ.
  - apply Forall_seqZ. lia.
Defined.

(** ** Operations on a bucket that others are reading *)

Section Sharing.
Variable allocator : gset positive → ptr.
Hypothesis allocator_fresh : ∀ d a, allocator d = Some a → a ∉ d.

(** The two-level [insert] when other threads hold the bucket lock in
    shared mode: the first scan decides. *)
Lemma twolevel_insert_shared (s : process rwlock bool) k v p l others :
  index (bucket_locks s) (slot k) = Some (RwLock (S others) false) →
  index (table s) (slot k) = Some p →
  is_chain (heap s) p l →
  chain_unlocked false (heap s) l →
  TwoLevel.insert allocator k v s
  = match chain_find k l with
    | Some n => Return () (set_heap (alter (with_val v) (node_addr n) (heap s)) s)
    | None => Hang
    end.
Proof.
  intros Hlock Htab Hc Hmx.
  destruct s as [h t lk o]. unfold chain_unlocked in Hmx. prog_simpl.
  unfold TwoLevel.insert, pthread_rwlock_rdlock, get_table. repeat prog_step.
  destruct (chain_find k l) as [n|] eqn:Hfind.
  - unfold TwoLevel.update_if_match. prog_find_hit Hc Hfind.
    all: pose proof (Hmx n _ (proj1 (chain_find_elem _ _ _ Hfind)) He) as Hm.
    + unfold load, store_val, pthread_rwlock_unlock, TwoLevel.pthread_mutex_lock,
        TwoLevel.pthread_mutex_unlock. repeat prog_step.
      rewrite decide_True by done. repeat prog_step.
      rewrite Hm. repeat prog_step. reflexivity.
    + done.
    + repeat prog_step. by erewrite alter_lock_store_unlock by eauto.
  - unfold TwoLevel.update_if_match. prog_find_miss Hc Hfind.
    unfold pthread_rwlock_unlock, pthread_rwlock_wrlock, get_table. by repeat prog_step.
Qed.

Lemma rwlock_insert_shared (s : process rwlock unit) k v others :
  index (bucket_locks s) (slot k) = Some (RwLock (S others) false) →
  RWLock.insert allocator k v s = Hang.
Proof.
  intros Hlock. unfold RWLock.insert, pthread_rwlock_wrlock. by repeat prog_step.
Qed.
End Sharing.


Lemma example_bucket_1 V :
  is_chain (heap (example_table V)) (Some 2%positive) [Node 2 6 20; Node 1 1 10] ∧
  chain_unlocked (mutex_init V) (heap (example_table V)) [Node 2 6 20; Node 1 1 10].
Proof.
  destruct (example_table_consistent V) as (Hb & [_ Hmx] & _).
  destruct (buckets_lookup _ _ 1%nat _ Hb eq_refl) as (p & [= <-] & Hc).
  split; [done|]. apply Hmx. by apply (list_elem_of_lookup_2 _ 1%nat).
Qed.


Section SharingSteps.
Import Interleaving.
Variable allocator : gset positive → ptr.

Ltac shared_next :=
  eapply alone_step;
    [done
    |cbn [step_of];
     unfold mbind, prog_bind, mret, prog_ret, pthread_rwlock_rdlock, pthread_rwlock_unlock,
       get_table;
     cbn [heap table bucket_locks stdout set_heap set_table set_locks set_stdout]
    |].

(** The two-level [insert] of a key that is not in the chain, one step at
    a time, while [S others] other threads hold the bucket lock in shared
    mode: the thread takes the lock in shared mode too, scans, gives its
    hold up again, and is then at [pthread_rwlock_wrlock], which it cannot
    get past. *)
Lemma twolevel_insert_shared_steps (s : process rwlock bool) k v p l others rest :
  index (bucket_locks s) (slot k) = Some (RwLock (S others) false) →
  index (table s) (slot k) = Some p →
  is_chain (heap s) p l →
  chain_find k l = None →
  (∃ n, run allocator (replicate n 0%nat) (Running s [Thread Idle (Insert k v :: rest)])
        = Running
            (set_locks (<[Z.to_nat (slot k) := RwLock (S (S others)) false]> (bucket_locks s)) s)
            [Thread (I_unlock_shared k v) rest]) ∧
  (∃ n, run allocator (replicate n 0%nat) (Running s [Thread Idle (Insert k v :: rest)])
        = Running s [Thread (I_wrlock k v) rest]) ∧
  step allocator (Running s [Thread (I_wrlock k v) rest]) 0 = None.
Proof.
  intros Hlock Hp Hc Hfind.
  destruct s as [h t lk out]. cbn [heap table bucket_locks set_locks] in *.
  assert (∀ x y, <[Z.to_nat (slot k) := y]> (<[Z.to_nat (slot k) := x]> lk)
                 = <[Z.to_nat (slot k) := y]> lk) as Hll.
  { intros x y. apply list_insert_insert_eq. }
  assert (∀ x, index (<[Z.to_nat (slot k) := x]> lk) (slot k) = Some x) as Hlx.
  { intros x. by eapply index_insert_eq. }
  pose proof (index_insert_id _ _ _ Hlock) as Hlid.
  assert (∀ m',
    (∃ n, run allocator (replicate n 0%nat)
            (Running (Process h t (<[Z.to_nat (slot k) := RwLock (S (S others)) false]> lk) out)
               [Thread (I_unlock_shared k v) rest]) = m') →
    ∃ n, run allocator (replicate n 0%nat)
           (Running (Process h t lk out) [Thread Idle (Insert k v :: rest)]) = m') as Hprefix.
  { intros m' Hm'. apply alone_call. cbn [enter].
    shared_next. { rewrite Hlock. reflexivity. }
    shared_next. { rewrite Hp. reflexivity. }
    eapply alone_scan; [exact Hc|]. by rewrite Hfind. }
  split; [|split].
  - apply Hprefix, alone_refl.
  - apply Hprefix.
    shared_next. { rewrite Hlx. reflexivity. }
    cbn [readers writer]. rewrite Hll, Hlid. apply alone_refl.
  - rewrite (step_inside allocator _ [Thread (I_wrlock k v) rest] 0 _ rest eq_refl) by done.
    cbn [step_of]. unfold mbind, prog_bind, pthread_rwlock_wrlock.
    cbn [bucket_locks]. by rewrite Hlock.
Qed.
End SharingSteps.

(** X7.  With other threads holding the bucket lock in shared mode,
    [insert] of the read-write file blocks, whatever the key.  [insert] of
    the two-level file overwrites the value of a key that is in the chain
    without waiting for them, and leaves their holds as they were; for a
    key that is not in the chain it blocks.  Taken one statement at a
    time, that last call takes the lock in shared mode beside the others,
    scans the chain, gives its own shared hold up again (the lock word is
    back at the others' count, the state as it was before the call), and
    cannot get past [pthread_rwlock_wrlock]. *)
Theorem insert_under_shared_lock allocator k v others
    (s0 : process rwlock unit) (s1 : process rwlock bool) p l rest :
  (∀ d a, allocator d = Some a → a ∉ d) →
  index (bucket_locks s0) (slot k) = Some (RwLock (S others) false) →
  index (bucket_locks s1) (slot k) = Some (RwLock (S others) false) →
  index (table s1) (slot k) = Some p → is_chain (heap s1) p l →
  chain_unlocked false (heap s1) l →
  RWLock.insert allocator k v s0 = Hang ∧
  TwoLevel.insert allocator k v s1
  = match chain_find k l with
    | Some n => Return () (set_heap (alter (with_val v) (node_addr n) (heap s1)) s1)
    | None => Hang
    end ∧
  (chain_find k l = None →
     (∃ n, Interleaving.run allocator (replicate n 0%nat)
             (Interleaving.Running s1
                [Interleaving.Thread Interleaving.Idle (Interleaving.Insert k v :: rest)])
           = Interleaving.Running
               (set_locks (<[Z.to_nat (slot k) := RwLock (S (S others)) false]>
                             (bucket_locks s1)) s1)
               [Interleaving.Thread (Interleaving.I_unlock_shared k v) rest]) ∧
     (∃ n, Interleaving.run allocator (replicate n 0%nat)
             (Interleaving.Running s1
                [Interleaving.Thread Interleaving.Idle (Interleaving.Insert k v :: rest)])
           = Interleaving.Running s1
               [Interleaving.Thread (Interleaving.I_wrlock k v) rest]) ∧
     Interleaving.step allocator
       (Interleaving.Running s1 [Interleaving.Thread (Interleaving.I_wrlock k v) rest]) 0
     = None).
Proof.
  intros Hfresh ? ? ? ? ?. split; [|split].
  - by eapply rwlock_insert_shared.
  - by eapply twolevel_insert_shared.
  - intros Hfind. by eapply twolevel_insert_shared_steps.
Qed.

Lemma insert_under_shared_lock_witness :
  (RWLock.insert bump 6 7
     (set_locks (<[1%nat := RwLock 2 false]> (bucket_locks (example_table read_write)))
        (example_table read_write)) = Hang ∧
   TwoLevel.insert bump 6 7
     (set_locks (<[1%nat := RwLock 2 false]> (bucket_locks (example_table two_level)))
        (example_table two_level))
   = Return ()
       (set_heap
          (alter (with_val 7) 2%positive
             (heap (set_locks (<[1%nat := RwLock 2 false]>
                                 (bucket_locks (example_table two_level)))
                      (example_table two_level))))
          (set_locks (<[1%nat := RwLock 2 false]> (bucket_locks (example_table two_level)))
             (example_table two_level)))) ∧
  (RWLock.insert bump 8 7
     (set_locks (<[3%nat := RwLock 2 false]> (bucket_locks (example_table read_write)))
        (example_table read_write)) = Hang ∧
   TwoLevel.insert bump 8 7
     (set_locks (<[3%nat := RwLock 2 false]> (bucket_locks (example_table two_level)))
        (example_table two_level))
   = Hang ∧
   (∃ n, Interleaving.run bump (replicate n 0%nat)
           (Interleaving.Running
              (set_locks (<[3%nat := RwLock 2 false]> (bucket_locks (example_table two_level)))
                 (example_table two_level))
              [Interleaving.Thread Interleaving.Idle [Interleaving.Insert 8 7]])
         = Interleaving.Running
             (set_locks (<[3%nat := RwLock 3 false]> (bucket_locks (example_table two_level)))
                (example_table two_level))
             [Interleaving.Thread (Interleaving.I_unlock_shared 8 7) []]) ∧
   (∃ n, Interleaving.run bump (replicate n 0%nat)
           (Interleaving.Running
              (set_locks (<[3%nat := RwLock 2 false]> (bucket_locks (example_table two_level)))
                 (example_table two_level))
              [Interleaving.Thread Interleaving.Idle [Interleaving.Insert 8 7]])
         = Interleaving.Running
             (set_locks (<[3%nat := RwLock 2 false]> (bucket_locks (example_table two_level)))
                (example_table two_level))
             [Interleaving.Thread (Interleaving.I_wrlock 8 7) []]) ∧
   Interleaving.step bump
     (Interleaving.Running
        (set_locks (<[3%nat := RwLock 2 false]> (bucket_locks (example_table two_level)))
           (example_table two_level))
        [Interleaving.Thread (Interleaving.I_wrlock 8 7) []]) 0
   = None).
Proof.
  split.
  - destruct (insert_under_shared_lock bump 6 7 1
                (set_locks (<[1%nat := RwLock 2 false]>
                              (bucket_locks (example_table read_write)))
                   (example_table read_write))
                (set_locks (<[1%nat := RwLock 2 false]> (bucket_locks (example_table two_level)))
                   (example_table two_level)) (Some 2%positive) [Node 2 6 20; Node 1 1 10] [])
      as (H0 & H1 & _).
    + apply bump_fresh.
    + reflexivity.
    + reflexivity.
    + reflexivity.
    + apply (example_bucket_1 two_level).
    + apply (example_bucket_1 two_level).
    + split; [exact H0|exact H1].
  - destruct (insert_under_shared_lock bump 8 7 1
                (set_locks (<[3%nat := RwLock 2 false]>
                              (bucket_locks (example_table read_write)))
                   (example_table read_write))
                (set_locks (<[3%nat := RwLock 2 false]> (bucket_locks (example_table two_level)))
                   (example_table two_level)) (Some 3%positive) [Node 3 3 5] [])
      as (H0 & H1 & H2).
    + apply bump_fresh.
    + reflexivity.
    + reflexivity.
    + reflexivity.
    + simpl. split; [reflexivity|]. eexists. split; [reflexivity|]. by repeat split.
    + intros n e [->|Hn%elem_of_nil]%elem_of_cons; [|done]. by intros [= <-].
    + split; [exact H0|]. split; [exact H1|]. exact (H2 eq_refl).
Defined.

(** ** Round trip *)

(** X8.  In every file, on a table at rest: an [insert] of [k] that finds
    [k] or gets memory returns, and right after it [retrieve k] answers
    with a copy holding the inserted value, while [retrieve] of any other
    key answers with the value it answered with before the [insert]. *)
Theorem retrieve_after_insert V allocator s ls k v :
  implemented V →
  (∀ d a, allocator d = Some a → a ∉ d) →
  consistent (lock_init V) (mutex_init V) s ls →
  0 ≤ slot k < NUM_BUCKETS →
  is_Some (allocator (dom (heap s))) ∨ is_Some (table_find ls k) →
  ∃ s', insert_of V allocator k v s = Return () s' ∧
        retrieve_of V allocator k s' = answer (mutex_init V) allocator k (Some v) s' ∧
        ∀ k', k' ≠ k → 0 ≤ slot k' < NUM_BUCKETS →
          ∃ r, retrieve_of V allocator k' s = answer (mutex_init V) allocator k' r s ∧
               retrieve_of V allocator k' s' = answer (mutex_init V) allocator k' r s'.
Proof.
  intros HV Hfresh Hcons Hk Hok.
  destruct (insert_returns V HV allocator s ls k v Hcons Hk Hok) as [s' Hins].
  destruct (insert_consistent V HV allocator Hfresh _ _ _ _ _ Hcons Hins)
    as (_ & ls' & Hcons' & Hfind).
  exists s'. split; [done|]. split.
  - rewrite (retrieve_answer V HV allocator Hfresh s' ls' k Hcons' Hk), Hfind.
    by rewrite decide_True.
  - intros k' Hne Hk'. exists (node_val <$> table_find ls k'). split.
    + by apply retrieve_answer.
    + rewrite (retrieve_answer V HV allocator Hfresh s' ls' k' Hcons' Hk'), Hfind.
      by rewrite decide_False.
Qed.

Lemma retrieve_after_insert_witness :
  ∃ s', insert_of coarse bump 8 7 (example_table coarse) = Return () s' ∧
        retrieve_of coarse bump 8 s' = answer () bump 8 (Some 7) s' ∧
        ∀ k', k' ≠ 8 → 0 ≤ slot k' < NUM_BUCKETS →
          ∃ r, retrieve_of coarse bump k' (example_table coarse)
               = answer () bump k' r (example_table coarse) ∧
               retrieve_of coarse bump k' s' = answer () bump k' r s'.
Proof.
  apply (retrieve_after_insert coarse bump (example_table coarse) example_chains 8 7).
  - constructor.
  - apply bump_fresh.
  - apply (example_table_consistent coarse).
  - split; by vm_compute.
  - left. by eexists.
Defined.

(** ** Any number of threads *)

Section Holders.
Import Interleaving Threads.
Context {A : Type} `{EqDecision A}.
Variable f : pc → option A.
Implicit Types (ts : list thread) (x : A).

Lemma holders_cons x th ts :
  holders f x (th :: ts) = (holding f x (at_pc th) + holders f x ts)%nat.
Proof.
  unfold holders, holding. rewrite filter_cons. by case_decide.
Qed.

Lemma holders_insert x ts t th th' :
  ts !! t = Some th →
  (holders f x (<[t := th']> ts) + holding f x (at_pc th)
   = holders f x ts + holding f x (at_pc th'))%nat.
Proof.
  revert t. induction ts as [|th0 ts IH]; intros [|t] Ht; try done.
  - injection Ht as ->. change (<[0%nat := th']> (th :: ts)) with (th' :: ts).
    rewrite !holders_cons. lia.
  - change (<[S t := th']> (th0 :: ts)) with (th0 :: <[t := th']> ts).
    rewrite !holders_cons. specialize (IH t Ht). lia.
Qed.

Lemma holders_same x ts t th th' :
  ts !! t = Some th → f (at_pc th') = f (at_pc th) →
  holders f x (<[t := th']> ts) = holders f x ts.
Proof.
  intros Ht Hf. pose proof (holders_insert x ts t th th' Ht) as Hi.
  unfold holding in Hi. rewrite Hf in Hi. lia.
Qed.

Lemma holders_pos x ts t th :
  ts !! t = Some th → f (at_pc th) = Some x → (1 ≤ holders f x ts)%nat.
Proof.
  revert t. induction ts as [|th0 ts IH]; intros [|t] Ht Hf; try done.
  - injection Ht as ->. rewrite holders_cons. unfold holding. rewrite decide_True by done. lia.
  - rewrite holders_cons. specialize (IH t Ht Hf). lia.
Qed.

Lemma holders_two x ts t t' th th' :
  t ≠ t' → ts !! t = Some th → ts !! t' = Some th' →
  f (at_pc th) = Some x → f (at_pc th') = Some x → (2 ≤ holders f x ts)%nat.
Proof.
  revert t t'. induction ts as [|th0 ts IH]; intros [|t] [|t'] Hne Ht Ht' Hf Hf'; try done.
  - injection Ht as ->. rewrite holders_cons. unfold holding. rewrite decide_True by done.
    pose proof (holders_pos x ts t' th' Ht' Hf'). lia.
  - injection Ht' as ->. rewrite holders_cons. unfold holding. rewrite decide_True by done.
    pose proof (holders_pos x ts t th Ht Hf). lia.
  - rewrite holders_cons. assert (t ≠ t') by congruence.
    specialize (IH t t' ltac:(done) Ht Ht' Hf Hf'). lia.
Qed.

Lemma holders_zero x ts :
  (∀ t th, ts !! t = Some th → f (at_pc th) ≠ Some x) → holders f x ts = 0%nat.
Proof.
  induction ts as [|th0 ts IH]; intros Hno; [done|].
  rewrite holders_cons. unfold holding. rewrite decide_False by (by apply (Hno 0%nat)).
  rewrite IH; [done|]. intros t th Ht. by apply (Hno (S t)).
Qed.

Lemma holders_zero_inv x ts t th :
  holders f x ts = 0%nat → ts !! t = Some th → f (at_pc th) ≠ Some x.
Proof.
  intros H0 Ht Hf. pose proof (holders_pos x ts t th Ht Hf). lia.
Qed.
End Holders.

Section LinksFacts.
Import Interleaving Threads.
Implicit Types (l : list node) (ls : list (list node)).

Lemma links_addr l : (links l).*1 = node_addr <$> l.
Proof. unfold links. rewrite <- list_fmap_compose. done. Qed.

Lemma links_key l : (links l).*2 = node_key <$> l.
Proof. unfold links. rewrite <- list_fmap_compose. done. Qed.

Lemma links_store a v l : links (chain_store a v l) = links l.
Proof.
  unfold links, chain_store. rewrite <- list_fmap_compose. apply list_fmap_ext.
  intros i n _. simpl. by case_decide; subst.
Qed.

Lemma elem_of_links a k l :
  (a, k) ∈ links l ↔ ∃ n, n ∈ l ∧ node_addr n = a ∧ node_key n = k.
Proof.
  unfold links. rewrite list_elem_of_fmap. split.
  - intros (n & [= -> ->] & Hn). eauto.
  - intros (n & Hn & <- & <-). eauto.
Qed.

Lemma index_fmap {A B} (g : A → B) (xs : list A) i : index (g <$> xs) i = g <$> index xs i.
Proof. unfold index. case_decide; [|done]. apply list_lookup_fmap. Qed.

Lemma index_links ls i (lk : list (positive * Z)) :
  index (links <$> ls) i = Some lk ↔ ∃ l', index ls i = Some l' ∧ lk = links l'.
Proof.
  rewrite index_fmap. destruct (index ls i) as [l'|]; simpl; split.
  - intros [= <-]. eauto.
  - by intros (? & [= <-] & ->).
  - done.
  - by intros (? & ? & _).
Qed.

Lemma unlinked_links ls e : unlinked (links <$> ls) e ↔ Race.unlinked ls e.
Proof.
  unfold unlinked, Race.unlinked. split.
  - intros Hun l n Hl Hn Ha. apply (Hun (links l)).
    + apply list_elem_of_fmap. eauto.
    + rewrite links_addr. apply list_elem_of_fmap. eauto.
  - intros Hun K (l & -> & Hl)%list_elem_of_fmap. rewrite links_addr.
    intros (n & -> & Hn)%list_elem_of_fmap. by apply (Hun l n).
Qed.
End LinksFacts.

Section Frame.
Import Interleaving Threads.

(** What a thread knows stays true when the others leave alone what it
    relies on: the chain of the bucket it is in, [table[i]] of the bucket
    it holds the exclusive lock of, and its own unfinished block. *)
Lemma pc_ok_frame (s s' : process rwlock bool) K K' c :
  (∀ i, exclusive_at c = Some i → index (table s') i = index (table s) i) →
  (∀ e x, private_at c = Some e → heap s !! e = Some x → heap s' !! e = Some x) →
  (∀ i, shared_at c = Some i ∨ exclusive_at c = Some i → index K' i = index K i) →
  (∀ e, private_at c = Some e → unlinked K e → unlinked K' e) →
  pc_ok s K c → pc_ok s' K' c.
Proof.
  intros Ht Hh HK Hun.
  destruct c as [ |k v|w k v|w k v cur|w k v a|w k v a|w k v a|w k v|k v|k v|k v|k v|
                  |k v e|k v e|k v|k|k|k cur|k a|k a|k a|k| |k a e|k a e|k e|k];
    try destruct w; cbn [pc_ok shared_at exclusive_at private_at] in *;
    unfold at_cursor, entry_at, key_in, key_out; try done;
    try (rewrite (HK (slot k)) by eauto); try done.
  - intros (? & ? & ? & q & ?). split; [done|]. split; [done|]. split; [by eauto|].
    exists q. by eauto.
  - intros (? & ? & ? & q & Hq & ?). split; [done|]. split; [done|]. split; [by eauto|].
    exists q. rewrite Ht by done. split; [done|]. by eauto.
  - intros (? & ? & ? & [x ?]). split; [done|]. split; [done|]. split; [by eauto|].
    exists x. by eauto.
Qed.
End Frame.

Section ChainFacts.
Import Threads.
Context {L M : Type}.
Implicit Types (s : process L M) (ls : list (list node)).

Lemma is_chain_head_of (h : gmap positive (bucket_entry M)) p l :
  is_chain h p l → p = head_of (links l).
Proof. destruct l as [|n l]; simpl; [done|]. by intros [-> _]. Qed.

Lemma links_elem ls (lk : list (positive * Z)) a :
  lk ∈ links <$> ls → a ∈ lk.*1 → ∃ l n, l ∈ ls ∧ n ∈ l ∧ node_addr n = a.
Proof.
  intros (l & -> & Hl)%list_elem_of_fmap. rewrite links_addr.
  intros (n & -> & Hn)%list_elem_of_fmap. eauto.
Qed.

Lemma links_eq_elem ls ls' l' n' :
  links <$> ls' = links <$> ls → l' ∈ ls' → n' ∈ l' →
  ∃ l n, l ∈ ls ∧ n ∈ l ∧ node_addr n = node_addr n' ∧ links l = links l'.
Proof.
  intros Heq Hl' Hn'.
  assert (links l' ∈ links <$> ls) as (l & Hll & Hl)%list_elem_of_fmap.
  { rewrite <- Heq. apply list_elem_of_fmap. eauto. }
  assert ((node_addr n', node_key n') ∈ links l) as (n & Hn & Ha & _)%elem_of_links.
  { rewrite <- Hll. apply elem_of_links. eauto. }
  eauto 10.
Qed.

Lemma valid_key_lock s k :
  length (bucket_locks s) = Z.to_nat NUM_BUCKETS → valid_key k →
  is_Some (index (bucket_locks s) (slot k)).
Proof.
  intros Hlen Hk. unfold index. rewrite decide_True by (unfold valid_key in Hk; lia).
  apply lookup_lt_is_Some. unfold valid_key in Hk. lia.
Qed.

Lemma valid_key_bucket s ls k :
  buckets s ls → valid_key k →
  ∃ p l, index (table s) (slot k) = Some p ∧ index ls (slot k) = Some l ∧
         is_chain (heap s) p l ∧ l ∈ ls.
Proof.
  intros Hb Hk. destruct (buckets_index_is_Some _ _ k Hb Hk) as [l Hl].
  destruct (buckets_index_inv _ _ _ _ Hb Hl) as (p & Hp & Hc).
  exists p, l. repeat split; try done.
  apply index_Some in Hl as [_ Hl]. by eapply list_elem_of_lookup_2.
Qed.

Lemma entry_at_node s ls k a :
  buckets s ls → entry_at (links <$> ls) k a →
  ∃ l n e, index ls (slot k) = Some l ∧ l ∈ ls ∧ n ∈ l ∧ node_addr n = a ∧
           node_key n = k ∧ heap s !! a = Some e ∧ key e = k.
Proof.
  intros Hb (lk & (l & Hl & ->)%index_links & (n & Hn & <- & <-)%elem_of_links).
  destruct (buckets_index_inv _ _ _ _ Hb Hl) as (p & Hp & Hc).
  destruct (is_chain_lookup _ _ _ _ Hc Hn) as (e & He & Hk & _).
  exists l, n, e. repeat split; try done.
  apply index_Some in Hl as [_ Hl]. by eapply list_elem_of_lookup_2.
Qed.

Lemma entry_at_key_in K k a : entry_at K k a → key_in K k.
Proof.
  intros (l & Hl & Ha). exists l. split; [done|].
  apply list_elem_of_fmap. by exists (a, k).
Qed.

Lemma unlinked_ne ls e l n :
  unlinked (links <$> ls) e → l ∈ ls → n ∈ l → node_addr n ≠ e.
Proof. rewrite unlinked_links. intros Hun. apply Hun. Qed.

Lemma chain_node_live s ls l n :
  buckets s ls → l ∈ ls → n ∈ l → is_Some (heap s !! node_addr n).
Proof.
  intros Hb [i Hi]%list_elem_of_lookup Hn.
  destruct (buckets_lookup _ _ _ _ Hb Hi) as (p & _ & Hc).
  destruct (is_chain_lookup _ _ _ _ Hc Hn) as (e & He & _). eauto.
Qed.

Lemma unlinked_fresh s ls e :
  buckets s ls → heap s !! e = None → unlinked (links <$> ls) e.
Proof.
  intros Hb He. apply unlinked_links. intros l n Hl Hn <-.
  destruct (chain_node_live _ _ _ _ Hb Hl Hn) as [x Hx]. congruence.
Qed.

(** The scan starts at the head of the chain. *)
Lemma at_cursor_head s ls k w :
  buckets s ls → valid_key k →
  ∃ p, index (table s) (slot k) = Some p ∧ at_cursor (links <$> ls) k p w.
Proof.
  intros Hb Hk. destruct (valid_key_bucket s ls k Hb Hk) as (p & l & Hp & Hl & Hc & _).
  exists p. split; [done|]. exists [], (links l). split; [|split].
  - apply index_links. eauto.
  - symmetry. by eapply is_chain_head_of.
  - intros _. by apply not_elem_of_nil.
Qed.

(** The scan at an entry: the entry is live; it is the one looked for, or
    the scan goes on with the next. *)
Lemma at_cursor_step s ls k a w :
  buckets s ls → at_cursor (links <$> ls) k (Some a) w →
  ∃ e, heap s !! a = Some e ∧
       (key e = k → entry_at (links <$> ls) k a) ∧
       (key e ≠ k → at_cursor (links <$> ls) k (next e) w).
Proof.
  intros Hb (l1 & l2 & (l & Hl & Hlk)%index_links & Hhead & Hw).
  destruct l2 as [|[a' k0] l2]; [done|]. injection Hhead as ->.
  symmetry in Hlk. unfold links in Hlk.
  apply fmap_app_inv in Hlk as (m1 & m2' & Hm1 & Hm2 & ->).
  symmetry in Hm2. apply fmap_cons_inv in Hm2 as (n & m2 & [= Ha Hk0] & Hm2 & ->).
  destruct (buckets_index_inv _ _ _ _ Hb Hl) as (p & Hp & Hc).
  destruct (is_chain_app _ _ _ _ Hc) as (q & _ & e & He & Hke & _ & Hc2).
  rewrite Ha. exists e. split; [done|]. split.
  - intros Hk. exists (links (m1 ++ n :: m2)). split; [apply index_links; eauto|].
    apply elem_of_links. exists n. split; [|split; [done|congruence]].
    apply elem_of_app. right. apply list_elem_of_here.
  - intros Hk. exists (l1 ++ [(node_addr n, node_key n)]), (links m2). split; [|split].
    + apply index_links. exists (m1 ++ n :: m2). split; [done|].
      unfold links. rewrite !fmap_app, fmap_cons, <- Hm1, <- app_assoc. subst. done.
    + symmetry. by eapply is_chain_head_of.
    + intros Hwt. rewrite fmap_app. intros [Hin|Hin]%elem_of_app; [by apply Hw|].
      simpl in Hin. apply list_elem_of_singleton in Hin. congruence.
Qed.

(** The scan under the exclusive lock has reached the end: the key is
    not in the chain. *)
Lemma at_cursor_end K k : at_cursor K k None true → key_out K k.
Proof.
  intros (l1 & l2 & Hl & Hhead & Hw). destruct l2 as [|[??] ?]; [|done].
  rewrite app_nil_r in Hl. exists l1. split; [done|]. by apply Hw.
Qed.

End ChainFacts.

Section SafeFacts.
Import Interleaving Threads.
Implicit Types (s : process rwlock bool) (ts : list thread) (ls : list (list node)).

Lemma pc_ok_private s K c e :
  pc_ok s K c → private_at c = Some e → unlinked K e ∧ is_Some (heap s !! e).
Proof.
  destruct c; try done; cbn [pc_ok private_at]; intros Hok [= <-].
  - destruct Hok as (_ & _ & ? & q & ?). eauto.
  - destruct Hok as (_ & _ & ? & q & _ & ?). eauto.
  - destruct Hok as (_ & _ & ? & ?). eauto.
Qed.

Lemma pc_ok_mutex s ls c a :
  pc_ok s (links <$> ls) c → mutex_at c = Some a →
  ∃ l n, l ∈ ls ∧ n ∈ l ∧ node_addr n = a.
Proof.
  assert (∀ k, entry_at (links <$> ls) k a → ∃ l n, l ∈ ls ∧ n ∈ l ∧ node_addr n = a) as Hen.
  { intros k (lk & [? Hl]%index_Some & Ha). eapply links_elem.
    - by eapply list_elem_of_lookup_2.
    - apply list_elem_of_fmap. by exists (a, k). }
  destruct c; try done; cbn [pc_ok mutex_at]; intros Hok [= <-];
    destruct Hok as (_ & Hok);
    first [by eapply Hen, Hok | by destruct Hok as (Hok & _); eapply Hen, Hok].
Qed.
End SafeFacts.

Lemma buckets_store {L M} (s : process L M) ls a v :
  buckets s ls →
  buckets (set_heap (alter (with_val v) a (heap s)) s) (chain_store a v <$> ls).
Proof.
  intros [Hlen Hch Hsl]. split.
  - by rewrite length_fmap.
  - cbn [heap table set_heap]. apply Forall2_fmap_r.
    eapply Forall2_impl; [exact Hch|]. intros p l Hc. by apply is_chain_store.
  - intros i l n Hl Hn. rewrite list_lookup_fmap in Hl.
    destruct (ls !! i) as [l0|] eqn:Hl0; [|done]. injection Hl as <-.
    unfold chain_store in Hn. apply list_elem_of_fmap in Hn as (n0 & -> & Hn0).
    rewrite <- (Hsl i l0 n0 Hl0 Hn0). by case_decide.
Qed.

Section SafeUpdate.
Import Interleaving Threads.
Variables (s : process rwlock bool) (ts : list thread) (ls : list (list node)).
Hypothesis Hsafe : safe s ts ls.
Variables (t : nat) (c : pc) (rest : list call).
Hypothesis Ht : ts !! t = Some (Thread c rest).

Lemma other_private t' th' e :
  t' ≠ t → ts !! t' = Some th' → private_at (at_pc th') = Some e → private_at c ≠ Some e.
Proof.
  intros Hne Ht' He Hc.
  pose proof (holders_two private_at e ts t' t th' (Thread c rest) Hne Ht' Ht He Hc).
  pose proof (safe_private _ _ _ Hsafe e). lia.
Qed.

Lemma other_section t' th' i :
  t' ≠ t → ts !! t' = Some th' → exclusive_at c = Some i →
  shared_at (at_pc th') ≠ Some i ∧ exclusive_at (at_pc th') ≠ Some i.
Proof.
  intros Hne Ht' Hc.
  assert (0 ≤ i < NUM_BUCKETS) as Hi.
  { destruct (safe_threads _ _ _ Hsafe t _ Ht) as [Hok _]. simpl in Hok.
    destruct c; try done; try (destruct w; try done); injection Hc as <-;
      simpl in Hok; unfold valid_key in *; tauto. }
  destruct (lookup_lt_is_Some_2 (bucket_locks s) (Z.to_nat i)) as [l Hl].
  { rewrite (safe_locks_length _ _ _ Hsafe). lia. }
  destruct (safe_locks _ _ _ Hsafe i l) as (Hr & Hw & Hx).
  { apply index_Some. split; [lia|done]. }
  pose proof (holders_pos exclusive_at i ts t _ Ht Hc) as Hpos.
  assert (writer l = true) as Hwt by (destruct (writer l); simpl in Hw; [done|lia]).
  split.
  - intros Hs. pose proof (holders_pos shared_at i ts t' _ Ht' Hs). specialize (Hx Hwt). lia.
  - intros He.
    pose proof (holders_two exclusive_at i ts t' t th' (Thread c rest) Hne Ht' Ht He Hc).
    destruct (writer l); simpl in Hw; lia.
Qed.

Lemma private_unknown e :
  heap s !! e = None → holders private_at e ts = 0%nat.
Proof.
  intros He. apply holders_zero. intros t' th' Ht' Hp.
  destruct (safe_threads _ _ _ Hsafe t' th' Ht') as [Hok _].
  destruct (pc_ok_private _ _ _ _ Hok Hp) as [_ [x Hx]]. congruence.
Qed.

(** The invariant after a step that changes neither [table] nor the
    addresses and keys of the chains. *)
Lemma safe_update s' ls' c' :
  buckets s' ls' → links <$> ls' = links <$> ls →
  table s' = table s →
  length (bucket_locks s') = length (bucket_locks s) →
  (∀ i l', index (bucket_locks s') i = Some l' →
     ∃ l, index (bucket_locks s) i = Some l ∧
       (readers l' + holding shared_at i c = readers l + holding shared_at i c')%nat ∧
       (Nat.b2n (writer l') + holding exclusive_at i c
        = Nat.b2n (writer l) + holding exclusive_at i c')%nat ∧
       (writer l' = true → readers l' = 0%nat)) →
  (∀ l n e', l ∈ ls → n ∈ l → heap s' !! node_addr n = Some e' →
     ∃ e, heap s !! node_addr n = Some e ∧
       (Nat.b2n (entry_mutex e') + holding mutex_at (node_addr n) c
        = Nat.b2n (entry_mutex e) + holding mutex_at (node_addr n) c')%nat) →
  (∀ e, private_at c' = Some e → private_at c = Some e ∨ heap s !! e = None) →
  (∀ e x, unlinked (links <$> ls) e → heap s !! e = Some x → private_at c ≠ Some e →
          heap s' !! e = Some x) →
  pc_ok s' (links <$> ls') c' →
  safe s' (<[t := Thread c' rest]> ts) ls'.
Proof.
  intros Hb HK Htab Hlen Hlocks Hmutex Hpriv Hframe Hok. split.
  - done.
  - intros l' Hl'.
    assert (links l' ∈ links <$> ls) as (l & Hll & Hl)%list_elem_of_fmap.
    { rewrite <- HK. apply list_elem_of_fmap. eauto. }
    rewrite <- links_key, Hll, links_key. by apply (safe_keys _ _ _ Hsafe).
  - rewrite Hlen. apply (safe_locks_length _ _ _ Hsafe).
  - intros i l' Hl'. destruct (Hlocks i l' Hl') as (l & Hl & Hr & Hw & Hx).
    destruct (safe_locks _ _ _ Hsafe i l Hl) as (Hr0 & Hw0 & _).
    pose proof (holders_insert shared_at i ts t _ (Thread c' rest) Ht) as Hs.
    pose proof (holders_insert exclusive_at i ts t _ (Thread c' rest) Ht) as He.
    cbn [at_pc] in Hs, He. split; [lia|]. split; [lia|done].
  - intros l' n' e' Hl' Hn' He'.
    destruct (links_eq_elem ls ls' l' n' HK Hl' Hn') as (l & n & Hl & Hn & Ha & _).
    rewrite <- Ha in *. destruct (Hmutex l n e' Hl Hn He') as (e & He & Hm).
    pose proof (safe_mutexes _ _ _ Hsafe l n e Hl Hn He) as Hm0.
    pose proof (holders_insert mutex_at (node_addr n) ts t _ (Thread c' rest) Ht) as Hh.
    cbn [at_pc] in Hh. lia.
  - intros e. pose proof (holders_insert private_at e ts t _ (Thread c' rest) Ht) as Hh.
    cbn [at_pc] in Hh. pose proof (safe_private _ _ _ Hsafe e) as Hp.
    unfold holding in Hh. destruct (decide (private_at c' = Some e)) as [Hc'|Hc'].
    + destruct (Hpriv e Hc') as [Hc|Hnone].
      * rewrite decide_True in Hh by done. lia.
      * rewrite (private_unknown e Hnone) in Hh. case_decide; lia.
    + case_decide; lia.
  - intros t' th' Ht'. destruct (decide (t' = t)) as [->|Hne].
    + rewrite list_lookup_insert_eq in Ht' by (by eapply lookup_lt_Some).
      injection Ht' as <-. split; [done|].
      by destruct (safe_threads _ _ _ Hsafe t _ Ht) as [_ ?].
    + rewrite list_lookup_insert_ne in Ht' by done.
      destruct (safe_threads _ _ _ Hsafe t' th' Ht') as [Hok' Htodo]. split; [|done].
      eapply pc_ok_frame; [| | | |exact Hok'].
      * intros i _. by rewrite Htab.
      * intros e x Hp Hx. apply Hframe; [|done|by eapply other_private].
        by destruct (pc_ok_private _ _ _ _ Hok' Hp).
      * intros i _. by rewrite HK.
      * intros e _. by rewrite HK.
Qed.

(** A step that changes nothing but the thread's control point. *)
Lemma safe_pure c' :
  shared_at c' = shared_at c → exclusive_at c' = exclusive_at c →
  mutex_at c' = mutex_at c → (∀ e, private_at c' = Some e → private_at c = Some e) →
  pc_ok s (links <$> ls) c' →
  safe s (<[t := Thread c' rest]> ts) ls.
Proof.
  intros Hs He Hm Hp Hok. apply safe_update; try done.
  - apply (safe_buckets _ _ _ Hsafe).
  - intros i l Hl. exists l. split; [done|]. unfold holding. rewrite Hs, He.
    destruct (safe_locks _ _ _ Hsafe i l Hl) as (_ & _ & ?). done.
  - intros l n e _ _ He'. exists e. split; [done|]. unfold holding. by rewrite Hm.
  - intros e Hc'. left. by apply Hp.
Qed.

(** A call on the lock of bucket [i]. *)
Lemma safe_lock_step i l l' c' :
  index (bucket_locks s) i = Some l →
  (∀ j, j ≠ i → shared_at c ≠ Some j ∧ shared_at c' ≠ Some j ∧
                exclusive_at c ≠ Some j ∧ exclusive_at c' ≠ Some j) →
  (readers l' + holding shared_at i c = readers l + holding shared_at i c')%nat →
  (Nat.b2n (writer l') + holding exclusive_at i c
   = Nat.b2n (writer l) + holding exclusive_at i c')%nat →
  (writer l' = true → readers l' = 0%nat) →
  mutex_at c' = mutex_at c → (∀ e, private_at c' = Some e → private_at c = Some e) →
  pc_ok s (links <$> ls) c' →
  safe (set_locks (<[Z.to_nat i := l']> (bucket_locks s)) s) (<[t := Thread c' rest]> ts) ls.
Proof.
  intros Hl Hother Hr Hw Hx Hm Hp Hok. apply safe_update; try done.
  - apply (buckets_same_data s); [done|done|apply (safe_buckets _ _ _ Hsafe)].
  - cbn [bucket_locks set_locks]. by rewrite length_insert.
  - cbn [bucket_locks set_locks]. intros j lj Hlj.
    destruct (decide (j = i)) as [->|Hne].
    + rewrite (index_insert_eq _ _ _ _ Hl) in Hlj. injection Hlj as <-. eauto.
    + rewrite index_insert_ne in Hlj; [|by apply index_Some in Hl as [? _]|done].
      exists lj. split; [done|].
      destruct (Hother j Hne) as (? & ? & ? & ?). unfold holding.
      rewrite !decide_False by done.
      destruct (safe_locks _ _ _ Hsafe j lj Hlj) as (_ & _ & ?). done.
  - intros l0 n e _ _ He'. exists e. split; [done|]. unfold holding. by rewrite Hm.
  - intros e Hc'. left. by apply Hp.
Qed.

(** A call on the mutex of the entry at [a]. *)
Lemma safe_mutex_step a e m c' :
  heap s !! a = Some e →
  (∀ b, b ≠ a → mutex_at c ≠ Some b ∧ mutex_at c' ≠ Some b) →
  (Nat.b2n m + holding mutex_at a c = Nat.b2n (entry_mutex e) + holding mutex_at a c')%nat →
  (∃ l n, l ∈ ls ∧ n ∈ l ∧ node_addr n = a) →
  shared_at c' = shared_at c → exclusive_at c' = exclusive_at c →
  (∀ e, private_at c' = Some e → private_at c = Some e) →
  pc_ok s (links <$> ls) c' →
  safe (set_heap (alter (with_mutex m) a (heap s)) s) (<[t := Thread c' rest]> ts) ls.
Proof.
  intros Ha Hother Hm (l & n & Hl & Hn & Han) Hs He Hp Hok. apply safe_update; try done.
  - apply buckets_mutex, (safe_buckets _ _ _ Hsafe).
  - intros i li Hli. exists li. split; [done|]. unfold holding. rewrite Hs, He.
    destruct (safe_locks _ _ _ Hsafe i li Hli) as (_ & _ & ?). done.
  - cbn [heap set_heap]. intros l0 n0 e' Hl0 Hn0 He'.
    destruct (decide (node_addr n0 = a)) as [Heq|Hne].
    + rewrite Heq in *. rewrite lookup_alter_eq, Ha in He'. injection He' as <-. eauto.
    + rewrite lookup_alter_ne in He' by done. exists e'. split; [done|].
      destruct (Hother _ Hne) as [? ?]. unfold holding. by rewrite !decide_False.
  - intros e0 Hc'. left. by apply Hp.
  - cbn [heap set_heap]. intros e0 x Hun Hx _. rewrite lookup_alter_ne; [done|].
    intros <-. by apply (unlinked_ne ls a l n).
  - eapply pc_ok_frame; [| | | |exact Hok]; try done.
    cbn [heap set_heap]. intros e0 x Hpc' Hx. rewrite lookup_alter_ne; [done|].
    intros <-. destruct (pc_ok_private _ _ _ _ Hok Hpc') as [Hun _].
    by apply (unlinked_ne ls a l n).
Qed.

(** [a->val = v] on an entry of a chain. *)
Lemma safe_store_step a v c' :
  (∃ l n, l ∈ ls ∧ n ∈ l ∧ node_addr n = a) →
  shared_at c' = shared_at c → exclusive_at c' = exclusive_at c →
  mutex_at c' = mutex_at c → (∀ e, private_at c' = Some e → private_at c = Some e) →
  pc_ok s (links <$> ls) c' →
  safe (set_heap (alter (with_val v) a (heap s)) s) (<[t := Thread c' rest]> ts)
       (chain_store a v <$> ls).
Proof.
  intros (l & n & Hl & Hn & Han) Hs He Hm Hp Hok.
  assert (links <$> (chain_store a v <$> ls) = links <$> ls) as HK.
  { rewrite <- list_fmap_compose. apply list_fmap_ext. intros i l0 _. apply links_store. }
  apply safe_update; try done.
  - apply buckets_store, (safe_buckets _ _ _ Hsafe).
  - intros i li Hli. exists li. split; [done|]. unfold holding. rewrite Hs, He.
    destruct (safe_locks _ _ _ Hsafe i li Hli) as (_ & _ & ?). done.
  - cbn [heap set_heap]. intros l0 n0 e' Hl0 Hn0 He'. unfold holding. rewrite Hm.
    destruct (decide (node_addr n0 = a)) as [Heq|Hne].
    + rewrite Heq in *. rewrite lookup_alter_eq in He'.
      destruct (heap s !! a) as [e|]; [|done]. injection He' as <-. eauto.
    + rewrite lookup_alter_ne in He' by done. eauto.
  - intros e0 Hc'. left. by apply Hp.
  - cbn [heap set_heap]. intros e0 x Hun Hx _. rewrite lookup_alter_ne; [done|].
    intros <-. by apply (unlinked_ne ls a l n).
  - rewrite HK. eapply pc_ok_frame; [| | | |exact Hok]; try done.
    cbn [heap set_heap]. intros e0 x Hpc' Hx. rewrite lookup_alter_ne; [done|].
    intros <-. destruct (pc_ok_private _ _ _ _ Hok Hpc') as [Hun _].
    by apply (unlinked_ne ls a l n).
Qed.

(** Writing a block that is in no chain: one [malloc] has just returned,
    or the thread's own unfinished block. *)
Lemma safe_write_step e x c' :
  unlinked (links <$> ls) e →
  heap s !! e = None ∨ private_at c = Some e →
  shared_at c' = shared_at c → exclusive_at c' = exclusive_at c →
  mutex_at c' = mutex_at c →
  (∀ e', private_at c' = Some e' → e' = e ∨ private_at c = Some e') →
  pc_ok (set_heap (<[e := x]> (heap s)) s) (links <$> ls) c' →
  safe (set_heap (<[e := x]> (heap s)) s) (<[t := Thread c' rest]> ts) ls.
Proof.
  intros Hun Hmine Hs He Hm Hp Hok. apply safe_update; try done.
  - apply buckets_unlinked_write; [by apply unlinked_links|apply (safe_buckets _ _ _ Hsafe)].
  - intros i li Hli. exists li. split; [done|]. unfold holding. rewrite Hs, He.
    destruct (safe_locks _ _ _ Hsafe i li Hli) as (_ & _ & ?). done.
  - cbn [heap set_heap]. intros l0 n0 e' Hl0 Hn0 He'. unfold holding. rewrite Hm.
    rewrite lookup_insert_ne in He'
      by (intros Heq; by apply (unlinked_ne ls e l0 n0 Hun Hl0 Hn0)).
    eauto.
  - intros e' Hc'. destruct (Hp e' Hc') as [->|?]; [|by left].
    destruct Hmine; [by right|by left].
  - cbn [heap set_heap]. intros e0 x0 _ Hx Hne. rewrite lookup_insert_ne; [done|].
    intros <-. destruct Hmine; congruence.
Qed.
End SafeUpdate.

Section Publish.
Import Interleaving Threads.
Variables (s : process rwlock bool) (ts : list thread) (ls : list (list node)).
Hypothesis Hsafe : safe s ts ls.
Variables (t : nat) (k v : Z) (e : positive) (rest : list call).
Hypothesis Ht : ts !! t = Some (Thread (I_publish k v e) rest).

(** [table[i] = e]: the new entry becomes the head of its chain. *)
Lemma safe_publish_step l :
  index ls (slot k) = Some l →
  safe (set_table (<[Z.to_nat (slot k) := Some e]> (table s)) s)
       (<[t := Thread (I_unlock_linked k v) rest]> ts)
       (<[Z.to_nat (slot k) := Node e k v :: l]> ls).
Proof.
  intros Hl. pose proof (safe_buckets _ _ _ Hsafe) as Hb.
  destruct (safe_threads _ _ _ Hsafe t _ Ht) as [Hok Htodo]. cbn [at_pc pc_ok todo] in Hok, Htodo.
  destruct Hok as (Hk & (lk & Hlk & Hout) & Hun & q & Hq & He).
  apply index_links in Hlk as (l' & Hl' & ->). rewrite Hl in Hl'. injection Hl' as <-.
  rewrite links_key in Hout.
  pose proof Hl as [Hk0 Hl']%index_Some.
  assert (∀ l0, l0 ∈ <[Z.to_nat (slot k) := Node e k v :: l]> ls →
                l0 = Node e k v :: l ∨ l0 ∈ ls) as Hin.
  { intros l0 [i Hi]%list_elem_of_lookup.
    destruct (decide (i = Z.to_nat (slot k))) as [->|Hne].
    - rewrite list_lookup_insert_eq in Hi by (by eapply lookup_lt_Some). left. congruence.
    - rewrite list_lookup_insert_ne in Hi by done. right. by eapply list_elem_of_lookup_2. }
  assert (links <$> <[Z.to_nat (slot k) := Node e k v :: l]> ls
          = <[Z.to_nat (slot k) := (e, k) :: links l]> (links <$> ls)) as HK.
  { by rewrite list_fmap_insert. }
  split.
  - by apply (buckets_publish s ls k v q l e false); [..|apply unlinked_links|].
  - intros l0 [->|Hl0]%Hin; [|by apply (safe_keys _ _ _ Hsafe)].
    rewrite fmap_cons. by constructor; [|apply (safe_keys _ _ _ Hsafe l), (list_elem_of_lookup_2 _ _ _ Hl')].
  - apply (safe_locks_length _ _ _ Hsafe).
  - cbn [bucket_locks set_table]. intros i li Hli.
    destruct (safe_locks _ _ _ Hsafe i li Hli) as (Hr & Hw & Hx).
    split; [|split; [|done]].
    + by rewrite (holders_same shared_at i ts t _ _ Ht).
    + by rewrite (holders_same exclusive_at i ts t _ _ Ht).
  - cbn [heap set_table]. intros l0 n e0 [->|Hl0]%Hin Hn He0.
    + apply elem_of_cons in Hn as [->|Hn].
      * cbn [node_addr] in *. rewrite He in He0. injection He0 as <-. cbn [entry_mutex Nat.b2n].
        symmetry. apply holders_zero. intros t' th' Ht' Hm.
        destruct (decide (t' = t)) as [->|Hne].
        { rewrite list_lookup_insert_eq in Ht' by (by eapply lookup_lt_Some).
          by injection Ht' as <-. }
        rewrite list_lookup_insert_ne in Ht' by done.
        destruct (safe_threads _ _ _ Hsafe t' th' Ht') as [Hok' _].
        destruct (pc_ok_mutex _ _ _ _ Hok' Hm) as (l1 & n1 & Hl1 & Hn1 & Ha1).
        by apply (unlinked_ne ls e l1 n1).
      * rewrite (holders_same mutex_at _ ts t _ _ Ht) by done.
        apply (safe_mutexes _ _ _ Hsafe l n e0); [|done|done].
        by apply (list_elem_of_lookup_2 _ _ _ Hl').
    + rewrite (holders_same mutex_at _ ts t _ _ Ht) by done.
      by apply (safe_mutexes _ _ _ Hsafe l0 n e0).
  - intros e0. pose proof (holders_insert private_at e0 ts t _ (Thread (I_unlock_linked k v) rest) Ht) as Hh.
    pose proof (safe_private _ _ _ Hsafe e0). unfold holding in Hh. cbn [at_pc private_at] in Hh.
    rewrite (decide_False (P := None = Some e0)) in Hh by done. lia.
  - intros t' th' Ht'. destruct (decide (t' = t)) as [->|Hne].
    + rewrite list_lookup_insert_eq in Ht' by (by eapply lookup_lt_Some).
      injection Ht' as <-. split; [|done]. cbn [at_pc pc_ok]. split; [done|].
      exists ((e, k) :: links l). split.
      * rewrite HK. by eapply index_insert_eq, index_links; eauto.
      * rewrite fmap_cons. apply list_elem_of_here.
    + rewrite list_lookup_insert_ne in Ht' by done.
      destruct (safe_threads _ _ _ Hsafe t' th' Ht') as [Hok' Htodo']. split; [|done].
      destruct (other_section s ts ls Hsafe t _ rest Ht t' th' (slot k) Hne Ht' eq_refl)
        as [Hns Hne'].
      eapply pc_ok_frame; [| | | |exact Hok'].
      * cbn [table set_table]. intros i Hi. apply index_insert_ne; [done|congruence].
      * done.
      * intros i Hi. rewrite HK. apply index_insert_ne; [done|].
        destruct Hi; congruence.
      * intros e' Hp' Hun' K' HK'. rewrite HK in HK'.
        apply list_elem_of_lookup in HK' as [i Hi].
        destruct (decide (i = Z.to_nat (slot k))) as [->|Hnei].
        -- rewrite list_lookup_insert_eq in Hi
             by (rewrite length_fmap; by eapply lookup_lt_Some).
           injection Hi as <-. rewrite fmap_cons. cbn [fst].
           apply not_elem_of_cons. split.
           ++ intros ->. by eapply (other_private s ts ls Hsafe t _ rest Ht t' th' e).
           ++ apply Hun'. apply list_elem_of_fmap. exists l. split; [done|].
              by apply (list_elem_of_lookup_2 _ _ _ Hl').
        -- rewrite list_lookup_insert_ne in Hi by done. apply Hun'.
           by eapply list_elem_of_lookup_2.
Qed.
End Publish.

Section SafeStep.
Import Interleaving Threads.
Variable allocator : gset positive → ptr.
Hypothesis allocator_fresh : ∀ d a, allocator d = Some a → a ∉ d.
Variables (s : process rwlock bool) (ts : list thread) (ls : list (list node)).
Hypothesis Hsafe : safe s ts ls.
Variables (t : nat) (c : pc) (rest : list call).
Hypothesis Ht : ts !! t = Some (Thread c rest).

Lemma grows_refl c0 ls0 : grows c0 ls0 ls0.
Proof. split; [done|]. split; [|by left]. intros l n Hl Hn. left. eauto. Qed.

Lemma holding_None {A} `{EqDecision A} (f : pc → option A) x c0 :
  f c0 = None → holding f x c0 = 0%nat.
Proof. intros Hf. unfold holding. rewrite Hf. by rewrite decide_False. Qed.

Lemma holding_Some {A} `{EqDecision A} (f : pc → option A) x c0 :
  f c0 = Some x → holding f x c0 = 1%nat.
Proof. intros Hf. unfold holding. by rewrite decide_True. Qed.

Lemma rdlock_safe k c' :
  valid_key k →
  shared_at c = None → exclusive_at c = None →
  shared_at c' = Some (slot k) → exclusive_at c' = None →
  mutex_at c' = mutex_at c → (∀ e, private_at c' = Some e → private_at c = Some e) →
  pc_ok s (links <$> ls) c' →
  step_safe ls ts t c rest ((pthread_rwlock_rdlock (slot k);; mret c') s).
Proof.
  intros Hk Hs He Hs' He' Hm Hp Hok.
  destruct (valid_key_lock s k (safe_locks_length _ _ _ Hsafe) Hk) as [l Hl].
  unfold mbind, prog_bind, pthread_rwlock_rdlock. rewrite Hl.
  destruct (writer l) eqn:Hw; [done|]. exists ls. split; [|by apply grows_refl].
  apply (safe_lock_step s ts ls Hsafe t c rest Ht (slot k) l); try done.
  - intros j Hj. rewrite Hs, He, Hs', He'. repeat split; congruence.
  - rewrite (holding_None _ _ _ Hs), (holding_Some _ _ _ Hs'). simpl. lia.
  - rewrite (holding_None _ _ _ He), (holding_None _ _ _ He'), Hw. done.
Qed.

Lemma wrlock_safe k c' :
  valid_key k →
  shared_at c = None → exclusive_at c = None →
  shared_at c' = None → exclusive_at c' = Some (slot k) →
  mutex_at c' = mutex_at c → (∀ e, private_at c' = Some e → private_at c = Some e) →
  pc_ok s (links <$> ls) c' →
  step_safe ls ts t c rest ((pthread_rwlock_wrlock (slot k);; mret c') s).
Proof.
  intros Hk Hs He Hs' He' Hm Hp Hok.
  destruct (valid_key_lock s k (safe_locks_length _ _ _ Hsafe) Hk) as [l Hl].
  unfold mbind, prog_bind, pthread_rwlock_wrlock. rewrite Hl.
  destruct (writer l) eqn:Hw; [done|]. destruct (readers l) as [|r] eqn:Hr; [|done].
  exists ls. split; [|by apply grows_refl].
  apply (safe_lock_step s ts ls Hsafe t c rest Ht (slot k) l); try done.
  - intros j Hj. rewrite Hs, He, Hs', He'. repeat split; congruence.
  - rewrite (holding_None _ _ _ Hs), (holding_None _ _ _ Hs'), Hr. done.
  - rewrite (holding_None _ _ _ He), (holding_Some _ _ _ He'), Hw. done.
Qed.

Lemma unlock_safe k c' :
  valid_key k →
  (shared_at c = Some (slot k) ∧ exclusive_at c = None) ∨
  (shared_at c = None ∧ exclusive_at c = Some (slot k)) →
  shared_at c' = None → exclusive_at c' = None →
  mutex_at c' = mutex_at c → (∀ e, private_at c' = Some e → private_at c = Some e) →
  pc_ok s (links <$> ls) c' →
  step_safe ls ts t c rest ((pthread_rwlock_unlock (slot k);; mret c') s).
Proof.
  intros Hk Hmode Hs' He' Hm Hp Hok.
  destruct (valid_key_lock s k (safe_locks_length _ _ _ Hsafe) Hk) as [l Hl].
  destruct (safe_locks _ _ _ Hsafe _ _ Hl) as (Hr & Hw & Hx).
  unfold mbind, prog_bind, pthread_rwlock_unlock. rewrite Hl.
  destruct Hmode as [[Hs He]|[Hs He]].
  - pose proof (holders_pos shared_at (slot k) ts t _ Ht Hs) as Hpos.
    destruct (writer l) eqn:Hwl; [specialize (Hx eq_refl); lia|].
    destruct (readers l) as [|r] eqn:Hrl; [lia|]. exists ls. split; [|by apply grows_refl].
    apply (safe_lock_step s ts ls Hsafe t c rest Ht (slot k) l); try done.
    + intros j Hj. rewrite Hs, He, Hs', He'. repeat split; congruence.
    + rewrite (holding_Some _ _ _ Hs), (holding_None _ _ _ Hs'), Hrl. simpl. lia.
    + rewrite (holding_None _ _ _ He), (holding_None _ _ _ He'), Hwl. done.
  - pose proof (holders_pos exclusive_at (slot k) ts t _ Ht He) as Hpos.
    destruct (writer l) eqn:Hwl; [|simpl in Hw; lia]. exists ls. split; [|by apply grows_refl].
    apply (safe_lock_step s ts ls Hsafe t c rest Ht (slot k) l); try done.
    + intros j Hj. rewrite Hs, He, Hs', He'. repeat split; congruence.
    + rewrite (holding_None _ _ _ Hs), (holding_None _ _ _ Hs'). done.
    + rewrite (holding_Some _ _ _ He), (holding_None _ _ _ He'), Hwl. done.
Qed.

Lemma mutex_lock_safe k a c' :
  entry_at (links <$> ls) k a →
  mutex_at c = None → mutex_at c' = Some a →
  shared_at c' = shared_at c → exclusive_at c' = exclusive_at c →
  (∀ e, private_at c' = Some e → private_at c = Some e) →
  pc_ok s (links <$> ls) c' →
  step_safe ls ts t c rest ((TwoLevel.pthread_mutex_lock a;; mret c') s).
Proof.
  intros Hen Hm Hm' Hs He Hp Hok.
  destruct (entry_at_node s ls k a (safe_buckets _ _ _ Hsafe) Hen)
    as (l & n & e & _ & Hl & Hn & Ha & _ & Hea & _).
  unfold mbind, prog_bind, TwoLevel.pthread_mutex_lock. rewrite Hea.
  destruct (entry_mutex e) eqn:Hme; [done|]. exists ls. split; [|by apply grows_refl].
  apply (safe_mutex_step s ts ls Hsafe t c rest Ht a e); try done.
  - intros b Hb. rewrite Hm, Hm'. split; congruence.
  - rewrite (holding_None _ _ _ Hm), (holding_Some _ _ _ Hm'), Hme. done.
  - eauto.
Qed.

Lemma mutex_unlock_safe k a c' :
  entry_at (links <$> ls) k a →
  mutex_at c = Some a → mutex_at c' = None →
  shared_at c' = shared_at c → exclusive_at c' = exclusive_at c →
  (∀ e, private_at c' = Some e → private_at c = Some e) →
  pc_ok s (links <$> ls) c' →
  step_safe ls ts t c rest ((TwoLevel.pthread_mutex_unlock a;; mret c') s).
Proof.
  intros Hen Hm Hm' Hs He Hp Hok.
  destruct (entry_at_node s ls k a (safe_buckets _ _ _ Hsafe) Hen)
    as (l & n & e & _ & Hl & Hn & Ha & _ & Hea & _).
  unfold mbind, prog_bind, TwoLevel.pthread_mutex_unlock. rewrite Hea.
  pose proof (safe_mutexes _ _ _ Hsafe l n e Hl Hn) as Hcount. rewrite Ha in Hcount.
  specialize (Hcount Hea).
  pose proof (holders_pos mutex_at a ts t _ Ht Hm) as Hpos.
  destruct (entry_mutex e) eqn:Hme; [|simpl in Hcount; lia]. exists ls. split; [|by apply grows_refl].
  apply (safe_mutex_step s ts ls Hsafe t c rest Ht a e); try done.
  - intros b Hb. rewrite Hm, Hm'. split; congruence.
  - rewrite (holding_Some _ _ _ Hm), (holding_None _ _ _ Hm'), Hme. done.
  - eauto.
Qed.
End SafeStep.

Section SafeSteps.
Import Interleaving Threads.
Variable allocator : gset positive → ptr.
Hypothesis allocator_fresh : ∀ d a, allocator d = Some a → a ∉ d.

Lemma grows_store (s : process rwlock bool) ls w k v a :
  buckets s ls → entry_at (links <$> ls) k a →
  grows (I_store w k v a) ls (chain_store a v <$> ls).
Proof.
  intros Hb Hen.
  assert (links <$> (chain_store a v <$> ls) = links <$> ls) as HK.
  { rewrite <- list_fmap_compose. apply list_fmap_ext. intros i l0 _. apply links_store. }
  split; [by rewrite HK|]. split; [|by left].
  - intros l' n (l & -> & Hl)%list_elem_of_fmap Hn.
    unfold chain_store in Hn. apply list_elem_of_fmap in Hn as (n0 & -> & Hn0).
    case_decide as Ha; [|left; eauto]. right. cbn [inserting node_key node_val].
    destruct (entry_at_node s ls k a Hb Hen) as (l1 & n1 & e & _ & Hl1 & Hn1 & Ha1 & Hk1 & _).
    apply list_elem_of_lookup in Hl as [i Hi]. apply list_elem_of_lookup in Hl1 as [i1 Hi1].
    destruct (buckets_addr_unique s ls i i1 l l1 n0 n1 Hb Hi Hi1 Hn0 Hn1) as [_ Hkey];
      [congruence|]. congruence.
Qed.

Lemma grows_publish ls k v e l :
  index ls (slot k) = Some l →
  grows (I_publish k v e) ls (<[Z.to_nat (slot k) := Node e k v :: l]> ls).
Proof.
  intros Hl. pose proof Hl as [Hk0 Hl']%index_Some. split; [|split].
  - intros k0 (lk & (l0 & Hl0 & ->)%index_links & Hin).
    destruct (decide (slot k0 = slot k)) as [Heq|Hne].
    + rewrite Heq in *. rewrite Hl in Hl0. injection Hl0 as <-.
      exists (links (Node e k v :: l)). split.
      * apply index_links. exists (Node e k v :: l). split; [|done].
        rewrite Heq. by eapply index_insert_eq.
      * unfold links at 1. rewrite fmap_cons, fmap_cons. by apply list_elem_of_further.
    + exists (links l0). split; [|done]. apply index_links. exists l0. split; [|done].
      by rewrite index_insert_ne.
  - intros l' n [i Hi]%list_elem_of_lookup Hn.
    destruct (decide (i = Z.to_nat (slot k))) as [->|Hne].
    + rewrite list_lookup_insert_eq in Hi by (by eapply lookup_lt_Some).
      injection Hi as <-. apply elem_of_cons in Hn as [->|Hn]; [by right|].
      left. exists l. split; [|done]. by eapply list_elem_of_lookup_2.
    + rewrite list_lookup_insert_ne in Hi by done. left. exists l'. split; [|done].
      by eapply list_elem_of_lookup_2.
  - right. exists k, v, e. split; [done|]. intros i Hi.
    rewrite list_fmap_insert. by apply index_insert_ne.
Qed.

Ltac same_mode :=
  try first [done | by intros ? [=] | by match goal with w : scan |- _ => destruct w end
            | by split].

(** Whatever thread takes the next step, the invariant holds after it. *)
Lemma safe_step s ts ls t c rest :
  safe s ts ls → ts !! t = Some (Thread c rest) →
  step_safe ls ts t c rest (step_of allocator c s).
Proof.
  intros Hsafe Ht. destruct (safe_threads _ _ _ Hsafe t _ Ht) as [Hok _].
  pose proof (safe_buckets _ _ _ Hsafe) as Hb. cbn [at_pc] in Hok.
  destruct c as [ |k v|w k v|w k v cur|w k v a|w k v a|w k v a|w k v|k v|k v|k v|k v|
                  |k v e|k v e|k v|k|k|k cur|k a|k a|k a|k| |k a e|k a e|k e|k];
    cbn [step_of pc_ok] in *.
  - (* Idle *) done.
  - (* I_rdlock *)
    by apply (rdlock_safe s ts ls Hsafe t _ rest Ht).
  - (* I_head *)
    destruct (at_cursor_head s ls k w Hb Hok) as (p & Hp & Hcur).
    unfold mbind, prog_bind, get_table. rewrite Hp. exists ls. split; [|by apply grows_refl].
    apply (safe_pure s ts ls Hsafe t _ rest Ht); same_mode.
  - (* I_test *)
    destruct Hok as [Hk Hcur]. destruct cur as [a|].
    + destruct (at_cursor_step s ls k a w Hb Hcur) as (e & He & Hhit & Hmiss).
      unfold mbind, prog_bind, load. rewrite He. exists ls. split; [|by apply grows_refl]. case_decide.
      * apply (safe_pure s ts ls Hsafe t _ rest Ht); same_mode. split; [done|]. by apply Hhit.
      * apply (safe_pure s ts ls Hsafe t _ rest Ht); same_mode. split; [done|]. by apply Hmiss.
    + exists ls. split; [|by apply grows_refl]. destruct w.
      * apply (safe_pure s ts ls Hsafe t _ rest Ht); same_mode. split; [done|].
        by apply at_cursor_end.
      * apply (safe_pure s ts ls Hsafe t _ rest Ht); same_mode.
  - (* I_mutex_lock *)
    destruct Hok as [Hk Hen].
    apply (mutex_lock_safe s ts ls Hsafe t _ rest Ht k); same_mode.
  - (* I_store *)
    destruct Hok as [Hk Hen].
    destruct (entry_at_node s ls k a Hb Hen) as (l & n & e & _ & Hl & Hn & Ha & _ & Hea & _).
    unfold mbind, prog_bind, store_val. rewrite Hea. exists (chain_store a v <$> ls).
    split; [|by eapply grows_store].
    apply (safe_store_step s ts ls Hsafe t _ rest Ht); same_mode. eauto.
  - (* I_mutex_unlock *)
    destruct Hok as [Hk Hen].
    apply (mutex_unlock_safe s ts ls Hsafe t _ rest Ht k); same_mode.
    split; [done|]. by eapply entry_at_key_in.
  - (* I_unlock_found *)
    destruct Hok as [Hk _].
    apply (unlock_safe s ts ls Hsafe t _ rest Ht); same_mode. destruct w; auto.
  - (* I_unlock_shared *)
    apply (unlock_safe s ts ls Hsafe t _ rest Ht); same_mode. auto.
  - (* I_wrlock *)
    by apply (wrlock_safe s ts ls Hsafe t _ rest Ht).
  - (* I_malloc *)
    destruct Hok as [Hk Hout]. unfold mbind, prog_bind, malloc.
    destruct (allocator (dom (heap s))) as [e|] eqn:Hal.
    + assert (heap s !! e = None) as He.
      { apply not_elem_of_dom. by apply allocator_fresh. }
      exists ls. split; [|by apply grows_refl]. apply (safe_write_step s ts ls Hsafe t _ rest Ht); same_mode.
      * by eapply unlinked_fresh.
      * by left.
      * intros e' [= <-]. by left.
      * cbn [pc_ok heap set_heap]. split; [done|]. split; [done|].
        split; [by eapply unlinked_fresh|]. exists None. apply lookup_insert_eq.
    + exists ls. split; [|by apply grows_refl]. apply (safe_pure s ts ls Hsafe t _ rest Ht); same_mode.
  - (* I_unlock_failed *)
    apply (unlock_safe s ts ls Hsafe t _ rest Ht); same_mode. auto.
  - (* I_panic *) done.
  - (* I_set_next *)
    destruct Hok as (Hk & Hout & Hun & q & He).
    destruct (valid_key_bucket s ls k Hb Hk) as (p & l & Hp & _).
    unfold mbind, prog_bind, get_table, set_next. rewrite Hp, He. exists ls. split; [|by apply grows_refl].
    apply (safe_write_step s ts ls Hsafe t _ rest Ht); same_mode.
    + by right.
    + intros e' [= <-]. by left.
    + cbn [pc_ok heap table set_heap key val entry_mutex]. split; [done|]. split; [done|].
      split; [done|]. exists p. split; [done|]. apply lookup_insert_eq.
  - (* I_publish *)
    destruct Hok as (Hk & Hout & Hun & q & Hq & He).
    destruct (valid_key_bucket s ls k Hb Hk) as (p & l & Hp & Hl & _).
    unfold mbind, prog_bind, put_table. rewrite Hq.
    exists (<[Z.to_nat (slot k) := Node e k v :: l]> ls).
    split; [by apply (safe_publish_step s ts ls Hsafe t k v e rest Ht)|].
    by apply grows_publish.
  - (* I_unlock_linked *)
    destruct Hok as [Hk _].
    apply (unlock_safe s ts ls Hsafe t _ rest Ht); same_mode. auto.
  - (* R_rdlock *)
    by apply (rdlock_safe s ts ls Hsafe t _ rest Ht).
  - (* R_head *)
    destruct (at_cursor_head s ls k false Hb Hok) as (p & Hp & Hcur).
    unfold mbind, prog_bind, get_table. rewrite Hp. exists ls. split; [|by apply grows_refl].
    apply (safe_pure s ts ls Hsafe t _ rest Ht); same_mode.
  - (* R_test *)
    destruct Hok as [Hk Hcur]. destruct cur as [a|].
    + destruct (at_cursor_step s ls k a false Hb Hcur) as (e & He & Hhit & Hmiss).
      unfold mbind, prog_bind, load. rewrite He. exists ls. split; [|by apply grows_refl]. case_decide.
      * apply (safe_pure s ts ls Hsafe t _ rest Ht); same_mode. split; [done|]. by apply Hhit.
      * apply (safe_pure s ts ls Hsafe t _ rest Ht); same_mode. split; [done|]. by apply Hmiss.
    + exists ls. split; [|by apply grows_refl]. apply (safe_pure s ts ls Hsafe t _ rest Ht); same_mode.
  - (* R_mutex_lock *)
    destruct Hok as [Hk Hen].
    apply (mutex_lock_safe s ts ls Hsafe t _ rest Ht k); same_mode.
  - (* R_malloc *)
    destruct Hok as [Hk Hen]. unfold mbind, prog_bind, malloc.
    destruct (allocator (dom (heap s))) as [e|] eqn:Hal.
    + assert (heap s !! e = None) as He.
      { apply not_elem_of_dom. by apply allocator_fresh. }
      exists ls. split; [|by apply grows_refl]. apply (safe_write_step s ts ls Hsafe t _ rest Ht); same_mode.
      * by eapply unlinked_fresh.
      * by left.
      * intros e' [= <-]. by left.
      * cbn [pc_ok heap set_heap]. split; [done|]. split; [done|].
        split; [by eapply unlinked_fresh|]. rewrite lookup_insert_eq. by eexists.
    + exists ls. split; [|by apply grows_refl]. apply (safe_pure s ts ls Hsafe t _ rest Ht); same_mode.
  - (* R_mutex_unlock_failed *)
    destruct Hok as [Hk Hen].
    apply (mutex_unlock_safe s ts ls Hsafe t _ rest Ht k); same_mode.
  - (* R_unlock_failed *)
    apply (unlock_safe s ts ls Hsafe t _ rest Ht); same_mode. auto.
  - (* R_panic *) done.
  - (* R_copy *)
    destruct Hok as (Hk & Hen & Hun & Hlive).
    destruct (entry_at_node s ls k a Hb Hen) as (l & n & x & _ & Hl & Hn & Ha & _ & Hea & _).
    unfold mbind, prog_bind, load. rewrite Hea. exists ls. split; [|by apply grows_refl].
    apply (safe_write_step s ts ls Hsafe t _ rest Ht); same_mode. by right.
  - (* R_mutex_unlock *)
    destruct Hok as [Hk Hen].
    apply (mutex_unlock_safe s ts ls Hsafe t _ rest Ht k); same_mode.
  - (* R_unlock_found *)
    apply (unlock_safe s ts ls Hsafe t _ rest Ht); same_mode. auto.
  - (* R_unlock_missing *)
    apply (unlock_safe s ts ls Hsafe t _ rest Ht); same_mode. auto.
Qed.
End SafeSteps.

Section MachineSafe.
Import Interleaving Threads.
Variable allocator : gset positive → ptr.
Hypothesis allocator_fresh : ∀ d a, allocator d = Some a → a ∉ d.
Implicit Types (s : process rwlock bool) (ts : list thread) (ls : list (list node)).

(** A thread that starts its next call. *)
Lemma safe_enter s ts ls t call rest :
  safe s ts ls → ts !! t = Some (Thread Idle (call :: rest)) →
  safe s (<[t := Thread (enter call) rest]> ts) ls.
Proof.
  intros Hsafe Ht. destruct (safe_threads _ _ _ Hsafe t _ Ht) as [_ Htodo].
  cbn [todo] in Htodo. apply Forall_cons in Htodo as [Hcall Hrest].
  assert (∀ {A} `{EqDecision A} (f : pc → option A) x,
            f (enter call) = None → f Idle = None →
            holders f x (<[t := Thread (enter call) rest]> ts) = holders f x ts) as Hsame.
  { intros A ? f x H1 H2. apply (holders_same f x ts t _ _ Ht). cbn [at_pc]. congruence. }
  split.
  - apply (safe_buckets _ _ _ Hsafe).
  - apply (safe_keys _ _ _ Hsafe).
  - apply (safe_locks_length _ _ _ Hsafe).
  - intros i l Hl. destruct (safe_locks _ _ _ Hsafe i l Hl) as (Hr & Hw & Hx).
    split; [|split; [|done]]; rewrite Hsame; by destruct call.
  - intros l n e Hl Hn He. rewrite Hsame by (by destruct call).
    by apply (safe_mutexes _ _ _ Hsafe l n e).
  - intros e. rewrite Hsame by (by destruct call). apply (safe_private _ _ _ Hsafe).
  - intros t' th' Ht'. destruct (decide (t' = t)) as [->|Hne].
    + rewrite list_lookup_insert_eq in Ht' by (by eapply lookup_lt_Some).
      injection Ht' as <-. split; [|done]. by destruct call.
    + rewrite list_lookup_insert_ne in Ht' by done. by apply (safe_threads _ _ _ Hsafe t').
Qed.

(** Where a step leaves the thread: in the same [insert], on its way to
    [exit], or back from a call; and an [insert] only returns once its
    key is in the table. *)
Lemma step_of_inserting s K c c' s' :
  pc_ok s K c → step_of allocator c s = Return c' s' →
  inserting c' = inserting c ∨ c' = I_panic ∨
  (c' = Idle ∧ ∀ k v, inserting c = Some (k, v) → key_in K k).
Proof.
  intros Hok Hstep.
  destruct c; cbn [step_of pc_ok] in *;
    unfold mbind, prog_bind, mret, prog_ret, hang, panic, malloc in Hstep;
    repeat case_match; simplify_eq; cbn [inserting]; auto;
    right; right; (split; [done|]); intros ? ? [= <- <-]; tauto.
Qed.

Lemma follows_mono K K' todo0 th :
  (∀ k, key_in K k → key_in K' k) → follows K todo0 th → follows K' todo0 th.
Proof.
  intros Hmono (H1 & H2 & H3). split; [done|]. split; [done|].
  intros k v Hin. destruct (H3 k v Hin) as [?|[?|[?|?]]]; auto.
Qed.

Lemma history_update ls0 ts0 ts ls ls' t th th' :
  history ls0 ts0 ts ls → ts !! t = Some th →
  grows (at_pc th) ls ls' →
  (∀ todo0, follows (links <$> ls) todo0 th → follows (links <$> ls') todo0 th') →
  history ls0 ts0 (<[t := th']> ts) ls'.
Proof.
  intros [Hkept Horigin Hfollows] Ht (Hmono & Hnew & _) Hth. split.
  - intros k Hk. by apply Hmono, Hkept.
  - intros l' n Hl' Hn. destruct (Hnew l' n Hl' Hn) as [(l & Hl & Hnl)|Hins].
    + by apply (Horigin l n).
    + right. destruct (Forall2_lookup_r _ _ _ _ _ Hfollows Ht) as (th0 & Ht0 & _ & Hcur & _).
      exists th0. split; [by eapply list_elem_of_lookup_2|]. by apply Hcur.
  - destruct (Forall2_lookup_r _ _ _ _ _ Hfollows Ht) as (th0 & Ht0 & Hf).
    rewrite <- (list_insert_id ts0 t th0 Ht0). apply Forall2_insert; [|by apply Hth].
    eapply Forall2_impl; [exact Hfollows|]. intros th1 th2. by apply follows_mono.
Qed.

(** One step of the process. *)
Lemma machine_safe_step ls0 ts0 m t m' :
  machine_safe ls0 ts0 m → step allocator m t = Some m' → machine_safe ls0 ts0 m'.
Proof.
  destruct m as [s ts| |]; [|done|done]. intros (ls & Hsafe & Hhist) Hstep.
  destruct (step_cases allocator s ts t m' Hstep) as (c & rest & Ht & Hcases).
  destruct (safe_threads _ _ _ Hsafe t _ Ht) as [Hok _]. cbn [at_pc] in Hok.
  destruct Hcases as [(call & rest' & -> & -> & ->)|[(c' & s' & Hc & ->)|
                      [(status & s' & Hc & ->)|[Hc ->]]]].
  - exists ls. split; [by apply safe_enter|].
    apply (history_update ls0 ts0 ts ls ls t _ _ Hhist Ht); [by apply grows_refl|].
    intros todo0 (H1 & H2 & H3). unfold follows. cbn [todo at_pc] in *. split; [|split].
    + intros c Hc. apply H1. by apply list_elem_of_further.
    + intros k v Hin. apply H1. destruct call; [|done]. injection Hin as -> ->.
      apply list_elem_of_here.
    + intros k v Hin. destruct (H3 k v Hin) as [[<-|?]%elem_of_cons|[?|[?|?]]];
        [by right; left|by left|done|by right; right; left|done].
  - pose proof (safe_step allocator allocator_fresh s ts ls t c rest Hsafe Ht) as Hs.
    rewrite Hc in Hs. destruct Hs as (ls' & Hsafe' & Hgrows).
    exists ls'. split; [done|].
    apply (history_update ls0 ts0 ts ls ls' t _ _ Hhist Ht); [done|].
    intros todo0 (H1 & H2 & H3). unfold follows. cbn [todo at_pc] in *.
    destruct (step_of_inserting s (links <$> ls) c c' s' Hok Hc) as [Hi|[->|[-> Hi]]].
    + split; [done|]. split; [by rewrite Hi|]. intros k v Hin. rewrite Hi.
      destruct (H3 k v Hin) as [?|[?|[?| ->]]];
        [by left|by right; left|right; right; left; by apply Hgrows|done].
    + split; [done|]. split; [done|]. auto.
    + split; [done|]. split; [done|]. intros k v Hin.
      destruct (H3 k v Hin) as [?|[?|[?| ->]]];
        [by left|right; right; left|right; right; left; by apply Hgrows|done].
      apply Hgrows. by eapply Hi.
  - pose proof (safe_step allocator allocator_fresh s ts ls t c rest Hsafe Ht) as Hs.
    by rewrite Hc in Hs.
  - pose proof (safe_step allocator allocator_fresh s ts ls t c rest Hsafe Ht) as Hs.
    by rewrite Hc in Hs.
Qed.

Lemma machine_safe_run ls0 ts0 schedule : ∀ m,
  machine_safe ls0 ts0 m → machine_safe ls0 ts0 (run allocator schedule m).
Proof.
  induction schedule as [|t schedule IH]; intros m Hm; [done|].
  cbn [run]. destruct (step allocator m t) as [m'|] eqn:Hstep; [|by apply IH].
  apply IH. by eapply machine_safe_step.
Qed.
End MachineSafe.

Section MachineEnds.
Import Interleaving Threads.
Implicit Types (s : process rwlock bool) (ts : list thread) (ls : list (list node)).

Lemma key_in_table_find ls k :
  key_in (links <$> ls) k ↔ is_Some (table_find ls k).
Proof.
  unfold key_in, table_find. split.
  - intros (lk & (l & Hl & ->)%index_links & Hin). rewrite Hl. simpl.
    rewrite links_key in Hin. destruct (chain_find k l) eqn:Hfind; [by eauto|].
    by apply chain_find_keys in Hfind.
  - destruct (index ls (slot k)) as [l|] eqn:Hl; simpl; [|by intros [? ?]].
    intros [n Hfind]. exists (links l). split; [apply index_links; eauto|].
    rewrite links_key. destruct (chain_find_elem _ _ _ Hfind) as [Hn <-].
    apply list_elem_of_fmap. eauto.
Qed.

Lemma chain_find_NoDup l n :
  NoDup (node_key <$> l) → n ∈ l → chain_find (node_key n) l = Some n.
Proof.
  induction l as [|n0 l IH]; [by intros _ ?%elem_of_nil|].
  rewrite fmap_cons, NoDup_cons. intros [Hnin Hnd] [->|Hn]%elem_of_cons; simpl.
  - by rewrite decide_True.
  - rewrite decide_False; [by apply IH|]. intros Heq. apply Hnin. rewrite Heq.
    apply list_elem_of_fmap. eauto.
Qed.

Lemma table_find_elem {L M} (s : process L M) ls l n :
  buckets s ls → (∀ l, l ∈ ls → NoDup (node_key <$> l)) → l ∈ ls → n ∈ l →
  table_find ls (node_key n) = Some n.
Proof.
  intros Hb Hnd Hl Hn. pose proof Hl as [i Hi]%list_elem_of_lookup.
  pose proof (buckets_slot _ _ Hb i l n Hi Hn) as Hslot.
  unfold table_find. assert (index ls (slot (node_key n)) = Some l) as ->.
  { apply index_Some. rewrite Hslot, Nat2Z.id. split; [lia|done]. }
  simpl. apply chain_find_NoDup; [by apply Hnd|done].
Qed.

Lemma all_idle_holders {A} `{EqDecision A} (f : pc → option A) x ts :
  f Idle = None → Forall (λ th, at_pc th = Idle) ts → holders f x ts = 0%nat.
Proof.
  intros Hf Hall. apply holders_zero. intros t th Ht.
  rewrite Forall_forall in Hall. rewrite (Hall th) by (by eapply list_elem_of_lookup_2).
  by rewrite Hf.
Qed.

(** The invariant holds when the threads are started on a table at rest. *)
Lemma machine_safe_init s0 ls0 ts0 :
  consistent (RwLock 0 false) false s0 ls0 →
  Forall (λ th, at_pc th = Idle ∧ Forall valid_call (todo th)) ts0 →
  machine_safe ls0 ts0 (Running s0 ts0).
Proof.
  intros (Hb & [Hlk Hmx] & Hnd) Hts.
  assert (Forall (λ th, at_pc th = Idle) ts0) as Hidle.
  { eapply Forall_impl; [exact Hts|]. by intros th [? _]. }
  exists ls0. split; [split|split].
  - done.
  - done.
  - by rewrite Hlk, length_replicate.
  - intros i l. rewrite Hlk, index_replicate. case_decide; [|done]. intros [= <-].
    unfold lock_counts. by rewrite !all_idle_holders by done.
  - intros l n e Hl Hn He. rewrite all_idle_holders by done.
    by rewrite (Hmx l Hl n e Hn He).
  - intros e. rewrite all_idle_holders by done. lia.
  - intros t th Ht. rewrite Forall_forall in Hts.
    destruct (Hts th) as [-> ?]; [by eapply list_elem_of_lookup_2|]. done.
  - done.
  - intros l n Hl Hn. left. eauto.
  - apply Forall_Forall2_diag. eapply Forall_impl; [exact Hidle|].
    intros th Hth. unfold follows. rewrite Hth. split; [done|]. split; [done|]. auto.
Qed.

(** Once every thread has returned from its last call the table is at
    rest again. *)
Lemma safe_finished s ts ls :
  safe s ts ls → Forall finished ts → consistent (RwLock 0 false) false s ls.
Proof.
  intros Hsafe Hfin.
  assert (Forall (λ th, at_pc th = Idle) ts) as Hidle.
  { eapply Forall_impl; [exact Hfin|]. by intros th [? _]. }
  split; [apply (safe_buckets _ _ _ Hsafe)|]. split; [split|apply (safe_keys _ _ _ Hsafe)].
  - apply (list_eq_same_length _ _ (Z.to_nat NUM_BUCKETS));
      [by rewrite length_replicate|apply (safe_locks_length _ _ _ Hsafe)|].
    intros i l l' Hi Hl Hl'. apply lookup_replicate in Hl' as [-> _].
    destruct (safe_locks _ _ _ Hsafe (Z.of_nat i) l) as (Hr & Hw & _).
    { apply index_Some. rewrite Nat2Z.id. split; [lia|done]. }
    rewrite !all_idle_holders in * by done. destruct l as [r [|]]; simpl in *; [done|].
    by subst.
  - intros l Hl n e Hn He.
    pose proof (safe_mutexes _ _ _ Hsafe l n e Hl Hn He) as Hm.
    rewrite all_idle_holders in Hm by done. by destruct (entry_mutex e).
Qed.

(** And the key of every [insert] a thread was started with is in it. *)
Lemma history_finished ls0 ts0 ts ls th0 k v :
  history ls0 ts0 ts ls → Forall finished ts →
  th0 ∈ ts0 → Insert k v ∈ todo th0 → key_in (links <$> ls) k.
Proof.
  intros [_ _ Hfollows] Hfin [t Ht0]%list_elem_of_lookup Hin.
  destruct (Forall2_lookup_l _ _ _ _ _ Hfollows Ht0) as (th & Ht & _ & _ & Hdone).
  rewrite Forall_forall in Hfin. destruct (Hfin th) as [Hpc Htodo];
    [by eapply list_elem_of_lookup_2|].
  destruct (Hdone k v Hin) as [Hleft|[Hcur|[?|Hpanic]]]; [| |done|].
  - rewrite Htodo in Hleft. by apply elem_of_nil in Hleft.
  - by rewrite Hpc in Hcur.
  - by rewrite Hpc in Hpanic.
Qed.
End MachineEnds.

Section NoDeadlock.
Import Interleaving Threads.
Variable allocator : gset positive → ptr.
Implicit Types (s : process rwlock bool) (ts : list thread) (ls : list (list node)).

Lemma holders_pos_inv {A} `{EqDecision A} (f : pc → option A) x ts :
  (1 ≤ holders f x ts)%nat → ∃ t th, ts !! t = Some th ∧ f (at_pc th) = Some x.
Proof.
  induction ts as [|th ts IH]; [by unfold holders; simpl; lia|].
  rewrite holders_cons. unfold holding. case_decide as Hf.
  - intros _. by exists 0%nat, th.
  - intros Hpos. destruct IH as (t & th' & Ht & Hf'); [lia|]. by exists (S t), th'.
Qed.

(** A thread that is not idle and whose next statement does not wait can
    take its step. *)
Lemma step_enabled s ts t c rest :
  ts !! t = Some (Thread c rest) → c ≠ Idle → step_of allocator c s ≠ Hang →
  is_Some (step allocator (Running s ts) t).
Proof.
  intros Ht Hc Hhang. unfold step. rewrite Ht.
  destruct c; try done; destruct (step_of allocator _ s); by eauto.
Qed.

(** Why a statement waits: for the lock of a bucket that is held, by a
    thread that holds no lock itself; or for the mutex of an entry that
    is held, by a thread that holds no mutex. *)
Lemma step_of_waits s K c :
  pc_ok s K c → step_of allocator c s = Hang →
  c = Idle ∨
  (shared_at c = None ∧ exclusive_at c = None ∧ mutex_at c = None ∧
   ∃ k l, valid_key k ∧ index (bucket_locks s) (slot k) = Some l ∧
          (writer l = true ∨ readers l ≠ 0%nat)) ∨
  (mutex_at c = None ∧
   ∃ k a e, entry_at K k a ∧ heap s !! a = Some e ∧ entry_mutex e = true).
Proof.
  intros Hok Hstep.
  destruct c; cbn [step_of pc_ok shared_at exclusive_at mutex_at] in *;
    unfold mbind, prog_bind, mret, prog_ret, hang, panic, malloc, get_table, put_table, load,
      store_val, init_entry, set_next, pthread_rwlock_rdlock, pthread_rwlock_wrlock,
      pthread_rwlock_unlock, TwoLevel.pthread_mutex_lock, TwoLevel.pthread_mutex_unlock
      in Hstep;
    repeat case_match; simplify_eq; auto;
    try (right; left; repeat split; try done; eexists _, _; split; [eassumption|];
         split; [eassumption|]; auto; fail);
    try (right; right; split; [done|]; destruct Hok as [_ Hen];
         eexists _, _, _; split; [exact Hen|]; split; [eassumption|]; done).
  right. left. repeat split; try done. eexists _, _. split; [eassumption|].
  split; [eassumption|]. right. lia.
Qed.

Lemma mutex_holder_moves s ts ls t c rest a :
  safe s ts ls → ts !! t = Some (Thread c rest) → mutex_at c = Some a →
  is_Some (step allocator (Running s ts) t).
Proof.
  intros Hsafe Ht Hm. destruct (safe_threads _ _ _ Hsafe t _ Ht) as [Hok _].
  apply (step_enabled s ts t c rest Ht); [by intros ->|].
  intros Hhang. destruct (step_of_waits s _ c Hok Hhang) as [->|[(_ & _ & ? & _)|[? _]]];
    [done|congruence|congruence].
Qed.

Lemma held_mutex_moves s ts ls k a e :
  safe s ts ls → entry_at (links <$> ls) k a → heap s !! a = Some e →
  entry_mutex e = true → ∃ t, is_Some (step allocator (Running s ts) t).
Proof.
  intros Hsafe Hen He Hm.
  destruct (entry_at_node s ls k a (safe_buckets _ _ _ Hsafe) Hen)
    as (l & n & e' & _ & Hl & Hn & Ha & _ & He' & _).
  pose proof (safe_mutexes _ _ _ Hsafe l n e Hl Hn) as Hcount. rewrite Ha in Hcount.
  specialize (Hcount He). rewrite Hm in Hcount. simpl in Hcount.
  destruct (holders_pos_inv mutex_at a ts) as (t & [c rest] & Ht & Hc); [lia|].
  exists t. by eapply mutex_holder_moves.
Qed.

Lemma section_holder_moves s ts ls t c rest i :
  safe s ts ls → ts !! t = Some (Thread c rest) →
  shared_at c = Some i ∨ exclusive_at c = Some i →
  ∃ t', is_Some (step allocator (Running s ts) t').
Proof.
  intros Hsafe Ht Hsec. destruct (safe_threads _ _ _ Hsafe t _ Ht) as [Hok _].
  cbn [at_pc] in Hok.
  destruct (step_of allocator c s) eqn:Hstep.
  1-2,4: exists t; apply (step_enabled s ts t c rest Ht);
         [by intros ->; destruct Hsec|by rewrite Hstep].
  destruct (step_of_waits s _ c Hok Hstep)
    as [->|[(? & ? & _)|(_ & k & a & e & Hen & He & Hm)]].
  - by destruct Hsec.
  - destruct Hsec; congruence.
  - by eapply held_mutex_moves.
Qed.

Lemma not_all {A} (P : A → Prop) (l : list A) :
  (∀ x, P x ∨ ¬ P x) → Forall P l ∨ ∃ i x, l !! i = Some x ∧ ¬ P x.
Proof.
  intros Hdec. induction l as [|x l [IH|(i & y & Hi & Hy)]].
  - by left.
  - destruct (Hdec x) as [Hx|Hx]; [left; by constructor|].
    right. by exists 0%nat, x.
  - right. by exists (S i), y.
Qed.

(** No deadlock: unless every thread has finished, some thread can take
    a step. *)
Lemma safe_moves s ts ls :
  safe s ts ls →
  Forall finished ts ∨ ∃ t, is_Some (step allocator (Running s ts) t).
Proof.
  intros Hsafe. destruct (not_all finished ts finished_dec) as [?|(t & [c rest] & Ht & Hnot)];
    [by left|right].
  destruct (safe_threads _ _ _ Hsafe t _ Ht) as [Hok _]. cbn [at_pc] in Hok.
  assert (c = Idle ∨ c ≠ Idle) as [->|Hc] by (destruct c; auto).
  { exists t. unfold step. rewrite Ht. destruct rest; [|by eauto].
    by destruct Hnot. }
  destruct (step_of allocator c s) eqn:Hstep.
  1-2,4: exists t; apply (step_enabled s ts t c rest Ht); [done|by rewrite Hstep].
  destruct (step_of_waits s _ c Hok Hstep)
    as [->|[(_ & _ & _ & k & l & Hk & Hl & Hheld)|(_ & k & a & e & Hen & He & Hm)]].
  - done.
  - destruct (safe_locks _ _ _ Hsafe _ _ Hl) as (Hr & Hw & _).
    destruct Hheld as [Hwt|Hrd].
    + rewrite Hwt in Hw. simpl in Hw.
      destruct (holders_pos_inv exclusive_at (slot k) ts) as (t' & [c' rest'] & Ht' & Hc');
        [lia|]. eapply section_holder_moves; eauto.
    + destruct (holders_pos_inv shared_at (slot k) ts) as (t' & [c' rest'] & Ht' & Hc');
        [lia|]. eapply section_holder_moves; eauto.
  - by eapply held_mutex_moves.
Qed.
End NoDeadlock.

(** X9.  Any number of threads run [insert] and [retrieve] of the
    two-level file, each any calls with keys whose slot is an index of
    [table], on a table that was at rest, with a [malloc] that returns
    blocks not in use.  Whatever the schedule: no step is undefined (no
    access to a block that is not live, no unlock of a lock that is not
    held), and the only way out of the process is [exit(1)]; at every
    moment the chains are well-formed and hold no key twice, every bucket
    lock and entry mutex is held by exactly the threads between the lock
    and the unlock call, and every key that was in the table still is. *)
Theorem threads_never_go_wrong allocator s0 ls0 ts0 schedule :
  (∀ d a, allocator d = Some a → a ∉ d) →
  consistent (RwLock 0 false) false s0 ls0 →
  Forall (λ th, Interleaving.at_pc th = Interleaving.Idle ∧
                Forall Threads.valid_call (Interleaving.todo th)) ts0 →
  match Interleaving.run allocator schedule (Interleaving.Running s0 ts0) with
  | Interleaving.Running s ts =>
      ∃ ls, Threads.safe s ts ls ∧
            ∀ k, is_Some (table_find ls0 k) → is_Some (table_find ls k)
  | Interleaving.Exited status _ => status = 1
  | Interleaving.Crashed => False
  end.
Proof.
  intros Hfresh Hcons Hts.
  pose proof (machine_safe_run allocator Hfresh ls0 ts0 schedule _
                (machine_safe_init s0 ls0 ts0 Hcons Hts)) as Hrun.
  destruct (Interleaving.run allocator schedule (Interleaving.Running s0 ts0))
    as [s ts|status s|]; [|done|done].
  destruct Hrun as (ls & Hsafe & [Hkept _ _]). exists ls. split; [done|].
  intros k. rewrite <- !key_in_table_find. apply Hkept.
Qed.

Lemma threads_never_go_wrong_witness :
  match Interleaving.run bump [0; 1; 2; 2; 1; 0; 0; 1; 2; 1; 1; 0]%nat
          (Interleaving.Running (example_table two_level)
             [Interleaving.Thread Interleaving.Idle
                [Interleaving.Insert 8 1; Interleaving.Retrieve 6];
              Interleaving.Thread Interleaving.Idle
                [Interleaving.Insert 6 2; Interleaving.Insert 8 3];
              Interleaving.Thread Interleaving.Idle [Interleaving.Retrieve 8]]) with
  | Interleaving.Running s ts =>
      ∃ ls, Threads.safe s ts ls ∧
            ∀ k, is_Some (table_find example_chains k) → is_Some (table_find ls k)
  | Interleaving.Exited status _ => status = 1
  | Interleaving.Crashed => False
  end.
Proof.
  apply (threads_never_go_wrong bump (example_table two_level) example_chains).
  - apply bump_fresh.
  - apply (example_table_consistent two_level).
  - repeat constructor; by vm_compute.
Defined.

(** X10.  In the same setting: once every thread has returned from its
    last call, the table is at rest again, with every lock and mutex
    released; it holds exactly the keys it held at the start and the keys
    of the [insert] calls, each once; and the value of a key is the one
    it had at the start, in the same entry, or a value some thread
    inserted for that key. *)
Theorem finished_threads_leave_their_keys allocator s0 ls0 ts0 schedule :
  (∀ d a, allocator d = Some a → a ∉ d) →
  consistent (RwLock 0 false) false s0 ls0 →
  Forall (λ th, Interleaving.at_pc th = Interleaving.Idle ∧
                Forall Threads.valid_call (Interleaving.todo th)) ts0 →
  match Interleaving.run allocator schedule (Interleaving.Running s0 ts0) with
  | Interleaving.Running s ts =>
      Forall Interleaving.finished ts →
      ∃ ls, consistent (RwLock 0 false) false s ls ∧
        (∀ k, is_Some (table_find ls k) ↔
              is_Some (table_find ls0 k) ∨
              ∃ th0 v, th0 ∈ ts0 ∧ Interleaving.Insert k v ∈ Interleaving.todo th0) ∧
        (∀ k n, table_find ls k = Some n →
              table_find ls0 k = Some n ∨
              ∃ th0, th0 ∈ ts0 ∧
                     Interleaving.Insert k (node_val n) ∈ Interleaving.todo th0)
  | _ => True
  end.
Proof.
  intros Hfresh Hcons Hts.
  pose proof (machine_safe_run allocator Hfresh ls0 ts0 schedule _
                (machine_safe_init s0 ls0 ts0 Hcons Hts)) as Hrun.
  destruct (Interleaving.run allocator schedule (Interleaving.Running s0 ts0))
    as [s ts|status s|]; [|done|done].
  destruct Hrun as (ls & Hsafe & Hhist). intros Hfin. exists ls.
  pose proof (safe_finished s ts ls Hsafe Hfin) as Hcons'.
  split; [done|].
  assert (∀ k n, table_find ls k = Some n →
            table_find ls0 k = Some n ∨
            ∃ th0, th0 ∈ ts0 ∧
                   Interleaving.Insert k (node_val n) ∈ Interleaving.todo th0) as Hval.
  { intros k n Hfind. unfold table_find in Hfind.
    destruct (index ls (slot k)) as [l|] eqn:Hl; [|done]. simpl in Hfind.
    destruct (chain_find_elem _ _ _ Hfind) as [Hn Hk].
    apply index_Some in Hl as [_ Hl]. apply list_elem_of_lookup_2 in Hl.
    destruct (Threads.history_origin _ _ _ _ Hhist l n Hl Hn) as [(l0 & Hl0 & Hn0)|Hins].
    - left. rewrite <- Hk. destruct Hcons as (Hb0 & _ & Hnd0).
      by apply (table_find_elem s0 ls0 l0 n).
    - right. by rewrite <- Hk. }
  split; [|done]. intros k. split.
  - intros [n Hfind]. destruct (Hval k n Hfind) as [Hold|(th0 & Hth0 & Hin)]; [left|right].
    + by rewrite Hold.
    + eauto.
  - rewrite <- !key_in_table_find. intros [Hold|(th0 & v & Hth0 & Hin)].
    + by apply (Threads.history_kept _ _ _ _ Hhist).
    + by eapply history_finished.
Qed.

Lemma finished_threads_leave_their_keys_witness :
  match Interleaving.run bump (concat (replicate 30 [0; 1; 2]%nat))
          (Interleaving.Running (example_table two_level)
             [Interleaving.Thread Interleaving.Idle
                [Interleaving.Insert 8 1; Interleaving.Retrieve 6];
              Interleaving.Thread Interleaving.Idle
                [Interleaving.Insert 6 2; Interleaving.Insert 8 3];
              Interleaving.Thread Interleaving.Idle [Interleaving.Retrieve 8]]) with
  | Interleaving.Running s ts =>
      Forall Interleaving.finished ts →
      ∃ ls, consistent (RwLock 0 false) false s ls ∧
        (∀ k, is_Some (table_find ls k) ↔
              is_Some (table_find example_chains k) ∨
              ∃ th0 v,
                th0 ∈ [Interleaving.Thread Interleaving.Idle
                         [Interleaving.Insert 8 1; Interleaving.Retrieve 6];
                       Interleaving.Thread Interleaving.Idle
                         [Interleaving.Insert 6 2; Interleaving.Insert 8 3];
                       Interleaving.Thread Interleaving.Idle [Interleaving.Retrieve 8]] ∧
                Interleaving.Insert k v ∈ Interleaving.todo th0) ∧
        (∀ k n, table_find ls k = Some n →
              table_find example_chains k = Some n ∨
              ∃ th0,
                th0 ∈ [Interleaving.Thread Interleaving.Idle
                         [Interleaving.Insert 8 1; Interleaving.Retrieve 6];
                       Interleaving.Thread Interleaving.Idle
                         [Interleaving.Insert 6 2; Interleaving.Insert 8 3];
                       Interleaving.Thread Interleaving.Idle [Interleaving.Retrieve 8]] ∧
                Interleaving.Insert k (node_val n) ∈ Interleaving.todo th0)
  | _ => True
  end.
Proof.
  apply (finished_threads_leave_their_keys bump (example_table two_level) example_chains).
  - apply bump_fresh.
  - apply (example_table_consistent two_level).
  - repeat constructor; by vm_compute.
Defined.

(** X11.  In the same setting the threads never block each other for
    good: at every moment, unless every thread has returned from its last
    call, some thread can take its next step. *)
Theorem some_thread_can_move allocator s0 ls0 ts0 schedule :
  (∀ d a, allocator d = Some a → a ∉ d) →
  consistent (RwLock 0 false) false s0 ls0 →
  Forall (λ th, Interleaving.at_pc th = Interleaving.Idle ∧
                Forall Threads.valid_call (Interleaving.todo th)) ts0 →
  match Interleaving.run allocator schedule (Interleaving.Running s0 ts0) with
  | Interleaving.Running s ts =>
      Forall Interleaving.finished ts ∨
      ∃ t, is_Some (Interleaving.step allocator (Interleaving.Running s ts) t)
  | _ => True
  end.
Proof.
  intros Hfresh Hcons Hts.
  pose proof (machine_safe_run allocator Hfresh ls0 ts0 schedule _
                (machine_safe_init s0 ls0 ts0 Hcons Hts)) as Hrun.
  destruct (Interleaving.run allocator schedule (Interleaving.Running s0 ts0))
    as [s ts|status s|]; [|done|done].
  destruct Hrun as (ls & Hsafe & _). by eapply safe_moves.
Qed.

Lemma some_thread_can_move_witness :
  match Interleaving.run bump [0; 1; 2; 2; 1; 0; 0; 1; 2; 1; 1; 0]%nat
          (Interleaving.Running (example_table two_level)
             [Interleaving.Thread Interleaving.Idle
                [Interleaving.Insert 8 1; Interleaving.Retrieve 6];
              Interleaving.Thread Interleaving.Idle
                [Interleaving.Insert 6 2; Interleaving.Insert 8 3];
              Interleaving.Thread Interleaving.Idle [Interleaving.Retrieve 8]]) with
  | Interleaving.Running s ts =>
      Forall Interleaving.finished ts ∨
      ∃ t, is_Some (Interleaving.step bump (Interleaving.Running s ts) t)
  | _ => True
  end.
Proof.
  apply (some_thread_can_move bump (example_table two_level) example_chains).
  - apply bump_fresh.
  - apply (example_table_consistent two_level).
  - repeat constructor; by vm_compute.
Defined.

Section Ranks.
Import Interleaving Threads.
Variable allocator : gset positive → ptr.
Implicit Types (s : process rwlock bool) (ts : list thread) (ls : list (list node)).
Implicit Types (K : list (list (positive * Z))) (N : nat).

Lemma rest_from_le (l : list (positive * Z)) a : (rest_from l a ≤ length l)%nat.
Proof. induction l as [|n l IH]; simpl; [done|]. case_decide; lia. Qed.

Lemma rest_from_app (l1 l2 : list (positive * Z)) a k :
  a ∉ l1.*1 → rest_from (l1 ++ (a, k) :: l2) a = S (length l2).
Proof.
  induction l1 as [|n l1 IH]; simpl.
  - intros _. by rewrite decide_True.
  - rewrite not_elem_of_cons. intros [Hne Hnin]. rewrite decide_False by done. by apply IH.
Qed.

Lemma scan_left_le N K k cur :
  (∀ l, l ∈ K → (length l ≤ N)%nat) → (scan_left K k cur ≤ N)%nat.
Proof.
  intros Hlen. unfold scan_left. destruct cur as [a|]; [|lia].
  destruct (index K (slot k)) as [l|] eqn:Hl; [|lia].
  apply index_Some in Hl as [_ Hl]. apply list_elem_of_lookup_2 in Hl.
  pose proof (rest_from_le l a). specialize (Hlen l Hl). lia.
Qed.

(** A scan that goes on to the next entry has one entry less to visit. *)
Lemma at_cursor_rank {L M} (s : process L M) ls k a w e :
  buckets s ls → at_cursor (links <$> ls) k (Some a) w → heap s !! a = Some e →
  (scan_left (links <$> ls) k (next e) < scan_left (links <$> ls) k (Some a))%nat.
Proof.
  intros Hb (l1 & l2 & Hidx & Hhead & Hw) He.
  pose proof Hidx as (l & Hl & Hlk)%index_links.
  destruct l2 as [|[a' k0] l2]; [done|]. injection Hhead as ->.
  symmetry in Hlk. unfold links in Hlk.
  apply fmap_app_inv in Hlk as (m1 & m2' & Hm1 & Hm2 & ->).
  symmetry in Hm2. apply fmap_cons_inv in Hm2 as (n & m2 & [= Ha Hk0] & Hm2 & ->).
  destruct (buckets_index_inv _ _ _ _ Hb Hl) as (p & Hp & Hc).
  pose proof (is_chain_NoDup _ _ _ Hc) as Hnd.
  rewrite fmap_app, fmap_cons in Hnd. apply NoDup_app in Hnd as (Hnd1 & Hdisj & Hnd2).
  apply NoDup_cons in Hnd2 as [Hnin2 Hnd2].
  destruct (is_chain_app _ _ _ _ Hc) as (q & _ & e' & He' & _ & _ & Hc2).
  rewrite <- Ha, He in He'. injection He' as <-.
  subst a k0.
  assert (node_addr n ∉ l1.*1) as Hnin1.
  { rewrite Hm1, <- list_fmap_compose. intros Hin. apply (Hdisj (node_addr n) Hin).
    apply list_elem_of_here. }
  unfold scan_left. rewrite Hidx, rest_from_app by done.
  rewrite (is_chain_head_of _ _ _ Hc2). destruct m2 as [|n2 m2]; simpl; [lia|].
  subst l2. rewrite fmap_cons.
  rewrite (cons_middle (node_addr n, node_key n)), app_assoc, rest_from_app;
    [simpl; rewrite length_fmap; lia|].
  rewrite fmap_app. intros [Hin|Hin]%elem_of_app.
  - rewrite Hm1, <- list_fmap_compose in Hin. apply (Hdisj (node_addr n2) Hin).
    apply list_elem_of_further, list_elem_of_here.
  - simpl in Hin. apply list_elem_of_singleton in Hin. apply Hnin2. rewrite <- Hin.
    apply list_elem_of_here.
Qed.

(** The bound of a thread only depends on the chain of the bucket it is in. *)
Lemma pc_rank_frame N K K' c :
  (∀ i, shared_at c = Some i ∨ exclusive_at c = Some i → index K' i = index K i) →
  pc_rank N K' c = pc_rank N K c.
Proof.
  intros HK. destruct c; try done; try destruct w; cbn [pc_rank shared_at exclusive_at] in *;
    unfold scan_left; by rewrite HK by auto.
Qed.

(** Every step of a thread brings it nearer to the end of its call. *)
Lemma pc_rank_step N s ls c c' s' :
  buckets s ls → (∀ l, l ∈ ls → (length l ≤ N)%nat) → pc_ok s (links <$> ls) c →
  step_of allocator c s = Return c' s' →
  (pc_rank N (links <$> ls) c' < pc_rank N (links <$> ls) c)%nat.
Proof.
  intros Hb Hlen Hok Hstep.
  assert (∀ k cur, scan_left (links <$> ls) k cur ≤ N)%nat as Hle.
  { intros k cur. apply scan_left_le. intros lk (l & -> & Hl)%list_elem_of_fmap.
    unfold links. rewrite length_fmap. by apply Hlen. }
  destruct c; cbn [step_of pc_ok] in *;
    unfold mbind, prog_bind, mret, prog_ret, hang, panic, malloc, load in Hstep;
    repeat case_match; simplify_eq; cbn [pc_rank];
    try match goal with
        | |- context [scan_left _ ?k (next ?e)] =>
            match goal with
            | He : heap _ !! ?a = Some e, Hcur : _ ∧ at_cursor _ k (Some ?a) ?w |- _ =>
                pose proof (at_cursor_rank _ ls k a w e Hb (proj2 Hcur) He)
            end
        end;
    try match goal with
        | |- context [scan_left _ ?k ?cur] => pose proof (Hle k cur)
        end;
    try match goal with w : scan |- _ => destruct w end;
    lia.
Qed.

Lemma sum_list_insert {A} (g : A → nat) (l : list A) i x y :
  l !! i = Some x →
  (sum_list (g <$> <[i := y]> l) + g x = sum_list (g <$> l) + g y)%nat.
Proof.
  revert i. induction l as [|z l IH]; intros [|i] Hi; try done.
  - injection Hi as ->. change (<[0%nat := y]> (x :: l)) with (y :: l).
    rewrite !fmap_cons. change (sum_list (?a :: ?b)) with (a + sum_list b)%nat. lia.
  - change (<[S i := y]> (z :: l)) with (z :: <[i := y]> l).
    rewrite !fmap_cons. change (sum_list (?a :: ?b)) with (a + sum_list b)%nat.
    specialize (IH i Hi). lia.
Qed.

Lemma sum_list_ext {A} (g g' : A → nat) (l : list A) :
  (∀ i x, l !! i = Some x → g x = g' x) → sum_list (g <$> l) = sum_list (g' <$> l).
Proof.
  induction l as [|z l IH]; intros Hext; [done|].
  rewrite !fmap_cons. change (sum_list (?a :: ?b)) with (a + sum_list b)%nat.
  rewrite (Hext 0%nat z eq_refl), IH; [done|]. intros i x Hi. by apply (Hext (S i)).
Qed.

Lemma elem_of_concat {A} (x : A) (ll : list (list A)) :
  x ∈ concat ll ↔ ∃ l, l ∈ ll ∧ x ∈ l.
Proof.
  induction ll as [|l ll IH]; simpl.
  - split; [by intros ?%elem_of_nil|by intros (? & ?%elem_of_nil & _)].
  - rewrite elem_of_app, IH. split.
    + intros [?|(l' & ? & ?)]; [exists l|exists l']; split; try done.
      * apply list_elem_of_here.
      * by apply list_elem_of_further.
    + intros (l' & [->|?]%elem_of_cons & ?); [by left|right; eauto].
Qed.

(** No chain outgrows [chain_bound]. *)
Lemma chain_length_bound s ls0 ts0 ts ls l :
  safe s ts ls → history ls0 ts0 ts ls → l ∈ ls →
  (length l ≤ chain_bound ls0 ts0)%nat.
Proof.
  intros Hsafe Hhist Hl. unfold chain_bound.
  set (call_key := λ c : call, match c with Insert k _ | Retrieve k => k end).
  rewrite <- (length_fmap node_key l), <- (length_fmap node_key (concat ls0)),
    <- (length_fmap call_key (concat (todo <$> ts0))), <- length_app.
  apply submseteq_length, NoDup_submseteq; [by apply (safe_keys _ _ _ Hsafe)|].
  intros k (n & -> & Hn)%list_elem_of_fmap. apply elem_of_app.
  destruct (history_origin _ _ _ _ Hhist l n Hl Hn) as [(l0 & Hl0 & Hn0)|(th0 & Hth0 & Hin)].
  - left. apply list_elem_of_fmap. exists n. split; [done|].
    apply elem_of_concat. eauto.
  - right. apply list_elem_of_fmap. exists (Insert (node_key n) (node_val n)). split; [done|].
    apply elem_of_concat. exists (todo th0). split; [|done].
    apply list_elem_of_fmap. eauto.
Qed.
End Ranks.

Section Termination.
Import Interleaving Threads.
Variable allocator : gset positive → ptr.
Hypothesis allocator_fresh : ∀ d a, allocator d = Some a → a ∉ d.
Implicit Types (s : process rwlock bool) (ts : list thread) (ls : list (list node)).

Lemma sum_list_lookup {A} (g : A → nat) (l : list A) i x :
  l !! i = Some x → (g x ≤ sum_list (g <$> l))%nat.
Proof.
  revert i. induction l as [|z l IH]; intros [|i] Hi; try done;
    rewrite fmap_cons; change (sum_list (?a :: ?b)) with (a + sum_list b)%nat.
  - injection Hi as ->. lia.
  - specialize (IH i Hi). lia.
Qed.

Lemma pc_rank_pos N K c : c ≠ Idle → (1 ≤ pc_rank N K c)%nat.
Proof. destruct c; try done; try destruct w; intros _; cbn [pc_rank]; lia. Qed.

Lemma step_of_publish s k v e c' s' :
  step_of allocator (I_publish k v e) s = Return c' s' → c' = I_unlock_linked k v.
Proof.
  cbn [step_of]. unfold mbind, prog_bind, put_table, mret, prog_ret.
  repeat case_match; by intros [= <- _].
Qed.

(** The bounds of the threads after a step, in the old chains and in the
    new, are the same. *)
Lemma threads_rank_grows N s ts ls ls' t c rest c' s' :
  safe s ts ls → ts !! t = Some (Thread c rest) →
  step_of allocator c s = Return c' s' → grows c ls ls' →
  threads_rank N (links <$> ls') (<[t := Thread c' rest]> ts)
  = threads_rank N (links <$> ls) (<[t := Thread c' rest]> ts).
Proof.
  intros Hsafe Ht Hstep (_ & _ & [->|(k & v & e & -> & HK)]); [done|].
  apply sum_list_ext. intros t' th' Ht'. unfold thread_rank. f_equal.
  destruct (decide (t' = t)) as [->|Hne].
  - rewrite list_lookup_insert_eq in Ht' by (by eapply lookup_lt_Some).
    injection Ht' as <-. by rewrite (step_of_publish _ _ _ _ _ _ Hstep).
  - rewrite list_lookup_insert_ne in Ht' by done. apply pc_rank_frame.
    intros i Hi. apply HK. intros ->.
    destruct (other_section s ts ls Hsafe t _ rest Ht t' th' (slot k) Hne Ht' eq_refl).
    by destruct Hi.
Qed.

(** Every step of every thread makes the bound smaller. *)
Lemma rank_step ls0 ts0 m t m' r :
  machine_safe ls0 ts0 m → step allocator m t = Some m' →
  ranked (chain_bound ls0 ts0) m r →
  ∃ r', ranked (chain_bound ls0 ts0) m' r' ∧ (r' < r)%nat.
Proof.
  destruct m as [s ts| |]; [|done|done]. intros (ls & Hsafe & Hhist) Hstep (ls1 & Hb1 & ->).
  pose proof (safe_buckets _ _ _ Hsafe) as Hb.
  rewrite (buckets_functional _ _ _ Hb1 Hb). clear ls1 Hb1.
  set (N := chain_bound ls0 ts0).
  destruct (step_cases allocator s ts t m' Hstep) as (c & rest & Ht & Hcases).
  destruct (safe_threads _ _ _ Hsafe t _ Ht) as [Hok _]. cbn [at_pc] in Hok.
  pose proof (safe_step allocator allocator_fresh s ts ls t c rest Hsafe Ht) as Hs.
  destruct Hcases as [(call & rest' & -> & -> & ->)|[(c' & s' & Hc & ->)|
                      [(status & s' & Hc & ->)|[Hc ->]]]].
  - eexists. split; [exists ls; split; [done|reflexivity]|].
    pose proof (sum_list_insert (thread_rank N (links <$> ls)) ts t _
                  (Thread (enter call) rest') Ht) as Hsum.
    unfold threads_rank. unfold thread_rank at 2 4 in Hsum. cbn [at_pc todo] in Hsum.
    rewrite fmap_cons in Hsum.
    change (sum_list (?a :: ?b)) with (a + sum_list b)%nat in Hsum.
    destruct call; cbn [enter pc_rank call_rank] in *; lia.
  - rewrite Hc in Hs. destruct Hs as (ls' & Hsafe' & Hgrows).
    eexists. split; [exists ls'; split; [apply (safe_buckets _ _ _ Hsafe')|reflexivity]|].
    rewrite (threads_rank_grows N s ts ls ls' t c rest c' s' Hsafe Ht Hc Hgrows).
    pose proof (sum_list_insert (thread_rank N (links <$> ls)) ts t _
                  (Thread c' rest) Ht) as Hsum.
    unfold threads_rank. unfold thread_rank at 2 4 in Hsum. cbn [at_pc todo] in Hsum.
    assert (pc_rank N (links <$> ls) c' < pc_rank N (links <$> ls) c)%nat; [|lia].
    apply (pc_rank_step allocator N s ls c c' s'); try done.
    intros l Hl. exact (chain_length_bound s ls0 ts0 ts ls l Hsafe Hhist Hl).
  - exists 0%nat. split; [done|].
    pose proof (sum_list_lookup (thread_rank N (links <$> ls)) ts t _ Ht) as Hle.
    unfold thread_rank at 1 in Hle. cbn [at_pc] in Hle.
    assert (c ≠ Idle) as Hne by (by intros ->).
    pose proof (pc_rank_pos N (links <$> ls) c Hne). unfold threads_rank. lia.
  - by rewrite Hc in Hs.
Qed.

(** Whatever the schedule, no more steps are taken than the bound says. *)
Lemma trace_bound ls0 ts0 schedule : ∀ m r,
  machine_safe ls0 ts0 m → ranked (chain_bound ls0 ts0) m r →
  (length (trace allocator schedule m) ≤ r)%nat.
Proof.
  induction schedule as [|t schedule IH]; intros m r Hm Hr; [simpl; lia|].
  cbn [trace]. destruct (step allocator m t) as [m'|] eqn:Hstep; [|by eapply IH].
  destruct (rank_step ls0 ts0 m t m' r Hm Hstep Hr) as (r' & Hr' & Hlt).
  pose proof (machine_safe_step allocator allocator_fresh ls0 ts0 m t m' Hm Hstep) as Hm'.
  specialize (IH m' r' Hm' Hr').
  destruct m as [s ts| |]; [|done|done].
  destruct (ts !! t); simpl; lia.
Qed.

(** And the threads can always be run to the end. *)
Lemma run_completes ls0 ts0 r : ∀ m,
  machine_safe ls0 ts0 m → ranked (chain_bound ls0 ts0) m r →
  ∃ schedule, Race.halted (run allocator schedule m).
Proof.
  induction (lt_wf r) as [r _ IH]. intros m Hm Hr.
  destruct m as [s ts|status s|]; [|by exists []|done].
  destruct Hm as (ls & Hsafe & Hhist).
  destruct (safe_moves allocator s ts ls Hsafe) as [Hfin|(t & m' & Hstep)].
  { by exists []. }
  assert (machine_safe ls0 ts0 (Running s ts)) as Hm by (exists ls; done).
  destruct (rank_step ls0 ts0 _ t m' r Hm Hstep Hr) as (r' & Hr' & Hlt).
  pose proof (machine_safe_step allocator allocator_fresh ls0 ts0 _ t m' Hm Hstep) as Hm'.
  destruct (IH r' Hlt m' Hm' Hr') as [schedule Hhalt].
  exists (t :: schedule). cbn [run]. by rewrite Hstep.
Qed.

Lemma ranked_exists ls0 ts0 m :
  machine_safe ls0 ts0 m → ∃ r, ranked (chain_bound ls0 ts0) m r.
Proof.
  destruct m as [s ts|status s|]; [|by exists 0%nat|done].
  intros (ls & Hsafe & _). eexists. exists ls. split; [|reflexivity].
  apply (safe_buckets _ _ _ Hsafe).
Qed.

Lemma ranked_init s0 ls0 ts0 :
  buckets s0 ls0 → Forall (λ th, at_pc th = Idle) ts0 →
  ranked (chain_bound ls0 ts0) (Running s0 ts0) (steps_bound ls0 ts0).
Proof.
  intros Hb Hidle. exists ls0. split; [done|]. unfold steps_bound, threads_rank.
  apply sum_list_ext. intros i th Hi. unfold thread_rank.
  rewrite Forall_forall in Hidle. rewrite (Hidle th) by (by eapply list_elem_of_lookup_2).
  done.
Qed.
End Termination.

(** X12.  In the same setting the threads finish: whatever the schedule,
    they take no more steps altogether than [steps_bound] says, a number
    that only depends on the calls and on the size of the table at the
    start; and every schedule can be continued to one at the end of which
    every thread has returned from its last call, or the process has
    gone through [exit(1)]. *)
Theorem threads_finish allocator s0 ls0 ts0 schedule :
  (∀ d a, allocator d = Some a → a ∉ d) →
  consistent (RwLock 0 false) false s0 ls0 →
  Forall (λ th, Interleaving.at_pc th = Interleaving.Idle ∧
                Forall Threads.valid_call (Interleaving.todo th)) ts0 →
  (length (Interleaving.trace allocator schedule (Interleaving.Running s0 ts0))
   ≤ Threads.steps_bound ls0 ts0)%nat ∧
  ∃ schedule',
    Race.halted
      (Interleaving.run allocator (schedule ++ schedule') (Interleaving.Running s0 ts0)).
Proof.
  intros Hfresh Hcons Hts.
  pose proof (machine_safe_init s0 ls0 ts0 Hcons Hts) as Hinit.
  assert (Forall (λ th, Interleaving.at_pc th = Interleaving.Idle) ts0) as Hidle.
  { eapply Forall_impl; [exact Hts|]. by intros th [? _]. }
  destruct Hcons as (Hb & _). split.
  - apply (trace_bound allocator Hfresh ls0 ts0); [done|by apply ranked_init].
  - pose proof (machine_safe_run allocator Hfresh ls0 ts0 schedule _ Hinit) as Hrun.
    destruct (ranked_exists ls0 ts0 _ Hrun) as [r Hr].
    destruct (run_completes allocator Hfresh ls0 ts0 r _ Hrun Hr) as [schedule' Hhalt].
    exists schedule'. by rewrite run_app.
Qed.

Lemma threads_finish_witness :
  (length (Interleaving.trace bump [0; 1; 2; 2; 1; 0; 0; 1; 2; 1; 1; 0]%nat
             (Interleaving.Running (example_table two_level)
                [Interleaving.Thread Interleaving.Idle
                   [Interleaving.Insert 8 1; Interleaving.Retrieve 6];
                 Interleaving.Thread Interleaving.Idle
                   [Interleaving.Insert 6 2; Interleaving.Insert 8 3];
                 Interleaving.Thread Interleaving.Idle [Interleaving.Retrieve 8]]))
   ≤ Threads.steps_bound example_chains
       [Interleaving.Thread Interleaving.Idle
          [Interleaving.Insert 8 1; Interleaving.Retrieve 6];
        Interleaving.Thread Interleaving.Idle
          [Interleaving.Insert 6 2; Interleaving.Insert 8 3];
        Interleaving.Thread Interleaving.Idle [Interleaving.Retrieve 8]])%nat ∧
  ∃ schedule',
    Race.halted
      (Interleaving.run bump ([0; 1; 2; 2; 1; 0; 0; 1; 2; 1; 1; 0]%nat ++ schedule')
         (Interleaving.Running (example_table two_level)
            [Interleaving.Thread Interleaving.Idle
               [Interleaving.Insert 8 1; Interleaving.Retrieve 6];
             Interleaving.Thread Interleaving.Idle
               [Interleaving.Insert 6 2; Interleaving.Insert 8 3];
             Interleaving.Thread Interleaving.Idle [Interleaving.Retrieve 8]])).
Proof.
  apply (threads_finish bump (example_table two_level) example_chains).
  - apply bump_fresh.
  - apply (example_table_consistent two_level).
  - repeat constructor; by vm_compute.
Defined.

(** X13.  The put phases of the two-level file, run by any number of
    threads at the same time on a table that was at rest, with
    [0 < n ≤ INT_MAX - NUM_KEYS] for the number of threads (so that
    [key += num_threads] cannot overflow), no key negative and [malloc]
    never failing: whatever the schedule, once all of them have made
    their calls, [get_phase] of each of these threads finds all its keys:
    it returns 0 and prints "0 keys lost!". *)
Theorem concurrent_put_phases_lose_no_key allocator keys n tids s0 ls0 schedule :
  (∀ d a, allocator d = Some a → a ∉ d) →
  (∀ d, is_Some (allocator d)) →
  consistent (RwLock 0 false) false s0 ls0 →
  0 < n ≤ INT_MAX - NUM_KEYS → Forall (λ tid, 0 ≤ tid < n) tids →
  length keys = Z.to_nat NUM_KEYS → Forall (λ k, 0 ≤ k) keys →
  match Interleaving.run allocator schedule
          (Interleaving.Running s0
             ((λ tid, Interleaving.Thread Interleaving.Idle (Threads.put_calls keys n tid))
                <$> tids)) with
  | Interleaving.Running s ts =>
      Forall Interleaving.finished ts →
      Forall (λ tid,
        get_phase_of two_level_driver allocator keys n tid s
        = Return 0 (set_stdout (stdout s ++ [lost_line tid 0]) s)) tids
  | _ => True
  end.
Proof.
  intros Hfresh Htotal Hcons Hn Htids Hkeys Hnonneg.
  pose proof (keys_nonnegative_valid _ Hnonneg) as Hvalid.
  set (ts0 := (λ tid, Interleaving.Thread Interleaving.Idle (Threads.put_calls keys n tid))
                <$> tids).
  assert (Forall (λ th, Interleaving.at_pc th = Interleaving.Idle ∧
                        Forall Threads.valid_call (Interleaving.todo th)) ts0) as Hts.
  { apply Forall_fmap, Forall_forall. intros tid _. split; [done|].
    apply Forall_fmap, Forall_forall. intros j Hj. cbn.
    apply list_elem_of_filter in Hj as [_ Hj%elem_of_seqZ].
    apply (keys_valid keys Hkeys Hvalid). lia. }
  pose proof (machine_safe_run allocator Hfresh ls0 ts0 schedule _
                (machine_safe_init s0 ls0 ts0 Hcons Hts)) as Hrun.
  destruct (Interleaving.run allocator schedule (Interleaving.Running s0 ts0))
    as [s ts|status s|]; [|done|done].
  destruct Hrun as (ls & Hsafe & Hhist). intros Hfin.
  pose proof (safe_finished s ts ls Hsafe Hfin) as Hcons'.
  apply Forall_forall. intros tid Htid.
  apply (get_phase_finds_all two_level_driver built_two_level allocator Hfresh keys n
           Hn Hkeys Hnonneg s ls tid); [done|done| |].
  { rewrite Forall_forall in Htids. by apply Htids. }
  intros j Hj Hnone.
  assert (Threads.key_in (Threads.links <$> ls) (keys !!! Z.to_nat j)) as Hin.
  { eapply (history_finished ls0 ts0 ts ls
              (Interleaving.Thread Interleaving.Idle (Threads.put_calls keys n tid))
              _ (to_int tid) Hhist Hfin).
    - apply list_elem_of_fmap. eauto.
    - cbn. apply list_elem_of_fmap. eauto. }
  apply key_in_table_find in Hin as [x Hx]. congruence.
Qed.

(* Threads 0, 1 and 2 of 33334, with three keys each, taking turns until
   all three are done. *)
Lemma concurrent_put_phases_lose_no_key_witness :
  match Interleaving.run bump (concat (replicate 60 [0; 1; 2]%nat))
          (Interleaving.Running (example_table two_level)
             ((λ tid, Interleaving.Thread Interleaving.Idle
                        (Threads.put_calls example_keys 33334 tid))
                <$> [0; 1; 2])) with
  | Interleaving.Running s ts =>
      Forall Interleaving.finished ts ∧
      Forall (λ tid,
        get_phase_of two_level_driver bump example_keys 33334 tid s
        = Return 0 (set_stdout (stdout s ++ [lost_line tid 0]) s)) [0; 1; 2]
  | _ => False
  end.
Proof.
  pose proof (concurrent_put_phases_lose_no_key bump example_keys 33334 [0; 1; 2]
                (example_table two_level) example_chains
                (concat (replicate 60 [0; 1; 2]%nat))
                bump_fresh (λ d, ex_intro _ _ eq_refl)
                (example_table_consistent two_level)) as H.
  specialize (H ltac:(unfold INT_MAX, NUM_KEYS; lia) ltac:(repeat constructor; lia)
                example_keys_length example_keys_nonnegative).
  cbn [fmap list_fmap] in *.
  rewrite !example_put_calls in * by lia.
  remember (Interleaving.run _ _ _) as m eqn:Hm.
  assert (match m with
          | Interleaving.Running _ ts => Forall Interleaving.finished ts
          | _ => False
          end) as Hfin.
  { rewrite Hm. vm_compute. repeat constructor. }
  clear Hm. destruct m as [s ts| |]; [|done|done]. split; [done|]. by apply H.
Defined.

(** ** Any number of threads, one lock per bucket *)

Section CoarseHolders.
Import Threads Coarse.
Context {A : Type} `{EqDecision A}.
Variable f : pc → option A.
Implicit Types (ts : list thread) (x : A).

Lemma co_holders_cons x th ts :
  holders f x (th :: ts) = (holding f x (at_pc th) + holders f x ts)%nat.
Proof.
  unfold holders, holding. rewrite filter_cons. by case_decide.
Qed.

Lemma co_holders_insert x ts t th th' :
  ts !! t = Some th →
  (holders f x (<[t := th']> ts) + holding f x (at_pc th)
   = holders f x ts + holding f x (at_pc th'))%nat.
Proof.
  revert t. induction ts as [|th0 ts IH]; intros [|t] Ht; try done.
  - injection Ht as ->. change (<[0%nat := th']> (th :: ts)) with (th' :: ts).
    rewrite !co_holders_cons. lia.
  - change (<[S t := th']> (th0 :: ts)) with (th0 :: <[t := th']> ts).
    rewrite !co_holders_cons. specialize (IH t Ht). lia.
Qed.

Lemma co_holders_same x ts t th th' :
  ts !! t = Some th → f (at_pc th') = f (at_pc th) →
  holders f x (<[t := th']> ts) = holders f x ts.
Proof.
  intros Ht Hf. pose proof (co_holders_insert x ts t th th' Ht) as Hi.
  unfold holding in Hi. rewrite Hf in Hi. lia.
Qed.

Lemma co_holders_pos x ts t th :
  ts !! t = Some th → f (at_pc th) = Some x → (1 ≤ holders f x ts)%nat.
Proof.
  revert t. induction ts as [|th0 ts IH]; intros [|t] Ht Hf; try done.
  - injection Ht as ->. rewrite co_holders_cons. unfold holding.
    rewrite decide_True by done. lia.
  - rewrite co_holders_cons. specialize (IH t Ht Hf). lia.
Qed.

Lemma co_holders_two x ts t t' th th' :
  t ≠ t' → ts !! t = Some th → ts !! t' = Some th' →
  f (at_pc th) = Some x → f (at_pc th') = Some x → (2 ≤ holders f x ts)%nat.
Proof.
  revert t t'. induction ts as [|th0 ts IH]; intros [|t] [|t'] Hne Ht Ht' Hf Hf'; try done.
  - injection Ht as ->. rewrite co_holders_cons. unfold holding. rewrite decide_True by done.
    pose proof (co_holders_pos x ts t' th' Ht' Hf'). lia.
  - injection Ht' as ->. rewrite co_holders_cons. unfold holding. rewrite decide_True by done.
    pose proof (co_holders_pos x ts t th Ht Hf). lia.
  - rewrite co_holders_cons. assert (t ≠ t') by congruence.
    specialize (IH t t' ltac:(done) Ht Ht' Hf Hf'). lia.
Qed.

Lemma co_holders_zero x ts :
  (∀ t th, ts !! t = Some th → f (at_pc th) ≠ Some x) → holders f x ts = 0%nat.
Proof.
  induction ts as [|th0 ts IH]; intros Hno; [done|].
  rewrite co_holders_cons. unfold holding. rewrite decide_False by (by apply (Hno 0%nat)).
  rewrite IH; [done|]. intros t th Ht. by apply (Hno (S t)).
Qed.

Lemma co_holders_pos_inv x ts :
  (1 ≤ holders f x ts)%nat → ∃ t th, ts !! t = Some th ∧ f (at_pc th) = Some x.
Proof.
  induction ts as [|th ts IH]; [by unfold holders; simpl; lia|].
  rewrite co_holders_cons. unfold holding. case_decide as Hf.
  - intros _. by exists 0%nat, th.
  - intros Hpos. destruct IH as (t & th' & Ht & Hf'); [lia|]. by exists (S t), th'.
Qed.

Lemma co_holding_None x c0 : f c0 = None → holding f x c0 = 0%nat.
Proof. intros Hf. unfold holding. rewrite Hf. by rewrite decide_False. Qed.

Lemma co_holding_Some x c0 : f c0 = Some x → holding f x c0 = 1%nat.
Proof. intros Hf. unfold holding. by rewrite decide_True. Qed.
End CoarseHolders.

Section CoarseFrame.
Import Threads Coarse.
Context {L : Type}.
Variable F : file.

(** A thread is in one bucket at most, and holds its lock in one mode. *)
Lemma co_section_modes c i :
  shared_at F c = Some i ∨ exclusive_at F c = Some i ↔
  in_insert c = Some i ∨ in_retrieve c = Some i.
Proof.
  destruct F; cbn [shared_at exclusive_at]; destruct c; cbn [in_insert in_retrieve];
    split; intros [Hx|Hx]; try discriminate Hx; auto.
Qed.

(** What a thread knows stays true when the others leave alone what it
    relies on. *)
Lemma co_pc_ok_frame (s s' : process L unit) K K' c :
  (∀ i, in_insert c = Some i → index (table s') i = index (table s) i) →
  (∀ e x, private_at c = Some e → heap s !! e = Some x → heap s' !! e = Some x) →
  (∀ i, in_insert c = Some i ∨ in_retrieve c = Some i → index K' i = index K i) →
  (∀ e, private_at c = Some e → unlinked K e → unlinked K' e) →
  pc_ok s K c → pc_ok s' K' c.
Proof.
  intros Ht Hh HK Hun.
  destruct c as [ |k v|k v|k v cur|k v a|k v|k v|k v| |k v e|k v e|k v|
                  k|k|k cur|k a|k| |k a e|k e|k];
    cbn [pc_ok in_insert in_retrieve private_at] in *;
    unfold at_cursor, entry_at, key_in, key_out; try done;
    try (rewrite (HK (slot k)) by eauto); try done.
  - intros (? & ? & ? & q & ?). split; [done|]. split; [done|]. split; [by eauto|].
    exists q. by eauto.
  - intros (? & ? & ? & q & Hq & ?). split; [done|]. split; [done|]. split; [by eauto|].
    exists q. rewrite Ht by done. split; [done|]. by eauto.
  - intros (? & ? & ? & [x ?]). split; [done|]. split; [done|]. split; [by eauto|].
    exists x. by eauto.
Qed.

Lemma co_pc_ok_private (s : process L unit) K c e :
  pc_ok s K c → private_at c = Some e → unlinked K e ∧ is_Some (heap s !! e).
Proof.
  destruct c; try done; cbn [pc_ok private_at]; intros Hok [= <-].
  - destruct Hok as (_ & _ & ? & q & ?). eauto.
  - destruct Hok as (_ & _ & ? & q & _ & ?). eauto.
  - destruct Hok as (_ & _ & ? & ?). eauto.
Qed.

Lemma co_pc_ok_section (s : process L unit) K c i :
  pc_ok s K c → in_insert c = Some i ∨ in_retrieve c = Some i → 0 ≤ i < NUM_BUCKETS.
Proof.
  destruct c; cbn [pc_ok in_insert in_retrieve]; intros Hok [[= <-]|[= <-]];
    unfold valid_key in *; tauto.
Qed.
End CoarseFrame.

Section CoarseWrites.
Context {L M : Type}.
Implicit Types (s : process L M) (ls : list (list node)).

Lemma co_buckets_write s ls e x :
  Threads.unlinked (Threads.links <$> ls) e → buckets s ls →
  buckets (set_heap (<[e := x]> (heap s)) s) ls.
Proof.
  intros Hun [Hlen Hch Hsl]. split; [done| |done]. cbn [heap table set_heap].
  apply Forall2_same_length_lookup. split; [by eapply Forall2_length|].
  intros i p l Hp Hl. pose proof (Forall2_lookup_lr _ _ _ _ _ _ Hch Hp Hl) as Hc.
  eapply is_chain_agree; [|exact Hc]. intros n Hn. apply lookup_insert_ne.
  intros Heq. eapply (unlinked_ne ls e l n); [done| |done|done].
  by eapply list_elem_of_lookup_2.
Qed.

Lemma co_buckets_publish s ls k v p l e m :
  buckets s ls → index (table s) (slot k) = Some p →
  index ls (slot k) = Some l →
  heap s !! e = Some (BucketEntry k v p m) →
  buckets (set_table (<[Z.to_nat (slot k) := Some e]> (table s)) s)
          (<[Z.to_nat (slot k) := Node e k v :: l]> ls).
Proof.
  intros Hb [Hk0 Hp]%index_Some [_ Hl]%index_Some He.
  pose proof Hb as [Hlen Hch Hsl]. split.
  - by rewrite length_insert.
  - cbn [heap table set_table]. apply Forall2_same_length_lookup. split.
    { rewrite !length_insert. by eapply Forall2_length. }
    intros i p' l' Hp' Hl'.
    destruct (decide (i = Z.to_nat (slot k))) as [->|Hne].
    + rewrite list_lookup_insert_eq in Hl' by (by eapply lookup_lt_Some).
      rewrite list_lookup_insert_eq in Hp' by (by eapply lookup_lt_Some). simplify_eq.
      simpl. split; [done|]. eexists. split; [done|]. repeat split.
      destruct (buckets_lookup _ _ _ _ Hb Hl) as (p' & ? & ?). by simplify_eq.
    + rewrite list_lookup_insert_ne in Hl' by done.
      rewrite list_lookup_insert_ne in Hp' by done.
      destruct (buckets_lookup _ _ _ _ Hb Hl') as (p'' & ? & ?). by simplify_eq.
  - intros i l' n' Hl' Hn'.
    destruct (decide (i = Z.to_nat (slot k))) as [->|Hne].
    + rewrite list_lookup_insert_eq in Hl' by (by eapply lookup_lt_Some). simplify_eq.
      apply elem_of_cons in Hn' as [->|Hn']; [simpl; lia|eauto].
    + rewrite list_lookup_insert_ne in Hl' by done. eauto.
Qed.
End CoarseWrites.

Section CoarseUpdate.
Import Threads Coarse.
Variable F : file.
Variables (s : process (lock_type F) unit) (ts : list thread) (ls : list (list node)).
Hypothesis Hsafe : safe F s ts ls.
Variables (t : nat) (c : pc) (rest : list Interleaving.call).
Hypothesis Ht : ts !! t = Some (Thread c rest).

Lemma co_other_private t' th' e :
  t' ≠ t → ts !! t' = Some th' → private_at (at_pc th') = Some e → private_at c ≠ Some e.
Proof.
  intros Hne Ht' He Hc.
  pose proof (co_holders_two private_at e ts t' t th' (Thread c rest) Hne Ht' Ht He Hc).
  pose proof (safe_private _ _ _ _ Hsafe e). lia.
Qed.

(** The thread that holds a lock in exclusive mode is alone in the bucket. *)
Lemma co_other_section t' th' i :
  t' ≠ t → ts !! t' = Some th' → exclusive_at F c = Some i →
  in_insert (at_pc th') ≠ Some i ∧ in_retrieve (at_pc th') ≠ Some i.
Proof.
  intros Hne Ht' Hc.
  destruct (safe_threads _ _ _ _ Hsafe t _ Ht) as [Hok _]. cbn [at_pc] in Hok.
  assert (0 ≤ i < NUM_BUCKETS) as Hi.
  { eapply co_pc_ok_section; [exact Hok|]. apply (co_section_modes F). by right. }
  destruct (lookup_lt_is_Some_2 (bucket_locks s) (Z.to_nat i)) as [l Hl].
  { rewrite (safe_locks_length _ _ _ _ Hsafe). lia. }
  destruct (safe_locks _ _ _ _ Hsafe i l) as (Hr & Hw & Hx).
  { apply index_Some. split; [lia|done]. }
  pose proof (co_holders_pos (exclusive_at F) i ts t _ Ht Hc) as Hpos.
  assert (writer (view F l) = true) as Hwt
    by (destruct (writer (view F l)); simpl in Hw; [done|lia]).
  assert (¬ (shared_at F (at_pc th') = Some i ∨ exclusive_at F (at_pc th') = Some i)) as Hnot.
  { intros [Hs|He].
    - pose proof (co_holders_pos (shared_at F) i ts t' _ Ht' Hs). specialize (Hx Hwt). lia.
    - pose proof (co_holders_two (exclusive_at F) i ts t' t th' (Thread c rest)
                    Hne Ht' Ht He Hc).
      destruct (writer (view F l)); simpl in Hw; lia. }
  rewrite co_section_modes in Hnot. tauto.
Qed.

Lemma co_private_unknown e :
  heap s !! e = None → holders private_at e ts = 0%nat.
Proof.
  intros He. apply co_holders_zero. intros t' th' Ht' Hp.
  destruct (safe_threads _ _ _ _ Hsafe t' th' Ht') as [Hok _].
  destruct (co_pc_ok_private _ _ _ _ Hok Hp) as [_ [x Hx]]. congruence.
Qed.

(** The invariant after a step that changes neither [table] nor the
    addresses and keys of the chains. *)
Lemma co_safe_update s' ls' c' :
  buckets s' ls' → links <$> ls' = links <$> ls →
  table s' = table s →
  length (bucket_locks s') = length (bucket_locks s) →
  (∀ i l', index (bucket_locks s') i = Some l' →
     ∃ l, index (bucket_locks s) i = Some l ∧
       (readers (view F l') + holding (shared_at F) i c
        = readers (view F l) + holding (shared_at F) i c')%nat ∧
       (Nat.b2n (writer (view F l')) + holding (exclusive_at F) i c
        = Nat.b2n (writer (view F l)) + holding (exclusive_at F) i c')%nat ∧
       (writer (view F l') = true → readers (view F l') = 0%nat)) →
  (∀ e, private_at c' = Some e → private_at c = Some e ∨ heap s !! e = None) →
  (∀ e x, unlinked (links <$> ls) e → heap s !! e = Some x → private_at c ≠ Some e →
          heap s' !! e = Some x) →
  pc_ok s' (links <$> ls') c' →
  safe F s' (<[t := Thread c' rest]> ts) ls'.
Proof.
  intros Hb HK Htab Hlen Hlocks Hpriv Hframe Hok. split.
  - done.
  - intros l' Hl'.
    assert (links l' ∈ links <$> ls) as (l & Hll & Hl)%list_elem_of_fmap.
    { rewrite <- HK. apply list_elem_of_fmap. eauto. }
    rewrite <- links_key, Hll, links_key. by apply (safe_keys _ _ _ _ Hsafe).
  - rewrite Hlen. apply (safe_locks_length _ _ _ _ Hsafe).
  - intros i l' Hl'. destruct (Hlocks i l' Hl') as (l & Hl & Hr & Hw & Hx).
    destruct (safe_locks _ _ _ _ Hsafe i l Hl) as (Hr0 & Hw0 & _).
    pose proof (co_holders_insert (shared_at F) i ts t _ (Thread c' rest) Ht) as Hs.
    pose proof (co_holders_insert (exclusive_at F) i ts t _ (Thread c' rest) Ht) as He.
    cbn [at_pc] in Hs, He. split; [lia|]. split; [lia|done].
  - intros e. pose proof (co_holders_insert private_at e ts t _ (Thread c' rest) Ht) as Hh.
    cbn [at_pc] in Hh. pose proof (safe_private _ _ _ _ Hsafe e) as Hp.
    unfold holding in Hh. destruct (decide (private_at c' = Some e)) as [Hc'|Hc'].
    + destruct (Hpriv e Hc') as [Hc|Hnone].
      * rewrite decide_True in Hh by done. lia.
      * rewrite (co_private_unknown e Hnone) in Hh. case_decide; lia.
    + case_decide; lia.
  - intros t' th' Ht'. destruct (decide (t' = t)) as [->|Hne].
    + rewrite list_lookup_insert_eq in Ht' by (by eapply lookup_lt_Some).
      injection Ht' as <-. split; [done|].
      by destruct (safe_threads _ _ _ _ Hsafe t _ Ht) as [_ ?].
    + rewrite list_lookup_insert_ne in Ht' by done.
      destruct (safe_threads _ _ _ _ Hsafe t' th' Ht') as [Hok' Htodo]. split; [|done].
      eapply co_pc_ok_frame; [| | | |exact Hok'].
      * intros i _. by rewrite Htab.
      * intros e x Hp Hx. apply Hframe; [|done|by eapply co_other_private].
        by destruct (co_pc_ok_private _ _ _ _ Hok' Hp).
      * intros i _. by rewrite HK.
      * intros e _. by rewrite HK.
Qed.

(** A step that changes nothing but the thread's control point. *)
Lemma co_safe_pure c' :
  in_insert c' = in_insert c → in_retrieve c' = in_retrieve c →
  (∀ e, private_at c' = Some e → private_at c = Some e) →
  pc_ok s (links <$> ls) c' →
  safe F s (<[t := Thread c' rest]> ts) ls.
Proof.
  intros Hi Hr Hp Hok.
  assert (shared_at F c' = shared_at F c ∧ exclusive_at F c' = exclusive_at F c) as [Hs He].
  { destruct F; cbn [shared_at exclusive_at]; by rewrite ?Hi, ?Hr. }
  apply co_safe_update; try done.
  - apply (safe_buckets _ _ _ _ Hsafe).
  - intros i l Hl. exists l. split; [done|]. unfold holding. rewrite Hs, He.
    destruct (safe_locks _ _ _ _ Hsafe i l Hl) as (_ & _ & ?). done.
  - intros e Hc'. left. by apply Hp.
Qed.

(** A call on the lock of bucket [i]. *)
Lemma co_safe_lock_step i l l' c' :
  index (bucket_locks s) i = Some l →
  (∀ j, j ≠ i → shared_at F c ≠ Some j ∧ shared_at F c' ≠ Some j ∧
                exclusive_at F c ≠ Some j ∧ exclusive_at F c' ≠ Some j) →
  (readers (view F l') + holding (shared_at F) i c
   = readers (view F l) + holding (shared_at F) i c')%nat →
  (Nat.b2n (writer (view F l')) + holding (exclusive_at F) i c
   = Nat.b2n (writer (view F l)) + holding (exclusive_at F) i c')%nat →
  (writer (view F l') = true → readers (view F l') = 0%nat) →
  (∀ e, private_at c' = Some e → private_at c = Some e) →
  pc_ok s (links <$> ls) c' →
  safe F (set_locks (<[Z.to_nat i := l']> (bucket_locks s)) s) (<[t := Thread c' rest]> ts) ls.
Proof.
  intros Hl Hother Hr Hw Hx Hp Hok. apply co_safe_update; try done.
  - apply (buckets_same_data s); [done|done|apply (safe_buckets _ _ _ _ Hsafe)].
  - cbn [bucket_locks set_locks]. by rewrite length_insert.
  - cbn [bucket_locks set_locks]. intros j lj Hlj.
    destruct (decide (j = i)) as [->|Hne].
    + rewrite (index_insert_eq _ _ _ _ Hl) in Hlj. injection Hlj as <-. eauto.
    + rewrite index_insert_ne in Hlj; [|by apply index_Some in Hl as [? _]|done].
      exists lj. split; [done|].
      destruct (Hother j Hne) as (? & ? & ? & ?). unfold holding.
      rewrite !decide_False by done.
      destruct (safe_locks _ _ _ _ Hsafe j lj Hlj) as (_ & _ & ?). done.
  - intros e Hc'. left. by apply Hp.
Qed.

(** [a->val = v] on an entry of a chain. *)
Lemma co_safe_store_step a v c' :
  (∃ l n, l ∈ ls ∧ n ∈ l ∧ node_addr n = a) →
  in_insert c' = in_insert c → in_retrieve c' = in_retrieve c →
  (∀ e, private_at c' = Some e → private_at c = Some e) →
  pc_ok s (links <$> ls) c' →
  safe F (set_heap (alter (with_val v) a (heap s)) s) (<[t := Thread c' rest]> ts)
       (chain_store a v <$> ls).
Proof.
  intros (l & n & Hl & Hn & Han) Hi Hr Hp Hok.
  assert (shared_at F c' = shared_at F c ∧ exclusive_at F c' = exclusive_at F c) as [Hs He].
  { destruct F; cbn [shared_at exclusive_at]; by rewrite ?Hi, ?Hr. }
  assert (links <$> (chain_store a v <$> ls) = links <$> ls) as HK.
  { rewrite <- list_fmap_compose. apply list_fmap_ext. intros i l0 _. apply links_store. }
  apply co_safe_update; try done.
  - apply buckets_store, (safe_buckets _ _ _ _ Hsafe).
  - intros i li Hli. exists li. split; [done|]. unfold holding. rewrite Hs, He.
    destruct (safe_locks _ _ _ _ Hsafe i li Hli) as (_ & _ & ?). done.
  - intros e0 Hc'. left. by apply Hp.
  - cbn [heap set_heap]. intros e0 x Hun Hx _. rewrite lookup_alter_ne; [done|].
    intros <-. by apply (unlinked_ne ls a l n).
  - rewrite HK. eapply co_pc_ok_frame; [| | | |exact Hok]; try done.
    cbn [heap set_heap]. intros e0 x Hpc' Hx. rewrite lookup_alter_ne; [done|].
    intros <-. destruct (co_pc_ok_private _ _ _ _ Hok Hpc') as [Hun _].
    by apply (unlinked_ne ls a l n).
Qed.

(** Writing a block that is in no chain. *)
Lemma co_safe_write_step e x c' :
  unlinked (links <$> ls) e →
  heap s !! e = None ∨ private_at c = Some e →
  in_insert c' = in_insert c → in_retrieve c' = in_retrieve c →
  (∀ e', private_at c' = Some e' → e' = e ∨ private_at c = Some e') →
  pc_ok (set_heap (<[e := x]> (heap s)) s) (links <$> ls) c' →
  safe F (set_heap (<[e := x]> (heap s)) s) (<[t := Thread c' rest]> ts) ls.
Proof.
  intros Hun Hmine Hi Hr Hp Hok.
  assert (shared_at F c' = shared_at F c ∧ exclusive_at F c' = exclusive_at F c) as [Hs He].
  { destruct F; cbn [shared_at exclusive_at]; by rewrite ?Hi, ?Hr. }
  apply co_safe_update; try done.
  - apply co_buckets_write; [done|apply (safe_buckets _ _ _ _ Hsafe)].
  - intros i li Hli. exists li. split; [done|]. unfold holding. rewrite Hs, He.
    destruct (safe_locks _ _ _ _ Hsafe i li Hli) as (_ & _ & ?). done.
  - intros e' Hc'. destruct (Hp e' Hc') as [->|?]; [|by left].
    destruct Hmine; [by right|by left].
  - cbn [heap set_heap]. intros e0 x0 _ Hx Hne. rewrite lookup_insert_ne; [done|].
    intros <-. destruct Hmine; congruence.
Qed.
End CoarseUpdate.

Section CoarsePublish.
Import Threads Coarse.
Variable F : file.
Variables (s : process (lock_type F) unit) (ts : list thread) (ls : list (list node)).
Hypothesis Hsafe : safe F s ts ls.
Variables (t : nat) (k v : Z) (e : positive) (rest : list Interleaving.call).
Hypothesis Ht : ts !! t = Some (Thread (I_publish k v e) rest).

(** [table[i] = e]: the new entry becomes the head of its chain. *)
Lemma co_safe_publish_step l :
  index ls (slot k) = Some l →
  safe F (set_table (<[Z.to_nat (slot k) := Some e]> (table s)) s)
       (<[t := Thread (I_unlock_linked k v) rest]> ts)
       (<[Z.to_nat (slot k) := Node e k v :: l]> ls).
Proof.
  intros Hl. pose proof (safe_buckets _ _ _ _ Hsafe) as Hb.
  destruct (safe_threads _ _ _ _ Hsafe t _ Ht) as [Hok Htodo].
  cbn [at_pc pc_ok todo] in Hok, Htodo.
  destruct Hok as (Hk & (lk & Hlk & Hout) & Hun & q & Hq & He).
  apply index_links in Hlk as (l' & Hl' & ->). rewrite Hl in Hl'. injection Hl' as <-.
  rewrite links_key in Hout.
  pose proof Hl as [Hk0 Hl']%index_Some.
  assert (∀ l0, l0 ∈ <[Z.to_nat (slot k) := Node e k v :: l]> ls →
                l0 = Node e k v :: l ∨ l0 ∈ ls) as Hin.
  { intros l0 [i Hi]%list_elem_of_lookup.
    destruct (decide (i = Z.to_nat (slot k))) as [->|Hne].
    - rewrite list_lookup_insert_eq in Hi by (by eapply lookup_lt_Some). left. congruence.
    - rewrite list_lookup_insert_ne in Hi by done. right. by eapply list_elem_of_lookup_2. }
  assert (links <$> <[Z.to_nat (slot k) := Node e k v :: l]> ls
          = <[Z.to_nat (slot k) := (e, k) :: links l]> (links <$> ls)) as HK.
  { by rewrite list_fmap_insert. }
  assert (exclusive_at F (I_publish k v e) = Some (slot k)) as Hex by (by destruct F).
  assert (∀ {A} `{EqDecision A} (f : pc → option A) x,
            f (I_unlock_linked k v) = f (I_publish k v e) →
            holders f x (<[t := Thread (I_unlock_linked k v) rest]> ts) = holders f x ts)
    as Hsame.
  { intros A ? f x Hf. by apply (co_holders_same f x ts t _ _ Ht). }
  split.
  - by apply (co_buckets_publish s ls k v q l e ()).
  - intros l0 [->|Hl0]%Hin; [|by apply (safe_keys _ _ _ _ Hsafe)].
    rewrite fmap_cons.
    by constructor; [|apply (safe_keys _ _ _ _ Hsafe l), (list_elem_of_lookup_2 _ _ _ Hl')].
  - apply (safe_locks_length _ _ _ _ Hsafe).
  - cbn [bucket_locks set_table]. intros i li Hli.
    destruct (safe_locks _ _ _ _ Hsafe i li Hli) as (Hr & Hw & Hx).
    split; [|split; [|done]]; rewrite Hsame; by destruct F.
  - intros e0.
    pose proof (co_holders_insert private_at e0 ts t _ (Thread (I_unlock_linked k v) rest) Ht)
      as Hh.
    pose proof (safe_private _ _ _ _ Hsafe e0). unfold holding in Hh.
    cbn [at_pc private_at] in Hh.
    rewrite (decide_False (P := None = Some e0)) in Hh by done. lia.
  - intros t' th' Ht'. destruct (decide (t' = t)) as [->|Hne].
    + rewrite list_lookup_insert_eq in Ht' by (by eapply lookup_lt_Some).
      injection Ht' as <-. split; [|done]. cbn [at_pc pc_ok]. split; [done|].
      exists ((e, k) :: links l). split.
      * rewrite HK. by eapply index_insert_eq, index_links; eauto.
      * rewrite fmap_cons. apply list_elem_of_here.
    + rewrite list_lookup_insert_ne in Ht' by done.
      destruct (safe_threads _ _ _ _ Hsafe t' th' Ht') as [Hok' Htodo']. split; [|done].
      destruct (co_other_section F s ts ls Hsafe t _ rest Ht t' th' (slot k) Hne Ht' Hex)
        as [Hni Hnr].
      eapply co_pc_ok_frame; [| | | |exact Hok'].
      * cbn [table set_table]. intros i Hi. apply index_insert_ne; [done|congruence].
      * done.
      * intros i Hi. rewrite HK. apply index_insert_ne; [done|].
        destruct Hi; congruence.
      * intros e' Hp' Hun' K' HK'. rewrite HK in HK'.
        apply list_elem_of_lookup in HK' as [i Hi].
        destruct (decide (i = Z.to_nat (slot k))) as [->|Hnei].
        -- rewrite list_lookup_insert_eq in Hi
             by (rewrite length_fmap; by eapply lookup_lt_Some).
           injection Hi as <-. rewrite fmap_cons. cbn [fst].
           apply not_elem_of_cons. split.
           ++ intros ->. by eapply (co_other_private F s ts ls Hsafe t _ rest Ht t' th' e).
           ++ apply Hun'. apply list_elem_of_fmap. exists l. split; [done|].
              by apply (list_elem_of_lookup_2 _ _ _ Hl').
        -- rewrite list_lookup_insert_ne in Hi by done. apply Hun'.
           by eapply list_elem_of_lookup_2.
Qed.
End CoarsePublish.

Section CoarseLocks.
Import Threads Coarse.

Lemma co_grows_refl c0 ls0 : grows c0 ls0 ls0.
Proof. split; [done|]. split; [|by left]. intros l n Hl Hn. left. eauto. Qed.

Lemma co_valid_key_lock {L M} (s : process L M) k :
  length (bucket_locks s) = Z.to_nat NUM_BUCKETS → valid_key k →
  is_Some (index (bucket_locks s) (slot k)).
Proof.
  intros Hlen Hk. unfold index. rewrite decide_True by (unfold valid_key in Hk; lia).
  apply lookup_lt_is_Some. unfold valid_key in Hk. lia.
Qed.

Ltac co_count Hs Hs' He He' :=
  unfold holding; rewrite ?Hs, ?Hs', ?He, ?He'; cbn [view readers writer Nat.b2n] in *;
  repeat case_decide; try congruence;
  repeat match goal with H : _ = _ |- _ => rewrite H end;
  cbn [Nat.b2n]; try done; try lia.

(** Line 38. *)
Lemma co_insert_lock_safe F s ts ls t c rest k c' :
  safe F s ts ls → ts !! t = Some (Thread c rest) →
  valid_key k →
  in_insert c = None → in_retrieve c = None →
  in_insert c' = Some (slot k) → in_retrieve c' = None →
  (∀ e, private_at c' = Some e → private_at c = Some e) →
  pc_ok s (links <$> ls) c' →
  step_safe F ls ts t c rest ((insert_lock F (slot k);; mret c') s).
Proof.
  intros Hsafe Ht Hk Hi Hr Hi' Hr' Hp Hok.
  destruct (co_valid_key_lock s k (safe_locks_length _ _ _ _ Hsafe) Hk) as [l Hl].
  assert (∀ j, j ≠ slot k →
            shared_at F c ≠ Some j ∧ shared_at F c' ≠ Some j ∧
            exclusive_at F c ≠ Some j ∧ exclusive_at F c' ≠ Some j) as Hother.
  { intros j Hj. destruct F; cbn [shared_at exclusive_at]; rewrite ?Hi, ?Hr, ?Hi', ?Hr';
      repeat split; congruence. }
  assert (shared_at F c = None ∧ shared_at F c' = None ∧ exclusive_at F c = None ∧
          exclusive_at F c' = Some (slot k)) as (Hs & Hs' & He & He').
  { destruct F; cbn [shared_at exclusive_at]; by rewrite ?Hi, ?Hr, ?Hi', ?Hr'. }
  unfold mbind, prog_bind.
  destruct F; cbn [insert_lock lock_type] in *.
  - unfold Spin.pthread_spin_lock. rewrite Hl. destruct l; [done|].
    exists ls. split; [|by apply co_grows_refl].
    apply (co_safe_lock_step Spinlocks s ts ls Hsafe t c rest Ht (slot k) false); try done;
      co_count Hs Hs' He He'.
  - unfold pthread_rwlock_wrlock. rewrite Hl.
    destruct (writer l) eqn:Hw; [done|]. destruct (readers l) as [|r] eqn:Hrd; [|done].
    exists ls. split; [|by apply co_grows_refl].
    apply (co_safe_lock_step RwLocks s ts ls Hsafe t c rest Ht (slot k) l); try done;
      co_count Hs Hs' He He'.
Qed.

(** Line 67. *)
Lemma co_retrieve_lock_safe F s ts ls t c rest k c' :
  safe F s ts ls → ts !! t = Some (Thread c rest) →
  valid_key k →
  in_insert c = None → in_retrieve c = None →
  in_insert c' = None → in_retrieve c' = Some (slot k) →
  (∀ e, private_at c' = Some e → private_at c = Some e) →
  pc_ok s (links <$> ls) c' →
  step_safe F ls ts t c rest ((retrieve_lock F (slot k);; mret c') s).
Proof.
  intros Hsafe Ht Hk Hi Hr Hi' Hr' Hp Hok.
  destruct (co_valid_key_lock s k (safe_locks_length _ _ _ _ Hsafe) Hk) as [l Hl].
  assert (∀ j, j ≠ slot k →
            shared_at F c ≠ Some j ∧ shared_at F c' ≠ Some j ∧
            exclusive_at F c ≠ Some j ∧ exclusive_at F c' ≠ Some j) as Hother.
  { intros j Hj. destruct F; cbn [shared_at exclusive_at]; rewrite ?Hi, ?Hr, ?Hi', ?Hr';
      repeat split; congruence. }
  assert (shared_at F c = None ∧ exclusive_at F c = None) as (Hs & He).
  { destruct F; cbn [shared_at exclusive_at]; by rewrite ?Hi, ?Hr. }
  unfold mbind, prog_bind.
  destruct F; cbn [retrieve_lock lock_type] in *.
  - assert (shared_at Spinlocks c' = None ∧ exclusive_at Spinlocks c' = Some (slot k))
      as [Hs' He'] by (cbn [shared_at exclusive_at]; by rewrite Hi', Hr').
    unfold Spin.pthread_spin_lock. rewrite Hl. destruct l; [done|].
    exists ls. split; [|by apply co_grows_refl].
    apply (co_safe_lock_step Spinlocks s ts ls Hsafe t c rest Ht (slot k) false); try done;
      co_count Hs Hs' He He'.
  - assert (shared_at RwLocks c' = Some (slot k) ∧ exclusive_at RwLocks c' = None)
      as [Hs' He'] by (cbn [shared_at exclusive_at]; by rewrite Hi', Hr').
    unfold pthread_rwlock_rdlock. rewrite Hl.
    destruct (writer l) eqn:Hw; [done|].
    exists ls. split; [|by apply co_grows_refl].
    apply (co_safe_lock_step RwLocks s ts ls Hsafe t c rest Ht (slot k) l); try done;
      co_count Hs Hs' He He'.
Qed.

(** Lines 45, 53, 61, 74, 81 and 86. *)
Lemma co_release_safe F s ts ls t c rest k c' :
  safe F s ts ls → ts !! t = Some (Thread c rest) →
  valid_key k →
  (in_insert c = Some (slot k) ∧ in_retrieve c = None) ∨
  (in_insert c = None ∧ in_retrieve c = Some (slot k)) →
  in_insert c' = None → in_retrieve c' = None →
  (∀ e, private_at c' = Some e → private_at c = Some e) →
  pc_ok s (links <$> ls) c' →
  step_safe F ls ts t c rest ((release F (slot k);; mret c') s).
Proof.
  intros Hsafe Ht Hk Hmode Hi' Hr' Hp Hok.
  destruct (co_valid_key_lock s k (safe_locks_length _ _ _ _ Hsafe) Hk) as [l Hl].
  destruct (safe_locks _ _ _ _ Hsafe _ _ Hl) as (Hrd & Hw & Hx).
  assert (∀ j, j ≠ slot k →
            shared_at F c ≠ Some j ∧ shared_at F c' ≠ Some j ∧
            exclusive_at F c ≠ Some j ∧ exclusive_at F c' ≠ Some j) as Hother.
  { intros j Hj. destruct Hmode as [[Hi Hr]|[Hi Hr]];
      destruct F; cbn [shared_at exclusive_at]; rewrite ?Hi, ?Hr, ?Hi', ?Hr';
      repeat split; congruence. }
  assert (shared_at F c' = None ∧ exclusive_at F c' = None) as (Hs' & He').
  { destruct F; cbn [shared_at exclusive_at]; by rewrite ?Hi', ?Hr'. }
  unfold mbind, prog_bind.
  destruct F; cbn [release lock_type view] in *.
  - assert (shared_at Spinlocks c = None ∧ exclusive_at Spinlocks c = Some (slot k))
      as [Hs He].
    { destruct Hmode as [[Hi Hr]|[Hi Hr]]; cbn [shared_at exclusive_at]; by rewrite Hi, ?Hr. }
    pose proof (co_holders_pos (exclusive_at Spinlocks) (slot k) ts t _ Ht He) as Hpos.
    unfold Spin.pthread_spin_unlock. rewrite Hl.
    destruct l; [|simpl in Hw; lia].
    exists ls. split; [|by apply co_grows_refl].
    apply (co_safe_lock_step Spinlocks s ts ls Hsafe t c rest Ht (slot k) true); try done;
      clear Hrd Hw Hx Hpos; co_count Hs Hs' He He'.
  - unfold pthread_rwlock_unlock. rewrite Hl.
    destruct Hmode as [[Hi Hr]|[Hi Hr]].
    + assert (shared_at RwLocks c = None ∧ exclusive_at RwLocks c = Some (slot k))
        as [Hs He] by (cbn [shared_at exclusive_at]; by rewrite Hi, ?Hr).
      pose proof (co_holders_pos (exclusive_at RwLocks) (slot k) ts t _ Ht He) as Hpos.
      destruct (writer l) eqn:Hwl; [|simpl in Hw; lia].
      exists ls. split; [|by apply co_grows_refl].
      apply (co_safe_lock_step RwLocks s ts ls Hsafe t c rest Ht (slot k) l); try done;
        clear Hrd Hw Hx Hpos; co_count Hs Hs' He He'.
    + assert (shared_at RwLocks c = Some (slot k) ∧ exclusive_at RwLocks c = None)
        as [Hs He] by (cbn [shared_at exclusive_at]; by rewrite Hi, ?Hr).
      pose proof (co_holders_pos (shared_at RwLocks) (slot k) ts t _ Ht Hs) as Hpos.
      destruct (writer l) eqn:Hwl; [specialize (Hx eq_refl); lia|].
      destruct (readers l) as [|r] eqn:Hrl; [lia|].
      exists ls. split; [|by apply co_grows_refl].
      apply (co_safe_lock_step RwLocks s ts ls Hsafe t c rest Ht (slot k) l); try done;
        clear Hrd Hw Hx Hpos; co_count Hs Hs' He He'.
Qed.
End CoarseLocks.

Section CoarseSteps.
Import Threads Coarse.
Variable F : file.
Variable allocator : gset positive → ptr.
Hypothesis allocator_fresh : ∀ d a, allocator d = Some a → a ∉ d.

Lemma co_grows_store {L M} (s : process L M) ls k v a :
  buckets s ls → entry_at (links <$> ls) k a →
  grows (I_store k v a) ls (chain_store a v <$> ls).
Proof.
  intros Hb Hen.
  assert (links <$> (chain_store a v <$> ls) = links <$> ls) as HK.
  { rewrite <- list_fmap_compose. apply list_fmap_ext. intros i l0 _. apply links_store. }
  split; [by rewrite HK|]. split; [|by left].
  - intros l' n (l & -> & Hl)%list_elem_of_fmap Hn.
    unfold chain_store in Hn. apply list_elem_of_fmap in Hn as (n0 & -> & Hn0).
    case_decide as Ha; [|left; eauto]. right. cbn [inserting node_key node_val].
    destruct (entry_at_node s ls k a Hb Hen) as (l1 & n1 & e & _ & Hl1 & Hn1 & Ha1 & Hk1 & _).
    apply list_elem_of_lookup in Hl as [i Hi]. apply list_elem_of_lookup in Hl1 as [i1 Hi1].
    destruct (buckets_addr_unique s ls i i1 l l1 n0 n1 Hb Hi Hi1 Hn0 Hn1) as [_ Hkey];
      [congruence|]. congruence.
Qed.

Lemma co_grows_publish ls k v e l :
  index ls (slot k) = Some l →
  grows (I_publish k v e) ls (<[Z.to_nat (slot k) := Node e k v :: l]> ls).
Proof.
  intros Hl. pose proof Hl as [Hk0 Hl']%index_Some. split; [|split].
  - intros k0 (lk & (l0 & Hl0 & ->)%index_links & Hin).
    destruct (decide (slot k0 = slot k)) as [Heq|Hne].
    + rewrite Heq in *. rewrite Hl in Hl0. injection Hl0 as <-.
      exists (links (Node e k v :: l)). split.
      * apply index_links. exists (Node e k v :: l). split; [|done].
        rewrite Heq. by eapply index_insert_eq.
      * unfold links at 1. rewrite fmap_cons, fmap_cons. by apply list_elem_of_further.
    + exists (links l0). split; [|done]. apply index_links. exists l0. split; [|done].
      by rewrite index_insert_ne.
  - intros l' n [i Hi]%list_elem_of_lookup Hn.
    destruct (decide (i = Z.to_nat (slot k))) as [->|Hne].
    + rewrite list_lookup_insert_eq in Hi by (by eapply lookup_lt_Some).
      injection Hi as <-. apply elem_of_cons in Hn as [->|Hn]; [by right|].
      left. exists l. split; [|done]. by eapply list_elem_of_lookup_2.
    + rewrite list_lookup_insert_ne in Hi by done. left. exists l'. split; [|done].
      by eapply list_elem_of_lookup_2.
  - right. exists k, v, e. split; [done|]. intros i Hi.
    rewrite list_fmap_insert. by apply index_insert_ne.
Qed.

Ltac co_same :=
  try first [done | by intros ? [=] | by split | by left | by right
            | by intros ? [= <-]; left | by eapply unlinked_fresh].

(** Whatever thread takes the next step, the invariant holds after it. *)
Lemma co_safe_step s ts ls t c rest :
  safe F s ts ls → ts !! t = Some (Thread c rest) →
  step_safe F ls ts t c rest (step_of F allocator c s).
Proof.
  intros Hsafe Ht. destruct (safe_threads _ _ _ _ Hsafe t _ Ht) as [Hok _].
  pose proof (safe_buckets _ _ _ _ Hsafe) as Hb. cbn [at_pc] in Hok.
  destruct c as [ |k v|k v|k v cur|k v a|k v|k v|k v| |k v e|k v e|k v
                  |k|k|k cur|k a|k| |k a e|k e|k];
    cbn [step_of pc_ok] in *.
  - (* Idle *) done.
  - (* I_lock *)
    by apply (co_insert_lock_safe F s ts ls t _ rest k _ Hsafe Ht).
  - (* I_head *)
    destruct (at_cursor_head s ls k true Hb Hok) as (p & Hp & Hcur).
    unfold mbind, prog_bind, get_table. rewrite Hp. exists ls. split; [|by apply co_grows_refl].
    apply (co_safe_pure F s ts ls Hsafe t _ rest Ht); co_same.
  - (* I_test *)
    destruct Hok as [Hk Hcur]. destruct cur as [a|].
    + destruct (at_cursor_step s ls k a true Hb Hcur) as (e & He & Hhit & Hmiss).
      unfold mbind, prog_bind, load. rewrite He. exists ls.
      split; [|by apply co_grows_refl]. case_decide.
      * apply (co_safe_pure F s ts ls Hsafe t _ rest Ht); co_same. split; [done|]. by apply Hhit.
      * apply (co_safe_pure F s ts ls Hsafe t _ rest Ht); co_same. split; [done|]. by apply Hmiss.
    + exists ls. split; [|by apply co_grows_refl].
      apply (co_safe_pure F s ts ls Hsafe t _ rest Ht); co_same. split; [done|].
      by apply at_cursor_end.
  - (* I_store *)
    destruct Hok as [Hk Hen].
    destruct (entry_at_node s ls k a Hb Hen) as (l & n & e & _ & Hl & Hn & Ha & _ & Hea & _).
    unfold mbind, prog_bind, store_val. rewrite Hea. exists (chain_store a v <$> ls).
    split; [|by eapply co_grows_store].
    apply (co_safe_store_step F s ts ls Hsafe t _ rest Ht); co_same; [by eauto|].
    split; [done|]. by eapply entry_at_key_in.
  - (* I_unlock_found *)
    destruct Hok as [Hk _].
    apply (co_release_safe F s ts ls t _ rest k _ Hsafe Ht); co_same.
  - (* I_malloc *)
    destruct Hok as [Hk Hout]. unfold mbind, prog_bind, malloc.
    destruct (allocator (dom (heap s))) as [e|] eqn:Hal.
    + assert (heap s !! e = None) as He.
      { apply not_elem_of_dom. by apply allocator_fresh. }
      exists ls. split; [|by apply co_grows_refl].
      apply (co_safe_write_step F s ts ls Hsafe t _ rest Ht); co_same.
      cbn [pc_ok heap set_heap]. split; [done|]. split; [done|].
        split; [by eapply unlinked_fresh|]. exists None. apply lookup_insert_eq.
    + exists ls. split; [|by apply co_grows_refl].
      apply (co_safe_pure F s ts ls Hsafe t _ rest Ht); co_same.
  - (* I_unlock_failed *)
    apply (co_release_safe F s ts ls t _ rest k _ Hsafe Ht); co_same.
  - (* I_panic *) done.
  - (* I_set_next *)
    destruct Hok as (Hk & Hout & Hun & q & He).
    destruct (valid_key_bucket s ls k Hb Hk) as (p & l & Hp & _).
    unfold mbind, prog_bind, get_table, set_next. rewrite Hp, He. exists ls.
    split; [|by apply co_grows_refl].
    apply (co_safe_write_step F s ts ls Hsafe t _ rest Ht); co_same.
    cbn [pc_ok heap table set_heap key val entry_mutex]. split; [done|]. split; [done|].
      split; [done|]. exists p. split; [done|]. apply lookup_insert_eq.
  - (* I_publish *)
    destruct Hok as (Hk & Hout & Hun & q & Hq & He).
    destruct (valid_key_bucket s ls k Hb Hk) as (p & l & Hp & Hl & _).
    unfold mbind, prog_bind, put_table. rewrite Hq.
    exists (<[Z.to_nat (slot k) := Node e k v :: l]> ls).
    split; [by apply (co_safe_publish_step F s ts ls Hsafe t k v e rest Ht)|].
    by apply co_grows_publish.
  - (* I_unlock_linked *)
    destruct Hok as [Hk _].
    apply (co_release_safe F s ts ls t _ rest k _ Hsafe Ht); co_same.
  - (* R_lock *)
    by apply (co_retrieve_lock_safe F s ts ls t _ rest k _ Hsafe Ht).
  - (* R_head *)
    destruct (at_cursor_head s ls k false Hb Hok) as (p & Hp & Hcur).
    unfold mbind, prog_bind, get_table. rewrite Hp. exists ls. split; [|by apply co_grows_refl].
    apply (co_safe_pure F s ts ls Hsafe t _ rest Ht); co_same.
  - (* R_test *)
    destruct Hok as [Hk Hcur]. destruct cur as [a|].
    + destruct (at_cursor_step s ls k a false Hb Hcur) as (e & He & Hhit & Hmiss).
      unfold mbind, prog_bind, load. rewrite He. exists ls.
      split; [|by apply co_grows_refl]. case_decide.
      * apply (co_safe_pure F s ts ls Hsafe t _ rest Ht); co_same. split; [done|]. by apply Hhit.
      * apply (co_safe_pure F s ts ls Hsafe t _ rest Ht); co_same. split; [done|]. by apply Hmiss.
    + exists ls. split; [|by apply co_grows_refl].
      apply (co_safe_pure F s ts ls Hsafe t _ rest Ht); co_same.
  - (* R_malloc *)
    destruct Hok as [Hk Hen]. unfold mbind, prog_bind, malloc.
    destruct (allocator (dom (heap s))) as [e|] eqn:Hal.
    + assert (heap s !! e = None) as He.
      { apply not_elem_of_dom. by apply allocator_fresh. }
      exists ls. split; [|by apply co_grows_refl].
      apply (co_safe_write_step F s ts ls Hsafe t _ rest Ht); co_same.
      cbn [pc_ok heap set_heap]. split; [done|]. split; [done|].
        split; [by eapply unlinked_fresh|]. rewrite lookup_insert_eq. by eexists.
    + exists ls. split; [|by apply co_grows_refl].
      apply (co_safe_pure F s ts ls Hsafe t _ rest Ht); co_same.
  - (* R_unlock_failed *)
    apply (co_release_safe F s ts ls t _ rest k _ Hsafe Ht); co_same.
  - (* R_panic *) done.
  - (* R_copy *)
    destruct Hok as (Hk & Hen & Hun & Hlive).
    destruct (entry_at_node s ls k a Hb Hen) as (l & n & x & _ & Hl & Hn & Ha & _ & Hea & _).
    unfold mbind, prog_bind, load. rewrite Hea. exists ls. split; [|by apply co_grows_refl].
    apply (co_safe_write_step F s ts ls Hsafe t _ rest Ht); co_same.
  - (* R_unlock_found *)
    apply (co_release_safe F s ts ls t _ rest k _ Hsafe Ht); co_same.
  - (* R_unlock_missing *)
    apply (co_release_safe F s ts ls t _ rest k _ Hsafe Ht); co_same.
Qed.
End CoarseSteps.

Section CoarseMachine.
Import Threads Coarse.
Variable F : file.
Variable allocator : gset positive → ptr.
Hypothesis allocator_fresh : ∀ d a, allocator d = Some a → a ∉ d.
Implicit Types (s : process (lock_type F) unit) (ts : list thread) (ls : list (list node)).

Lemma co_step_cases s ts t m' :
  step F allocator (Running s ts) t = Some m' →
  ∃ c rest, ts !! t = Some (Thread c rest) ∧
    ((∃ call rest', c = Idle ∧ rest = call :: rest' ∧
        m' = Running s (<[t := Thread (enter call) rest']> ts)) ∨
     (∃ c' s', step_of F allocator c s = Return c' s' ∧
        m' = Running s' (<[t := Thread c' rest]> ts)) ∨
     (∃ status s', step_of F allocator c s = Exit status s' ∧ m' = Exited status s') ∨
     (step_of F allocator c s = Undefined ∧ m' = Crashed)).
Proof.
  cbn [step]. destruct (ts !! t) as [[c rest]|]; [|done]. intros Hstep.
  exists c, rest. split; [done|].
  assert (c = Idle ∨
          match step_of F allocator c s with
          | Return c' s' => Some (Running s' (<[t := Thread c' rest]> ts))
          | Exit status s' => Some (Exited status s')
          | Hang => None
          | Undefined => Some Crashed
          end = Some m') as [->|Hstep'] by (destruct c; auto).
  - destruct rest as [|call rest']; [done|]. injection Hstep as <-. left. eauto.
  - right. destruct (step_of F allocator c s) as [c' s'|status s'| |]; simplify_eq; eauto 10.
Qed.

(** A thread that starts its next call. *)
Lemma co_safe_enter s ts ls t call rest :
  safe F s ts ls → ts !! t = Some (Thread Idle (call :: rest)) →
  safe F s (<[t := Thread (enter call) rest]> ts) ls.
Proof.
  intros Hsafe Ht. destruct (safe_threads _ _ _ _ Hsafe t _ Ht) as [_ Htodo].
  cbn [todo] in Htodo. apply Forall_cons in Htodo as [Hcall Hrest].
  assert (∀ {A} `{EqDecision A} (f : pc → option A) x,
            f (enter call) = None → f Idle = None →
            holders f x (<[t := Thread (enter call) rest]> ts) = holders f x ts) as Hsame.
  { intros A ? f x H1 H2. apply (co_holders_same f x ts t _ _ Ht). cbn [at_pc]. congruence. }
  split.
  - apply (safe_buckets _ _ _ _ Hsafe).
  - apply (safe_keys _ _ _ _ Hsafe).
  - apply (safe_locks_length _ _ _ _ Hsafe).
  - intros i l Hl. destruct (safe_locks _ _ _ _ Hsafe i l Hl) as (Hr & Hw & Hx).
    split; [|split; [|done]]; rewrite Hsame; by destruct F, call.
  - intros e. rewrite Hsame by (by destruct call). apply (safe_private _ _ _ _ Hsafe).
  - intros t' th' Ht'. destruct (decide (t' = t)) as [->|Hne].
    + rewrite list_lookup_insert_eq in Ht' by (by eapply lookup_lt_Some).
      injection Ht' as <-. split; [|done]. by destruct call.
    + rewrite list_lookup_insert_ne in Ht' by done. by apply (safe_threads _ _ _ _ Hsafe t').
Qed.

(** Where a step leaves the thread: in the same [insert], on its way to
    [exit], or back from a call; and an [insert] only returns once its
    key is in the table. *)
Lemma co_step_of_inserting s K c c' s' :
  pc_ok s K c → step_of F allocator c s = Return c' s' →
  inserting c' = inserting c ∨ c' = I_panic ∨
  (c' = Idle ∧ ∀ k v, inserting c = Some (k, v) → key_in K k).
Proof.
  intros Hok Hstep.
  destruct c; cbn [step_of pc_ok] in *;
    unfold mbind, prog_bind, mret, prog_ret, hang, panic, malloc in Hstep;
    repeat case_match; simplify_eq; cbn [inserting]; auto;
    right; right; (split; [done|]); intros ? ? [= <- <-]; tauto.
Qed.

Lemma co_follows_mono K K' todo0 th :
  (∀ k, key_in K k → key_in K' k) → follows K todo0 th → follows K' todo0 th.
Proof.
  intros Hmono (H1 & H2 & H3). split; [done|]. split; [done|].
  intros k v Hin. destruct (H3 k v Hin) as [?|[?|[?|?]]]; auto.
Qed.

Lemma co_history_update ls0 ts0 ts ls ls' t th th' :
  history ls0 ts0 ts ls → ts !! t = Some th →
  grows (at_pc th) ls ls' →
  (∀ todo0, follows (links <$> ls) todo0 th → follows (links <$> ls') todo0 th') →
  history ls0 ts0 (<[t := th']> ts) ls'.
Proof.
  intros [Hkept Horigin Hfollows] Ht (Hmono & Hnew & _) Hth. split.
  - intros k Hk. by apply Hmono, Hkept.
  - intros l' n Hl' Hn. destruct (Hnew l' n Hl' Hn) as [(l & Hl & Hnl)|Hins].
    + by apply (Horigin l n).
    + right. destruct (Forall2_lookup_r _ _ _ _ _ Hfollows Ht) as (th0 & Ht0 & _ & Hcur & _).
      exists th0. split; [by eapply list_elem_of_lookup_2|]. by apply Hcur.
  - destruct (Forall2_lookup_r _ _ _ _ _ Hfollows Ht) as (th0 & Ht0 & Hf).
    rewrite <- (list_insert_id ts0 t th0 Ht0). apply Forall2_insert; [|by apply Hth].
    eapply Forall2_impl; [exact Hfollows|]. intros th1 th2. by apply co_follows_mono.
Qed.

(** One step of the process. *)
Lemma co_machine_safe_step ls0 ts0 m t m' :
  machine_safe F ls0 ts0 m → step F allocator m t = Some m' → machine_safe F ls0 ts0 m'.
Proof.
  destruct m as [s ts| |]; [|done|done]. intros (ls & Hsafe & Hhist) Hstep.
  destruct (co_step_cases s ts t m' Hstep) as (c & rest & Ht & Hcases).
  destruct (safe_threads _ _ _ _ Hsafe t _ Ht) as [Hok _]. cbn [at_pc] in Hok.
  destruct Hcases as [(call & rest' & -> & -> & ->)|[(c' & s' & Hc & ->)|
                      [(status & s' & Hc & ->)|[Hc ->]]]].
  - exists ls. split; [by apply co_safe_enter|].
    apply (co_history_update ls0 ts0 ts ls ls t _ _ Hhist Ht); [by apply co_grows_refl|].
    intros todo0 (H1 & H2 & H3). unfold follows. cbn [todo at_pc] in *. split; [|split].
    + intros c Hc. apply H1. by apply list_elem_of_further.
    + intros k v Hin. apply H1. destruct call; [|done]. injection Hin as -> ->.
      apply list_elem_of_here.
    + intros k v Hin. destruct (H3 k v Hin) as [[<-|?]%elem_of_cons|[?|[?|?]]];
        [by right; left|by left|done|by right; right; left|done].
  - pose proof (co_safe_step F allocator allocator_fresh s ts ls t c rest Hsafe Ht) as Hs.
    rewrite Hc in Hs. destruct Hs as (ls' & Hsafe' & Hgrows).
    exists ls'. split; [done|].
    apply (co_history_update ls0 ts0 ts ls ls' t _ _ Hhist Ht); [done|].
    intros todo0 (H1 & H2 & H3). unfold follows. cbn [todo at_pc] in *.
    destruct (co_step_of_inserting s (links <$> ls) c c' s' Hok Hc) as [Hi|[->|[-> Hi]]].
    + split; [done|]. split; [by rewrite Hi|]. intros k v Hin. rewrite Hi.
      destruct (H3 k v Hin) as [?|[?|[?| ->]]];
        [by left|by right; left|right; right; left; by apply Hgrows|done].
    + split; [done|]. split; [done|]. auto.
    + split; [done|]. split; [done|]. intros k v Hin.
      destruct (H3 k v Hin) as [?|[?|[?| ->]]];
        [by left|right; right; left|right; right; left; by apply Hgrows|done].
      apply Hgrows. by eapply Hi.
  - pose proof (co_safe_step F allocator allocator_fresh s ts ls t c rest Hsafe Ht) as Hs.
    by rewrite Hc in Hs.
  - pose proof (co_safe_step F allocator allocator_fresh s ts ls t c rest Hsafe Ht) as Hs.
    by rewrite Hc in Hs.
Qed.

Lemma co_machine_safe_run ls0 ts0 schedule : ∀ m,
  machine_safe F ls0 ts0 m → machine_safe F ls0 ts0 (run F allocator schedule m).
Proof.
  induction schedule as [|t schedule IH]; intros m Hm; [done|].
  cbn [run]. destruct (step F allocator m t) as [m'|] eqn:Hstep; [|by apply IH].
  apply IH. by eapply co_machine_safe_step.
Qed.

Lemma co_all_idle_holders {A} `{EqDecision A} (f : pc → option A) x ts :
  f Idle = None → Forall (λ th, at_pc th = Idle) ts → holders f x ts = 0%nat.
Proof.
  intros Hf Hall. apply co_holders_zero. intros t th Ht.
  rewrite Forall_forall in Hall. rewrite (Hall th) by (by eapply list_elem_of_lookup_2).
  by rewrite Hf.
Qed.

(** The invariant holds when the threads are started on a table at rest. *)
Lemma co_machine_safe_init s0 ls0 ts0 :
  consistent (unlocked F) () s0 ls0 →
  Forall (λ th, at_pc th = Idle ∧ Forall valid_call (todo th)) ts0 →
  machine_safe F ls0 ts0 (Running s0 ts0).
Proof.
  intros (Hb & [Hlk Hmx] & Hnd) Hts.
  assert (Forall (λ th, at_pc th = Idle) ts0) as Hidle.
  { eapply Forall_impl; [exact Hts|]. by intros th [? _]. }
  exists ls0. split; [split|split].
  - done.
  - done.
  - by rewrite Hlk, length_replicate.
  - intros i l. rewrite Hlk, index_replicate. case_decide; [|done]. intros [= <-].
    unfold lock_counts. rewrite !co_all_idle_holders by (by destruct F). by destruct F.
  - intros e. rewrite co_all_idle_holders by done. lia.
  - intros t th Ht. rewrite Forall_forall in Hts.
    destruct (Hts th) as [-> ?]; [by eapply list_elem_of_lookup_2|]. done.
  - done.
  - intros l n Hl Hn. left. eauto.
  - apply Forall_Forall2_diag. eapply Forall_impl; [exact Hidle|].
    intros th Hth. unfold follows. rewrite Hth. split; [done|]. split; [done|]. auto.
Qed.

(** Once every thread has returned from its last call the table is at
    rest again. *)
Lemma co_safe_finished s ts ls :
  safe F s ts ls → Forall (finished) ts → consistent (unlocked F) () s ls.
Proof.
  intros Hsafe Hfin.
  assert (Forall (λ th, at_pc th = Idle) ts) as Hidle.
  { eapply Forall_impl; [exact Hfin|]. by intros th [? _]. }
  split; [apply (safe_buckets _ _ _ _ Hsafe)|].
  split; [split|apply (safe_keys _ _ _ _ Hsafe)].
  - apply (list_eq_same_length _ _ (Z.to_nat NUM_BUCKETS));
      [by rewrite length_replicate|apply (safe_locks_length _ _ _ _ Hsafe)|].
    intros i l l' Hi Hl Hl'. apply lookup_replicate in Hl' as [-> _].
    destruct (safe_locks _ _ _ _ Hsafe (Z.of_nat i) l) as (Hr & Hw & _).
    { apply index_Some. rewrite Nat2Z.id. split; [lia|done]. }
    rewrite !co_all_idle_holders in * by (by destruct F).
    destruct F; cbn [lock_type view unlocked readers writer] in *.
    + by destruct l.
    + destruct l as [r [|]]; simpl in *; [done|]. by subst.
  - intros l Hl n e Hn He. by destruct (entry_mutex e).
Qed.

(** And the key of every [insert] a thread was started with is in it. *)
Lemma co_history_finished ls0 ts0 ts ls th0 k v :
  history ls0 ts0 ts ls → Forall finished ts →
  th0 ∈ ts0 → Interleaving.Insert k v ∈ todo th0 → key_in (links <$> ls) k.
Proof.
  intros [_ _ Hfollows] Hfin [t Ht0]%list_elem_of_lookup Hin.
  destruct (Forall2_lookup_l _ _ _ _ _ Hfollows Ht0) as (th & Ht & _ & _ & Hdone).
  rewrite Forall_forall in Hfin. destruct (Hfin th) as [Hpc Htodo];
    [by eapply list_elem_of_lookup_2|].
  destruct (Hdone k v Hin) as [Hleft|[Hcur|[?|Hpanic]]]; [| |done|].
  - rewrite Htodo in Hleft. by apply elem_of_nil in Hleft.
  - by rewrite Hpc in Hcur.
  - by rewrite Hpc in Hpanic.
Qed.
End CoarseMachine.

Section CoarseNoDeadlock.
Import Threads Coarse.
Variable F : file.
Variable allocator : gset positive → ptr.
Implicit Types (s : process (lock_type F) unit) (ts : list thread) (ls : list (list node)).

Lemma co_finished_dec (th : thread) : finished th ∨ ¬ finished th.
Proof.
  destruct th as [c rest]. unfold finished. cbn [at_pc todo].
  destruct rest; [|by right; intros [_ ?]].
  destruct c; first [by left | by right; intros [? _]].
Qed.

(** A thread that is not idle and whose next statement does not wait can
    take its step. *)
Lemma co_step_enabled s ts t c rest :
  ts !! t = Some (Thread c rest) → c ≠ Idle → step_of F allocator c s ≠ Hang →
  is_Some (step F allocator (Running s ts) t).
Proof.
  intros Ht Hc Hhang. unfold step. rewrite Ht.
  destruct c; try done; destruct (step_of F allocator _ s); by eauto.
Qed.

(** Why a statement waits: for the lock of a bucket that is held, and
    the thread that waits is in no bucket itself. *)
Lemma co_step_of_waits s K c :
  pc_ok s K c → step_of F allocator c s = Hang →
  c = Idle ∨
  (in_insert c = None ∧ in_retrieve c = None ∧
   ∃ k l, valid_key k ∧ index (bucket_locks s) (slot k) = Some l ∧
          (writer (view F l) = true ∨ readers (view F l) ≠ 0%nat)).
Proof.
  intros Hok Hstep.
  destruct F; destruct c; cbn [step_of pc_ok in_insert in_retrieve lock_type view
                         insert_lock retrieve_lock release] in *;
    unfold mbind, prog_bind, mret, prog_ret, hang, panic, malloc, get_table, put_table, load,
      store_val, init_entry, set_next, pthread_rwlock_rdlock, pthread_rwlock_wrlock,
      pthread_rwlock_unlock, Spin.pthread_spin_lock, Spin.pthread_spin_unlock
      in Hstep;
    repeat case_match; simplify_eq; auto;
    try (right; repeat split; try done; eexists _, _; split; [eassumption|];
         split; [eassumption|]; auto; fail).
  right. repeat split; try done. eexists _, _. split; [eassumption|].
  split; [eassumption|]. right. cbn [view]. lia.
Qed.

(** A thread inside a bucket never waits. *)
Lemma co_section_holder_moves s ts ls t c rest i :
  safe F s ts ls → ts !! t = Some (Thread c rest) →
  in_insert c = Some i ∨ in_retrieve c = Some i →
  is_Some (step F allocator (Running s ts) t).
Proof.
  intros Hsafe Ht Hsec. destruct (safe_threads _ _ _ _ Hsafe t _ Ht) as [Hok _].
  cbn [at_pc] in Hok.
  apply (co_step_enabled s ts t c rest Ht); [by intros ->; destruct Hsec|].
  intros Hstep. destruct (co_step_of_waits s _ c Hok Hstep) as [->|(? & ? & _)].
  - by destruct Hsec.
  - destruct Hsec; congruence.
Qed.

(** No deadlock: unless every thread has finished, some thread can take
    a step. *)
Lemma co_safe_moves s ts ls :
  safe F s ts ls →
  Forall finished ts ∨ ∃ t, is_Some (step F allocator (Running s ts) t).
Proof.
  intros Hsafe.
  destruct (not_all finished ts co_finished_dec) as [?|(t & [c rest] & Ht & Hnot)];
    [by left|right].
  destruct (safe_threads _ _ _ _ Hsafe t _ Ht) as [Hok _]. cbn [at_pc] in Hok.
  assert (c = Idle ∨ c ≠ Idle) as [->|Hc] by (destruct c; auto).
  { exists t. unfold step. rewrite Ht. destruct rest; [|by eauto].
    by destruct Hnot. }
  destruct (step_of F allocator c s) eqn:Hstep.
  1-2,4: exists t; apply (co_step_enabled s ts t c rest Ht); [done|by rewrite Hstep].
  destruct (co_step_of_waits s _ c Hok Hstep)
    as [->|(_ & _ & k & l & Hk & Hl & Hheld)]; [done|].
  destruct (safe_locks _ _ _ _ Hsafe _ _ Hl) as (Hr & Hw & _).
  destruct Hheld as [Hwt|Hrd].
  - rewrite Hwt in Hw. simpl in Hw.
    destruct (co_holders_pos_inv (exclusive_at F) (slot k) ts) as (t' & [c' rest'] & Ht' & Hc');
      [lia|]. exists t'. apply (co_section_holder_moves s ts ls t' c' rest' (slot k) Hsafe Ht').
    cbn [at_pc] in Hc'. by apply (co_section_modes F); right.
  - destruct (co_holders_pos_inv (shared_at F) (slot k) ts) as (t' & [c' rest'] & Ht' & Hc');
      [lia|]. exists t'. apply (co_section_holder_moves s ts ls t' c' rest' (slot k) Hsafe Ht').
    cbn [at_pc] in Hc'. by apply (co_section_modes F); left.
Qed.
End CoarseNoDeadlock.

Section CoarseRanks.
Import Threads Coarse.
Variable F : file.
Variable allocator : gset positive → ptr.
Hypothesis allocator_fresh : ∀ d a, allocator d = Some a → a ∉ d.
Implicit Types (s : process (lock_type F) unit) (ts : list thread) (ls : list (list node)).
Implicit Types (K : list (list (positive * Z))) (N : nat).

(** The bound of a thread only depends on the chain of the bucket it is in. *)
Lemma co_pc_rank_frame N K K' c :
  (∀ i, in_insert c = Some i ∨ in_retrieve c = Some i → index K' i = index K i) →
  pc_rank N K' c = pc_rank N K c.
Proof.
  intros HK. destruct c; try done; cbn [pc_rank in_insert in_retrieve] in *;
    unfold scan_left; by rewrite HK by auto.
Qed.

(** Every step of a thread brings it nearer to the end of its call. *)
Lemma co_pc_rank_step N s ls c c' s' :
  buckets s ls → (∀ l, l ∈ ls → (length l ≤ N)%nat) → pc_ok s (links <$> ls) c →
  step_of F allocator c s = Return c' s' →
  (pc_rank N (links <$> ls) c' < pc_rank N (links <$> ls) c)%nat.
Proof.
  intros Hb Hlen Hok Hstep.
  assert (∀ k cur, scan_left (links <$> ls) k cur ≤ N)%nat as Hle.
  { intros k cur. apply scan_left_le. intros lk (l & -> & Hl)%list_elem_of_fmap.
    unfold links. rewrite length_fmap. by apply Hlen. }
  destruct c; cbn [step_of pc_ok] in *;
    unfold mbind, prog_bind, mret, prog_ret, hang, panic, malloc, load in Hstep;
    repeat case_match; simplify_eq; cbn [pc_rank];
    try match goal with
        | |- context [scan_left _ ?k (next ?e)] =>
            match goal with
            | He : heap _ !! ?a = Some e, Hcur : _ ∧ at_cursor _ k (Some ?a) ?w |- _ =>
                pose proof (at_cursor_rank _ ls k a w e Hb (proj2 Hcur) He)
            end
        end;
    try match goal with
        | |- context [scan_left _ ?k ?cur] => pose proof (Hle k cur)
        end;
    lia.
Qed.

(** No chain outgrows [chain_bound]. *)
Lemma co_chain_length_bound s ls0 ts0 ts ls l :
  safe F s ts ls → history ls0 ts0 ts ls → l ∈ ls →
  (length l ≤ chain_bound ls0 ts0)%nat.
Proof.
  intros Hsafe Hhist Hl. unfold chain_bound.
  set (call_key := λ c : Interleaving.call,
         match c with Interleaving.Insert k _ | Interleaving.Retrieve k => k end).
  rewrite <- (length_fmap node_key l), <- (length_fmap node_key (concat ls0)),
    <- (length_fmap call_key (concat (todo <$> ts0))), <- length_app.
  apply submseteq_length, NoDup_submseteq; [by apply (safe_keys _ _ _ _ Hsafe)|].
  intros k (n & -> & Hn)%list_elem_of_fmap. apply elem_of_app.
  destruct (history_origin _ _ _ _ Hhist l n Hl Hn) as [(l0 & Hl0 & Hn0)|(th0 & Hth0 & Hin)].
  - left. apply list_elem_of_fmap. exists n. split; [done|].
    apply elem_of_concat. eauto.
  - right. apply list_elem_of_fmap.
    exists (Interleaving.Insert (node_key n) (node_val n)). split; [done|].
    apply elem_of_concat. exists (todo th0). split; [|done].
    apply list_elem_of_fmap. eauto.
Qed.

Lemma co_pc_rank_pos N K c : c ≠ Idle → (1 ≤ pc_rank N K c)%nat.
Proof. destruct c; try done; intros _; cbn [pc_rank]; lia. Qed.

Lemma co_step_of_publish s k v e c' s' :
  step_of F allocator (I_publish k v e) s = Return c' s' → c' = I_unlock_linked k v.
Proof.
  cbn [step_of]. unfold mbind, prog_bind, put_table, mret, prog_ret.
  repeat case_match; by intros [= <- _].
Qed.

(** The bounds of the threads after a step, in the old chains and in the
    new, are the same. *)
Lemma co_threads_rank_grows N s ts ls ls' t c rest c' s' :
  safe F s ts ls → ts !! t = Some (Thread c rest) →
  step_of F allocator c s = Return c' s' → grows c ls ls' →
  threads_rank N (links <$> ls') (<[t := Thread c' rest]> ts)
  = threads_rank N (links <$> ls) (<[t := Thread c' rest]> ts).
Proof.
  intros Hsafe Ht Hstep (_ & _ & [->|(k & v & e & -> & HK)]); [done|].
  apply sum_list_ext. intros t' th' Ht'. unfold thread_rank. f_equal.
  destruct (decide (t' = t)) as [->|Hne].
  - rewrite list_lookup_insert_eq in Ht' by (by eapply lookup_lt_Some).
    injection Ht' as <-. by rewrite (co_step_of_publish _ _ _ _ _ _ Hstep).
  - rewrite list_lookup_insert_ne in Ht' by done. apply co_pc_rank_frame.
    intros i Hi. apply HK. intros ->.
    destruct (co_other_section F s ts ls Hsafe t _ rest Ht t' th' (slot k) Hne Ht')
      as [? ?]; [by destruct F|]. by destruct Hi.
Qed.

(** Every step of every thread makes the bound smaller. *)
Lemma co_rank_step ls0 ts0 m t m' r :
  machine_safe F ls0 ts0 m → step F allocator m t = Some m' →
  ranked F (chain_bound ls0 ts0) m r →
  ∃ r', ranked F (chain_bound ls0 ts0) m' r' ∧ (r' < r)%nat.
Proof.
  destruct m as [s ts| |]; [|done|done]. intros (ls & Hsafe & Hhist) Hstep (ls1 & Hb1 & ->).
  pose proof (safe_buckets _ _ _ _ Hsafe) as Hb.
  rewrite (buckets_functional _ _ _ Hb1 Hb). clear ls1 Hb1.
  set (N := chain_bound ls0 ts0).
  destruct (co_step_cases F allocator s ts t m' Hstep) as (c & rest & Ht & Hcases).
  destruct (safe_threads _ _ _ _ Hsafe t _ Ht) as [Hok _]. cbn [at_pc] in Hok.
  pose proof (co_safe_step F allocator allocator_fresh s ts ls t c rest Hsafe Ht) as Hs.
  destruct Hcases as [(call & rest' & -> & -> & ->)|[(c' & s' & Hc & ->)|
                      [(status & s' & Hc & ->)|[Hc ->]]]].
  - eexists. split; [exists ls; split; [done|reflexivity]|].
    pose proof (sum_list_insert (thread_rank N (links <$> ls)) ts t _
                  (Thread (enter call) rest') Ht) as Hsum.
    unfold threads_rank. unfold thread_rank at 2 4 in Hsum. cbn [at_pc todo] in Hsum.
    rewrite fmap_cons in Hsum.
    change (sum_list (?a :: ?b)) with (a + sum_list b)%nat in Hsum.
    destruct call; cbn [enter pc_rank call_rank] in *; lia.
  - rewrite Hc in Hs. destruct Hs as (ls' & Hsafe' & Hgrows).
    eexists. split; [exists ls'; split; [apply (safe_buckets _ _ _ _ Hsafe')|reflexivity]|].
    rewrite (co_threads_rank_grows N s ts ls ls' t c rest c' s' Hsafe Ht Hc Hgrows).
    pose proof (sum_list_insert (thread_rank N (links <$> ls)) ts t _
                  (Thread c' rest) Ht) as Hsum.
    unfold threads_rank. unfold thread_rank at 2 4 in Hsum. cbn [at_pc todo] in Hsum.
    assert (pc_rank N (links <$> ls) c' < pc_rank N (links <$> ls) c)%nat; [|lia].
    apply (co_pc_rank_step N s ls c c' s'); try done.
    intros l Hl. exact (co_chain_length_bound s ls0 ts0 ts ls l Hsafe Hhist Hl).
  - exists 0%nat. split; [done|].
    pose proof (sum_list_lookup (thread_rank N (links <$> ls)) ts t _ Ht) as Hle.
    unfold thread_rank at 1 in Hle. cbn [at_pc] in Hle.
    assert (c ≠ Idle) as Hne by (by intros ->).
    pose proof (co_pc_rank_pos N (links <$> ls) c Hne). unfold threads_rank. lia.
  - by rewrite Hc in Hs.
Qed.

(** Whatever the schedule, no more steps are taken than the bound says. *)
Lemma co_steps_le ls0 ts0 schedule : ∀ m r,
  machine_safe F ls0 ts0 m → ranked F (chain_bound ls0 ts0) m r →
  (steps F allocator schedule m ≤ r)%nat.
Proof.
  induction schedule as [|t schedule IH]; intros m r Hm Hr; [simpl; lia|].
  cbn [steps]. destruct (step F allocator m t) as [m'|] eqn:Hstep; [|by eapply IH].
  destruct (co_rank_step ls0 ts0 m t m' r Hm Hstep Hr) as (r' & Hr' & Hlt).
  pose proof (co_machine_safe_step F allocator allocator_fresh ls0 ts0 m t m' Hm Hstep) as Hm'.
  specialize (IH m' r' Hm' Hr'). lia.
Qed.

(** And the threads can always be run to the end. *)
Lemma co_run_completes ls0 ts0 r : ∀ m,
  machine_safe F ls0 ts0 m → ranked F (chain_bound ls0 ts0) m r →
  ∃ schedule, halted F (run F allocator schedule m).
Proof.
  induction (lt_wf r) as [r _ IH]. intros m Hm Hr.
  destruct m as [s ts|status s|]; [|by exists []|done].
  destruct Hm as (ls & Hsafe & Hhist).
  destruct (co_safe_moves F allocator s ts ls Hsafe) as [Hfin|(t & m' & Hstep)].
  { by exists []. }
  assert (machine_safe F ls0 ts0 (Running s ts)) as Hm by (exists ls; done).
  destruct (co_rank_step ls0 ts0 _ t m' r Hm Hstep Hr) as (r' & Hr' & Hlt).
  pose proof (co_machine_safe_step F allocator allocator_fresh ls0 ts0 _ t m' Hm Hstep) as Hm'.
  destruct (IH r' Hlt m' Hm' Hr') as [schedule Hhalt].
  exists (t :: schedule). cbn [run]. by rewrite Hstep.
Qed.

Lemma co_ranked_exists ls0 ts0 m :
  machine_safe F ls0 ts0 m → ∃ r, ranked F (chain_bound ls0 ts0) m r.
Proof.
  destruct m as [s ts|status s|]; [|by exists 0%nat|done].
  intros (ls & Hsafe & _). eexists. exists ls. split; [|reflexivity].
  apply (safe_buckets _ _ _ _ Hsafe).
Qed.

Lemma co_ranked_init s0 ls0 ts0 :
  buckets s0 ls0 → Forall (λ th, at_pc th = Idle) ts0 →
  ranked F (chain_bound ls0 ts0) (Running s0 ts0) (steps_bound ls0 ts0).
Proof.
  intros Hb Hidle. exists ls0. split; [done|]. unfold steps_bound, threads_rank.
  apply sum_list_ext. intros i th Hi. unfold thread_rank.
  rewrite Forall_forall in Hidle. rewrite (Hidle th) by (by eapply list_elem_of_lookup_2).
  done.
Qed.

Lemma co_run_app schedule1 schedule2 : ∀ m,
  run F allocator (schedule1 ++ schedule2) m
  = run F allocator schedule2 (run F allocator schedule1 m).
Proof.
  induction schedule1 as [|t schedule1 IH]; intros m; [done|].
  cbn [app run]. by destruct (step F allocator m t).
Qed.
End CoarseRanks.

(** X14.  Any number of threads run [insert] and [retrieve] of
    [parallel_spin.c], or of the read-write lock file, each any calls
    with keys whose slot is an index of [table], on a table that was at
    rest, with a [malloc] that returns blocks not in use.  Whatever the
    schedule: no step is undefined (no access to a block that is not
    live, no unlock of a lock that is not held), and the only way out of
    the process is [exit(1)]; at every moment the chains are well-formed
    and hold no key twice, every bucket lock is held by exactly the
    threads between the lock and the unlock call, and every key that was
    in the table still is. *)
Theorem bucket_locks_keep_the_table_safe F allocator s0 ls0 ts0 schedule :
  (∀ d a, allocator d = Some a → a ∉ d) →
  consistent (Coarse.unlocked F) () s0 ls0 →
  Forall (λ th, Coarse.at_pc th = Coarse.Idle ∧
                Forall Threads.valid_call (Coarse.todo th)) ts0 →
  match Coarse.run F allocator schedule (Coarse.Running s0 ts0) with
  | Coarse.Running s ts =>
      ∃ ls, Coarse.safe F s ts ls ∧
            ∀ k, is_Some (table_find ls0 k) → is_Some (table_find ls k)
  | Coarse.Exited status _ => status = 1
  | Coarse.Crashed => False
  end.
Proof.
  intros Hfresh Hcons Hts.
  pose proof (co_machine_safe_run F allocator Hfresh ls0 ts0 schedule _
                (co_machine_safe_init F s0 ls0 ts0 Hcons Hts)) as Hrun.
  destruct (Coarse.run F allocator schedule (Coarse.Running s0 ts0))
    as [s ts|status s|]; [|done|done].
  destruct Hrun as (ls & Hsafe & [Hkept _ _]). exists ls. split; [done|].
  intros k. rewrite <- !key_in_table_find. apply Hkept.
Qed.

Lemma bucket_locks_keep_the_table_safe_witness :
  match Coarse.run Coarse.Spinlocks bump [0; 1; 2; 2; 1; 0; 0; 1; 2; 1; 1; 0]%nat
          (Coarse.Running (F:=Coarse.Spinlocks) (example_table coarse)
             [Coarse.Thread Coarse.Idle [Interleaving.Insert 8 1; Interleaving.Retrieve 6];
              Coarse.Thread Coarse.Idle [Interleaving.Insert 6 2; Interleaving.Insert 8 3];
              Coarse.Thread Coarse.Idle [Interleaving.Retrieve 8]]) with
  | Coarse.Running s ts =>
      ∃ ls, Coarse.safe Coarse.Spinlocks s ts ls ∧
            ∀ k, is_Some (table_find example_chains k) → is_Some (table_find ls k)
  | Coarse.Exited status _ => status = 1
  | Coarse.Crashed => False
  end.
Proof.
  apply (bucket_locks_keep_the_table_safe Coarse.Spinlocks bump (example_table coarse)
           example_chains).
  - apply bump_fresh.
  - apply (example_table_consistent coarse).
  - repeat constructor; by vm_compute.
Defined.

(** X15.  In the same setting a thread that is inside [insert], between
    the lock and the unlock call, is alone in its bucket: no other thread
    is inside [insert] or [retrieve] on a key of the same bucket.  In
    [parallel_spin.c] the same holds of a thread inside [retrieve]; in
    the read-write lock file several threads can be inside [retrieve] on
    one bucket. *)
Theorem bucket_lock_excludes F allocator s0 ls0 ts0 schedule :
  (∀ d a, allocator d = Some a → a ∉ d) →
  consistent (Coarse.unlocked F) () s0 ls0 →
  Forall (λ th, Coarse.at_pc th = Coarse.Idle ∧
                Forall Threads.valid_call (Coarse.todo th)) ts0 →
  match Coarse.run F allocator schedule (Coarse.Running s0 ts0) with
  | Coarse.Running s ts =>
      ∀ t1 t2 th1 th2 i,
        t1 ≠ t2 → ts !! t1 = Some th1 → ts !! t2 = Some th2 →
        Coarse.in_insert (Coarse.at_pc th1) = Some i ∨
        (F = Coarse.Spinlocks ∧ Coarse.in_retrieve (Coarse.at_pc th1) = Some i) →
        Coarse.in_insert (Coarse.at_pc th2) ≠ Some i ∧
        Coarse.in_retrieve (Coarse.at_pc th2) ≠ Some i
  | _ => True
  end.
Proof.
  intros Hfresh Hcons Hts.
  pose proof (co_machine_safe_run F allocator Hfresh ls0 ts0 schedule _
                (co_machine_safe_init F s0 ls0 ts0 Hcons Hts)) as Hrun.
  destruct (Coarse.run F allocator schedule (Coarse.Running s0 ts0))
    as [s ts|status s|]; [|done|done].
  destruct Hrun as (ls & Hsafe & _). intros t1 t2 [c1 rest1] th2 i Hne Ht1 Ht2 Hin.
  apply (co_other_section F s ts ls Hsafe t1 c1 rest1 Ht1 t2 th2 i); [done|done|].
  cbn [Coarse.at_pc] in Hin. destruct Hin as [Hin|[-> Hin]].
  - destruct F; cbn [Coarse.exclusive_at]; by rewrite Hin.
  - cbn [Coarse.exclusive_at]. by destruct (Coarse.in_insert c1) eqn:Hi;
      [destruct c1|].
Qed.

Lemma bucket_lock_excludes_witness :
  match Coarse.run Coarse.RwLocks bump [0; 1; 2; 2; 1; 0; 0; 1; 2; 1; 1; 0]%nat
          (Coarse.Running (F:=Coarse.RwLocks) (example_table read_write)
             [Coarse.Thread Coarse.Idle [Interleaving.Insert 8 1; Interleaving.Retrieve 6];
              Coarse.Thread Coarse.Idle [Interleaving.Insert 6 2; Interleaving.Insert 8 3];
              Coarse.Thread Coarse.Idle [Interleaving.Retrieve 8]]) with
  | Coarse.Running s ts =>
      ∀ t1 t2 th1 th2 i,
        t1 ≠ t2 → ts !! t1 = Some th1 → ts !! t2 = Some th2 →
        Coarse.in_insert (Coarse.at_pc th1) = Some i ∨
        (Coarse.RwLocks = Coarse.Spinlocks ∧
         Coarse.in_retrieve (Coarse.at_pc th1) = Some i) →
        Coarse.in_insert (Coarse.at_pc th2) ≠ Some i ∧
        Coarse.in_retrieve (Coarse.at_pc th2) ≠ Some i
  | _ => True
  end.
Proof.
  apply (bucket_lock_excludes Coarse.RwLocks bump (example_table read_write) example_chains).
  - apply bump_fresh.
  - apply (example_table_consistent read_write).
  - repeat constructor; by vm_compute.
Defined.

(** X16.  In the same setting: once every thread has returned from its
    last call, the table is at rest again, with every lock released; it
    holds exactly the keys it held at the start and the keys of the
    [insert] calls, each once; and the value of a key is the one it had
    at the start, in the same entry, or a value some thread inserted for
    that key. *)
Theorem bucket_locks_leave_the_keys F allocator s0 ls0 ts0 schedule :
  (∀ d a, allocator d = Some a → a ∉ d) →
  consistent (Coarse.unlocked F) () s0 ls0 →
  Forall (λ th, Coarse.at_pc th = Coarse.Idle ∧
                Forall Threads.valid_call (Coarse.todo th)) ts0 →
  match Coarse.run F allocator schedule (Coarse.Running s0 ts0) with
  | Coarse.Running s ts =>
      Forall Coarse.finished ts →
      ∃ ls, consistent (Coarse.unlocked F) () s ls ∧
        (∀ k, is_Some (table_find ls k) ↔
              is_Some (table_find ls0 k) ∨
              ∃ th0 v, th0 ∈ ts0 ∧ Interleaving.Insert k v ∈ Coarse.todo th0) ∧
        (∀ k n, table_find ls k = Some n →
              table_find ls0 k = Some n ∨
              ∃ th0, th0 ∈ ts0 ∧ Interleaving.Insert k (node_val n) ∈ Coarse.todo th0)
  | _ => True
  end.
Proof.
  intros Hfresh Hcons Hts.
  pose proof (co_machine_safe_run F allocator Hfresh ls0 ts0 schedule _
                (co_machine_safe_init F s0 ls0 ts0 Hcons Hts)) as Hrun.
  destruct (Coarse.run F allocator schedule (Coarse.Running s0 ts0))
    as [s ts|status s|]; [|done|done].
  destruct Hrun as (ls & Hsafe & Hhist). intros Hfin. exists ls.
  pose proof (co_safe_finished F s ts ls Hsafe Hfin) as Hcons'.
  split; [done|].
  assert (∀ k n, table_find ls k = Some n →
            table_find ls0 k = Some n ∨
            ∃ th0, th0 ∈ ts0 ∧ Interleaving.Insert k (node_val n) ∈ Coarse.todo th0)
    as Hval.
  { intros k n Hfind. unfold table_find in Hfind.
    destruct (index ls (slot k)) as [l|] eqn:Hl; [|done]. simpl in Hfind.
    destruct (chain_find_elem _ _ _ Hfind) as [Hn Hk].
    apply index_Some in Hl as [_ Hl]. apply list_elem_of_lookup_2 in Hl.
    destruct (Coarse.history_origin _ _ _ _ Hhist l n Hl Hn) as [(l0 & Hl0 & Hn0)|Hins].
    - left. rewrite <- Hk. destruct Hcons as (Hb0 & _ & Hnd0).
      by apply (table_find_elem s0 ls0 l0 n).
    - right. by rewrite <- Hk. }
  split; [|done]. intros k. split.
  - intros [n Hfind]. destruct (Hval k n Hfind) as [Hold|(th0 & Hth0 & Hin)]; [left|right].
    + by rewrite Hold.
    + eauto.
  - rewrite <- !key_in_table_find. intros [Hold|(th0 & v & Hth0 & Hin)].
    + by apply (Coarse.history_kept _ _ _ _ Hhist).
    + by eapply co_history_finished.
Qed.

Lemma bucket_locks_leave_the_keys_witness :
  match Coarse.run Coarse.RwLocks bump (concat (replicate 30 [0; 1; 2]%nat))
          (Coarse.Running (F:=Coarse.RwLocks) (example_table read_write)
             [Coarse.Thread Coarse.Idle [Interleaving.Insert 8 1; Interleaving.Retrieve 6];
              Coarse.Thread Coarse.Idle [Interleaving.Insert 6 2; Interleaving.Insert 8 3];
              Coarse.Thread Coarse.Idle [Interleaving.Retrieve 8]]) with
  | Coarse.Running s ts =>
      Forall Coarse.finished ts →
      ∃ ls, consistent (Coarse.unlocked Coarse.RwLocks) () s ls ∧
        (∀ k, is_Some (table_find ls k) ↔
              is_Some (table_find example_chains k) ∨
              ∃ th0 v,
                th0 ∈ [Coarse.Thread Coarse.Idle
                         [Interleaving.Insert 8 1; Interleaving.Retrieve 6];
                       Coarse.Thread Coarse.Idle
                         [Interleaving.Insert 6 2; Interleaving.Insert 8 3];
                       Coarse.Thread Coarse.Idle [Interleaving.Retrieve 8]] ∧
                Interleaving.Insert k v ∈ Coarse.todo th0) ∧
        (∀ k n, table_find ls k = Some n →
              table_find example_chains k = Some n ∨
              ∃ th0,
                th0 ∈ [Coarse.Thread Coarse.Idle
                         [Interleaving.Insert 8 1; Interleaving.Retrieve 6];
                       Coarse.Thread Coarse.Idle
                         [Interleaving.Insert 6 2; Interleaving.Insert 8 3];
                       Coarse.Thread Coarse.Idle [Interleaving.Retrieve 8]] ∧
                Interleaving.Insert k (node_val n) ∈ Coarse.todo th0)
  | _ => True
  end.
Proof.
  apply (bucket_locks_leave_the_keys Coarse.RwLocks bump (example_table read_write)
           example_chains).
  - apply bump_fresh.
  - apply (example_table_consistent read_write).
  - repeat constructor; by vm_compute.
Defined.

(** X17.  In the same setting the threads never block each other for
    good: at every moment, unless every thread has returned from its last
    call, some thread can take its next step; and a thread that is
    between the lock and the unlock call never waits. *)
Theorem bucket_locks_never_deadlock F allocator s0 ls0 ts0 schedule :
  (∀ d a, allocator d = Some a → a ∉ d) →
  consistent (Coarse.unlocked F) () s0 ls0 →
  Forall (λ th, Coarse.at_pc th = Coarse.Idle ∧
                Forall Threads.valid_call (Coarse.todo th)) ts0 →
  match Coarse.run F allocator schedule (Coarse.Running s0 ts0) with
  | Coarse.Running s ts =>
      (Forall Coarse.finished ts ∨
       ∃ t, is_Some (Coarse.step F allocator (Coarse.Running s ts) t)) ∧
      ∀ t th i, ts !! t = Some th →
        Coarse.in_insert (Coarse.at_pc th) = Some i ∨
        Coarse.in_retrieve (Coarse.at_pc th) = Some i →
        is_Some (Coarse.step F allocator (Coarse.Running s ts) t)
  | _ => True
  end.
Proof.
  intros Hfresh Hcons Hts.
  pose proof (co_machine_safe_run F allocator Hfresh ls0 ts0 schedule _
                (co_machine_safe_init F s0 ls0 ts0 Hcons Hts)) as Hrun.
  destruct (Coarse.run F allocator schedule (Coarse.Running s0 ts0))
    as [s ts|status s|]; [|done|done].
  destruct Hrun as (ls & Hsafe & _). split; [by eapply co_safe_moves|].
  intros t [c rest] i Ht Hin. by eapply co_section_holder_moves.
Qed.

Lemma bucket_locks_never_deadlock_witness :
  match Coarse.run Coarse.Spinlocks bump [0; 1; 2; 2; 1; 0; 0; 1; 2; 1; 1; 0]%nat
          (Coarse.Running (F:=Coarse.Spinlocks) (example_table coarse)
             [Coarse.Thread Coarse.Idle [Interleaving.Insert 8 1; Interleaving.Retrieve 6];
              Coarse.Thread Coarse.Idle [Interleaving.Insert 6 2; Interleaving.Insert 8 3];
              Coarse.Thread Coarse.Idle [Interleaving.Retrieve 8]]) with
  | Coarse.Running s ts =>
      (Forall Coarse.finished ts ∨
       ∃ t, is_Some (Coarse.step Coarse.Spinlocks bump (Coarse.Running s ts) t)) ∧
      ∀ t th i, ts !! t = Some th →
        Coarse.in_insert (Coarse.at_pc th) = Some i ∨
        Coarse.in_retrieve (Coarse.at_pc th) = Some i →
        is_Some (Coarse.step Coarse.Spinlocks bump (Coarse.Running s ts) t)
  | _ => True
  end.
Proof.
  apply (bucket_locks_never_deadlock Coarse.Spinlocks bump (example_table coarse)
           example_chains).
  - apply bump_fresh.
  - apply (example_table_consistent coarse).
  - repeat constructor; by vm_compute.
Defined.

(** X18.  In the same setting the threads finish: whatever the schedule,
    they take no more steps altogether than [steps_bound] says, a number
    that only depends on the calls and on the size of the table at the
    start; and every schedule can be continued to one at the end of which
    every thread has returned from its last call, or the process has
    gone through [exit(1)]. *)
Theorem bucket_locks_let_threads_end F allocator s0 ls0 ts0 schedule :
  (∀ d a, allocator d = Some a → a ∉ d) →
  consistent (Coarse.unlocked F) () s0 ls0 →
  Forall (λ th, Coarse.at_pc th = Coarse.Idle ∧
                Forall Threads.valid_call (Coarse.todo th)) ts0 →
  (Coarse.steps F allocator schedule (Coarse.Running s0 ts0)
   ≤ Coarse.steps_bound ls0 ts0)%nat ∧
  ∃ schedule',
    Coarse.halted F
      (Coarse.run F allocator (schedule ++ schedule') (Coarse.Running s0 ts0)).
Proof.
  intros Hfresh Hcons Hts.
  pose proof (co_machine_safe_init F s0 ls0 ts0 Hcons Hts) as Hinit.
  assert (Forall (λ th, Coarse.at_pc th = Coarse.Idle) ts0) as Hidle.
  { eapply Forall_impl; [exact Hts|]. by intros th [? _]. }
  destruct Hcons as (Hb & _). split.
  - apply (co_steps_le F allocator Hfresh ls0 ts0); [done|by apply co_ranked_init].
  - pose proof (co_machine_safe_run F allocator Hfresh ls0 ts0 schedule _ Hinit) as Hrun.
    destruct (co_ranked_exists F ls0 ts0 _ Hrun) as [r Hr].
    destruct (co_run_completes F allocator Hfresh ls0 ts0 r _ Hrun Hr) as [schedule' Hhalt].
    exists schedule'. by rewrite co_run_app.
Qed.

Lemma bucket_locks_let_threads_end_witness :
  (Coarse.steps Coarse.RwLocks bump [0; 1; 2; 2; 1; 0; 0; 1; 2; 1; 1; 0]%nat
     (Coarse.Running (F:=Coarse.RwLocks) (example_table read_write)
        [Coarse.Thread Coarse.Idle [Interleaving.Insert 8 1; Interleaving.Retrieve 6];
         Coarse.Thread Coarse.Idle [Interleaving.Insert 6 2; Interleaving.Insert 8 3];
         Coarse.Thread Coarse.Idle [Interleaving.Retrieve 8]])
   ≤ Coarse.steps_bound example_chains
       [Coarse.Thread Coarse.Idle [Interleaving.Insert 8 1; Interleaving.Retrieve 6];
        Coarse.Thread Coarse.Idle [Interleaving.Insert 6 2; Interleaving.Insert 8 3];
        Coarse.Thread Coarse.Idle [Interleaving.Retrieve 8]])%nat ∧
  ∃ schedule',
    Coarse.halted Coarse.RwLocks
      (Coarse.run Coarse.RwLocks bump ([0; 1; 2; 2; 1; 0; 0; 1; 2; 1; 1; 0]%nat ++ schedule')
         (Coarse.Running (F:=Coarse.RwLocks) (example_table read_write)
            [Coarse.Thread Coarse.Idle [Interleaving.Insert 8 1; Interleaving.Retrieve 6];
             Coarse.Thread Coarse.Idle [Interleaving.Insert 6 2; Interleaving.Insert 8 3];
             Coarse.Thread Coarse.Idle [Interleaving.Retrieve 8]])).
Proof.
  apply (bucket_locks_let_threads_end Coarse.RwLocks bump (example_table read_write)
           example_chains).
  - apply bump_fresh.
  - apply (example_table_consistent read_write).
  - repeat constructor; by vm_compute.
Defined.

(** X19.  The put phases of [parallel_spin.c], or of the read-write lock
    file, run by any number of threads at the same time on a table that
    was at rest, with [0 < n ≤ INT_MAX - NUM_KEYS] for the number of
    threads (so that [key += num_threads] cannot overflow), no key
    negative and [malloc] never failing: whatever the schedule, once all
    of them have made their calls, [get_phase] of each of these threads
    finds all its keys: it returns 0 and prints "0 keys lost!". *)
Theorem bucket_lock_put_phases_keep_keys F allocator keys n tids s0 ls0 schedule :
  (∀ d a, allocator d = Some a → a ∉ d) →
  (∀ d, is_Some (allocator d)) →
  consistent (Coarse.unlocked F) () s0 ls0 →
  0 < n ≤ INT_MAX - NUM_KEYS → Forall (λ tid, 0 ≤ tid < n) tids →
  length keys = Z.to_nat NUM_KEYS → Forall (λ k, 0 ≤ k) keys →
  match Coarse.run F allocator schedule
          (Coarse.Running s0
             ((λ tid, Coarse.Thread Coarse.Idle (Threads.put_calls keys n tid)) <$> tids)) with
  | Coarse.Running s ts =>
      Forall Coarse.finished ts →
      Forall (λ tid,
        Coarse.get_phase_in F allocator keys n tid s
        = Return 0 (set_stdout (stdout s ++ [lost_line tid 0]) s)) tids
  | _ => True
  end.
Proof.
  intros Hfresh Htotal Hcons Hn Htids Hkeys Hnonneg.
  pose proof (keys_nonnegative_valid _ Hnonneg) as Hvalid.
  set (ts0 := (λ tid, Coarse.Thread Coarse.Idle (Threads.put_calls keys n tid)) <$> tids).
  assert (Forall (λ th, Coarse.at_pc th = Coarse.Idle ∧
                        Forall Threads.valid_call (Coarse.todo th)) ts0) as Hts.
  { apply Forall_fmap, Forall_forall. intros tid _. split; [done|].
    apply Forall_fmap, Forall_forall. intros j Hj. cbn.
    apply list_elem_of_filter in Hj as [_ Hj%elem_of_seqZ].
    apply (keys_valid keys Hkeys Hvalid). lia. }
  pose proof (co_machine_safe_run F allocator Hfresh ls0 ts0 schedule _
                (co_machine_safe_init F s0 ls0 ts0 Hcons Hts)) as Hrun.
  destruct (Coarse.run F allocator schedule (Coarse.Running s0 ts0))
    as [s ts|status s|]; [|done|done].
  destruct Hrun as (ls & Hsafe & Hhist). intros Hfin.
  pose proof (co_safe_finished F s ts ls Hsafe Hfin) as Hcons'.
  apply Forall_forall. intros tid Htid.
  assert (0 ≤ tid < n) as Hrange.
  { rewrite Forall_forall in Htids. by apply Htids. }
  assert (∀ j, j ∈ stride n tid → table_find ls (keys !!! Z.to_nat j) ≠ None) as Hall.
  { intros j Hj Hnone.
    assert (Threads.key_in (Threads.links <$> ls) (keys !!! Z.to_nat j)) as Hin.
    { eapply (co_history_finished ls0 ts0 ts ls
                (Coarse.Thread Coarse.Idle (Threads.put_calls keys n tid))
                _ (to_int tid) Hhist Hfin).
      - apply list_elem_of_fmap. eauto.
      - cbn. apply list_elem_of_fmap. eauto. }
    apply key_in_table_find in Hin as [x Hx]. congruence. }
  clear Hsafe Hhist Hfin Hcons Hts ts0. destruct F; cbn [Coarse.get_phase_in].
  - by apply (get_phase_finds_all spin_driver built_spin allocator Hfresh keys n
                Hn Hkeys Hnonneg s ls tid).
  - by apply (get_phase_finds_all rwlock_driver built_rwlock allocator Hfresh keys n
                Hn Hkeys Hnonneg s ls tid).
Qed.

(* Threads 0, 1 and 2 of 33334, with three keys each, taking turns until
   all three are done. *)
Lemma bucket_lock_put_phases_keep_keys_witness :
  match Coarse.run Coarse.Spinlocks bump (concat (replicate 60 [0; 1; 2]%nat))
          (Coarse.Running (F:=Coarse.Spinlocks) (example_table coarse)
             ((λ tid, Coarse.Thread Coarse.Idle (Threads.put_calls example_keys 33334 tid))
                <$> [0; 1; 2])) with
  | Coarse.Running s ts =>
      Forall Coarse.finished ts ∧
      Forall (λ tid,
        Coarse.get_phase_in Coarse.Spinlocks bump example_keys 33334 tid s
        = Return 0 (set_stdout (stdout s ++ [lost_line tid 0]) s)) [0; 1; 2]
  | _ => False
  end.
Proof.
  pose proof (bucket_lock_put_phases_keep_keys Coarse.Spinlocks bump example_keys 33334
                [0; 1; 2] (example_table coarse) example_chains
                (concat (replicate 60 [0; 1; 2]%nat))
                bump_fresh (λ d, ex_intro _ _ eq_refl)
                (example_table_consistent coarse)) as H.
  specialize (H ltac:(unfold INT_MAX, NUM_KEYS; lia) ltac:(repeat constructor; lia)
                example_keys_length example_keys_nonnegative).
  cbn [fmap list_fmap] in *.
  rewrite !example_put_calls in * by lia.
  remember (Coarse.run _ _ _ _) as m eqn:Hm.
  assert (match m with
          | Coarse.Running _ ts => Forall Coarse.finished ts
          | _ => False
          end) as Hfin.
  { rewrite Hm. vm_compute. repeat constructor. }
  clear Hm. destruct m as [s ts| |]; [|done|done]. split; [done|]. by apply H.
Defined.

(** *** A thread on its own runs the functions *)

Section CoarseAlone.
Import Threads Coarse.
Variable F : file.
Variable allocator : gset positive → ptr.
Implicit Types (s : process (lock_type F) unit) (c : pc) (rest : list Interleaving.call)
  (m : machine F).

Local Notation "m ~> m'" := (∃ n, run F allocator (replicate n 0%nat) m = m')
  (at level 70, no associativity).

Lemma co_step_inside s ts t c rest :
  ts !! t = Some (Thread c rest) → c ≠ Idle →
  step F allocator (Running s ts) t
  = match step_of F allocator c s with
    | Return c' s' => Some (Running s' (<[t := Thread c' rest]> ts))
    | Exit status s' => Some (Exited status s')
    | Hang => None
    | Undefined => Some Crashed
    end.
Proof. intros Ht Hc. cbn [step]. rewrite Ht. by destruct c. Qed.

Lemma co_alone_refl m : m ~> m.
Proof. by exists 0%nat. Qed.

Lemma co_alone_call job rest s m' :
  Running s [Thread (enter job) rest] ~> m' → Running s [Thread Idle (job :: rest)] ~> m'.
Proof. intros [n Hn]. by exists (S n). Qed.

Lemma co_alone_step c rest s c' s' m' :
  c ≠ Idle → step_of F allocator c s = Return c' s' →
  Running s' [Thread c' rest] ~> m' → Running s [Thread c rest] ~> m'.
Proof.
  intros Hc Hstep [n Hn]. exists (S n). cbn [replicate run].
  by rewrite (co_step_inside s [Thread c rest] 0 c rest eq_refl Hc), Hstep.
Qed.

Lemma co_alone_exit c rest s status s' :
  c ≠ Idle → step_of F allocator c s = Exit status s' →
  Running s [Thread c rest] ~> Exited status s'.
Proof.
  intros Hc Hstep. exists 1%nat. cbn [replicate run].
  by rewrite (co_step_inside s [Thread c rest] 0 c rest eq_refl Hc), Hstep.
Qed.

(** The loop of [insert], from any entry of the chain on. *)
Lemma co_alone_scan k v rest s cur l m' :
  is_chain (heap s) cur l →
  Running s [Thread (match chain_find k l with
                     | Some n => I_store k v (node_addr n)
                     | None => I_malloc k v
                     end) rest] ~> m' →
  Running s [Thread (I_test k v cur) rest] ~> m'.
Proof.
  revert cur. induction l as [|n l IH]; intros cur Hc Hrun.
  - simpl in Hc. subst cur. by eapply co_alone_step.
  - destruct Hc as [-> (e & He & Hke & Hve & Hc)].
    eapply co_alone_step; [done| |].
    { cbn [step_of]. unfold mbind, prog_bind, load. rewrite He. done. }
    unfold mret, prog_ret. cbn [chain_find] in Hrun. rewrite Hke.
    destruct (decide (node_key n = k)); [done|]. by eapply IH.
Qed.

(** The loop of [retrieve], from any entry of the chain on. *)
Lemma co_alone_scan_retrieve k rest s cur l m' :
  is_chain (heap s) cur l →
  Running s [Thread (match chain_find k l with
                     | Some n => R_malloc k (node_addr n)
                     | None => R_unlock_missing k
                     end) rest] ~> m' →
  Running s [Thread (R_test k cur) rest] ~> m'.
Proof.
  revert cur. induction l as [|n l IH]; intros cur Hc Hrun.
  - simpl in Hc. subst cur. by eapply co_alone_step.
  - destruct Hc as [-> (e & He & Hke & Hve & Hc)].
    eapply co_alone_step; [done| |].
    { cbn [step_of]. unfold mbind, prog_bind, load. rewrite He. done. }
    unfold mret, prog_ret. cbn [chain_find] in Hrun. rewrite Hke.
    destruct (decide (node_key n = k)); [done|]. by eapply IH.
Qed.
End CoarseAlone.

Section CoarseFunctions.
Import Threads Coarse.
Variable allocator : gset positive → ptr.
Hypothesis allocator_fresh : ∀ d a, allocator d = Some a → a ∉ d.

Ltac co_prims :=
  cbn [insert_lock retrieve_lock release lock_type];
  unfold mbind, prog_bind, mret, prog_ret, pthread_rwlock_rdlock, pthread_rwlock_wrlock,
    pthread_rwlock_unlock, Spin.pthread_spin_lock, Spin.pthread_spin_unlock,
    get_table, put_table, load, store_val, malloc, init_entry,
    set_next, panic, hang;
  cbn [heap table bucket_locks stdout set_heap set_table set_locks set_stdout].

Ltac co_next := eapply co_alone_step; [done|cbn [step_of]; co_prims|].

(** A thread that runs alone through [insert] does what the function
    [insert] of the file does. *)
Lemma co_insert_alone F (s : process (lock_type F) unit) ls k v rest :
  consistent (unlocked F) () s ls → 0 ≤ slot k < NUM_BUCKETS →
  match insert_in F allocator k v s with
  | Return _ s' =>
      ∃ n, run F allocator (replicate n 0%nat)
             (Running s [Thread Idle (Interleaving.Insert k v :: rest)])
           = Running s' [Thread Idle rest]
  | Exit status s' =>
      ∃ n, run F allocator (replicate n 0%nat)
             (Running s [Thread Idle (Interleaving.Insert k v :: rest)])
           = Exited status s'
  | _ => False
  end.
Proof.
  intros Hcons Hk. destruct F; cbn [insert_in lock_type unlocked] in *.
  - destruct (consistent_bucket coarse _ _ _ Hcons Hk) as (p & l & Hl & Hp & Hc & _).
    pose proof (consistent_lock coarse _ _ _ Hcons Hk) as Hlock.
    cbn [coarse lock_init mutex_init lock_t mutex_t] in Hlock, Hc, Hp.
    rewrite (spin_insert_upsert allocator s k v p l) by done. unfold upsert.
    destruct s as [h t lk out]. cbn [heap table bucket_locks] in *.
    assert (∀ x y, <[Z.to_nat (slot k) := y]> (<[Z.to_nat (slot k) := x]> lk)
                   = <[Z.to_nat (slot k) := y]> lk) as Hll.
    { intros x y. apply list_insert_insert_eq. }
    assert (∀ x, index (<[Z.to_nat (slot k) := x]> lk) (slot k) = Some x) as Hlx.
    { intros x. by eapply index_insert_eq. }
    pose proof (index_insert_id _ _ _ Hlock) as Hlid.
    assert (∀ m',
      (∃ n, run Spinlocks allocator (replicate n 0%nat)
              (Running (F:=Spinlocks) (Process h t (<[Z.to_nat (slot k) := true]> lk) out)
                 [Thread (match chain_find k l with
                          | Some n => I_store k v (node_addr n)
                          | None => I_malloc k v
                          end) rest]) = m') →
      ∃ n, run Spinlocks allocator (replicate n 0%nat)
             (Running (F:=Spinlocks) (Process h t lk out)
                [Thread Idle (Interleaving.Insert k v :: rest)]) = m') as Hprefix.
    { intros m' Hm'. apply co_alone_call. cbn [enter].
      co_next. { rewrite Hlock. reflexivity. }
      co_next. { rewrite Hp. reflexivity. }
      by eapply co_alone_scan. }
    destruct (chain_find k l) as [n|] eqn:Hfind.
    + destruct (chain_find_elem _ _ _ Hfind) as [Hn Hkn].
      destruct (is_chain_lookup _ _ _ _ Hc Hn) as (e & He & _ & _).
      apply Hprefix.
      co_next. { rewrite He. reflexivity. }
      co_next. { rewrite Hlx. reflexivity. }
      rewrite Hll, Hlid. apply co_alone_refl.
    + destruct (allocator (dom h)) as [a|] eqn:Ha; apply Hprefix.
      * co_next. { rewrite Ha. reflexivity. }
        co_next. { rewrite Hp. cbn [heap set_heap]. rewrite lookup_insert_eq. reflexivity. }
        co_next. { rewrite Hp. reflexivity. }
        co_next. { rewrite Hlx. reflexivity. }
        cbn [key val entry_mutex]. rewrite Hll, Hlid, insert_insert_eq.
        apply co_alone_refl.
      * co_next. { rewrite Ha. reflexivity. }
        co_next. { rewrite Hlx. reflexivity. }
        rewrite Hll, Hlid.
        eapply co_alone_exit; [done|]. cbn [step_of]. co_prims. reflexivity.
  - destruct (consistent_bucket read_write _ _ _ Hcons Hk) as (p & l & Hl & Hp & Hc & _).
    pose proof (consistent_lock read_write _ _ _ Hcons Hk) as Hlock.
    cbn [read_write lock_init mutex_init lock_t mutex_t] in Hlock, Hc, Hp.
    rewrite (rwlock_insert_upsert allocator s k v p l) by done. unfold upsert.
    destruct s as [h t lk out]. cbn [heap table bucket_locks] in *.
    assert (∀ x y, <[Z.to_nat (slot k) := y]> (<[Z.to_nat (slot k) := x]> lk)
                   = <[Z.to_nat (slot k) := y]> lk) as Hll.
    { intros x y. apply list_insert_insert_eq. }
    assert (∀ x, index (<[Z.to_nat (slot k) := x]> lk) (slot k) = Some x) as Hlx.
    { intros x. by eapply index_insert_eq. }
    pose proof (index_insert_id _ _ _ Hlock) as Hlid.
    assert (∀ m',
      (∃ n, run RwLocks allocator (replicate n 0%nat)
              (Running (F:=RwLocks)
                 (Process h t (<[Z.to_nat (slot k) := RwLock 0 true]> lk) out)
                 [Thread (match chain_find k l with
                          | Some n => I_store k v (node_addr n)
                          | None => I_malloc k v
                          end) rest]) = m') →
      ∃ n, run RwLocks allocator (replicate n 0%nat)
             (Running (F:=RwLocks) (Process h t lk out)
                [Thread Idle (Interleaving.Insert k v :: rest)]) = m') as Hprefix.
    { intros m' Hm'. apply co_alone_call. cbn [enter].
      co_next. { rewrite Hlock. reflexivity. }
      co_next. { rewrite Hp. reflexivity. }
      by eapply co_alone_scan. }
    destruct (chain_find k l) as [n|] eqn:Hfind.
    + destruct (chain_find_elem _ _ _ Hfind) as [Hn Hkn].
      destruct (is_chain_lookup _ _ _ _ Hc Hn) as (e & He & _ & _).
      apply Hprefix.
      co_next. { rewrite He. reflexivity. }
      co_next. { rewrite Hlx. reflexivity. }
      cbn [writer readers]. rewrite Hll, Hlid. apply co_alone_refl.
    + destruct (allocator (dom h)) as [a|] eqn:Ha; apply Hprefix.
      * co_next. { rewrite Ha. reflexivity. }
        co_next. { rewrite Hp. cbn [heap set_heap]. rewrite lookup_insert_eq. reflexivity. }
        co_next. { rewrite Hp. reflexivity. }
        co_next. { rewrite Hlx. reflexivity. }
        cbn [writer readers key val entry_mutex]. rewrite Hll, Hlid, insert_insert_eq.
        apply co_alone_refl.
      * co_next. { rewrite Ha. reflexivity. }
        co_next. { rewrite Hlx. reflexivity. }
        cbn [writer readers]. rewrite Hll, Hlid.
        eapply co_alone_exit; [done|]. cbn [step_of]. co_prims. reflexivity.
Qed.

(** A thread that runs alone through [retrieve] does what the function
    [retrieve] of the file does (the machine drops the pointer returned). *)
Lemma co_retrieve_alone F (s : process (lock_type F) unit) ls k rest :
  consistent (unlocked F) () s ls → 0 ≤ slot k < NUM_BUCKETS →
  match retrieve_in F allocator k s with
  | Return _ s' =>
      ∃ n, run F allocator (replicate n 0%nat)
             (Running s [Thread Idle (Interleaving.Retrieve k :: rest)])
           = Running s' [Thread Idle rest]
  | Exit status s' =>
      ∃ n, run F allocator (replicate n 0%nat)
             (Running s [Thread Idle (Interleaving.Retrieve k :: rest)])
           = Exited status s'
  | _ => False
  end.
Proof.
  intros Hcons Hk. destruct F; cbn [retrieve_in lock_type unlocked] in *.
  - destruct (consistent_bucket coarse _ _ _ Hcons Hk) as (p & l & Hl & Hp & Hc & _).
    pose proof (consistent_lock coarse _ _ _ Hcons Hk) as Hlock.
    cbn [coarse lock_init mutex_init lock_t mutex_t] in Hlock, Hc, Hp.
    rewrite (spin_retrieve_lookup allocator s k p l) by done. unfold lookup.
    destruct s as [h t lk out]. cbn [heap table bucket_locks] in *.
    assert (∀ x y, <[Z.to_nat (slot k) := y]> (<[Z.to_nat (slot k) := x]> lk)
                   = <[Z.to_nat (slot k) := y]> lk) as Hll.
    { intros x y. apply list_insert_insert_eq. }
    assert (∀ x, index (<[Z.to_nat (slot k) := x]> lk) (slot k) = Some x) as Hlx.
    { intros x. by eapply index_insert_eq. }
    pose proof (index_insert_id _ _ _ Hlock) as Hlid.
    assert (∀ m',
      (∃ n, run Spinlocks allocator (replicate n 0%nat)
              (Running (F:=Spinlocks) (Process h t (<[Z.to_nat (slot k) := true]> lk) out)
                 [Thread (match chain_find k l with
                          | Some n => R_malloc k (node_addr n)
                          | None => R_unlock_missing k
                          end) rest]) = m') →
      ∃ n, run Spinlocks allocator (replicate n 0%nat)
             (Running (F:=Spinlocks) (Process h t lk out)
                [Thread Idle (Interleaving.Retrieve k :: rest)]) = m') as Hprefix.
    { intros m' Hm'. apply co_alone_call. cbn [enter].
      co_next. { rewrite Hlock. reflexivity. }
      co_next. { rewrite Hp. reflexivity. }
      by eapply co_alone_scan_retrieve. }
    destruct (chain_find k l) as [n|] eqn:Hfind.
    + destruct (chain_find_elem _ _ _ Hfind) as [Hn Hkn].
      destruct (is_chain_lookup _ _ _ _ Hc Hn) as (e & He & Hke & Hve).
      destruct (allocator (dom h)) as [r|] eqn:Ha; apply Hprefix.
      * assert (r ≠ node_addr n) as Hne.
        { intros ->. apply (allocator_fresh _ _ Ha). by apply elem_of_dom. }
        co_next. { rewrite Ha. reflexivity. }
        co_next. { rewrite lookup_insert_ne, He by done. reflexivity. }
        co_next. { rewrite Hlx. reflexivity. }
        rewrite Hll, Hlid, insert_insert_eq, Hke, Hve. apply co_alone_refl.
      * co_next. { rewrite Ha. reflexivity. }
        co_next. { rewrite Hlx. reflexivity. }
        rewrite Hll, Hlid.
        eapply co_alone_exit; [done|]. cbn [step_of]. co_prims. reflexivity.
    + apply Hprefix.
      co_next. { rewrite Hlx. reflexivity. }
      rewrite Hll, Hlid. apply co_alone_refl.
  - destruct (consistent_bucket read_write _ _ _ Hcons Hk) as (p & l & Hl & Hp & Hc & _).
    pose proof (consistent_lock read_write _ _ _ Hcons Hk) as Hlock.
    cbn [read_write lock_init mutex_init lock_t mutex_t] in Hlock, Hc, Hp.
    rewrite (rwlock_retrieve_lookup allocator s k p l 0) by done. unfold lookup.
    destruct s as [h t lk out]. cbn [heap table bucket_locks] in *.
    assert (∀ x y, <[Z.to_nat (slot k) := y]> (<[Z.to_nat (slot k) := x]> lk)
                   = <[Z.to_nat (slot k) := y]> lk) as Hll.
    { intros x y. apply list_insert_insert_eq. }
    assert (∀ x, index (<[Z.to_nat (slot k) := x]> lk) (slot k) = Some x) as Hlx.
    { intros x. by eapply index_insert_eq. }
    pose proof (index_insert_id _ _ _ Hlock) as Hlid.
    assert (∀ m',
      (∃ n, run RwLocks allocator (replicate n 0%nat)
              (Running (F:=RwLocks)
                 (Process h t (<[Z.to_nat (slot k) := RwLock 1 false]> lk) out)
                 [Thread (match chain_find k l with
                          | Some n => R_malloc k (node_addr n)
                          | None => R_unlock_missing k
                          end) rest]) = m') →
      ∃ n, run RwLocks allocator (replicate n 0%nat)
             (Running (F:=RwLocks) (Process h t lk out)
                [Thread Idle (Interleaving.Retrieve k :: rest)]) = m') as Hprefix.
    { intros m' Hm'. apply co_alone_call. cbn [enter].
      co_next. { rewrite Hlock. reflexivity. }
      co_next. { rewrite Hp. reflexivity. }
      by eapply co_alone_scan_retrieve. }
    destruct (chain_find k l) as [n|] eqn:Hfind.
    + destruct (chain_find_elem _ _ _ Hfind) as [Hn Hkn].
      destruct (is_chain_lookup _ _ _ _ Hc Hn) as (e & He & Hke & Hve).
      destruct (allocator (dom h)) as [r|] eqn:Ha; apply Hprefix.
      * assert (r ≠ node_addr n) as Hne.
        { intros ->. apply (allocator_fresh _ _ Ha). by apply elem_of_dom. }
        co_next. { rewrite Ha. reflexivity. }
        co_next. { rewrite lookup_insert_ne, He by done. reflexivity. }
        co_next. { rewrite Hlx. reflexivity. }
        cbn [writer readers]. rewrite Hll, Hlid, insert_insert_eq, Hke, Hve.
        apply co_alone_refl.
      * co_next. { rewrite Ha. reflexivity. }
        co_next. { rewrite Hlx. reflexivity. }
        cbn [writer readers]. rewrite Hll, Hlid.
        eapply co_alone_exit; [done|]. cbn [step_of]. co_prims. reflexivity.
    + apply Hprefix.
      co_next. { rewrite Hlx. reflexivity. }
      cbn [writer readers]. rewrite Hll, Hlid. apply co_alone_refl.
Qed.
End CoarseFunctions.

(** X20.  The statements that [insert] and [retrieve] of
    [parallel_spin.c] and of the read-write lock file are cut into, taken
    one after the other by a thread that runs alone on a table at rest,
    add up to the functions: the thread is back from the call in the
    state in which the function returns, or the process has gone through
    [exit] with the status and in the state of the function. *)
Theorem bucket_lock_steps_add_up F allocator (s : process (Coarse.lock_type F) unit)
    ls k v rest :
  (∀ d a, allocator d = Some a → a ∉ d) →
  consistent (Coarse.unlocked F) () s ls → 0 ≤ slot k < NUM_BUCKETS →
  match Coarse.insert_in F allocator k v s with
  | Return _ s' =>
      ∃ n, Coarse.run F allocator (replicate n 0%nat)
             (Coarse.Running s [Coarse.Thread Coarse.Idle (Interleaving.Insert k v :: rest)])
           = Coarse.Running s' [Coarse.Thread Coarse.Idle rest]
  | Exit status s' =>
      ∃ n, Coarse.run F allocator (replicate n 0%nat)
             (Coarse.Running s [Coarse.Thread Coarse.Idle (Interleaving.Insert k v :: rest)])
           = Coarse.Exited status s'
  | _ => False
  end ∧
  match Coarse.retrieve_in F allocator k s with
  | Return _ s' =>
      ∃ n, Coarse.run F allocator (replicate n 0%nat)
             (Coarse.Running s [Coarse.Thread Coarse.Idle (Interleaving.Retrieve k :: rest)])
           = Coarse.Running s' [Coarse.Thread Coarse.Idle rest]
  | Exit status s' =>
      ∃ n, Coarse.run F allocator (replicate n 0%nat)
             (Coarse.Running s [Coarse.Thread Coarse.Idle (Interleaving.Retrieve k :: rest)])
           = Coarse.Exited status s'
  | _ => False
  end.
Proof.
  intros Hfresh Hcons Hk. split.
  - by apply (co_insert_alone allocator F s ls).
  - by apply (co_retrieve_alone allocator Hfresh F s ls).
Qed.

Lemma bucket_lock_steps_add_up_witness :
  match Coarse.insert_in Coarse.Spinlocks bump 6 99 (example_table coarse) with
  | Return _ s' =>
      ∃ n, Coarse.run Coarse.Spinlocks bump (replicate n 0%nat)
             (Coarse.Running (F:=Coarse.Spinlocks) (example_table coarse)
                [Coarse.Thread Coarse.Idle [Interleaving.Insert 6 99]])
           = Coarse.Running s' [Coarse.Thread Coarse.Idle []]
  | Exit status s' =>
      ∃ n, Coarse.run Coarse.Spinlocks bump (replicate n 0%nat)
             (Coarse.Running (F:=Coarse.Spinlocks) (example_table coarse)
                [Coarse.Thread Coarse.Idle [Interleaving.Insert 6 99]])
           = Coarse.Exited status s'
  | _ => False
  end ∧
  match Coarse.retrieve_in Coarse.Spinlocks bump 6 (example_table coarse) with
  | Return _ s' =>
      ∃ n, Coarse.run Coarse.Spinlocks bump (replicate n 0%nat)
             (Coarse.Running (F:=Coarse.Spinlocks) (example_table coarse)
                [Coarse.Thread Coarse.Idle [Interleaving.Retrieve 6]])
           = Coarse.Running s' [Coarse.Thread Coarse.Idle []]
  | Exit status s' =>
      ∃ n, Coarse.run Coarse.Spinlocks bump (replicate n 0%nat)
             (Coarse.Running (F:=Coarse.Spinlocks) (example_table coarse)
                [Coarse.Thread Coarse.Idle [Interleaving.Retrieve 6]])
           = Coarse.Exited status s'
  | _ => False
  end.
Proof.
  apply (bucket_lock_steps_add_up Coarse.Spinlocks bump (example_table coarse)
           example_chains 6 99 []).
  - apply bump_fresh.
  - apply (example_table_consistent coarse).
  - split; by vm_compute.
Defined.

(** X21.  The same for the two-level file: the statements of [insert]
    and [retrieve], taken one after the other by a thread that runs
    alone on a table at rest, add up to the functions. *)
Theorem two_level_steps_add_up allocator (s : process rwlock bool) ls k v rest :
  (∀ d a, allocator d = Some a → a ∉ d) →
  consistent (RwLock 0 false) false s ls → 0 ≤ slot k < NUM_BUCKETS →
  match TwoLevel.insert allocator k v s with
  | Return _ s' =>
      ∃ n, Interleaving.run allocator (replicate n 0%nat)
             (Interleaving.Running s
                [Interleaving.Thread Interleaving.Idle (Interleaving.Insert k v :: rest)])
           = Interleaving.Running s' [Interleaving.Thread Interleaving.Idle rest]
  | Exit status s' =>
      ∃ n, Interleaving.run allocator (replicate n 0%nat)
             (Interleaving.Running s
                [Interleaving.Thread Interleaving.Idle (Interleaving.Insert k v :: rest)])
           = Interleaving.Exited status s'
  | _ => False
  end ∧
  match TwoLevel.retrieve allocator k s with
  | Return _ s' =>
      ∃ n, Interleaving.run allocator (replicate n 0%nat)
             (Interleaving.Running s
                [Interleaving.Thread Interleaving.Idle (Interleaving.Retrieve k :: rest)])
           = Interleaving.Running s' [Interleaving.Thread Interleaving.Idle rest]
  | Exit status s' =>
      ∃ n, Interleaving.run allocator (replicate n 0%nat)
             (Interleaving.Running s
                [Interleaving.Thread Interleaving.Idle (Interleaving.Retrieve k :: rest)])
           = Interleaving.Exited status s'
  | _ => False
  end.
Proof.
  intros Hfresh Hcons Hk. split.
  - by eapply insert_alone.
  - by eapply retrieve_alone.
Qed.

Lemma two_level_steps_add_up_witness :
  match TwoLevel.insert bump 8 1 (example_table two_level) with
  | Return _ s' =>
      ∃ n, Interleaving.run bump (replicate n 0%nat)
             (Interleaving.Running (example_table two_level)
                [Interleaving.Thread Interleaving.Idle [Interleaving.Insert 8 1]])
           = Interleaving.Running s' [Interleaving.Thread Interleaving.Idle []]
  | Exit status s' =>
      ∃ n, Interleaving.run bump (replicate n 0%nat)
             (Interleaving.Running (example_table two_level)
                [Interleaving.Thread Interleaving.Idle [Interleaving.Insert 8 1]])
           = Interleaving.Exited status s'
  | _ => False
  end ∧
  match TwoLevel.retrieve bump 8 (example_table two_level) with
  | Return _ s' =>
      ∃ n, Interleaving.run bump (replicate n 0%nat)
             (Interleaving.Running (example_table two_level)
                [Interleaving.Thread Interleaving.Idle [Interleaving.Retrieve 8]])
           = Interleaving.Running s' [Interleaving.Thread Interleaving.Idle []]
  | Exit status s' =>
      ∃ n, Interleaving.run bump (replicate n 0%nat)
             (Interleaving.Running (example_table two_level)
                [Interleaving.Thread Interleaving.Idle [Interleaving.Retrieve 8]])
           = Interleaving.Exited status s'
  | _ => False
  end.
Proof.
  apply (two_level_steps_add_up bump (example_table two_level) example_chains 8 1 []).
  - apply bump_fresh.
  - apply (example_table_consistent two_level).
  - split; by vm_compute.
Defined.
